(** * Sparse second-quantisation engine: Key.hpp / State.hpp

    A shallow embedding of the [Key] and [State] classes and of their helper
    functions ([KeyAux.hpp], [StateAux.hpp]), followed by the properties of
    the engine that the specification states and by further properties
    read off the code; [detloss], [genRotationsBasic] and [circuitFid] of
    [simAux.hpp] and [simFid.hpp] are embedded as well.

    Modelling choices.
    - [boost::container::flat_map] keeps its entries in a vector sorted by
      key, keys unique.  It is modelled as a list of pairs sorted by the
      key order ([FlatMap]); the loops of the source over [begin()..end()]
      become folds over that list, so iteration order is the source's.
    - [Int] is [int] in every instantiation of the repository.  Mode labels
      and occupation numbers are modelled in [Z]; the only product that can
      leave the 32-bit range, the one in [facut], has its wrap-around
      written out.
    - [Val] and [Real] are [float] in every instantiation of the repository
      ([State<Key<int>, float, float>]).  Amplitudes are modelled as real
      numbers [R]: rounding is not modelled, [conj] is the identity as in
      the [float] specialisation. *)

From Stdlib Require Import ZArith List Bool Lia Sorted.
From Stdlib Require Import Reals Lra.
Import ListNotations.

(** ** Key orders

    [std::less] on the keys of the two containers: [operator<] of
    [std::pair] (lexicographic) and of [flat_map] itself
    ([std::lexicographical_compare] over the stored entries). *)

Class CmpOrder {A : Type} (cmp : A -> A -> comparison) : Prop := {
  cmp_eq : forall a b, cmp a b = Eq -> a = b;
  cmp_refl : forall a, cmp a a = Eq;
  cmp_antisym : forall a b, cmp b a = CompOpp (cmp a b);
  cmp_trans : forall a b c, cmp a b = Lt -> cmp b c = Lt -> cmp a c = Lt
}.

Definition pair_cmp {A B : Type} (ca : A -> A -> comparison)
    (cb : B -> B -> comparison) (x y : A * B) : comparison :=
  match ca (fst x) (fst y) with
  | Eq => cb (snd x) (snd y)
  | c => c
  end.

Fixpoint list_cmp {A : Type} (ca : A -> A -> comparison) (x y : list A)
    : comparison :=
  match x, y with
  | [], [] => Eq
  | [], _ :: _ => Lt
  | _ :: _, [] => Gt
  | a :: x', b :: y' =>
      match ca a b with
      | Eq => list_cmp ca x' y'
      | c => c
      end
  end.

#[export] Instance Z_CmpOrder : CmpOrder Z.compare.
Proof.
  split.
  - intros a b. apply Z.compare_eq.
  - apply Z.compare_refl.
  - intros a b. apply Z.compare_antisym.
  - intros a b c. rewrite !Z.compare_lt_iff. lia.
Qed.

Lemma cmp_gt_lt {A} (cmp : A -> A -> comparison) `{!CmpOrder cmp} a b :
  cmp a b = Gt -> cmp b a = Lt.
Proof. intros E. rewrite cmp_antisym, E. reflexivity. Qed.

Lemma cmp_lt_gt {A} (cmp : A -> A -> comparison) `{!CmpOrder cmp} a b :
  cmp a b = Lt -> cmp b a = Gt.
Proof. intros E. rewrite cmp_antisym, E. reflexivity. Qed.

Lemma cmp_lt_irrefl {A} (cmp : A -> A -> comparison) `{!CmpOrder cmp} a :
  cmp a a <> Lt.
Proof. rewrite cmp_refl. discriminate. Qed.

#[export] Instance pair_CmpOrder {A B} (ca : A -> A -> comparison)
    (cb : B -> B -> comparison) `{!CmpOrder ca} `{!CmpOrder cb} :
  CmpOrder (pair_cmp ca cb).
Proof.
  split.
  - intros [a1 b1] [a2 b2]. unfold pair_cmp. simpl.
    destruct (ca a1 a2) eqn:E; try discriminate.
    intros E2. apply cmp_eq in E. apply cmp_eq in E2. congruence.
  - intros [a b]. unfold pair_cmp. simpl. now rewrite !cmp_refl.
  - intros [a1 b1] [a2 b2]. unfold pair_cmp. simpl.
    rewrite (cmp_antisym (cmp := ca) a1 a2).
    destruct (ca a1 a2); simpl; auto. apply cmp_antisym.
  - intros [a1 b1] [a2 b2] [a3 b3]. unfold pair_cmp. simpl.
    destruct (ca a1 a2) eqn:E12; try discriminate.
    + apply cmp_eq in E12. subst a2.
      destruct (ca a1 a3) eqn:E13; try discriminate; auto.
      apply cmp_trans.
    + intros _. destruct (ca a2 a3) eqn:E23; try discriminate.
      * apply cmp_eq in E23. subst a3. now rewrite E12.
      * now rewrite (cmp_trans _ _ _ E12 E23).
Qed.

#[export] Instance list_CmpOrder {A} (ca : A -> A -> comparison)
    `{!CmpOrder ca} : CmpOrder (list_cmp ca).
Proof.
  split.
  - induction a as [|a x IH]; intros [|b y]; simpl; try discriminate; auto.
    destruct (ca a b) eqn:E; try discriminate.
    intros E2. apply cmp_eq in E. apply IH in E2. congruence.
  - induction a as [|a x IH]; simpl; auto. now rewrite cmp_refl.
  - induction a as [|a x IH]; intros [|b y]; simpl; auto.
    rewrite (cmp_antisym (cmp := ca) a b).
    destruct (ca a b); simpl; auto.
  - induction a as [|a x IH]; intros [|b y] [|c z]; simpl;
      try discriminate; auto.
    destruct (ca a b) eqn:E12; try discriminate.
    + apply cmp_eq in E12. subst b.
      destruct (ca a c) eqn:E13; try discriminate; auto. apply IH.
    + intros _. destruct (ca b c) eqn:E23; try discriminate.
      * apply cmp_eq in E23. subst c. now rewrite E12.
      * now rewrite (cmp_trans _ _ _ E12 E23).
Qed.

(** ** The flat_map container *)

Module FlatMap.
Definition t (K V : Type) : Type := list (K * V).

Section Ops.
Context {K V : Type} (cmp : K -> K -> comparison).

(** [find]: the entry stored under a key equivalent to [k], if any. *)
Fixpoint find (k : K) (m : t K V) : option V :=
  match m with
  | [] => None
  | (k', v) :: m' =>
      match cmp k k' with
      | Eq => Some v
      | _ => find k m'
      end
  end.

(** The three ways the source stores a pair walk to the sorted position
    of the key and differ only in what they do with an entry that is
    already stored under it: [resolve old new] is the value it keeps. *)
Fixpoint upsert (resolve : V -> V -> V) (k : K) (v : V) (m : t K V)
    : t K V :=
  match m with
  | [] => [(k, v)]
  | (k', v') :: m' =>
      match cmp k k' with
      | Lt => (k, v) :: m
      | Eq => (k', resolve v' v) :: m'
      | Gt => (k', v') :: upsert resolve k v m'
      end
  end.

(** [insert] and [emplace] leave an existing entry alone.  A position
    hint, as in [insert(cend(), x)], changes the cost only. *)
Definition insert : K -> V -> t K V -> t K V := upsert (fun old _ => old).

(** [insert_or_assign] overwrites the value of an existing entry. *)
Definition insert_or_assign : K -> V -> t K V -> t K V :=
  upsert (fun _ new => new).

(** The idiom
    [pib = emplace(k, v); if (!pib.second) pib.first->second += v]. *)
Definition accumulate (plus : V -> V -> V) : K -> V -> t K V -> t K V :=
  upsert plus.

Definition keys (m : t K V) : list K := map fst m.

Definition key_lt (a b : K) : Prop := cmp a b = Lt.

(** The container invariant: keys strictly increasing. *)
Definition sorted (m : t K V) : Prop := StronglySorted key_lt (keys m).
End Ops.

Section Facts.
Context {K V : Type} (cmp : K -> K -> comparison) `{!CmpOrder cmp}.
Implicit Types (m : t K V) (k : K) (v : V).

Lemma sorted_nil : sorted cmp (@nil (K * V)).
Proof. constructor. Qed.

Lemma sorted_tail {x m} : sorted cmp (x :: m) -> sorted cmp m.
Proof. now inversion 1. Qed.

Lemma sorted_head_lt {x m y} :
  sorted cmp (x :: m) -> In y m -> cmp (fst x) (fst y) = Lt.
Proof.
  inversion 1 as [|? ? _ Hall]; subst. intros Hin.
  rewrite Forall_forall in Hall. apply Hall. now apply in_map.
Qed.

Lemma sorted_cons {x m} :
  sorted cmp m -> (forall y, In y m -> cmp (fst x) (fst y) = Lt) ->
  sorted cmp (x :: m).
Proof.
  intros Hs Hlt. constructor; auto.
  apply Forall_forall. intros k Hk. apply in_map_iff in Hk.
  destruct Hk as [y [<- Hy]]. now apply Hlt.
Qed.

Lemma sorted_same_keys {m1 m2} :
  keys m1 = keys m2 -> sorted cmp m1 -> sorted cmp m2.
Proof. unfold sorted. now intros ->. Qed.

Lemma find_In {k m v} : find cmp k m = Some v -> In (k, v) m.
Proof.
  induction m as [|[k' v'] m IH]; simpl; try discriminate.
  destruct (cmp k k') eqn:E; auto.
  intros [= ->]. apply cmp_eq in E. subst. now left.
Qed.

Lemma In_find {k m v} : sorted cmp m -> In (k, v) m -> find cmp k m = Some v.
Proof.
  induction m as [|[k' v'] m IH]; simpl; [easy|].
  intros Hs [[= -> ->]|Hin].
  - now rewrite cmp_refl.
  - pose proof (sorted_head_lt Hs Hin) as Hlt. simpl in Hlt.
    rewrite (cmp_lt_gt cmp _ _ Hlt). apply IH; auto. now apply sorted_tail in Hs.
Qed.

Lemma find_below {k x m} :
  sorted cmp (x :: m) -> cmp k (fst x) = Lt -> find cmp k (x :: m) = None.
Proof.
  intros Hs Hlt. destruct (find cmp k (x :: m)) as [v|] eqn:E; auto.
  apply find_In in E. destruct E as [->|Hin].
  - simpl in Hlt. now apply (cmp_lt_irrefl cmp) in Hlt.
  - pose proof (sorted_head_lt Hs Hin) as Hlt2. simpl in Hlt2.
    pose proof (cmp_trans _ _ _ Hlt Hlt2) as F. now apply (cmp_lt_irrefl cmp) in F.
Qed.

Lemma find_tail_None {x m} :
  sorted cmp (x :: m) -> find cmp (fst x) m = None.
Proof.
  intros Hs. destruct (find cmp (fst x) m) eqn:F; auto.
  apply find_In in F. pose proof (sorted_head_lt Hs F) as E.
  now apply (cmp_lt_irrefl cmp) in E.
Qed.

Lemma find_None_notin {k m} :
  find cmp k m = None -> ~ In k (keys m).
Proof.
  induction m as [|[k' v'] m IH]; simpl; [tauto|].
  destruct (cmp k k') eqn:E; try discriminate;
    intros Hf [->|Hin]; try (now apply IH);
    rewrite cmp_refl in E; discriminate.
Qed.

Lemma notin_find_None {k m} :
  ~ In k (keys m) -> find cmp k m = None.
Proof.
  intros Hn. destruct (find cmp k m) eqn:F; auto.
  apply find_In in F. exfalso. apply Hn.
  change k with (fst (k, v)). now apply in_map.
Qed.

(** Two sorted sequences with the same lookups are the same sequence. *)
Lemma sorted_ext {m1 m2} :
  sorted cmp m1 -> sorted cmp m2 ->
  (forall k, find cmp k m1 = find cmp k m2) -> m1 = m2.
Proof.
  revert m2. induction m1 as [|[k1 v1] m1 IH]; intros [|[k2 v2] m2] S1 S2 E; auto.
  - specialize (E k2). simpl in E. rewrite cmp_refl in E. discriminate.
  - specialize (E k1). simpl in E. rewrite cmp_refl in E. discriminate.
  - assert (Hk : k1 = k2).
    { destruct (cmp k1 k2) eqn:C.
      - now apply cmp_eq.
      - pose proof (E k1) as E1.
        rewrite (find_below S2 C) in E1.
        simpl in E1. rewrite cmp_refl in E1. discriminate.
      - apply cmp_gt_lt in C; auto. pose proof (E k2) as E2.
        rewrite (find_below S1 C) in E2.
        simpl in E2. rewrite cmp_refl in E2. discriminate. }
    subst k2.
    assert (v1 = v2).
    { specialize (E k1). simpl in E. rewrite cmp_refl in E. congruence. }
    subst v2. f_equal. apply IH.
    + now apply sorted_tail in S1.
    + now apply sorted_tail in S2.
    + intros k. specialize (E k). simpl in E.
      destruct (cmp k k1) eqn:C; auto.
      apply cmp_eq in C. subst k.
      pose proof (find_tail_None S1) as T1. pose proof (find_tail_None S2) as T2.
      simpl in T1, T2. now rewrite T1, T2.
Qed.

(** *** Storing a pair *)

Lemma In_upsert {f k v m y} :
  In y (upsert cmp f k v m) -> fst y = k \/ In y m.
Proof.
  induction m as [|[k' v'] m IH]; simpl.
  - intros [<-|[]]. now left.
  - destruct (cmp k k') eqn:E; simpl.
    + apply cmp_eq in E. subst k'. intros [<-|H]; auto.
    + intros [<-|H]; auto.
    + intros [<-|H]; auto. apply IH in H. tauto.
Qed.

Lemma upsert_sorted {f k v m} :
  sorted cmp m -> sorted cmp (upsert cmp f k v m).
Proof.
  induction m as [|[k' v'] m IH]; simpl; intros Hs.
  - apply sorted_cons; [apply sorted_nil | intros y []].
  - destruct (cmp k k') eqn:E.
    + revert Hs. apply sorted_same_keys. reflexivity.
    + apply sorted_cons; auto. intros y [<-|Hy]; auto. simpl.
      pose proof (sorted_head_lt Hs Hy) as L. simpl in L.
      exact (cmp_trans _ _ _ E L).
    + apply sorted_cons.
      * apply IH. exact (sorted_tail Hs).
      * intros y Hy. apply In_upsert in Hy. destruct Hy as [->|Hy].
        -- simpl. now apply cmp_gt_lt.
        -- exact (sorted_head_lt Hs Hy).
Qed.

Lemma find_upsert {f k v m} k' :
  sorted cmp m ->
  find cmp k' (upsert cmp f k v m) =
    match cmp k' k with
    | Eq => Some (match find cmp k m with Some old => f old v | None => v end)
    | _ => find cmp k' m
    end.
Proof.
  induction m as [|[k1 v1] m IH]; simpl; intros Hs.
  - destruct (cmp k' k); reflexivity.
  - destruct (cmp k k1) eqn:E; simpl.
    + apply cmp_eq in E. subst k1. destruct (cmp k' k) eqn:E'; auto.
    + destruct (cmp k' k) eqn:E'; auto.
      pose proof (@find_below k (k1, v1) m Hs E) as F. simpl in F.
      rewrite E in F. now rewrite F.
    + destruct (cmp k' k1) eqn:E1.
      * apply cmp_eq in E1. subst k'.
        now rewrite (cmp_gt_lt cmp _ _ E).
      * rewrite (IH (sorted_tail Hs)). reflexivity.
      * rewrite (IH (sorted_tail Hs)). reflexivity.
Qed.

(** A key above all the stored ones goes to the end. *)
Lemma upsert_last {f k v m} :
  sorted cmp (m ++ [(k, v)]) -> upsert cmp f k v m = m ++ [(k, v)].
Proof.
  induction m as [|[k1 v1] m IH]; simpl; intros Hs; auto.
  assert (L : cmp k1 k = Lt).
  { apply (@sorted_head_lt (k1, v1) (m ++ [(k, v)]) (k, v) Hs).
    apply in_or_app. right. now left. }
  rewrite (cmp_lt_gt cmp _ _ L). f_equal. apply IH. exact (sorted_tail Hs).
Qed.

Lemma sorted_app_drop {m1 x m2} :
  sorted cmp (m1 ++ x :: m2) -> sorted cmp (m1 ++ m2).
Proof.
  induction m1 as [|y m1 IH]; simpl; intros Hs.
  - exact (sorted_tail Hs).
  - apply sorted_cons.
    + apply IH. exact (sorted_tail Hs).
    + intros z Hz. apply (sorted_head_lt Hs).
      apply in_app_or in Hz. apply in_or_app. simpl. tauto.
Qed.

Lemma sorted_app_l {m1 m2} : sorted cmp (m1 ++ m2) -> sorted cmp m1.
Proof.
  induction m2 as [|x m2 IH] using rev_ind.
  - now rewrite app_nil_r.
  - intros Hs. apply IH. rewrite app_assoc in Hs.
    apply (@sorted_app_drop (m1 ++ m2) x []) in Hs. now rewrite app_nil_r in Hs.
Qed.

(** A loop over a container that stores, under its own key, the new
    value of every entry it keeps copies the kept entries in order. *)
Lemma rebuild_filter_map {f} (keep : K * V -> bool) (g : K * V -> V) m acc :
  sorted cmp (acc ++ m) ->
  fold_left (fun out x =>
               if keep x then upsert cmp f (fst x) (g x) out else out) m acc
  = acc ++ map (fun x => (fst x, g x)) (filter keep m).
Proof.
  revert acc. induction m as [|x m IH]; simpl; intros acc Hs.
  - now rewrite app_nil_r.
  - destruct (keep x) eqn:Kx.
    + assert (Hs' : sorted cmp ((acc ++ [(fst x, g x)]) ++ m)).
      { revert Hs. apply sorted_same_keys. unfold keys.
        rewrite <- app_assoc. rewrite !map_app. reflexivity. }
      rewrite upsert_last by exact (sorted_app_l Hs').
      rewrite (IH _ Hs'). simpl. now rewrite <- app_assoc.
    + apply IH. exact (sorted_app_drop Hs).
Qed.

Lemma filter_sorted (keep : K * V -> bool) m :
  sorted cmp m -> sorted cmp (filter keep m).
Proof.
  induction m as [|x m IH]; simpl; intros Hs; auto.
  pose proof (IH (sorted_tail Hs)) as IH'.
  destruct (keep x); auto. apply sorted_cons; auto.
  intros y Hy. apply filter_In in Hy. exact (sorted_head_lt Hs (proj1 Hy)).
Qed.
End Facts.
End FlatMap.

(** ** Real-number tests

    [x > y] and [x == y] on amplitudes, as booleans. *)

Definition Rgtb (x y : R) : bool := if Rlt_dec y x then true else false.

Definition Reqb (x y : R) : bool := if Req_dec_T x y then true else false.

Lemma Rgtb_true x y : Rgtb x y = true <-> (y < x)%R.
Proof. unfold Rgtb. destruct (Rlt_dec y x); split; auto; discriminate. Qed.

Lemma Rgtb_false x y : Rgtb x y = false <-> (x <= y)%R.
Proof.
  unfold Rgtb. destruct (Rlt_dec y x); split; auto; try discriminate; lra.
Qed.

Lemma Reqb_true x y : Reqb x y = true <-> x = y.
Proof. unfold Reqb. destruct (Req_dec_T x y); split; auto; discriminate. Qed.

Lemma Reqb_false x y : Reqb x y = false <-> x <> y.
Proof.
  unfold Reqb. destruct (Req_dec_T x y); split; auto; try discriminate; tauto.
Qed.

(** ** KeyAux.hpp *)

Definition FACUT12 : list Z :=
  [1; 1; 2; 6; 24; 120; 720; 5040; 40320; 362880; 3628800; 39916800;
   479001600]%Z.

(** Wrap-around of a product computed in [int]. *)
Definition wrap32 (z : Z) : Z := ((z + 2 ^ 31) mod 2 ^ 32 - 2 ^ 31)%Z.

(** [facut_above k] is [facut (12 + k)]: the recursion of [facut] above the
    table, which multiplies in [int]. *)
Fixpoint facut_above (k : nat) : Z :=
  match k with
  | O => nth 12 FACUT12 0%Z
  | S k' => wrap32 ((12 + Z.of_nat k) * facut_above k')
  end.

(** [facut].  Up to 12 a table look-up.  A negative argument reads in front
    of the table, which the language leaves undefined: the model returns 0
    there.  (The line printed above 12 is not modelled.) *)
Definition facut (i : Z) : Z :=
  if (i <? 0)%Z then 0%Z
  else if (i <=? 12)%Z then nth (Z.to_nat i) FACUT12 0%Z
  else facut_above (Z.to_nat (i - 12)).

(** [binomialCoeff]: the quotient is the integer division of [int]. *)
Definition binomialCoeff (n k : Z) : R :=
  IZR (Z.quot (facut n) (wrap32 (facut k * facut (n - k)))).

(** ** Key.hpp *)

Abbreviation Mode := (Z * Z)%type (only parsing).

Definition mode_cmp : Mode -> Mode -> comparison :=
  pair_cmp Z.compare Z.compare.

(** A [Key]: (spatial and polarisation mode, distinguishability mode)
    to occupation number. *)
Definition Key : Type := FlatMap.t Mode Z.

(** The order of [Key]s as keys of a [State]: [operator<] of the parent
    container, lexicographic over the stored entries. *)
Definition key_cmp : Key -> Key -> comparison :=
  list_cmp (pair_cmp mode_cmp Z.compare).

#[export] Instance mode_CmpOrder : CmpOrder mode_cmp.
Proof. unfold mode_cmp. exact _. Qed.

#[export] Instance key_CmpOrder : CmpOrder key_cmp.
Proof. unfold key_cmp. exact _. Qed.

(** [SD<Val>], the State-like structure returned by the operators. *)
Definition SD : Type := FlatMap.t Key R.

Module Key.

(** [Key()] *)
Definition empty : Key := [].

(** [Key(a, b, c)] *)
Definition make (a b c : Z) : Key :=
  FlatMap.insert_or_assign mode_cmp (a, b) c [].

(** [add]: entries of [p] are stored, occupation numbers of entries
    already there are added. *)
Definition add (p : Key) (k : Key) : Key :=
  fold_left (fun acc e => FlatMap.accumulate mode_cmp Z.add (fst e) (snd e) acc)
            p k.

(** [clean] *)
Definition clean (k : Key) : Key :=
  fold_left (fun p e =>
               if (snd e >? 0)%Z
               then FlatMap.insert_or_assign mode_cmp (fst e) (snd e) p
               else p)
            k [].

(** [factor(a, b)] *)
Definition factor2 (a b : Z) (k : Key) : R :=
  sqrt (fold_left (fun r e =>
                     if (fst (fst e) =? a)%Z || (fst (fst e) =? b)%Z
                     then (r * IZR (facut (snd e)))%R
                     else r)
                  k 1%R).

(** [factor()] *)
Definition factor (k : Key) : R :=
  sqrt (fold_left (fun r e => (r * IZR (facut (snd e)))%R) k 1%R).

(** [addEnd] *)
Definition addEnd (a b c : Z) (k : Key) : Key :=
  FlatMap.insert_or_assign mode_cmp (a, b) c k.

(** *** [apply], two modes

    [Ret] is threaded through the loop over the entries; [RetIter] and
    [RetIter2] are empty at the start of every round (cleared or moved
    from). *)

(** The round for an entry outside the two modes. *)
Definition apply_pass (m d n : Z) (Ret : SD) : SD :=
  fold_left (fun RetIter it =>
               FlatMap.insert_or_assign key_cmp
                 (FlatMap.insert_or_assign mode_cmp (m, d) n (fst it))
                 (snd it) RetIter)
            Ret [].

(** The values of [j] in [for (Int j = 0; j <= n; j++)]. *)
Definition upto (n : Z) : list Z :=
  map Z.of_nat (seq 0 (Z.to_nat (n + 1))).

(** The key and the amplitude stored for one [j]. *)
Definition branch_key (a b d n j : Z) : Key :=
  clean (FlatMap.insert_or_assign mode_cmp (b, d) (n - j)%Z (make a d j)).

Definition branch_amp (U : list R) (i : nat) (n j : Z) : R :=
  (1 * (nth i U 0 ^ Z.to_nat j * binomialCoeff n j)
     * (nth (i + 2) U 0 ^ Z.to_nat (n - j) / sqrt (IZR (facut n))))%R.

(** The loop over [j]. *)
Definition apply_branches (U : list R) (a b : Z) (i : nat) (d n : Z) : SD :=
  fold_left (fun RetIter j =>
               FlatMap.insert_or_assign key_cmp
                 (branch_key a b d n j) (branch_amp U i n j) RetIter)
            (upto n) [].

(** The double loop over [RetIter] and [Ret]. *)
Definition apply_convolve (RetIter Ret : SD) : SD :=
  fold_left (fun RetIter2 riit =>
               fold_left (fun RetIter2 rit =>
                            FlatMap.accumulate key_cmp Rplus
                              (add (fst rit) (fst riit))
                              (snd riit * snd rit)%R RetIter2)
                         Ret RetIter2)
            RetIter [].

(** One round of the loop over the entries of the key. *)
Definition apply_step (U : list R) (a b : Z) (Ret : SD) (e : Mode * Z) : SD :=
  let m := fst (fst e) in
  let d := snd (fst e) in
  let n := snd e in
  if negb (m =? a)%Z && negb (m =? b)%Z then apply_pass m d n Ret
  else
    let i := if (m =? a)%Z then 0%nat else 1%nat in
    apply_convolve (apply_branches U a b i d n) Ret.

(** The last loop: amplitudes above the tolerance are kept and get the
    normalisation factor. *)
Definition apply_finish (a b : Z) (tol : R) (Ret : SD) : SD :=
  fold_left (fun RetIter it =>
               if Rgtb (Rabs (snd it)) tol
               then FlatMap.insert_or_assign key_cmp (fst it)
                      (snd it * factor2 a b (fst it))%R RetIter
               else RetIter)
            Ret [].

Definition apply (U : list R) (modes : list Z) (tol : R) (k : Key) : SD :=
  let a := nth 0 modes 0%Z in
  let b := nth 1 modes 0%Z in
  apply_finish a b tol
    (fold_left (apply_step U a b) k [(empty, 1%R)]).

(** *** [apply], one mode *)
Definition apply1 (U : R) (mode : Z) (k : Key) : R :=
  powerRZ U
    (fold_left (fun a e => if (fst (fst e) =? mode)%Z then (a + snd e)%Z else a)
               k 0%Z).

(** *** [swap] *)
Definition swap_entry (a b : Z) (p : Mode * Z) : Mode * Z :=
  if (fst (fst p) =? a)%Z then ((b, snd (fst p)), snd p)
  else if (fst (fst p) =? b)%Z then ((a, snd (fst p)), snd p)
  else p.

Definition swap (a b : Z) (k : Key) : Key :=
  fold_left (fun par p =>
               FlatMap.insert mode_cmp (fst (swap_entry a b p))
                 (snd (swap_entry a b p)) par)
            k [].

(** *** [overlapping] *)

(** The first loop: total occupation of every mode named in [ref]. *)
Definition collect (ref : FlatMap.t Z Z) (k : Key) : FlatMap.t Z Z :=
  fold_left (fun col e =>
               match FlatMap.find Z.compare (fst (fst e)) ref with
               | Some _ => FlatMap.accumulate Z.compare Z.add (fst (fst e)) (snd e) col
               | None => col
               end)
            k [].

Definition overlapping (ref : FlatMap.t Z Z) (k : Key) : bool :=
  let col := collect ref k in
  forallb (fun it =>
             match FlatMap.find Z.compare (fst it) col with
             | None => (snd it =? 0)%Z
             | Some c => (c =? snd it)%Z
             end)
          ref.

(** *** [loss] *)

(** [s - (modes.cend() - std::find(modes.cbegin(), modes.cend(), x))]:
    the position of the first [x] in [modes], its size if there is none. *)
Fixpoint position (x : Z) (modes : list Z) : Z :=
  match modes with
  | [] => 0%Z
  | y :: modes' => if (y =? x)%Z then 0%Z else (1 + position x modes')%Z
  end.

(** The state of the loop: [R], [total] and [maxLM]. *)
Definition loss_step (modes : list Z) (lossMode : Z) (k : Key)
    (st : SD * Z * Z) (e : Mode * Z) : SD * Z * Z :=
  let '(R, total, maxLM) := st in
  let j := position (fst (fst e)) modes in
  if negb (j =? Z.of_nat (length modes))%Z && (snd e >? 0)%Z then
    let k2 :=
      FlatMap.insert_or_assign mode_cmp ((lossMode + j)%Z, snd (fst e)) 1%Z
        (FlatMap.insert_or_assign mode_cmp (fst e) (snd e - 1)%Z k) in
    (FlatMap.insert_or_assign key_cmp k2 (sqrt (IZR (snd e - 1 + 1))) R,
     (total + snd e)%Z,
     if (lossMode + j >=? maxLM)%Z then (lossMode + j + 1)%Z else maxLM)
  else st.

(** [loss]; the second component is [maxLM] after the call. *)
Definition loss (modes : list Z) (lossMode maxLM : Z) (k : Key) : SD * Z :=
  let '(R, total, maxLM') :=
    fold_left (loss_step modes lossMode k) k ([], 0%Z, maxLM) in
  if (total =? 0)%Z then (FlatMap.insert_or_assign key_cmp k 1%R R, maxLM')
  else (map (fun it => (fst it, (snd it / sqrt (IZR total))%R)) R, maxLM').

(** *** [collapse]

    [f.at] throws when the distinguishability mode is not in [f]:
    the result is [None] then.  Otherwise the new key and the new
    amplitude. *)
Definition collapse_step (f : FlatMap.t Z Z) (acc : option Key)
    (e : Mode * Z) : option Key :=
  match acc with
  | None => None
  | Some p =>
      match FlatMap.find Z.compare (snd (fst e)) f with
      | None => None
      | Some b => Some (FlatMap.accumulate mode_cmp Z.add (fst (fst e), b) (snd e) p)
      end
  end.

Definition collapse (f : FlatMap.t Z Z) (amp : R) (k : Key) : option (Key * R) :=
  let pre := factor k in
  match fold_left (collapse_step f) k (Some []) with
  | None => None
  | Some p => Some (p, (amp * (factor p / pre))%R)
  end.

(** *** [notEmpty] *)

(** [Msub.erase(std::find(Msub.begin(), Msub.end(), x))] for an [x]
    that is in [Msub]. *)
Fixpoint erase_first (x : Z) (Msub : list Z) : list Z :=
  match Msub with
  | [] => []
  | y :: Msub' => if (y =? x)%Z then Msub' else y :: erase_first x Msub'
  end.

(** The loop over the entries for one collection of modes; [true]
    stands for the [return true] inside it. *)
Fixpoint notEmpty_scan (es : list (Mode * Z)) (Msub : list Z) : bool :=
  match es with
  | [] => false
  | e :: es' =>
      let Msub' :=
        if existsb (Z.eqb (fst (fst e))) Msub && (snd e >? 0)%Z
        then erase_first (fst (fst e)) Msub else Msub in
      if (length Msub' =? 0)%nat then true else notEmpty_scan es' Msub'
  end.

Definition notEmpty (allModes : list (list Z)) (k : Key) : bool :=
  existsb (notEmpty_scan k) allModes || (length allModes =? 0)%nat.

(** *** [sameDModeDel]

    The loop over the entries, with [p], [dmode] and [founds] as its
    state; [None] stands for the [return false] inside it. *)
Fixpoint sameDModeDel_scan (m : list Z) (es : list (Mode * Z))
    (p : Key) (dmode : Z) (founds : Z) : option (Key * Z) :=
  match es with
  | [] => Some (p, founds)
  | e :: es' =>
      if existsb (Z.eqb (fst (fst e))) m && negb (snd e =? 0)%Z then
        if (dmode =? -1)%Z
        then sameDModeDel_scan m es' p (snd (fst e)) (founds + 1)%Z
        else if negb (snd (fst e) =? dmode)%Z then None
        else sameDModeDel_scan m es' p dmode (founds + 1)%Z
      else if negb (snd e =? 0)%Z
      then sameDModeDel_scan m es' (FlatMap.insert mode_cmp (fst e) (snd e) p)
             dmode founds
      else sameDModeDel_scan m es' p dmode founds
  end.

(** The result of the call and the key after it. *)
Definition sameDModeDel (m : list Z) (k : Key) : bool * Key :=
  match sameDModeDel_scan m k [] (-1)%Z 0%Z with
  | None => (false, k)
  | Some (p, founds) => ((founds =? Z.of_nat (length m))%Z, p)
  end.

(** Modelled from the spec: [Key::incr], which [State::addPhoton] calls
    and [Key.hpp] does not define.  The spec has the existing key
    "extended in place by adding [count] occupation at (spatial_mode,
    matched_index)": the occupation number of that pair grows by [c], the
    pair being stored with [c] when the key does not hold it. *)
Definition incr (a b c : Z) (k : Key) : Key :=
  FlatMap.accumulate mode_cmp Z.add (a, b) c k.

End Key.

(** ** StateAux.hpp and State.hpp *)

(** Wave functions: vectors of reals that the overlap function interprets. *)
Definition WF : Type := list R.

(** Orthogonal wave functions: amplitudes over the stored wave functions. *)
Definition OWF : Type := list R.

Record State : Type := mkState {
  par : FlatMap.t Key R;      (* the parent container: Key to amplitude *)
  waves : list WF;
  basis : list OWF;
  tol : R;
  lossMode : Z
}.

Module State.
Section WithOverlap.

(** The overlap function set with [set(f)]. *)
Variable get_ovlp : WF -> WF -> R.

(** [State()]: the tolerance is [std::pow(10, -9)]. *)
Definition empty : State := mkState [] [] [] (/ 10 ^ 9)%R 0%Z.

Definition set_par (p : FlatMap.t Key R) (S : State) : State :=
  mkState p (waves S) (basis S) (tol S) (lossMode S).

(** [ovlpH]; a vector element that does not exist is read as 0 (as the
    empty wave function), no theorem relies on it. *)
Definition ovlpH (b : OWF) (wf : WF) (ws : list WF) : R :=
  fold_left (fun res i => (res + nth i b 0 * get_ovlp (nth i ws []) wf)%R)
            (seq 0 (length b)) 0%R.

(** [ovlp] *)
Definition ovlp (b c : OWF) (ws : list WF) : R :=
  fold_left (fun res i => (res + nth i c 0 * ovlpH b (nth i ws []) ws)%R)
            (seq 0 (length c)) 0%R.

(** [add(p, v)] on the parent container. *)
Definition add_scaled (p : SD) (v : R) (this : FlatMap.t Key R)
    : FlatMap.t Key R :=
  fold_left (fun acc it =>
               FlatMap.accumulate key_cmp Rplus (fst it) (v * snd it)%R acc)
            p this.

(** [add(p)] *)
Definition add (p : SD) (this : FlatMap.t Key R) : FlatMap.t Key R :=
  fold_left (fun acc it =>
               FlatMap.accumulate key_cmp Rplus (fst it) (snd it) acc)
            p this.

(** [norm] *)
Definition norm_par (p : FlatMap.t Key R) : R :=
  sqrt (fold_left (fun r it => (r + Rabs (snd it) ^ 2)%R) p 0%R).

Definition norm (S : State) : R := norm_par (par S).

(** [bNew[j] += x]; nothing is stored outside the vector. *)
Fixpoint add_at (j : nat) (x : R) (v : list R) : list R :=
  match v, j with
  | [], _ => []
  | y :: v', O => (y + x)%R :: v'
  | y :: v', S j' => y :: add_at j' x v'
  end.

(** One round of the first loop of [addBasisElem]: the state is
    [(bNew, decomp)]. *)
Definition gram_step (wf : WF) (ws : list WF)
    (st : list R * list R) (bi : OWF) : list R * list R :=
  let ov := (- ovlpH bi wf ws)%R in
  (fold_left (fun bNew j => add_at j (nth j bi 0 * ov)%R bNew)
             (seq 0 (length bi)) (fst st),
   snd st ++ [(- ov)%R]).

(** [addBasisElem]: the state after the call and the vector returned. *)
Definition addBasisElem (wf : WF) (S : State) : State * OWF :=
  let '(bNew, decomp) :=
    fold_left (gram_step wf (waves S)) (basis S)
              (repeat 0%R (length (basis S)), []) in
  let bNew := bNew ++ [1%R] in
  let ws := waves S ++ [wf] in
  let normC := ovlp bNew bNew ws in
  let nrm := Rabs normC in
  let bNew := map (fun x => (x / sqrt nrm)%R) bNew in
  let decomp := decomp ++ [ovlpH bNew wf ws] in
  let norm2 := fold_left (fun r a => (r + Rabs a ^ 2)%R) decomp 0%R in
  let decomp :=
    if negb (Reqb norm2 0) then map (fun x => (x / sqrt norm2)%R) decomp
    else decomp in
  (mkState (par S) ws (basis S ++ [bNew]) (tol S) (lossMode S), decomp).

(** The search of [addPhoton] for a stored wave function of overlap 1:
    [find_wave wf ws i] is the index of the first hit in [ws], counted
    from [i]. *)
Fixpoint find_wave (wf : WF) (ws : list WF) (i : Z) : option Z :=
  match ws with
  | [] => None
  | w :: ws' =>
      if Reqb (Rabs (get_ovlp wf w)) 1 then Some i
      else find_wave wf ws' (i + 1)%Z
  end.

(** [addPhoton] *)
Definition addPhoton (wf : WF) (mode num : Z) (S : State) : State :=
  let lm := if (mode >=? lossMode S)%Z then (mode + 1)%Z else lossMode S in
  match par S with
  | [] =>
      mkState (FlatMap.insert_or_assign key_cmp (Key.make mode 0 num) 1%R (par S))
              (waves S ++ [wf]) (basis S ++ [[1%R]]) (tol S) lm
  | _ :: _ =>
      match find_wave wf (waves S) 0 with
      | Some index =>
          let SNew :=
            fold_left (fun SNew it =>
                         FlatMap.insert key_cmp
                           (Key.incr mode index num (fst it)) (snd it) SNew)
                      (par S) [] in
          mkState SNew (waves S) (basis S) (tol S) lm
      | None =>
          let '(S1, decomp) := addBasisElem wf S in
          let SNew :=
            fold_left (fun SNew it =>
                         fold_left (fun SNew i =>
                                      FlatMap.insert key_cmp
                                        (Key.addEnd mode (Z.of_nat i) num (fst it))
                                        (snd it * nth i decomp 0)%R SNew)
                                   (seq 0 (length decomp)) SNew)
                      (par S) [] in
          mkState SNew (waves S1) (basis S1) (tol S) lm
      end
  end.

(** [clean] on the parent container. *)
Definition clean_par (t : R) (p : FlatMap.t Key R) : FlatMap.t Key R :=
  fold_left (fun out it =>
               if Rgtb (Rabs (snd it)) t
               then FlatMap.insert key_cmp (fst it) (snd it) out else out)
            p [].

Definition clean (S : State) : State := set_par (clean_par (tol S) (par S)) S.

(** [apply(U, modes)]: the terms are moved out, the results of the keys
    are added up in the emptied container, which is cleaned at the end. *)
Definition apply (U : list R) (modes : list Z) (S : State) : State :=
  clean (set_par
           (fold_left (fun this it =>
                         add_scaled (Key.apply U modes (tol S) (fst it))
                                    (snd it) this)
                      (par S) [])
           S).

(** [apply(U, mode)] *)
Definition apply1 (U : R) (mode : Z) (S : State) : State :=
  set_par (map (fun it => (fst it, (snd it * Key.apply1 U mode (fst it))%R))
               (par S))
          S.

(** [swap] *)
Definition swap (a b : Z) (S : State) : State :=
  set_par (fold_left (fun out it =>
                        FlatMap.insert key_cmp (Key.swap a b (fst it)) (snd it) out)
                     (par S) [])
          S.

(** The divisor of [normalise]: [n = norm(); if (n == 0.0) n = 1.0]. *)
Definition normalise_divisor (S : State) : R :=
  if Reqb (norm S) 0 then 1%R else norm S.

(** [normalise] *)
Definition normalise (S : State) : State :=
  let n := normalise_divisor S in
  set_par (fold_left (fun out it =>
                        if Rgtb (Rabs (snd it / n)) (tol S)
                        then FlatMap.insert key_cmp (fst it) (snd it / n)%R out
                        else out)
                     (par S) [])
          S.

(** [mul] *)
Definition mul (n : R) (S : State) : State :=
  set_par (fold_left (fun out it =>
                        if Rgtb (Rabs (snd it * n)) (tol S)
                        then FlatMap.insert key_cmp (fst it) (snd it * n)%R out
                        else out)
                     (par S) [])
          S.

(** [overlapWithFilter].  The state of the loop is [(p, S)]; the result
    is the receiver after the call and the state returned. *)
Definition owf_step (ref : FlatMap.t Z Z) (allModes : list (list Z))
    (fref : list (FlatMap.t Z Z))
    (st : FlatMap.t Key R * FlatMap.t Key R) (it : Key * R)
    : FlatMap.t Key R * FlatMap.t Key R :=
  if Key.overlapping ref (fst it) && Key.notEmpty allModes (fst it) then
    if existsb (fun m => Key.overlapping m (fst it)) fref
    then (FlatMap.insert key_cmp (fst it) (snd it) (fst st), snd st)
    else (fst st, FlatMap.insert key_cmp (fst it) (snd it) (snd st))
  else st.

Definition overlapWithFilter (ref : FlatMap.t Z Z)
    (allModes : list (list Z)) (fref : list (FlatMap.t Z Z)) (S : State)
    : State * State :=
  let '(p, s) := fold_left (owf_step ref allModes fref) (par S) ([], []) in
  (set_par p S, set_par s empty).

(** [overlapCompl] *)
Definition overlapCompl (MVec : list (FlatMap.t Z Z))
    (allModes : list (list Z)) (S : State) : State :=
  set_par (fold_left (fun p it =>
                        let hit :=
                          fold_left (fun hit ref =>
                                       if Key.overlapping ref (fst it)
                                       then true else hit)
                                    MVec false in
                        if negb hit || negb (Key.notEmpty allModes (fst it))
                        then FlatMap.insert key_cmp (fst it) (snd it) p
                        else p)
                     (par S) [])
          S.

(** [loss].  The state of the loop is the container being filled and
    [maxLM]. *)
Definition loss_step (modes : list Z) (lm : Z)
    (st : FlatMap.t Key R * Z) (it : Key * R) : FlatMap.t Key R * Z :=
  let '(sd, maxLM) := Key.loss modes lm (snd st) (fst it) in
  (add_scaled sd (snd it) (fst st), maxLM).

Definition loss (modes : list Z) (S : State) : State :=
  let '(this, maxLM) :=
    fold_left (loss_step modes (lossMode S)) (par S) ([], 0%Z) in
  clean (mkState this (waves S) (basis S) (tol S)
                 (if (maxLM >? lossMode S)%Z then maxLM else lossMode S)).

(** [collapse]; [None] when [Key::collapse] throws. *)
Definition collapse_map (K : Key) : FlatMap.t Z Z :=
  fst (fold_left (fun st e =>
                    (FlatMap.insert_or_assign Z.compare (snd st) (snd (fst e))
                                              (fst st),
                     (snd st + 1)%Z))
                 K ([], 0%Z)).

Definition collapse (K : Key) (S : State) : option State :=
  let f := collapse_map K in
  match
    fold_left (fun acc it =>
                 match acc with
                 | None => None
                 | Some p =>
                     match Key.collapse f (snd it) (fst it) with
                     | None => None
                     | Some (K2, v) =>
                         Some (FlatMap.accumulate key_cmp Rplus K2 v p)
                     end
                 end)
              (par S) (Some [])
  with
  | None => None
  | Some p => Some (set_par p S)
  end.

(** [notEmpty] *)
Definition notEmpty (allModes : list (list Z)) (S : State) : State :=
  normalise
    (set_par (fold_left (fun p it =>
                           if Key.notEmpty allModes (fst it)
                           then FlatMap.insert key_cmp (fst it) (snd it) p
                           else p)
                        (par S) [])
             S).

(** [sameDModeDel]: the loop over the collections of modes for one term,
    [i] counting them; the key and the amplitude stored, if any. *)
Fixpoint sameDModeDel_try (modes : list (list Z)) (facs : list R) (i : nat)
    (it : Key * R) : option (Key * R) :=
  match modes with
  | [] => None
  | m :: modes' =>
      let '(ok, K) := Key.sameDModeDel m (fst it) in
      if ok then Some (K, (snd it * nth i facs 0)%R)
      else sameDModeDel_try modes' facs (S i) it
  end.

Definition sameDModeDel (modes : list (list Z)) (facs : list R) (S : State)
    : State :=
  set_par (fold_left (fun p it =>
                        match sameDModeDel_try modes facs 0 it with
                        | Some (K, v) => FlatMap.accumulate key_cmp Rplus K v p
                        | None => p
                        end)
                     (par S) [])
          S.

End WithOverlap.
End State.

(** ** simAux.hpp and simFid.hpp *)

(** [numbers::pi] of [KeyAux.hpp]. *)
Definition numbers_pi : R := 3.14159265358979323846%R.

(** [genRotationsBasic]: the fifteen wave plates, each turned by 45
    degrees and its error.  An error the vector does not hold is read
    as 0, which the source leaves undefined. *)
Definition genRotationsBasic (angleErrs : list R) : list (list R) :=
  map (fun i =>
         let emix := cos ((45 + nth i angleErrs 0) / 180 * numbers_pi)%R in
         let epix := sin ((45 + nth i angleErrs 0) / 180 * numbers_pi)%R in
         [emix; epix; epix; (- emix)%R])
      (seq 0 15).

(** [detloss] *)
Definition detloss (S : State) (pos : Z) (modes : list Z) (lossPos : list Z)
    : State :=
  if existsb (Z.eqb pos) lossPos then State.loss modes S else S.

(** The values of [i] in [for (int i = 0; i < n; i++)]. *)
Definition below (n : nat) : list Z := map Z.of_nat (seq 0 n).

(** [circuitFid]; [apl[i]] is [nth i apl []]. *)
Definition circuitFid (S : State) (lossPos : list Z) (apl : list (list R))
    : State :=
  let S := fold_left (fun S i => detloss S i [2 * i]%Z lossPos) (below 6) S in
  let S := fold_left (fun S i => detloss S (i + 6)%Z [2 * i]%Z lossPos)
                     (below 6) S in
  let S := fold_left (fun S i =>
                        State.apply (nth (Z.to_nat i) apl [])
                                    [2 * i; 2 * i + 1]%Z S)
                     (below 6) S in
  let S := fold_left (fun S i =>
                        detloss S (i + 12)%Z [2 * i; 2 * i + 1]%Z lossPos)
                     (below 6) S in
  let S := fold_left (fun S i => State.swap (4 * i + 1)%Z (4 * i + 3)%Z S)
                     (below 3) S in
  let S := fold_left (fun S i =>
                        detloss S (i + 18)%Z [2 * i; 2 * i + 1]%Z lossPos)
                     (below 6) S in
  let S := fold_left (fun S i =>
                        State.apply (nth (Z.to_nat (i + 6)) apl [])
                                    [2 * i; 2 * i + 1]%Z S)
                     (below 6) S in
  let S := detloss S 24 [2; 3]%Z lossPos in
  let S := detloss S 25 [4; 5]%Z lossPos in
  let S := State.swap 3 5 S in
  let S := detloss S 26 [4; 5]%Z lossPos in
  let S := detloss S 27 [8; 9]%Z lossPos in
  let S := State.swap 5 9 S in
  let S := detloss S 28 [2; 3]%Z lossPos in
  let S := detloss S 29 [4; 5]%Z lossPos in
  let S := detloss S 30 [8; 9]%Z lossPos in
  let S := State.apply (nth 12 apl []) [2; 3]%Z S in
  let S := State.apply (nth 13 apl []) [4; 5]%Z S in
  let S := State.apply (nth 14 apl []) [8; 9]%Z S in
  let S := detloss S 32 [2; 3]%Z lossPos in
  let S := detloss S 33 [4; 5]%Z lossPos in
  detloss S 35 [8; 9]%Z lossPos.

(** * Properties *)

(** ** Generic facts on loops *)

Lemma fold_left_ext_in {A B} (f g : A -> B -> A) (l : list B) (a : A) :
  (forall x y, In y l -> f x y = g x y) ->
  fold_left f l a = fold_left g l a.
Proof.
  revert a. induction l as [|y l IH]; simpl; intros a H; auto.
  rewrite H by now left. apply IH. intros; apply H; now right.
Qed.

Lemma fold_left_pair {A B C} (f : A -> C -> A) (g : B -> C -> B)
    (h : A * B -> C -> A * B) (l : list C) (a : A) (b : B) :
  (forall x y c, h (x, y) c = (f x c, g y c)) ->
  fold_left h l (a, b) = (fold_left f l a, fold_left g l b).
Proof.
  intros H. revert a b. induction l as [|c l IH]; simpl; intros a b; auto.
  now rewrite H, IH.
Qed.

(** A loop that copies the entries it keeps, unchanged, into an empty
    container yields the kept entries. *)
Lemma copy_filter {K V} (cmp : K -> K -> comparison) `{!CmpOrder cmp}
    (f : V -> V -> V) (keep : K * V -> bool) (m : FlatMap.t K V) :
  FlatMap.sorted cmp m ->
  fold_left (fun out x =>
               if keep x then FlatMap.upsert cmp f (fst x) (snd x) out else out)
            m []
  = filter keep m.
Proof.
  intros Hs.
  rewrite (FlatMap.rebuild_filter_map cmp keep snd m []) by exact Hs.
  simpl. induction (filter keep m) as [|[k v] l IH]; simpl; auto.
  now rewrite IH.
Qed.

(** ** overlapWithFilter *)

Section OverlapWithFilter.
Variables (ref : FlatMap.t Z Z) (allModes : list (list Z))
          (fref : list (FlatMap.t Z Z)).

(** The three tests on a term. *)
Definition matches_pattern (it : Key * R) : bool :=
  Key.overlapping ref (fst it).

Definition post_selected (it : Key * R) : bool :=
  Key.notEmpty allModes (fst it).

Definition overlaps_reference (it : Key * R) : bool :=
  existsb (fun m => Key.overlapping m (fst it)) fref.

Definition stays (it : Key * R) : bool :=
  matches_pattern it && post_selected it && overlaps_reference it.

Definition moves (it : Key * R) : bool :=
  matches_pattern it && post_selected it && negb (overlaps_reference it).

Lemma owf_fold (l : FlatMap.t Key R) (p s : FlatMap.t Key R) :
  fold_left (State.owf_step ref allModes fref) l (p, s)
  = (fold_left (fun out x =>
                  if stays x then FlatMap.insert key_cmp (fst x) (snd x) out
                  else out) l p,
     fold_left (fun out x =>
                  if moves x then FlatMap.insert key_cmp (fst x) (snd x) out
                  else out) l s).
Proof.
  apply fold_left_pair. intros x y c.
  unfold State.owf_step, stays, moves, matches_pattern, post_selected,
    overlaps_reference. simpl.
  destruct (Key.overlapping ref (fst c)); simpl; auto.
  destruct (Key.notEmpty allModes (fst c)); simpl; auto.
  destruct (existsb _ fref); simpl; auto.
Qed.

(** C8.  [overlapWithFilter] splits the terms three ways.  The receiver
    keeps, in order and with key and amplitude as they were, exactly the
    terms that match the pattern, pass the post-selection test and
    overlap one of the fidelity references; the state returned holds,
    again unchanged, exactly the terms that match the pattern and pass
    post-selection but overlap no fidelity reference; every other term
    is in neither; and no term is in both. *)
Theorem overlapWithFilter_partition (S : State) :
  FlatMap.sorted key_cmp (par S) ->
  let S1 := fst (State.overlapWithFilter ref allModes fref S) in
  let S2 := snd (State.overlapWithFilter ref allModes fref S) in
  par S1 = filter stays (par S) /\
  par S2 = filter moves (par S) /\
  (forall it, In it (par S) ->
     (In it (par S1) <->
        matches_pattern it = true /\ post_selected it = true /\
        overlaps_reference it = true) /\
     (In it (par S2) <->
        matches_pattern it = true /\ post_selected it = true /\
        overlaps_reference it = false) /\
     ((~ In it (par S1) /\ ~ In it (par S2)) <->
        (matches_pattern it = false \/ post_selected it = false)) /\
     ~ (In it (par S1) /\ In it (par S2))).
Proof.
  intros Hs. unfold State.overlapWithFilter. rewrite owf_fold.
  unfold FlatMap.insert. rewrite !(copy_filter key_cmp) by exact Hs.
  simpl. split; [reflexivity|]. split; [reflexivity|].
  intros it Hin. rewrite !filter_In. unfold stays, moves.
  destruct (matches_pattern it), (post_selected it), (overlaps_reference it);
    simpl; intuition congruence.
Qed.
End OverlapWithFilter.

Definition owf_example : State :=
  mkState [([((0, 0), 1)], 1%R); ([((1, 0), 1)], 1%R)]%Z [] [] (/ 10 ^ 9)%R 2%Z.

Lemma overlapWithFilter_partition_witness :
  FlatMap.sorted key_cmp (par owf_example) /\
  par (fst (State.overlapWithFilter [(0, 1)]%Z [[0%Z]] [[(0, 1)]%Z] owf_example))
  = filter (stays [(0, 1)]%Z [[0%Z]] [[(0, 1)]%Z]) (par owf_example).
Proof.
  assert (H : FlatMap.sorted key_cmp (par owf_example)).
  { unfold FlatMap.sorted. simpl. repeat constructor. }
  split; [exact H|].
  exact (proj1 (overlapWithFilter_partition [(0, 1)]%Z [[0%Z]] [[(0, 1)]%Z]
                  owf_example H)).
Defined.

(** ** clean and normalise *)

Definition above_tol (t : R) (it : Key * R) : bool := Rgtb (Rabs (snd it)) t.

Lemma clean_par_filter (t : R) (p : FlatMap.t Key R) :
  FlatMap.sorted key_cmp p -> State.clean_par t p = filter (above_tol t) p.
Proof. intros Hs. exact (copy_filter key_cmp _ (above_tol t) p Hs). Qed.

Lemma filter_all {A} (f : A -> bool) (l : list A) :
  (forall x, In x l -> f x = true) -> filter f l = l.
Proof.
  induction l as [|x l IH]; simpl; intros H; auto.
  rewrite H by now left. f_equal. apply IH. intros; apply H; now right.
Qed.

Lemma filter_none {A} (f : A -> bool) (l : list A) :
  (forall x, In x l -> f x = false) -> filter f l = [].
Proof.
  induction l as [|x l IH]; simpl; intros H; auto.
  rewrite H by now left. apply IH. intros; apply H; now right.
Qed.

Lemma normalise_divisor_nonzero (S : State) : State.normalise_divisor S <> 0%R.
Proof.
  unfold State.normalise_divisor. destruct (Reqb (State.norm S) 0) eqn:E.
  - lra.
  - now apply Reqb_false.
Qed.

(** C9.  When [norm()] is zero, [normalise] divides by 1, not by the norm:
    every amplitude is divided by a nonzero number and comes out as it
    went in, so the call does what [clean] does, that is, it keeps exactly
    the terms whose amplitude is above the tolerance. *)
Theorem normalise_zero_norm (S : State) :
  FlatMap.sorted key_cmp (par S) ->
  State.norm S = 0%R ->
  State.normalise_divisor S = 1%R /\
  State.normalise_divisor S <> 0%R /\
  (forall x : R, (x / State.normalise_divisor S)%R = x) /\
  State.normalise S = State.clean S /\
  par (State.normalise S) = filter (above_tol (tol S)) (par S).
Proof.
  intros Hs Hn.
  assert (D : State.normalise_divisor S = 1%R).
  { unfold State.normalise_divisor. rewrite Hn.
    destruct (Reqb 0 0) eqn:E; auto. apply Reqb_false in E. tauto. }
  assert (Q : forall x : R, (x / State.normalise_divisor S)%R = x).
  { intros x. rewrite D. field. }
  assert (E : State.normalise S = State.clean S).
  { unfold State.normalise, State.clean, State.clean_par. f_equal.
    apply fold_left_ext_in. intros out it _. now rewrite Q. }
  repeat split; auto.
  - apply normalise_divisor_nonzero.
  - rewrite E. unfold State.clean. simpl. now apply clean_par_filter.
Qed.

Definition zero_norm_example : State :=
  mkState [([((0, 0), 1)]%Z, 0%R)] [[0%R]] [[1%R]] (/ 10 ^ 9)%R 1%Z.

Lemma zero_norm_example_norm : State.norm zero_norm_example = 0%R.
Proof.
  unfold State.norm, State.norm_par. simpl.
  rewrite Rabs_R0. replace (0 + 0 * (0 * 1))%R with 0%R by ring.
  apply sqrt_0.
Qed.

Lemma normalise_zero_norm_witness :
  FlatMap.sorted key_cmp (par zero_norm_example) /\
  State.norm zero_norm_example = 0%R /\
  State.normalise zero_norm_example = State.clean zero_norm_example.
Proof.
  assert (H : FlatMap.sorted key_cmp (par zero_norm_example)).
  { unfold FlatMap.sorted. simpl. repeat constructor. }
  split; [exact H|]. split; [exact zero_norm_example_norm|].
  exact (proj1 (proj2 (proj2 (proj2
           (normalise_zero_norm zero_norm_example H zero_norm_example_norm))))).
Defined.

(** ** loss on modes that hold no photon *)

Lemma fold_left_fixed {A B} (f : A -> B -> A) (l : list B) (a : A) :
  (forall y, In y l -> f a y = a) -> fold_left f l a = a.
Proof.
  induction l as [|y l IH]; simpl; intros H; auto.
  rewrite H by now left. apply IH. intros; apply H; now right.
Qed.

(** A loop that stores a new value for every entry under the entry's key
    rebuilds the container with the new values. *)
Lemma rebuild_map {K V} (cmp : K -> K -> comparison) `{!CmpOrder cmp}
    (f : V -> V -> V) (g : K * V -> V) (m : FlatMap.t K V) :
  FlatMap.sorted cmp m ->
  fold_left (fun out x => FlatMap.upsert cmp f (fst x) (g x) out) m []
  = map (fun x => (fst x, g x)) m.
Proof.
  intros Hs.
  pose proof (FlatMap.rebuild_filter_map cmp (f := f) (fun _ => true) g m [] Hs) as E.
  simpl in E. rewrite filter_all in E by reflexivity. exact E.
Qed.

Lemma map_pair_id {A B} (l : list (A * B)) (g : A * B -> B) :
  (forall x, In x l -> g x = snd x) -> map (fun x => (fst x, g x)) l = l.
Proof.
  induction l as [|[a b] l IH]; simpl; intros H; auto.
  rewrite (H (a, b)) by now left. simpl. f_equal. apply IH. intros; apply H; now right.
Qed.

Lemma position_notin (x : Z) (modes : list Z) :
  ~ In x modes -> Key.position x modes = Z.of_nat (length modes).
Proof.
  induction modes as [|y modes IH]; intros H; auto.
  cbn [Key.position length]. cbn [In] in H.
  destruct (Z.eqb_spec y x) as [->|_]; [tauto|].
  rewrite IH by tauto. lia.
Qed.

Lemma position_in (x : Z) (modes : list Z) :
  In x modes -> (0 <= Key.position x modes < Z.of_nat (length modes))%Z.
Proof.
  induction modes as [|y modes IH]; [simpl; tauto|]. intros H.
  cbn [Key.position length]. cbn [In] in H.
  destruct (Z.eqb_spec y x) as [->|Hn]; [lia|].
  destruct H as [H|H]; [congruence|]. specialize (IH H). lia.
Qed.

Lemma Zgtb_false (n m : Z) : (n <= m)%Z -> (n >? m)%Z = false.
Proof. intros H. rewrite Z.gtb_ltb. apply Z.ltb_ge. lia. Qed.

Lemma Zgtb_true (n m : Z) : (m < n)%Z -> (n >? m)%Z = true.
Proof. intros H. rewrite Z.gtb_ltb. now apply Z.ltb_lt. Qed.

(** No photon of the key sits in one of the [modes]. *)
Definition unoccupied (modes : list Z) (k : Key) : Prop :=
  forall e, In e k -> In (fst (fst e)) modes -> (snd e <= 0)%Z.

Lemma loss_step_unoccupied modes lm k st (e : Mode * Z) :
  (In (fst (fst e)) modes -> (snd e <= 0)%Z) ->
  Key.loss_step modes lm k st e = st.
Proof.
  intros H. destruct st as [[R0 total] maxLM].
  unfold Key.loss_step. cbv beta iota zeta.
  destruct (in_dec Z.eq_dec (fst (fst e)) modes) as [Hin|Hn].
  - specialize (H Hin). rewrite (Zgtb_false _ _ H).
    now rewrite andb_false_r.
  - rewrite (position_notin _ _ Hn), Z.eqb_refl. reflexivity.
Qed.

Lemma Key_loss_unoccupied modes lm maxLM k :
  unoccupied modes k ->
  Key.loss modes lm maxLM k = ([(k, 1%R)], maxLM).
Proof.
  intros H. unfold Key.loss.
  rewrite fold_left_fixed; [reflexivity|].
  intros e He. apply loss_step_unoccupied. now apply H.
Qed.

(** On such a state [loss] is [clean], up to the floor of the loss modes,
    which becomes 0 if it was negative. *)
Lemma State_loss_unoccupied modes (S : State) :
  FlatMap.sorted key_cmp (par S) ->
  (forall it, In it (par S) -> unoccupied modes (fst it)) ->
  State.loss modes S
  = State.clean (mkState (par S) (waves S) (basis S) (tol S)
                         (if (0 >? lossMode S)%Z then 0%Z else lossMode S)).
Proof.
  intros Hs Hu. unfold State.loss.
  assert (E : fold_left (State.loss_step modes (lossMode S)) (par S) ([], 0%Z)
              = (par S, 0%Z)).
  { rewrite (fold_left_ext_in _
               (fun st it =>
                  (FlatMap.upsert key_cmp Rplus (fst it) (snd it * 1)%R (fst st),
                   snd st))).
    - rewrite (fold_left_pair
                 (fun out it => FlatMap.upsert key_cmp Rplus (fst it) (snd it * 1)%R out)
                 (fun (y : Z) (_ : Key * R) => y)).
      + rewrite (rebuild_map key_cmp) by exact Hs.
        rewrite map_pair_id by (intros; ring).
        f_equal. now apply fold_left_fixed.
      + reflexivity.
    - intros st it Hit. unfold State.loss_step.
      rewrite Key_loss_unoccupied by now apply Hu. reflexivity. }
  rewrite E. reflexivity.
Qed.

(** C6, as the code has it.  At the level of a key: when no entry of the
    key has its spatial mode in [modes] with a positive occupation number,
    [loss] returns the key itself with amplitude 1, leaves [maxLM] alone
    and divides by nothing.  At the level of a state whose terms are all
    of this kind: [loss] returns the state itself, provided the amplitudes
    are above the tolerance (the call ends with [clean]) and the floor of
    the loss modes is not negative. *)
Theorem loss_unoccupied (modes : list Z) (S : State) :
  FlatMap.sorted key_cmp (par S) ->
  (forall it, In it (par S) -> unoccupied modes (fst it)) ->
  (forall it, In it (par S) -> (tol S < Rabs (snd it))%R) ->
  (0 <= lossMode S)%Z ->
  State.loss modes S = S /\
  (forall it lm maxLM, In it (par S) ->
     Key.loss modes lm maxLM (fst it) = ([(fst it, 1%R)], maxLM)).
Proof.
  intros Hs Hu Ht Hl. split.
  - rewrite State_loss_unoccupied by assumption.
    rewrite (Zgtb_false _ _ Hl).
    unfold State.clean, State.set_par. simpl.
    rewrite clean_par_filter by exact Hs.
    rewrite filter_all.
    + now destruct S.
    + intros it Hit. apply Rgtb_true. now apply Ht.
  - intros it lm maxLM Hit. apply Key_loss_unoccupied. now apply Hu.
Qed.

Lemma owf_example_sorted : FlatMap.sorted key_cmp (par owf_example).
Proof. unfold FlatMap.sorted. simpl. repeat constructor. Qed.

Lemma loss_unoccupied_witness :
  FlatMap.sorted key_cmp (par owf_example) /\
  (forall it, In it (par owf_example) -> unoccupied [5%Z] (fst it)) /\
  (forall it, In it (par owf_example) -> (tol owf_example < Rabs (snd it))%R) /\
  (0 <= lossMode owf_example)%Z /\
  State.loss [5%Z] owf_example = owf_example.
Proof.
  assert (Hu : forall it, In it (par owf_example) -> unoccupied [5%Z] (fst it)).
  { intros it [<-|[<-|[]]] e [<-|[]] [H|[]]; simpl in H; discriminate. }
  assert (Ht : forall it, In it (par owf_example) ->
                          (tol owf_example < Rabs (snd it))%R).
  { intros it [<-|[<-|[]]]; simpl; rewrite Rabs_R1; lra. }
  assert (Hl : (0 <= lossMode owf_example)%Z) by (simpl; lia).
  repeat split; auto using owf_example_sorted.
  exact (proj1 (loss_unoccupied [5%Z] owf_example owf_example_sorted Hu Ht Hl)).
Defined.

(** A term below the tolerance: one photon in mode 0 with amplitude
    [10^-10], under the default tolerance [10^-9]. *)
Definition faint_example : State :=
  mkState [([((0, 0), 1)]%Z, (/ 10 ^ 10)%R)] [[0%R]] [[1%R]] (/ 10 ^ 9)%R 1%Z.

(** C6 as stated fails on [faint_example]: no term has a photon in mode 5,
    and [loss] on mode 5 does not return the state: its [clean] drops the
    term. *)
Lemma loss_unoccupied_counterexample :
  (forall it, In it (par faint_example) -> unoccupied [5%Z] (fst it)) /\
  par (State.loss [5%Z] faint_example) = [] /\
  State.loss [5%Z] faint_example <> faint_example.
Proof.
  assert (Hu : forall it, In it (par faint_example) -> unoccupied [5%Z] (fst it)).
  { intros it [<-|[]] e [<-|[]] [H|[]]; simpl in H; discriminate. }
  assert (Hs : FlatMap.sorted key_cmp (par faint_example)).
  { unfold FlatMap.sorted. simpl. repeat constructor. }
  assert (E : par (State.loss [5%Z] faint_example) = []).
  { rewrite State_loss_unoccupied by assumption.
    unfold State.clean, State.set_par. simpl par.
    rewrite clean_par_filter by exact Hs.
    apply filter_none. intros it [<-|[]]. apply Rgtb_false.
    simpl. rewrite Rabs_pos_eq; lra. }
  split; [exact Hu|]. split; [exact E|].
  intros F. rewrite F in E. discriminate.
Qed.

(** ** Key::sameDModeDel *)

Definition in_modes (m : list Z) (e : Mode * Z) : bool :=
  existsb (Z.eqb (fst (fst e))) m.

(** The entries the call looks at: spatial mode in [m], occupation not 0. *)
Definition occupied_in (m : list Z) (e : Mode * Z) : bool :=
  in_modes m e && negb (snd e =? 0)%Z.

(** The entries the call copies: spatial mode not in [m], occupation not 0. *)
Definition outside (m : list Z) (e : Mode * Z) : bool :=
  negb (in_modes m e) && negb (snd e =? 0)%Z.

Definition label_is (d : Z) (e : Mode * Z) : bool := (snd (fst e) =? d)%Z.

Definition same_label (es : list (Mode * Z)) : bool :=
  match es with
  | [] => true
  | e :: es' => forallb (label_is (snd (fst e))) es'
  end.

Definition copy_outside (m : list Z) (es : list (Mode * Z)) (p : Key) : Key :=
  fold_left (fun out x =>
               if outside m x then FlatMap.insert mode_cmp (fst x) (snd x) out
               else out)
            es p.

Lemma scan_known_label (m : list Z) (es : list (Mode * Z)) :
  forall (p : Key) (dmode founds : Z),
  dmode <> (-1)%Z ->
  Key.sameDModeDel_scan m es p dmode founds
  = if forallb (label_is dmode) (filter (occupied_in m) es)
    then Some (copy_outside m es p,
               (founds + Z.of_nat (length (filter (occupied_in m) es)))%Z)
    else None.
Proof.
  induction es as [|e es IH]; intros p dmode founds Hd.
  - simpl. now rewrite Z.add_0_r.
  - cbn [Key.sameDModeDel_scan filter copy_outside fold_left].
    change (occupied_in m e)
      with (existsb (Z.eqb (fst (fst e))) m && negb (snd e =? 0)%Z).
    change (outside m e)
      with (negb (existsb (Z.eqb (fst (fst e))) m) && negb (snd e =? 0)%Z).
    destruct (existsb (Z.eqb (fst (fst e))) m); cbn [andb negb];
      destruct (snd e =? 0)%Z; cbn [andb negb].
    + now apply IH.
    + destruct (Z.eqb_spec dmode (-1)) as [->|_]; [tauto|].
      cbn [forallb length]. unfold label_is at 1.
      destruct (snd (fst e) =? dmode)%Z; cbn [andb negb]; auto.
      rewrite (IH p dmode (founds + 1)%Z Hd).
      destruct (forallb _ _); auto. do 2 f_equal. lia.
    + now apply IH.
    + now apply IH.
Qed.

Lemma scan_no_label (m : list Z) (es : list (Mode * Z)) :
  forall (p : Key) (founds : Z),
  (forall e, In e es -> snd (fst e) <> (-1)%Z) ->
  Key.sameDModeDel_scan m es p (-1)%Z founds
  = if same_label (filter (occupied_in m) es)
    then Some (copy_outside m es p,
               (founds + Z.of_nat (length (filter (occupied_in m) es)))%Z)
    else None.
Proof.
  induction es as [|e es IH]; intros p founds Hl.
  - simpl. now rewrite Z.add_0_r.
  - assert (Hl' : forall e', In e' es -> snd (fst e') <> (-1)%Z)
      by (intros; apply Hl; now right).
    cbn [Key.sameDModeDel_scan filter copy_outside fold_left].
    change (occupied_in m e)
      with (existsb (Z.eqb (fst (fst e))) m && negb (snd e =? 0)%Z).
    change (outside m e)
      with (negb (existsb (Z.eqb (fst (fst e))) m) && negb (snd e =? 0)%Z).
    destruct (existsb (Z.eqb (fst (fst e))) m); cbn [andb negb];
      destruct (snd e =? 0)%Z; cbn [andb negb].
    + now apply IH.
    + rewrite Z.eqb_refl. cbn [same_label length].
      rewrite scan_known_label by (apply Hl; now left).
      destruct (forallb _ _); auto. do 2 f_equal. lia.
    + now apply IH.
    + now apply IH.
Qed.

(** C10, as the code has it.  The call leaves the key alone when it
    returns from inside its loop, that is, when two of the entries with a
    spatial mode in [m] and nonzero occupation carry different labels.  On
    every other path the key is overwritten with its entries of nonzero
    occupation outside [m]; the result is then whether the number of
    entries looked at is the size of [m], so a call that returns [false]
    on that path has changed the key. *)
Theorem sameDModeDel_key_after (m : list Z) (k : Key) :
  FlatMap.sorted mode_cmp k ->
  (forall e, In e k -> snd (fst e) <> (-1)%Z) ->
  Key.sameDModeDel m k
  = if same_label (filter (occupied_in m) k)
    then ((Z.of_nat (length (filter (occupied_in m) k))
             =? Z.of_nat (length m))%Z,
          filter (outside m) k)
    else (false, k).
Proof.
  intros Hs Hl. unfold Key.sameDModeDel.
  rewrite scan_no_label by exact Hl.
  destruct (same_label _); auto.
  unfold copy_outside, FlatMap.insert.
  now rewrite (copy_filter mode_cmp) by exact Hs.
Qed.

Lemma sameDModeDel_key_after_witness :
  FlatMap.sorted mode_cmp [((0, 0), 1); ((6, 0), 1); ((7, 1), 1)]%Z /\
  (forall e, In e [((0, 0), 1); ((6, 0), 1); ((7, 1), 1)]%Z ->
             snd (fst e) <> (-1)%Z) /\
  Key.sameDModeDel [0; 6]%Z [((0, 0), 1); ((6, 0), 1); ((7, 1), 1)]%Z
  = (true, [((7, 1), 1)]%Z).
Proof.
  assert (Hs : FlatMap.sorted mode_cmp [((0, 0), 1); ((6, 0), 1); ((7, 1), 1)]%Z).
  { unfold FlatMap.sorted. simpl. repeat constructor. }
  assert (Hl : forall e, In e [((0, 0), 1); ((6, 0), 1); ((7, 1), 1)]%Z ->
                         snd (fst e) <> (-1)%Z).
  { intros e [<-|[<-|[<-|[]]]]; simpl; discriminate. }
  split; [exact Hs|]. split; [exact Hl|].
  exact (sameDModeDel_key_after [0; 6]%Z _ Hs Hl).
Defined.

(** C10 as stated fails: on the key with one photon in mode 0 and the
    modes 0 and 1, the call returns [false] (one entry looked at, two modes
    asked for) and has emptied the key. *)
Lemma sameDModeDel_counterexample :
  Key.sameDModeDel [0; 1]%Z [((0, 0), 1)]%Z = (false, []) /\
  ~ (forall (m : list Z) (k : Key),
       fst (Key.sameDModeDel m k) = false -> snd (Key.sameDModeDel m k) = k).
Proof.
  split; [reflexivity|].
  intros H. specialize (H [0; 1]%Z [((0, 0), 1)]%Z eq_refl). discriminate.
Qed.

(** ** addPhoton with a wave function orthogonal to the stored ones *)

Lemma fold_sum_zero {A} (g : A -> R) (l : list A) (a : R) :
  (forall i, In i l -> g i = 0%R) ->
  fold_left (fun res i => (res + g i)%R) l a = a.
Proof.
  intros H. apply fold_left_fixed. intros i Hi. rewrite (H i Hi). ring.
Qed.

(** A sum over [0..n] whose terms below [n] vanish. *)
Lemma fold_sum_last (g : nat -> R) (n : nat) :
  (forall i, (i < n)%nat -> g i = 0%R) ->
  fold_left (fun res i => (res + g i)%R) (seq 0 (S n)) 0%R = g n.
Proof.
  intros H. rewrite seq_S, fold_left_app. simpl.
  rewrite fold_sum_zero; [ring|].
  intros i Hi. apply in_seq in Hi. apply H. lia.
Qed.

Lemma nth_repeat_app_lt (n i : nat) (c : R) :
  (i < n)%nat -> nth i (repeat 0%R n ++ [c]) 0%R = 0%R.
Proof.
  intros H. rewrite app_nth1 by (rewrite repeat_length; lia).
  apply nth_repeat.
Qed.

Lemma nth_repeat_app_eq (n : nat) (c : R) :
  nth n (repeat 0%R n ++ [c]) 0%R = c.
Proof.
  rewrite app_nth2 by (rewrite repeat_length; lia).
  rewrite repeat_length, Nat.sub_diag. reflexivity.
Qed.

Lemma add_at_zero (j : nat) (x : R) (v : list R) :
  x = 0%R -> State.add_at j x v = v.
Proof.
  intros ->. revert j. induction v as [|y v IH]; intros [|j]; simpl; auto.
  - f_equal. ring.
  - now rewrite IH.
Qed.

Section GramSchmidt.
Variable get_ovlp : WF -> WF -> R.
Variables (wf : WF) (ws : list WF).

Hypothesis orthogonal :
  forall w, In w ws -> get_ovlp wf w = 0%R /\ get_ovlp w wf = 0%R.

Lemma ovlpH_stored_new (b : OWF) (ws' : list WF) :
  (length b <= length ws)%nat ->
  State.ovlpH get_ovlp b wf (ws ++ ws') = 0%R.
Proof.
  intros Hb. unfold State.ovlpH. apply fold_sum_zero.
  intros i Hi. apply in_seq in Hi.
  assert (Hlt : (i < length ws)%nat) by lia.
  rewrite app_nth1 by exact Hlt.
  rewrite (proj2 (orthogonal (nth i ws []) (nth_In ws [] Hlt))). ring.
Qed.

Lemma gram_step_orthogonal (st : list R * list R) (bi : OWF) :
  (length bi <= length ws)%nat ->
  State.gram_step get_ovlp wf ws st bi = (fst st, snd st ++ [0%R]).
Proof.
  intros Hb. unfold State.gram_step.
  pose proof (ovlpH_stored_new bi [] Hb) as E. rewrite app_nil_r in E.
  rewrite E. f_equal.
  - apply fold_left_fixed. intros j _. apply add_at_zero. ring.
  - do 2 f_equal. ring.
Qed.

Lemma gram_fold_orthogonal (bs : list OWF) (st : list R * list R) :
  (forall b, In b bs -> (length b <= length ws)%nat) ->
  fold_left (State.gram_step get_ovlp wf ws) bs st
  = (fst st, snd st ++ repeat 0%R (length bs)).
Proof.
  revert st. induction bs as [|b bs IH]; intros st H; simpl.
  - rewrite app_nil_r. now destruct st.
  - rewrite gram_step_orthogonal by (apply H; now left).
    rewrite IH by (intros; apply H; now right).
    simpl. now rewrite <- app_assoc.
Qed.

(** The overlap of the vector [(0, ..., 0, c)] over [ws ++ [wf]] with a
    wave function. *)
Lemma ovlpH_unit (c : R) (w : WF) :
  State.ovlpH get_ovlp (repeat 0%R (length ws) ++ [c]) w (ws ++ [wf])
  = (c * get_ovlp wf w)%R.
Proof.
  unfold State.ovlpH.
  rewrite length_app, repeat_length. simpl length.
  rewrite Nat.add_1_r.
  rewrite (fold_sum_last
             (fun i => (nth i (repeat 0%R (length ws) ++ [c]) 0
                        * get_ovlp (nth i (ws ++ [wf]) []) w)%R)).
  - rewrite nth_repeat_app_eq.
    rewrite app_nth2 by lia. rewrite Nat.sub_diag. reflexivity.
  - intros i Hi. rewrite nth_repeat_app_lt by exact Hi. ring.
Qed.

Lemma ovlp_unit_unit (c : R) :
  State.ovlp get_ovlp (repeat 0%R (length ws) ++ [c])
             (repeat 0%R (length ws) ++ [c]) (ws ++ [wf])
  = (c * (c * get_ovlp wf wf))%R.
Proof.
  unfold State.ovlp.
  rewrite length_app, repeat_length. simpl length.
  rewrite Nat.add_1_r.
  rewrite (fold_sum_last
             (fun i => (nth i (repeat 0%R (length ws) ++ [c]) 0
                        * State.ovlpH get_ovlp (repeat 0%R (length ws) ++ [c])
                            (nth i (ws ++ [wf]) []) (ws ++ [wf]))%R)).
  - rewrite nth_repeat_app_eq, ovlpH_unit.
    rewrite app_nth2 by lia. rewrite Nat.sub_diag. reflexivity.
  - intros i Hi. rewrite nth_repeat_app_lt by exact Hi. ring.
Qed.

Lemma ovlp_unit_stored (c : R) (b : OWF) :
  (length b <= length ws)%nat ->
  State.ovlp get_ovlp (repeat 0%R (length ws) ++ [c]) b (ws ++ [wf]) = 0%R.
Proof.
  intros Hb. unfold State.ovlp. apply fold_sum_zero.
  intros i Hi. apply in_seq in Hi.
  assert (Hlt : (i < length ws)%nat) by lia.
  rewrite ovlpH_unit. rewrite app_nth1 by exact Hlt.
  rewrite (proj1 (orthogonal (nth i ws []) (nth_In ws [] Hlt))). ring.
Qed.

Lemma ovlp_stored_unit (c : R) (b : OWF) :
  (length b <= length ws)%nat ->
  State.ovlp get_ovlp b (repeat 0%R (length ws) ++ [c]) (ws ++ [wf]) = 0%R.
Proof.
  intros Hb. unfold State.ovlp.
  rewrite length_app, repeat_length. simpl length.
  rewrite Nat.add_1_r.
  rewrite (fold_sum_last
             (fun i => (nth i (repeat 0%R (length ws) ++ [c]) 0
                        * State.ovlpH get_ovlp b
                            (nth i (ws ++ [wf]) []) (ws ++ [wf]))%R)).
  - rewrite nth_repeat_app_eq.
    rewrite app_nth2 by lia. rewrite Nat.sub_diag. cbn [nth].
    rewrite ovlpH_stored_new by exact Hb. ring.
  - intros i Hi. rewrite nth_repeat_app_lt by exact Hi. ring.
Qed.

Lemma find_wave_none (l : list WF) (i : Z) :
  (forall w, In w l -> get_ovlp wf w = 0%R) ->
  State.find_wave get_ovlp wf l i = None.
Proof.
  revert i. induction l as [|w l IH]; intros i H; simpl; auto.
  rewrite (H w (or_introl eq_refl)).
  replace (Reqb (Rabs 0) 1) with false.
  - apply IH. intros; apply H; now right.
  - symmetry. apply Reqb_false. rewrite Rabs_R0. lra.
Qed.

End GramSchmidt.

Lemma map_div_unit (n : nat) (c s : R) :
  map (fun x => (x / s)%R) (repeat 0%R n ++ [c]) = repeat 0%R n ++ [(c / s)%R].
Proof.
  rewrite map_app, map_repeat. simpl. do 2 f_equal. unfold Rdiv. ring.
Qed.

Lemma fold_sq_unit (n : nat) (c : R) :
  fold_left (fun r a => (r + Rabs a ^ 2)%R) (repeat 0%R n ++ [c]) 0%R
  = (Rabs c ^ 2)%R.
Proof.
  rewrite fold_left_app. simpl.
  rewrite fold_sum_zero; [ring|].
  intros i Hi. apply repeat_spec in Hi. subst i. rewrite Rabs_R0. ring.
Qed.

Section AddBasisElem.
Variable get_ovlp : WF -> WF -> R.
Variables (wf : WF) (S : State).

Hypothesis basis_size : length (basis S) = length (waves S).
Hypothesis basis_elem_size :
  forall b, In b (basis S) -> (length b <= length (waves S))%nat.
Hypothesis orthogonal :
  forall w, In w (waves S) -> get_ovlp wf w = 0%R /\ get_ovlp w wf = 0%R.
Hypothesis self_overlap : (0 < get_ovlp wf wf)%R.

(** The vector [addBasisElem] appends to the basis. *)
Definition new_basis_vector : OWF :=
  repeat 0%R (length (waves S)) ++ [(1 / sqrt (get_ovlp wf wf))%R].

Lemma addBasisElem_orthogonal :
  State.addBasisElem get_ovlp wf S
  = (mkState (par S) (waves S ++ [wf]) (basis S ++ [new_basis_vector])
             (tol S) (lossMode S),
     repeat 0%R (length (waves S)) ++ [1%R]).
Proof.
  unfold State.addBasisElem.
  rewrite (gram_fold_orthogonal get_ovlp wf (waves S) orthogonal)
    by exact basis_elem_size.
  cbn [fst snd app]. rewrite basis_size.
  rewrite ovlp_unit_unit.
  assert (Hg : Rabs (1 * (1 * get_ovlp wf wf)) = get_ovlp wf wf).
  { rewrite !Rmult_1_l. apply Rabs_pos_eq. lra. }
  rewrite Hg. rewrite map_div_unit. fold new_basis_vector.
  assert (Hs : (0 < sqrt (get_ovlp wf wf))%R) by now apply sqrt_lt_R0.
  assert (Hss : (sqrt (get_ovlp wf wf) * sqrt (get_ovlp wf wf))%R
                = get_ovlp wf wf) by (apply sqrt_sqrt; lra).
  assert (Hd : State.ovlpH get_ovlp new_basis_vector wf (waves S ++ [wf])
               = sqrt (get_ovlp wf wf)).
  { unfold new_basis_vector. rewrite ovlpH_unit.
    rewrite <- Hss at 2. field. lra. }
  rewrite Hd.
  rewrite fold_sq_unit.
  assert (Hn : (Rabs (sqrt (get_ovlp wf wf)) ^ 2)%R = get_ovlp wf wf).
  { rewrite Rabs_pos_eq by lra. simpl. rewrite Rmult_1_r. exact Hss. }
  rewrite Hn.
  replace (Reqb (get_ovlp wf wf) 0) with false
    by (symmetry; apply Reqb_false; lra).
  cbn [negb]. rewrite map_div_unit.
  do 3 f_equal. field. lra.
Qed.

(** C4.  On a state that holds terms, a wave function that has overlap 0
    with every stored one (and a positive overlap with itself, 1 in the
    intended use) makes [addPhoton] append one vector to [basis] and the
    wave function to [waves]; the vector has inner product 1 with itself
    and 0, in both orders, with every vector that was in the basis, the
    inner products being those of [ovlp] over the stored wave functions. *)
Theorem addPhoton_orthogonal (mode num : Z) :
  par S <> [] ->
  let S' := State.addPhoton get_ovlp wf mode num S in
  basis S' = basis S ++ [new_basis_vector] /\
  waves S' = waves S ++ [wf] /\
  length (basis S') = Datatypes.S (length (basis S)) /\
  State.ovlp get_ovlp new_basis_vector new_basis_vector (waves S') = 1%R /\
  (forall b, In b (basis S) ->
     State.ovlp get_ovlp new_basis_vector b (waves S') = 0%R /\
     State.ovlp get_ovlp b new_basis_vector (waves S') = 0%R).
Proof.
  intros Hne S'.
  assert (E : basis S' = basis S ++ [new_basis_vector] /\
              waves S' = waves S ++ [wf]).
  { unfold S', State.addPhoton. destruct (par S) as [|t p] eqn:Hp; [tauto|].
    rewrite find_wave_none by (intros w Hw; now apply orthogonal).
    rewrite addBasisElem_orthogonal. simpl. auto. }
  destruct E as [Eb Ew]. rewrite Eb, Ew.
  split; [reflexivity|]. split; [reflexivity|].
  split; [rewrite length_app; simpl; lia|].
  assert (Hs : (0 < sqrt (get_ovlp wf wf))%R) by now apply sqrt_lt_R0.
  assert (Hss : (sqrt (get_ovlp wf wf) * sqrt (get_ovlp wf wf))%R
                = get_ovlp wf wf) by (apply sqrt_sqrt; lra).
  split.
  - unfold new_basis_vector. rewrite ovlp_unit_unit.
    rewrite <- Hss at 3. field. lra.
  - intros b Hb. unfold new_basis_vector. split.
    + apply ovlp_unit_stored; auto.
    + apply ovlp_stored_unit; auto.
Qed.

End AddBasisElem.

(** [trivOvlF] of [simAux.hpp], the overlap function of the simulation:
    wave functions are [(identifier, overlap)]. *)
Definition trivOvlF (V W : WF) : R :=
  if negb (Reqb (nth 0 V 0%R) (nth 0 W 0%R)) then nth 1 V 0%R else 1%R.

Lemma trivOvlF_same (V : WF) : trivOvlF V V = 1%R.
Proof.
  unfold trivOvlF. replace (Reqb (nth 0 V 0%R) (nth 0 V 0%R)) with true; auto.
  symmetry. now apply Reqb_true.
Qed.

Lemma trivOvlF_other (V W : WF) :
  nth 0 V 0%R <> nth 0 W 0%R -> trivOvlF V W = nth 1 V 0%R.
Proof.
  intros H. unfold trivOvlF.
  replace (Reqb (nth 0 V 0%R) (nth 0 W 0%R)) with false; auto.
  symmetry. now apply Reqb_false.
Qed.

(** One photon in mode 0 with wave function [(0, 0)]: the state after
    [addPhoton({0, 0}, 0, 1)] on the empty state. *)
Definition one_photon : State :=
  mkState [([((0, 0), 1)]%Z, 1%R)] [[0%R; 0%R]] [[1%R]] (/ 10 ^ 9)%R 1%Z.

Lemma one_photon_built :
  State.addPhoton trivOvlF [0%R; 0%R] 0 1 State.empty = one_photon.
Proof. reflexivity. Qed.

Lemma addPhoton_orthogonal_witness :
  let wf := [1%R; 0%R] in
  length (basis one_photon) = length (waves one_photon) /\
  (forall b, In b (basis one_photon) ->
             (length b <= length (waves one_photon))%nat) /\
  (forall w, In w (waves one_photon) ->
             trivOvlF wf w = 0%R /\ trivOvlF w wf = 0%R) /\
  (0 < trivOvlF wf wf)%R /\
  par one_photon <> [] /\
  basis (State.addPhoton trivOvlF wf 1 1 one_photon)
  = basis one_photon ++ [new_basis_vector trivOvlF wf one_photon].
Proof.
  intros wf.
  assert (H1 : length (basis one_photon) = length (waves one_photon))
    by reflexivity.
  assert (H2 : forall b, In b (basis one_photon) ->
                         (length b <= length (waves one_photon))%nat).
  { intros b [<-|[]]. simpl. lia. }
  assert (H3 : forall w, In w (waves one_photon) ->
                         trivOvlF wf w = 0%R /\ trivOvlF w wf = 0%R).
  { intros w [<-|[]]. split; rewrite trivOvlF_other; simpl; auto; lra. }
  assert (H4 : (0 < trivOvlF wf wf)%R) by (rewrite trivOvlF_same; lra).
  assert (H5 : par one_photon <> []) by discriminate.
  split; [exact H1|]. split; [exact H2|]. split; [exact H3|].
  split; [exact H4|]. split; [exact H5|].
  exact (proj1 (addPhoton_orthogonal trivOvlF wf one_photon H1 H2 H3 H4 1 1 H5)).
Defined.

(** ** More facts on the container *)

Section ContainerLoops.
Context {K V : Type} (cmp : K -> K -> comparison) `{!CmpOrder cmp}.

Lemma In_upsert_cases (f : V -> V -> V) (k : K) (v : V) (m : FlatMap.t K V)
    (y : K * V) :
  In y (FlatMap.upsert cmp f k v m) ->
  y = (k, v) \/ In y m \/ exists old, In (k, old) m /\ y = (k, f old v).
Proof.
  induction m as [|[k' v'] m IH]; simpl.
  - intros [<-|[]]. now left.
  - destruct (cmp k k') eqn:E; simpl.
    + apply cmp_eq in E. subst k'. intros [<-|H]; auto.
      right. right. exists v'. auto.
    + intros [<-|H]; auto.
    + intros [<-|H]; auto. apply IH in H.
      destruct H as [H|[H|[old [H1 H2]]]]; auto.
      right. right. exists old. auto.
Qed.

Lemma In_insert (k : K) (v : V) (m : FlatMap.t K V) (y : K * V) :
  In y (FlatMap.insert cmp k v m) -> y = (k, v) \/ In y m.
Proof.
  intros H. apply In_upsert_cases in H.
  destruct H as [H|[H|[old [H1 H2]]]]; auto. subst y. auto.
Qed.

Lemma In_insert_or_assign (k : K) (v : V) (m : FlatMap.t K V) (y : K * V) :
  In y (FlatMap.insert_or_assign cmp k v m) -> y = (k, v) \/ In y m.
Proof.
  intros H. apply In_upsert_cases in H.
  destruct H as [H|[H|[old [H1 H2]]]]; auto.
Qed.

Lemma fold_upsert_sorted {A} (f : V -> V -> V) (kf : A -> K) (vf : A -> V)
    (l : list A) (acc : FlatMap.t K V) :
  FlatMap.sorted cmp acc ->
  FlatMap.sorted cmp
    (fold_left (fun m x => FlatMap.upsert cmp f (kf x) (vf x) m) l acc).
Proof.
  revert acc. induction l as [|x l IH]; simpl; intros acc Hs; auto.
  apply IH. now apply FlatMap.upsert_sorted.
Qed.

(** A loop of [insert]s: an entry that is there stays, a new key gets the
    value of its first occurrence. *)
Lemma find_fold_insert {A} (kf : A -> K) (vf : A -> V) (l : list A)
    (acc : FlatMap.t K V) (k : K) :
  FlatMap.sorted cmp acc ->
  FlatMap.find cmp k
    (fold_left (fun m x => FlatMap.insert cmp (kf x) (vf x) m) l acc)
  = match FlatMap.find cmp k acc with
    | Some v => Some v
    | None => FlatMap.find cmp k (map (fun x => (kf x, vf x)) l)
    end.
Proof.
  revert acc. induction l as [|x l IH]; simpl; intros acc Hs.
  - now destruct (FlatMap.find cmp k acc).
  - rewrite IH by now apply FlatMap.upsert_sorted.
    unfold FlatMap.insert at 1. rewrite (FlatMap.find_upsert cmp) by exact Hs.
    destruct (cmp k (kf x)) eqn:E.
    + apply cmp_eq in E. subst k.
      now destruct (FlatMap.find cmp (kf x) acc).
    + reflexivity.
    + reflexivity.
Qed.

Lemma In_fold_insert {A} (kf : A -> K) (vf : A -> V) (l : list A)
    (acc : FlatMap.t K V) (y : K * V) :
  In y (fold_left (fun m x => FlatMap.insert cmp (kf x) (vf x) m) l acc) ->
  In y acc \/ exists x, In x l /\ y = (kf x, vf x).
Proof.
  revert acc. induction l as [|x l IH]; simpl; intros acc H; auto.
  apply IH in H. destruct H as [H|[x' [H1 H2]]].
  - apply In_insert in H. destruct H as [H|H]; auto.
    right. exists x. auto.
  - right. exists x'. auto.
Qed.

(** Lookup through a relabelling of the keys that is one-to-one on the
    stored keys. *)
Lemma find_map_inj (h : K -> K) (m : FlatMap.t K V) (k : K) (v : V) :
  FlatMap.sorted cmp m ->
  (forall k1 k2, In k1 (FlatMap.keys m) -> In k2 (FlatMap.keys m) ->
                 h k1 = h k2 -> k1 = k2) ->
  In (k, v) m ->
  FlatMap.find cmp (h k) (map (fun x => (h (fst x), snd x)) m) = Some v.
Proof.
  induction m as [|[k1 v1] m IH]; simpl; [tauto|].
  intros Hs Hinj [[= -> ->]|Hin].
  - now rewrite cmp_refl.
  - assert (Hk : In k (FlatMap.keys m)).
    { change k with (fst (k, v)). now apply in_map. }
    destruct (cmp (h k) (h k1)) eqn:E.
    + apply cmp_eq in E. apply Hinj in E; auto. subst k1.
      pose proof (FlatMap.sorted_head_lt cmp Hs Hin) as L. simpl in L.
      now apply (cmp_lt_irrefl cmp) in L.
    + apply IH; auto. exact (FlatMap.sorted_tail cmp Hs).
    + apply IH; auto. exact (FlatMap.sorted_tail cmp Hs).
Qed.

End ContainerLoops.

(** ** addPhoton with a stored wave function *)

Definition occupation (p : Mode) (k : Key) : Z :=
  match FlatMap.find mode_cmp p k with
  | Some n => n
  | None => 0%Z
  end.

Lemma incr_find (a b c : Z) (k : Key) (x : Mode) :
  FlatMap.sorted mode_cmp k ->
  FlatMap.find mode_cmp x (Key.incr a b c k)
  = match mode_cmp x (a, b) with
    | Eq => Some (match FlatMap.find mode_cmp (a, b) k with
                  | Some old => (old + c)%Z
                  | None => c
                  end)
    | _ => FlatMap.find mode_cmp x k
    end.
Proof.
  intros Hs. unfold Key.incr, FlatMap.accumulate.
  now rewrite (FlatMap.find_upsert mode_cmp) by exact Hs.
Qed.

Lemma incr_sorted (a b c : Z) (k : Key) :
  FlatMap.sorted mode_cmp k -> FlatMap.sorted mode_cmp (Key.incr a b c k).
Proof.
  intros Hs. unfold Key.incr, FlatMap.accumulate.
  now apply (FlatMap.upsert_sorted mode_cmp).
Qed.


Lemma incr_inj (a b c : Z) (k1 k2 : Key) :
  FlatMap.sorted mode_cmp k1 -> FlatMap.sorted mode_cmp k2 ->
  FlatMap.find mode_cmp (a, b) k1 <> Some 0%Z ->
  FlatMap.find mode_cmp (a, b) k2 <> Some 0%Z ->
  Key.incr a b c k1 = Key.incr a b c k2 -> k1 = k2.
Proof.
  intros S1 S2 N1 N2 E. apply (FlatMap.sorted_ext mode_cmp S1 S2).
  intros x. pose proof (f_equal (FlatMap.find mode_cmp x) E) as Ex.
  rewrite !incr_find in Ex by assumption.
  destruct (mode_cmp x (a, b)) eqn:C; auto.
  apply cmp_eq in C. subst x.
  destruct (FlatMap.find mode_cmp (a, b) k1) as [o1|],
           (FlatMap.find mode_cmp (a, b) k2) as [o2|]; auto.
  - f_equal. injection Ex. lia.
  - exfalso. apply N1. f_equal. injection Ex. lia.
  - exfalso. apply N2. f_equal. injection Ex. lia.
Qed.

Section SameWave.
Variable get_ovlp : WF -> WF -> R.
Variable wf : WF.




End SameWave.

Lemma one_photon_sorted : FlatMap.sorted key_cmp (par one_photon).
Proof. unfold FlatMap.sorted. simpl. repeat constructor. Qed.

Lemma one_photon_keys_sorted :
  forall it, In it (par one_photon) -> FlatMap.sorted mode_cmp (fst it).
Proof.
  intros it [<-|[]]. unfold FlatMap.sorted. simpl. repeat constructor.
Qed.




Section ContainerLookups.
Context {K V : Type} (cmp : K -> K -> comparison) `{!CmpOrder cmp}.

Lemma find_app (m1 m2 : FlatMap.t K V) (k : K) :
  FlatMap.find cmp k (m1 ++ m2)
  = match FlatMap.find cmp k m1 with
    | Some v => Some v
    | None => FlatMap.find cmp k m2
    end.
Proof.
  induction m1 as [|[k1 v1] m1 IH]; simpl; auto.
  destruct (cmp k k1); auto.
Qed.

Lemma sorted_app_r (m1 m2 : FlatMap.t K V) :
  FlatMap.sorted cmp (m1 ++ m2) -> FlatMap.sorted cmp m2.
Proof.
  induction m1 as [|x m1 IH]; simpl; auto.
  intros Hs. apply IH. exact (FlatMap.sorted_tail cmp Hs).
Qed.

(** In a sorted sequence the entries before and after an entry have other
    keys. *)
Lemma sorted_split_keys (m1 m2 : FlatMap.t K V) (x y : K * V) :
  FlatMap.sorted cmp (m1 ++ x :: m2) -> In y (m1 ++ m2) -> fst y <> fst x.
Proof.
  induction m1 as [|z m1 IH]; simpl; intros Hs Hin E.
  - pose proof (FlatMap.sorted_head_lt cmp Hs Hin) as L. rewrite E in L.
    now apply (cmp_lt_irrefl cmp) in L.
  - destruct Hin as [->|Hin].
    + assert (Hx : In x (m1 ++ x :: m2)) by (apply in_or_app; right; now left).
      pose proof (FlatMap.sorted_head_lt cmp Hs Hx) as L. rewrite E in L.
      now apply (cmp_lt_irrefl cmp) in L.
    + exact (IH (FlatMap.sorted_tail cmp Hs) Hin E).
Qed.

Lemma sorted_In_eq (m : FlatMap.t K V) (k : K) (v1 v2 : V) :
  FlatMap.sorted cmp m -> In (k, v1) m -> In (k, v2) m -> v1 = v2.
Proof.
  intros Hs H1 H2. apply (FlatMap.In_find cmp Hs) in H1.
  apply (FlatMap.In_find cmp Hs) in H2. congruence.
Qed.

(** A loop of stores over pairs that are sorted by key, hence have
    distinct keys: every key is resolved against the start value once. *)
Lemma find_fold_upsert_sorted (f : V -> V -> V) (l acc : FlatMap.t K V)
    (k : K) :
  FlatMap.sorted cmp l -> FlatMap.sorted cmp acc ->
  FlatMap.find cmp k
    (fold_left (fun m x => FlatMap.upsert cmp f (fst x) (snd x) m) l acc)
  = match FlatMap.find cmp k l with
    | Some v => Some (match FlatMap.find cmp k acc with
                      | Some old => f old v
                      | None => v
                      end)
    | None => FlatMap.find cmp k acc
    end.
Proof.
  revert acc. induction l as [|[k1 v1] l IH]; simpl; intros acc Hl Ha; auto.
  rewrite IH; [|exact (FlatMap.sorted_tail cmp Hl)
               |now apply (FlatMap.upsert_sorted cmp)].
  rewrite (FlatMap.find_upsert cmp) by exact Ha.
  destruct (cmp k k1) eqn:E; auto.
  apply cmp_eq in E. subst k1.
  pose proof (FlatMap.find_tail_None cmp Hl) as T. simpl in T. now rewrite T.
Qed.

End ContainerLookups.

(** ** Facts on keys *)

Lemma Key_add_find (p k : Key) (x : Mode) :
  FlatMap.sorted mode_cmp p -> FlatMap.sorted mode_cmp k ->
  FlatMap.find mode_cmp x (Key.add p k)
  = match FlatMap.find mode_cmp x p with
    | Some v => Some (match FlatMap.find mode_cmp x k with
                      | Some old => (old + v)%Z
                      | None => v
                      end)
    | None => FlatMap.find mode_cmp x k
    end.
Proof.
  intros Hp Hk. unfold Key.add, FlatMap.accumulate.
  now apply (find_fold_upsert_sorted mode_cmp).
Qed.

Lemma Key_add_sorted (p k : Key) :
  FlatMap.sorted mode_cmp k -> FlatMap.sorted mode_cmp (Key.add p k).
Proof.
  intros Hk. unfold Key.add, FlatMap.accumulate.
  now apply (fold_upsert_sorted mode_cmp).
Qed.

Lemma Key_clean_filter (k : Key) :
  FlatMap.sorted mode_cmp k ->
  Key.clean k = filter (fun e => (snd e >? 0)%Z) k.
Proof.
  intros Hs. unfold Key.clean, FlatMap.insert_or_assign.
  now apply (copy_filter mode_cmp).
Qed.

(** Comparison of two mode pairs, spelled out. *)
Lemma mode_cmp_pair (a b c d : Z) :
  mode_cmp (a, b) (c, d)
  = match (a ?= c)%Z with Eq => (b ?= d)%Z | o => o end.
Proof. reflexivity. Qed.

Lemma mode_cmp_lt_fst (a b c d : Z) : (a < c)%Z -> mode_cmp (a, b) (c, d) = Lt.
Proof. intros H. rewrite mode_cmp_pair. now rewrite (proj2 (Z.compare_lt_iff a c) H). Qed.

Lemma mode_cmp_gt_fst (a b c d : Z) : (c < a)%Z -> mode_cmp (a, b) (c, d) = Gt.
Proof. intros H. rewrite mode_cmp_pair. now rewrite (proj2 (Z.compare_gt_iff a c) H). Qed.

(** What the loop over the branches stores under [j]: [j] photons in
    [(a, d)] and [n - j] in [(b, d)], entries without photons left out. *)
Definition photons (p : Mode) (n : Z) : Key :=
  if (n >? 0)%Z then [(p, n)] else [].

Lemma branch_key_lt (a b d n j : Z) :
  (a < b)%Z ->
  Key.branch_key a b d n j = photons (a, d) j ++ photons (b, d) (n - j).
Proof.
  intros H. unfold Key.branch_key, Key.make, FlatMap.insert_or_assign. simpl.
  rewrite (mode_cmp_gt_fst b d a d H).
  unfold Key.clean, photons, FlatMap.insert_or_assign. simpl.
  destruct (j >? 0)%Z, (n - j >? 0)%Z; simpl; auto.
  now rewrite (mode_cmp_gt_fst b d a d H).
Qed.

Lemma branch_key_gt (a b d n j : Z) :
  (b < a)%Z ->
  Key.branch_key a b d n j = photons (b, d) (n - j) ++ photons (a, d) j.
Proof.
  intros H. unfold Key.branch_key, Key.make, FlatMap.insert_or_assign. simpl.
  rewrite (mode_cmp_lt_fst b d a d H).
  unfold Key.clean, photons, FlatMap.insert_or_assign. simpl.
  destruct (j >? 0)%Z, (n - j >? 0)%Z; simpl; auto.
  now rewrite (mode_cmp_gt_fst a d b d H).
Qed.

Lemma photons_sorted (p : Mode) (n : Z) : FlatMap.sorted mode_cmp (photons p n).
Proof.
  unfold photons, FlatMap.sorted. destruct (n >? 0)%Z; simpl; repeat constructor.
Qed.

Lemma photons_find (p x : Mode) (n : Z) :
  FlatMap.find mode_cmp x (photons p n)
  = match mode_cmp x p with
    | Eq => if (n >? 0)%Z then Some n else None
    | _ => None
    end.
Proof.
  unfold photons. destruct (n >? 0)%Z; simpl; destruct (mode_cmp x p); auto.
Qed.

Lemma branch_key_sorted (a b d n j : Z) :
  a <> b -> FlatMap.sorted mode_cmp (Key.branch_key a b d n j).
Proof.
  intros Hab.
  assert (C : (a < b)%Z \/ (b < a)%Z) by lia.
  destruct C as [C|C];
    [rewrite (branch_key_lt a b d n j C) | rewrite (branch_key_gt a b d n j C)];
    unfold photons, FlatMap.sorted;
    destruct (j >? 0)%Z, (n - j >? 0)%Z; simpl; repeat constructor;
    unfold FlatMap.key_lt; now apply mode_cmp_lt_fst.
Qed.

(** The entries of the key stored for [j]. *)
Lemma branch_key_find (a b d n j : Z) (x : Mode) :
  a <> b ->
  FlatMap.find mode_cmp x (Key.branch_key a b d n j)
  = match mode_cmp x (a, d), mode_cmp x (b, d) with
    | Eq, _ => if (j >? 0)%Z then Some j else None
    | _, Eq => if (n - j >? 0)%Z then Some (n - j)%Z else None
    | _, _ => None
    end.
Proof.
  intros Hab.
  assert (Hne : mode_cmp x (a, d) = Eq -> mode_cmp x (b, d) <> Eq).
  { intros E1 E2. apply cmp_eq in E1. apply cmp_eq in E2. congruence. }
  assert (C : (a < b)%Z \/ (b < a)%Z) by lia.
  destruct C as [C|C];
    [rewrite (branch_key_lt a b d n j C) | rewrite (branch_key_gt a b d n j C)];
    rewrite (find_app mode_cmp), !photons_find;
    destruct (mode_cmp x (a, d)) eqn:E1, (mode_cmp x (b, d)) eqn:E2;
    try (exfalso; now apply Hne);
    destruct (j >? 0)%Z, (n - j >? 0)%Z; auto.
Qed.

Lemma branch_key_other (a b d n j : Z) (x : Mode) :
  a <> b -> fst x <> a -> fst x <> b ->
  FlatMap.find mode_cmp x (Key.branch_key a b d n j) = None.
Proof.
  intros Hab Ha Hb. rewrite branch_key_find by exact Hab.
  destruct (mode_cmp x (a, d)) eqn:E1.
  - apply cmp_eq in E1. subst x. simpl in Ha. tauto.
  - destruct (mode_cmp x (b, d)) eqn:E2; auto.
    apply cmp_eq in E2. subst x. simpl in Hb. tauto.
  - destruct (mode_cmp x (b, d)) eqn:E2; auto.
    apply cmp_eq in E2. subst x. simpl in Hb. tauto.
Qed.

Lemma branch_key_inj (a b d n j j' : Z) :
  a <> b -> (0 <= j)%Z -> (0 <= j')%Z ->
  Key.branch_key a b d n j = Key.branch_key a b d n j' -> j = j'.
Proof.
  intros Hab Hj Hj' E.
  pose proof (f_equal (FlatMap.find mode_cmp (a, d)) E) as F.
  rewrite !branch_key_find in F by exact Hab.
  rewrite cmp_refl in F.
  destruct (Z.gtb_spec j 0), (Z.gtb_spec j' 0); try discriminate;
    try (injection F); lia.
Qed.

(** ** The loops of the two-mode [apply] *)

Lemma fold_left_map {A B C} (f : A -> B -> A) (g : C -> B) (l : list C) (a : A) :
  fold_left f (map g l) a = fold_left (fun x c => f x (g c)) l a.
Proof. revert a. induction l as [|c l IH]; simpl; auto. Qed.

Lemma fold_left_inv {A B} (P : A -> Prop) (f : A -> B -> A) (l : list B) (a : A) :
  P a -> (forall x y, In y l -> P x -> P (f x y)) -> P (fold_left f l a).
Proof.
  revert a. induction l as [|y l IH]; simpl; intros a Ha H; [exact Ha|].
  apply IH.
  - apply H; [now left | exact Ha].
  - intros x y' Hy. apply H. now right.
Qed.

Lemma upto_spec (n j : Z) : In j (Key.upto n) <-> (0 <= j <= n)%Z.
Proof.
  unfold Key.upto. rewrite in_map_iff. split.
  - intros [i [<- Hi]]. apply in_seq in Hi. lia.
  - intros H. exists (Z.to_nat j). split; [lia|]. apply in_seq. lia.
Qed.

Lemma NoDup_map_on {A B} (f : A -> B) (l : list A) :
  NoDup l -> (forall x y, In x l -> In y l -> f x = f y -> x = y) ->
  NoDup (map f l).
Proof.
  induction l as [|x l IH]; simpl; intros Hn Hinj; constructor.
  - inversion Hn as [|? ? Hx _]; subst. intros Hin.
    apply in_map_iff in Hin. destruct Hin as [y [E Hy]].
    apply Hinj in E; auto. now subst y.
  - inversion Hn; subst. apply IH; auto.
Qed.

Lemma upto_NoDup (n : Z) : NoDup (Key.upto n).
Proof.
  unfold Key.upto. apply NoDup_map_on.
  - apply seq_NoDup.
  - intros x y _ _. apply Nat2Z.inj.
Qed.

Section DistinctKeys.
Context {K V : Type} (cmp : K -> K -> comparison) `{!CmpOrder cmp}.

Lemma sorted_keys_NoDup (m : FlatMap.t K V) :
  FlatMap.sorted cmp m -> NoDup (FlatMap.keys m).
Proof.
  induction m as [|x m IH]; simpl; intros Hs; constructor.
  - intros Hin. unfold FlatMap.keys in Hin. apply in_map_iff in Hin.
    destruct Hin as [y [E Hy]].
    pose proof (FlatMap.sorted_head_lt cmp Hs Hy) as L. rewrite E in L.
    now apply (cmp_lt_irrefl cmp) in L.
  - apply IH. exact (FlatMap.sorted_tail cmp Hs).
Qed.

(** A loop of stores over pairs with distinct keys. *)
Lemma find_fold_upsert_distinct {A} (f : V -> V -> V)
    (kf : A -> K) (vf : A -> V) (l : list A) (acc : FlatMap.t K V) (k : K) :
  NoDup (map kf l) -> FlatMap.sorted cmp acc ->
  FlatMap.find cmp k
    (fold_left (fun m x => FlatMap.upsert cmp f (kf x) (vf x) m) l acc)
  = match FlatMap.find cmp k (map (fun x => (kf x, vf x)) l) with
    | Some v => Some (match FlatMap.find cmp k acc with
                      | Some old => f old v
                      | None => v
                      end)
    | None => FlatMap.find cmp k acc
    end.
Proof.
  revert acc. induction l as [|x l IH]; simpl; intros acc Hl Ha; auto.
  inversion Hl as [|? ? Hx Hl']; subst.
  rewrite IH; [|exact Hl'|now apply (FlatMap.upsert_sorted cmp)].
  rewrite (FlatMap.find_upsert cmp) by exact Ha.
  destruct (cmp k (kf x)) eqn:E; auto.
  apply cmp_eq in E. subst k.
  rewrite (FlatMap.notin_find_None cmp); auto.
  unfold FlatMap.keys. rewrite map_map. simpl. exact Hx.
Qed.

Lemma find_map_key {A} (kf : A -> K) (vf : A -> V) (l : list A) (x : A) :
  In x l -> (forall y, In y l -> kf y = kf x -> y = x) ->
  FlatMap.find cmp (kf x) (map (fun y => (kf y, vf y)) l) = Some (vf x).
Proof.
  induction l as [|y l IH]; simpl; [tauto|]. intros Hin Hinj.
  destruct (cmp (kf x) (kf y)) eqn:E.
  - apply cmp_eq in E. symmetry in E. apply Hinj in E; auto. now subst y.
  - destruct Hin as [->|Hin]; [now rewrite cmp_refl in E|]. apply IH; auto.
  - destruct Hin as [->|Hin]; [now rewrite cmp_refl in E|]. apply IH; auto.
Qed.

Lemma In_fold_upsert_new {A} (f : V -> V -> V) (kf : A -> K) (vf : A -> V)
    (l : list A) (acc : FlatMap.t K V) (y : K * V) :
  (forall old new, f old new = new) ->
  In y (fold_left (fun m x => FlatMap.upsert cmp f (kf x) (vf x) m) l acc) ->
  In y acc \/ exists x, In x l /\ y = (kf x, vf x).
Proof.
  intros Hf. revert acc. induction l as [|x l IH]; simpl; intros acc H; auto.
  apply IH in H. destruct H as [H|[x' [H1 H2]]].
  - apply (In_upsert_cases cmp) in H.
    destruct H as [H|[H|[old [H1 H2]]]]; auto.
    + right. exists x. auto.
    + right. exists x. rewrite Hf in H2. auto.
  - right. exists x'. auto.
Qed.

End DistinctKeys.

(** *** The loop over the branches *)

Lemma branches_sorted (U : list R) (a b : Z) (i : nat) (d n : Z) :
  FlatMap.sorted key_cmp (Key.apply_branches U a b i d n).
Proof.
  unfold Key.apply_branches, FlatMap.insert_or_assign.
  apply (fold_upsert_sorted key_cmp). apply FlatMap.sorted_nil.
Qed.

Lemma branches_In (U : list R) (a b : Z) (i : nat) (d n : Z) (y : Key * R) :
  In y (Key.apply_branches U a b i d n) ->
  exists j, (0 <= j <= n)%Z /\
            y = (Key.branch_key a b d n j, Key.branch_amp U i n j).
Proof.
  unfold Key.apply_branches, FlatMap.insert_or_assign. intros H.
  apply (In_fold_upsert_new key_cmp) in H; [|reflexivity].
  destruct H as [[]|[j [Hj E]]]. exists j. split; auto. now apply upto_spec.
Qed.

Lemma branches_find (U : list R) (a b : Z) (i : nat) (d n j : Z) :
  a <> b -> (0 <= j <= n)%Z ->
  FlatMap.find key_cmp (Key.branch_key a b d n j)
               (Key.apply_branches U a b i d n)
  = Some (Key.branch_amp U i n j).
Proof.
  intros Hab Hj. unfold Key.apply_branches, FlatMap.insert_or_assign.
  assert (Hinj : forall x y, In x (Key.upto n) -> In y (Key.upto n) ->
                 Key.branch_key a b d n x = Key.branch_key a b d n y -> x = y).
  { intros x y Hx Hy. apply upto_spec in Hx. apply upto_spec in Hy.
    apply branch_key_inj; auto; lia. }
  rewrite (find_fold_upsert_distinct key_cmp).
  - rewrite (find_map_key key_cmp (Key.branch_key a b d n)
               (Key.branch_amp U i n) (Key.upto n) j); auto.
    + now apply upto_spec.
    + intros y Hy E. apply Hinj; auto. now apply upto_spec.
  - apply NoDup_map_on; [apply upto_NoDup | exact Hinj].
  - apply FlatMap.sorted_nil.
Qed.

(** *** Amplitudes as sums *)

(** The amplitude a State-like structure gives to a key, 0 for a key it
    does not hold. *)
Definition amp_at (k : Key) (m : SD) : R :=
  match FlatMap.find key_cmp k m with
  | Some v => v
  | None => 0%R
  end.

Definition key_eqb (k1 k2 : Key) : bool :=
  match key_cmp k1 k2 with
  | Eq => true
  | _ => false
  end.

(** The sum of the amplitudes that a list of pairs holds for a key. *)
Definition sum_at (k : Key) (l : list (Key * R)) : R :=
  fold_right (fun x s => ((if key_eqb (fst x) k then snd x else 0) + s)%R)
             0%R l.

Lemma key_eqb_true (k1 k2 : Key) : key_eqb k1 k2 = true <-> k1 = k2.
Proof.
  unfold key_eqb. split.
  - destruct (key_cmp k1 k2) eqn:E; try discriminate. intros _. now apply cmp_eq.
  - intros ->. now rewrite cmp_refl.
Qed.

Lemma key_eqb_refl (k : Key) : key_eqb k k = true.
Proof. now apply key_eqb_true. Qed.

Lemma key_eqb_false (k1 k2 : Key) : key_eqb k1 k2 = false <-> k1 <> k2.
Proof.
  split.
  - intros E H. apply key_eqb_true in H. congruence.
  - intros H. destruct (key_eqb k1 k2) eqn:E; auto.
    apply key_eqb_true in E. contradiction.
Qed.

Lemma amp_at_accumulate (k K : Key) (v : R) (m : SD) :
  FlatMap.sorted key_cmp m ->
  amp_at K (FlatMap.accumulate key_cmp Rplus k v m)
  = (amp_at K m + (if key_eqb k K then v else 0))%R.
Proof.
  intros Hs. unfold amp_at, FlatMap.accumulate.
  rewrite (FlatMap.find_upsert key_cmp) by exact Hs.
  destruct (key_eqb k K) eqn:E.
  - apply key_eqb_true in E. subst K. rewrite cmp_refl.
    destruct (FlatMap.find key_cmp k m); ring.
  - apply key_eqb_false in E.
    destruct (key_cmp K k) eqn:C.
    + apply cmp_eq in C. congruence.
    + ring.
    + ring.
Qed.

Lemma amp_at_fold_accumulate (K : Key) (l : list (Key * R)) (acc : SD) :
  FlatMap.sorted key_cmp acc ->
  amp_at K (fold_left (fun m x =>
                         FlatMap.accumulate key_cmp Rplus (fst x) (snd x) m)
                      l acc)
  = (amp_at K acc + sum_at K l)%R.
Proof.
  revert acc. induction l as [|x l IH]; simpl; intros acc Hs; [ring|].
  rewrite IH by now apply (FlatMap.upsert_sorted key_cmp).
  rewrite amp_at_accumulate by exact Hs. ring.
Qed.

Lemma sum_at_app (K : Key) (l1 l2 : list (Key * R)) :
  sum_at K (l1 ++ l2) = (sum_at K l1 + sum_at K l2)%R.
Proof.
  induction l1 as [|x l1 IH]; simpl; [ring|]. rewrite IH. ring.
Qed.

Lemma sum_at_zero (K : Key) (l : list (Key * R)) :
  (forall x, In x l -> fst x = K -> snd x = 0%R) -> sum_at K l = 0%R.
Proof.
  induction l as [|x l IH]; simpl; intros H; auto.
  rewrite IH by (intros; apply H; auto).
  destruct (key_eqb (fst x) K) eqn:E; [|ring].
  apply key_eqb_true in E. rewrite (H x (or_introl eq_refl) E). ring.
Qed.

(** The pairs the double loop of [apply] stores, in its order. *)
Definition products (RetIter Ret : SD) : list (Key * R) :=
  flat_map (fun riit =>
              map (fun rit => (Key.add (fst rit) (fst riit),
                               (snd riit * snd rit)%R))
                  Ret)
           RetIter.

Lemma convolve_products (RetIter Ret : SD) :
  Key.apply_convolve RetIter Ret
  = fold_left (fun m x => FlatMap.accumulate key_cmp Rplus (fst x) (snd x) m)
              (products RetIter Ret) [].
Proof.
  unfold Key.apply_convolve, products. generalize (@nil (Key * R)).
  induction RetIter as [|ri RetIter IH]; simpl; intros acc; auto.
  rewrite fold_left_app, fold_left_map. simpl. apply IH.
Qed.

Lemma convolve_sorted (RetIter Ret : SD) :
  FlatMap.sorted key_cmp (Key.apply_convolve RetIter Ret).
Proof.
  rewrite convolve_products. unfold FlatMap.accumulate.
  apply (fold_upsert_sorted key_cmp). apply FlatMap.sorted_nil.
Qed.

Lemma amp_at_convolve (K : Key) (RetIter Ret : SD) :
  amp_at K (Key.apply_convolve RetIter Ret) = sum_at K (products RetIter Ret).
Proof.
  rewrite convolve_products.
  rewrite amp_at_fold_accumulate by apply FlatMap.sorted_nil.
  unfold amp_at. simpl. ring.
Qed.

Lemma In_products (RetIter Ret : SD) (x : Key * R) :
  In x (products RetIter Ret) ->
  exists ri r, In ri RetIter /\ In r Ret /\
               x = (Key.add (fst r) (fst ri), (snd ri * snd r)%R).
Proof.
  unfold products. rewrite in_flat_map. intros [ri [Hri Hx]].
  apply in_map_iff in Hx. destruct Hx as [r [E Hr]].
  exists ri, r. auto.
Qed.

Lemma In_convolve (RetIter Ret : SD) (y : Key * R) :
  In y (Key.apply_convolve RetIter Ret) ->
  exists ri r, In ri RetIter /\ In r Ret /\ fst y = Key.add (fst r) (fst ri).
Proof.
  rewrite convolve_products. intros H.
  assert (G : In y [] \/ exists x, In x (products RetIter Ret) /\ fst y = fst x).
  { revert H. generalize (@nil (Key * R)). generalize (products RetIter Ret).
    induction l as [|x l IH]; simpl; intros acc H; auto.
    apply IH in H. destruct H as [H|[x' [H1 H2]]].
    - apply (FlatMap.In_upsert key_cmp) in H. destruct H as [H|H]; auto.
      right. exists x. auto.
    - right. exists x'. auto. }
  destruct G as [[]|[x [Hx E]]].
  apply In_products in Hx. destruct Hx as [ri [r [H1 [H2 H3]]]].
  exists ri, r. subst x. auto.
Qed.

(** *** Entries outside the two modes *)

(** A key of [Ret] after the entries [pre] have been processed: it is a
    sorted key and holds, outside the spatial modes [a] and [b], what
    [pre] holds. *)
Definition carried (a b : Z) (pre K : Key) : Prop :=
  FlatMap.sorted mode_cmp K /\
  forall x : Mode, fst x <> a -> fst x <> b ->
    FlatMap.find mode_cmp x K = FlatMap.find mode_cmp x pre.

Lemma In_apply_pass (m d n : Z) (Ret : SD) (y : Key * R) :
  In y (Key.apply_pass m d n Ret) ->
  exists r, In r Ret /\
            y = (FlatMap.insert_or_assign mode_cmp (m, d) n (fst r), snd r).
Proof.
  unfold Key.apply_pass, FlatMap.insert_or_assign at 1. intros H.
  apply (In_fold_upsert_new key_cmp) in H; [|reflexivity].
  destruct H as [[]|H]. exact H.
Qed.

Lemma find_single (e : Mode * Z) (x : Mode) :
  FlatMap.find mode_cmp x [e]
  = match mode_cmp x (fst e) with Eq => Some (snd e) | _ => None end.
Proof. destruct e as [p n]. simpl. now destruct (mode_cmp x p). Qed.

Lemma find_prefix_last (pre : Key) (e : Mode * Z) :
  FlatMap.sorted mode_cmp (pre ++ [e]) ->
  FlatMap.find mode_cmp (fst e) pre = None.
Proof.
  intros Hs. destruct (FlatMap.find mode_cmp (fst e) pre) as [v|] eqn:F; auto.
  apply (FlatMap.find_In mode_cmp) in F.
  assert (Hin : In (fst e, v) (pre ++ [])) by now rewrite app_nil_r.
  exfalso. exact (sorted_split_keys mode_cmp pre [] e (fst e, v) Hs Hin eq_refl).
Qed.

Lemma carried_step (U : list R) (a b : Z) (pre : Key) (e : Mode * Z) (Ret : SD) :
  a <> b ->
  FlatMap.sorted mode_cmp (pre ++ [e]) ->
  (forall r, In r Ret -> carried a b pre (fst r)) ->
  forall y, In y (Key.apply_step U a b Ret e) -> carried a b (pre ++ [e]) (fst y).
Proof.
  intros Hab Hs Hc y Hy. unfold Key.apply_step in Hy.
  destruct e as [[m d] n]. cbn [fst snd] in Hy.
  destruct (negb (m =? a)%Z && negb (m =? b)%Z) eqn:Hm.
  - apply In_apply_pass in Hy. destruct Hy as [r [Hr ->]]. cbn [fst].
    destruct (Hc r Hr) as [Hrs Hrf]. split.
    + now apply (FlatMap.upsert_sorted mode_cmp).
    + intros x Ha Hb. unfold FlatMap.insert_or_assign.
      rewrite (FlatMap.find_upsert mode_cmp) by exact Hrs.
      rewrite (find_app mode_cmp), find_single. cbn [fst snd].
      destruct (mode_cmp x (m, d)) eqn:E.
      * apply cmp_eq in E. subst x.
        pose proof (find_prefix_last pre ((m, d), n) Hs) as F. cbn [fst] in F.
        rewrite F. now destruct (FlatMap.find mode_cmp (m, d) (fst r)).
      * rewrite (Hrf x Ha Hb). now destruct (FlatMap.find mode_cmp x pre).
      * rewrite (Hrf x Ha Hb). now destruct (FlatMap.find mode_cmp x pre).
  - apply In_convolve in Hy. destruct Hy as [ri [r [Hri [Hr E]]]].
    apply branches_In in Hri. destruct Hri as [j [Hj ->]]. cbn [fst] in E.
    rewrite E. destruct (Hc r Hr) as [Hrs Hrf]. split.
    + apply Key_add_sorted. now apply branch_key_sorted.
    + intros x Ha Hb.
      rewrite Key_add_find; [|exact Hrs|now apply branch_key_sorted].
      rewrite branch_key_other by assumption.
      rewrite (find_app mode_cmp), find_single. cbn [fst snd].
      assert (Hx : mode_cmp x (m, d) <> Eq).
      { intros C. apply cmp_eq in C. subst x. cbn [fst] in Ha, Hb.
        apply andb_false_iff in Hm. rewrite !negb_false_iff in Hm.
        destruct Hm as [Hm|Hm]; apply Z.eqb_eq in Hm; congruence. }
      rewrite (Hrf x Ha Hb).
      destruct (FlatMap.find mode_cmp x pre); auto.
      destruct (mode_cmp x (m, d)); auto. congruence.
Qed.

Lemma carried_fold (U : list R) (a b : Z) (post : list (Mode * Z)) :
  a <> b ->
  forall (pre : Key) (Ret : SD),
  FlatMap.sorted mode_cmp (pre ++ post) ->
  (forall r, In r Ret -> carried a b pre (fst r)) ->
  forall y, In y (fold_left (Key.apply_step U a b) post Ret) ->
            carried a b (pre ++ post) (fst y).
Proof.
  intros Hab. induction post as [|e post IH]; intros pre Ret Hs Hc y Hy.
  - simpl in Hy. rewrite app_nil_r. now apply Hc.
  - simpl in Hy.
    replace (pre ++ e :: post) with ((pre ++ [e]) ++ post) in *
      by (rewrite <- app_assoc; reflexivity).
    apply (IH (pre ++ [e]) (Key.apply_step U a b Ret e)); auto.
    apply (carried_step U a b pre e Ret Hab); auto.
    exact (FlatMap.sorted_app_l mode_cmp Hs).
Qed.

Lemma In_apply_finish (a b : Z) (tol : R) (Ret : SD) (y : Key * R) :
  In y (Key.apply_finish a b tol Ret) ->
  exists r, In r Ret /\ Rgtb (Rabs (snd r)) tol = true /\
            y = (fst r, (snd r * Key.factor2 a b (fst r))%R).
Proof.
  unfold Key.apply_finish, FlatMap.insert_or_assign. intros H.
  assert (G : In y [] \/ exists r, In r Ret /\ Rgtb (Rabs (snd r)) tol = true /\
                         y = (fst r, (snd r * Key.factor2 a b (fst r))%R)).
  { revert H. generalize (@nil (Key * R)).
    induction Ret as [|r Ret IH]; simpl; intros acc H; auto.
    apply IH in H. destruct H as [H|[r' [H1 H2]]].
    - destruct (Rgtb (Rabs (snd r)) tol) eqn:E; auto.
      apply (In_upsert_cases key_cmp) in H.
      destruct H as [H|[H|[old [_ H]]]]; auto; right; exists r; auto.
    - right. exists r'. tauto. }
  destruct G as [[]|G]. exact G.
Qed.

(** Every key of the result of [apply] holds, outside the two modes, the
    entries of the key it was called on. *)
Lemma apply_carried (U : list R) (a b : Z) (tol : R) (k : Key) (y : Key * R) :
  a <> b -> FlatMap.sorted mode_cmp k ->
  In y (Key.apply U [a; b] tol k) -> carried a b k (fst y).
Proof.
  intros Hab Hs Hy. unfold Key.apply in Hy. cbn [nth] in Hy.
  apply In_apply_finish in Hy. destruct Hy as [r [Hr [_ ->]]]. cbn [fst].
  apply (carried_fold U a b k Hab [] [(Key.empty, 1%R)]); auto.
  intros r' [<-|[]]. split; [apply FlatMap.sorted_nil | reflexivity].
Qed.

(** ** The identity on two modes *)

(** [\[1, 0, 0, 1\]]. *)
Definition U_identity : list R := [1%R; 0%R; 0%R; 1%R].

(** The product under the square root of [factor(a, b)]. *)
Definition fprod (a b : Z) (k : Key) : R :=
  fold_left (fun r e =>
               if (fst (fst e) =? a)%Z || (fst (fst e) =? b)%Z
               then (r * IZR (facut (snd e)))%R
               else r)
            k 1%R.

Lemma factor2_fprod (a b : Z) (k : Key) : Key.factor2 a b k = sqrt (fprod a b k).
Proof. reflexivity. Qed.

(** The occupation numbers in the two modes are within the table of
    factorials and not 0. *)
Definition in_table (a b : Z) (k : Key) : Prop :=
  forall e, In e k -> fst (fst e) = a \/ fst (fst e) = b ->
            (1 <= snd e <= 12)%Z.

(** A check of the thirteen arguments of the table. *)
Lemma table_all (P : Z -> bool) :
  forallb P (Key.upto 12) = true ->
  forall n, (0 <= n <= 12)%Z -> P n = true.
Proof.
  intros H n Hn. rewrite forallb_forall in H. apply H. now apply upto_spec.
Qed.

Lemma facut_pos (n : Z) : (0 <= n <= 12)%Z -> (0 < facut n)%Z.
Proof.
  intros H. apply Z.ltb_lt.
  now apply (table_all (fun n => (0 <? facut n)%Z)).
Qed.

Lemma binomial_full (n : Z) : (0 <= n <= 12)%Z -> binomialCoeff n n = 1%R.
Proof.
  intros H. unfold binomialCoeff. apply f_equal. apply Z.eqb_eq.
  now apply (table_all
               (fun n => (Z.quot (facut n) (wrap32 (facut n * facut (n - n)))
                          =? 1)%Z)).
Qed.

Lemma binomial_none (n : Z) : (0 <= n <= 12)%Z -> binomialCoeff n 0 = 1%R.
Proof.
  intros H. unfold binomialCoeff. apply f_equal. apply Z.eqb_eq.
  now apply (table_all
               (fun n => (Z.quot (facut n) (wrap32 (facut 0 * facut (n - 0)))
                          =? 1)%Z)).
Qed.

Lemma fprod_app (a b : Z) (k : Key) (e : Mode * Z) :
  fprod a b (k ++ [e])
  = if (fst (fst e) =? a)%Z || (fst (fst e) =? b)%Z
    then (fprod a b k * IZR (facut (snd e)))%R
    else fprod a b k.
Proof. unfold fprod. now rewrite fold_left_app. Qed.

Lemma in_table_app_l (a b : Z) (k1 k2 : Key) :
  in_table a b (k1 ++ k2) -> in_table a b k1.
Proof. intros H e He. apply H. apply in_or_app. now left. Qed.

Lemma fprod_pos (a b : Z) (k : Key) : in_table a b k -> (0 < fprod a b k)%R.
Proof.
  induction k as [|e k IH] using rev_ind; intros H.
  - unfold fprod. simpl. lra.
  - rewrite fprod_app. specialize (IH (in_table_app_l a b k [e] H)).
    destruct ((fst (fst e) =? a)%Z || (fst (fst e) =? b)%Z) eqn:E; auto.
    apply Rmult_lt_0_compat; auto. apply IZR_lt. apply facut_pos.
    apply orb_true_iff in E. rewrite !Z.eqb_eq in E.
    assert (He : In e (k ++ [e])) by (apply in_or_app; right; now left).
    specialize (H e He E). lia.
Qed.

(** The branch of the identity: all [n] photons stay where they are. *)
Definition stay (a m n : Z) : Z := if (m =? a)%Z then n else 0%Z.

Definition side (a m : Z) : nat := if (m =? a)%Z then 0%nat else 1%nat.

Lemma stay_key (a b m d n : Z) :
  a <> b -> m = a \/ m = b -> (0 < n)%Z ->
  Key.branch_key a b d n (stay a m n) = [((m, d), n)].
Proof.
  intros Hab Hm Hn. unfold stay.
  assert (C : (a < b)%Z \/ (b < a)%Z) by lia.
  destruct (Z.eqb_spec m a) as [->|Hma].
  - destruct C as [C|C];
      [rewrite (branch_key_lt a b d n n C) | rewrite (branch_key_gt a b d n n C)];
      unfold photons; rewrite Z.sub_diag, (Zgtb_true n 0 Hn); reflexivity.
  - assert (m = b) by tauto. subst m.
    destruct C as [C|C];
      [rewrite (branch_key_lt a b d n 0 C) | rewrite (branch_key_gt a b d n 0 C)];
      unfold photons; rewrite Z.sub_0_r, (Zgtb_true n 0 Hn); reflexivity.
Qed.

Lemma stay_amp (a m n : Z) :
  (0 <= n <= 12)%Z ->
  Key.branch_amp U_identity (side a m) n (stay a m n)
  = (/ sqrt (IZR (facut n)))%R.
Proof.
  intros Hn. unfold Key.branch_amp, stay, side, U_identity.
  destruct (m =? a)%Z; cbn [nth Nat.add].
  - rewrite Z.sub_diag, binomial_full by exact Hn.
    rewrite pow1. simpl. unfold Rdiv. ring.
  - rewrite Z.sub_0_r, binomial_none by exact Hn.
    rewrite pow1. simpl. unfold Rdiv. ring.
Qed.

Lemma leave_amp (a m n j : Z) :
  (0 <= j <= n)%Z -> j <> stay a m n ->
  Key.branch_amp U_identity (side a m) n j = 0%R.
Proof.
  intros Hj Hne. unfold Key.branch_amp, stay, side, U_identity in *.
  destruct (m =? a)%Z; cbn [nth Nat.add].
  - rewrite (pow_i (Z.to_nat (n - j))) by lia. unfold Rdiv. ring.
  - rewrite (pow_i (Z.to_nat j)) by lia. ring.
Qed.

Lemma Key_add_last (pre : Key) (e : Mode * Z) :
  FlatMap.sorted mode_cmp (pre ++ [e]) -> Key.add pre [e] = pre ++ [e].
Proof.
  intros Hs.
  assert (Hp : FlatMap.sorted mode_cmp pre) by exact (FlatMap.sorted_app_l mode_cmp Hs).
  assert (He : FlatMap.sorted mode_cmp [e]) by exact (sorted_app_r mode_cmp pre [e] Hs).
  apply (FlatMap.sorted_ext mode_cmp); auto.
  - now apply Key_add_sorted.
  - intros x. rewrite Key_add_find by assumption.
    rewrite (find_app mode_cmp), find_single.
    destruct (FlatMap.find mode_cmp x pre) as [v|] eqn:F; auto.
    destruct (mode_cmp x (fst e)) eqn:E; auto.
    apply cmp_eq in E. subst x.
    rewrite (find_prefix_last pre e Hs) in F. discriminate.
Qed.

Lemma sum_at_map_single (K : Key) (g : Key * R -> Key * R)
    (T1 T2 : list (Key * R)) (t : Key * R) :
  (forall y, In y (T1 ++ T2) -> snd (g y) = 0%R) ->
  sum_at K (map g (T1 ++ t :: T2))
  = if key_eqb (fst (g t)) K then snd (g t) else 0%R.
Proof.
  intros H. rewrite map_app, sum_at_app. simpl.
  rewrite !sum_at_zero.
  - destruct (key_eqb (fst (g t)) K); ring.
  - intros x Hx _. apply in_map_iff in Hx. destruct Hx as [y [<- Hy]].
    apply H. apply in_or_app. now right.
  - intros x Hx _. apply in_map_iff in Hx. destruct Hx as [y [<- Hy]].
    apply H. apply in_or_app. now left.
Qed.

(** When one pair on each side has a nonzero amplitude, the double loop
    gives a nonzero amplitude to one key. *)
Lemma sum_at_products_single (K : Key) (R1 R2 T1 T2 : list (Key * R))
    (ri t : Key * R) :
  (forall y, In y (R1 ++ R2) -> snd y = 0%R) ->
  (forall y, In y (T1 ++ T2) -> snd y = 0%R) ->
  sum_at K (products (R1 ++ ri :: R2) (T1 ++ t :: T2))
  = if key_eqb (Key.add (fst t) (fst ri)) K then (snd ri * snd t)%R else 0%R.
Proof.
  intros HR HT. unfold products. rewrite flat_map_app. cbn [flat_map].
  rewrite !sum_at_app.
  assert (Z0 : forall Rs, (forall y, In y Rs -> snd y = 0%R) ->
            sum_at K (flat_map
                        (fun riit =>
                           map (fun rit => (Key.add (fst rit) (fst riit),
                                            (snd riit * snd rit)%R))
                               (T1 ++ t :: T2)) Rs) = 0%R).
  { intros Rs H. apply sum_at_zero. intros x Hx _.
    apply in_flat_map in Hx. destruct Hx as [ri' [Hri Hx]].
    apply in_map_iff in Hx. destruct Hx as [r [<- _]]. simpl.
    rewrite (H ri' Hri). ring. }
  rewrite (Z0 R1) by (intros; apply HR; apply in_or_app; now left).
  rewrite (Z0 R2) by (intros; apply HR; apply in_or_app; now right).
  rewrite (sum_at_map_single K
             (fun rit => (Key.add (fst rit) (fst ri), (snd ri * snd rit)%R))).
  - cbn [fst snd]. destruct (key_eqb _ K); ring.
  - intros y Hy. cbn [snd]. rewrite (HT y Hy). ring.
Qed.

(** The state of [Ret] under the identity once the entries [pre] have been
    processed: the key [pre] has the amplitude [1 / sqrt(prod n!)], every
    other key has the amplitude 0. *)
Definition identity_inv (a b : Z) (pre : Key) (Ret : SD) : Prop :=
  FlatMap.sorted key_cmp Ret /\
  FlatMap.find key_cmp pre Ret = Some (/ sqrt (fprod a b pre))%R /\
  (forall y, In y Ret -> fst y <> pre -> snd y = 0%R) /\
  (forall r, In r Ret -> carried a b pre (fst r)).

Lemma split_at_key (m : SD) (k : Key) (v : R) :
  FlatMap.sorted key_cmp m -> FlatMap.find key_cmp k m = Some v ->
  exists m1 m2, m = m1 ++ (k, v) :: m2 /\
                forall y, In y (m1 ++ m2) -> In y m /\ fst y <> k.
Proof.
  intros Hs F. apply (FlatMap.find_In key_cmp) in F.
  destruct (in_split _ _ F) as [m1 [m2 E]]. exists m1, m2. split; auto.
  intros y Hy. split.
  - rewrite E. apply in_app_or in Hy. apply in_or_app. simpl. tauto.
  - rewrite E in Hs. exact (sorted_split_keys key_cmp m1 m2 (k, v) y Hs Hy).
Qed.

Lemma amp_at_find (m : SD) (k : Key) (v : R) :
  amp_at k m = v -> v <> 0%R -> FlatMap.find key_cmp k m = Some v.
Proof.
  unfold amp_at. destruct (FlatMap.find key_cmp k m); intros E Hv; congruence.
Qed.

Lemma amp_at_In (m : SD) (y : Key * R) :
  FlatMap.sorted key_cmp m -> In y m -> amp_at (fst y) m = snd y.
Proof.
  intros Hs Hy. unfold amp_at. destruct y as [k v]. cbn [fst snd].
  now rewrite (FlatMap.In_find key_cmp Hs Hy).
Qed.

Lemma identity_step_affected (a b : Z) (pre : Key) (m d n : Z) (Ret : SD) :
  a <> b -> m = a \/ m = b -> (1 <= n <= 12)%Z ->
  FlatMap.sorted mode_cmp (pre ++ [((m, d), n)]) ->
  (0 < fprod a b pre)%R ->
  identity_inv a b pre Ret ->
  let Ret' :=
    Key.apply_convolve (Key.apply_branches U_identity a b (side a m) d n) Ret in
  FlatMap.sorted key_cmp Ret' /\
  FlatMap.find key_cmp (pre ++ [((m, d), n)]) Ret'
  = Some (/ sqrt (fprod a b (pre ++ [((m, d), n)])))%R /\
  (forall y, In y Ret' -> fst y <> pre ++ [((m, d), n)] -> snd y = 0%R).
Proof.
  intros Hab Hm Hn Hs Hpos [HRs [HRf [HRz _]]] Ret'.
  set (RI := Key.apply_branches U_identity a b (side a m) d n) in *.
  assert (HIs : FlatMap.sorted key_cmp RI) by apply branches_sorted.
  assert (HIf : FlatMap.find key_cmp [((m, d), n)] RI
                = Some (/ sqrt (IZR (facut n)))%R).
  { rewrite <- (stay_key a b m d n Hab Hm) by lia.
    rewrite <- (stay_amp a m n) by lia.
    apply branches_find; auto. unfold stay. destruct (m =? a)%Z; lia. }
  destruct (split_at_key Ret pre _ HRs HRf) as [T1 [T2 [ET HT]]].
  destruct (split_at_key RI _ _ HIs HIf) as [R1 [R2 [ER HR]]].
  assert (HTz : forall y, In y (T1 ++ T2) -> snd y = 0%R).
  { intros y Hy. destruct (HT y Hy). now apply HRz. }
  assert (HRz' : forall y, In y (R1 ++ R2) -> snd y = 0%R).
  { intros y Hy. destruct (HR y Hy) as [Hin Hk].
    apply branches_In in Hin. destruct Hin as [j [Hj ->]]. cbn [fst snd] in *.
    apply leave_amp; auto. intros ->. apply Hk.
    apply stay_key; auto. lia. }
  assert (Hamp : forall K, amp_at K Ret'
                 = if key_eqb (pre ++ [((m, d), n)]) K
                   then (/ sqrt (fprod a b (pre ++ [((m, d), n)])))%R
                   else 0%R).
  { intros K. unfold Ret'. rewrite amp_at_convolve, ER, ET.
    rewrite sum_at_products_single by assumption. cbn [fst snd].
    rewrite (Key_add_last pre _ Hs).
    destruct (key_eqb _ K); auto.
    rewrite fprod_app. cbn [fst snd].
    replace ((m =? a)%Z || (m =? b)%Z) with true
      by (symmetry; apply orb_true_iff; rewrite !Z.eqb_eq; exact Hm).
    assert (Hf : (0 < IZR (facut n))%R)
      by (apply IZR_lt; apply facut_pos; lia).
    rewrite sqrt_mult by lra.
    rewrite Rinv_mult. ring. }
  assert (Hnz : (/ sqrt (fprod a b (pre ++ [((m, d), n)])))%R <> 0%R).
  { apply Rinv_neq_0_compat. apply Rgt_not_eq. apply sqrt_lt_R0.
    rewrite fprod_app. cbn [fst snd].
    destruct ((m =? a)%Z || (m =? b)%Z); auto.
    apply Rmult_lt_0_compat; auto. apply IZR_lt. apply facut_pos. lia. }
  assert (Hsorted : FlatMap.sorted key_cmp Ret') by apply convolve_sorted.
  split; [exact Hsorted|]. split.
  - apply amp_at_find; auto. rewrite Hamp. now rewrite key_eqb_refl.
  - intros y Hy Hne. rewrite <- (amp_at_In Ret' y Hsorted Hy), Hamp.
    replace (key_eqb (pre ++ [((m, d), n)]) (fst y)) with false; auto.
    symmetry. apply key_eqb_false. congruence.
Qed.

Lemma pass_inj (a b : Z) (pre : Key) (m d n : Z) (Ret : SD) :
  m <> a -> m <> b ->
  FlatMap.sorted key_cmp Ret ->
  (forall r, In r Ret -> carried a b pre (fst r)) ->
  forall r1 r2, In r1 Ret -> In r2 Ret ->
    FlatMap.insert_or_assign mode_cmp (m, d) n (fst r1)
    = FlatMap.insert_or_assign mode_cmp (m, d) n (fst r2) ->
    r1 = r2.
Proof.
  intros Ha Hb Hs Hc [K1 v1] [K2 v2] H1 H2 E. cbn [fst] in E.
  destruct (Hc _ H1) as [S1 C1]. destruct (Hc _ H2) as [S2 C2].
  cbn [fst] in *.
  assert (EK : K1 = K2).
  { apply (FlatMap.sorted_ext mode_cmp S1 S2). intros x.
    pose proof (f_equal (FlatMap.find mode_cmp x) E) as F.
    unfold FlatMap.insert_or_assign in F.
    rewrite !(FlatMap.find_upsert mode_cmp) in F by assumption.
    destruct (mode_cmp x (m, d)) eqn:C; auto.
    apply cmp_eq in C. subst x.
    rewrite (C1 (m, d)), (C2 (m, d)); auto. }
  subst K2. f_equal. exact (sorted_In_eq key_cmp Ret K1 v1 v2 Hs H1 H2).
Qed.

Lemma identity_step_pass (a b : Z) (pre : Key) (m d n : Z) (Ret : SD) :
  m <> a -> m <> b ->
  FlatMap.sorted mode_cmp (pre ++ [((m, d), n)]) ->
  identity_inv a b pre Ret ->
  let Ret' := Key.apply_pass m d n Ret in
  FlatMap.sorted key_cmp Ret' /\
  FlatMap.find key_cmp (pre ++ [((m, d), n)]) Ret'
  = Some (/ sqrt (fprod a b (pre ++ [((m, d), n)])))%R /\
  (forall y, In y Ret' -> fst y <> pre ++ [((m, d), n)] -> snd y = 0%R).
Proof.
  intros Ha Hb Hs [HRs [HRf [HRz HRc]]] Ret'.
  assert (Hlast : FlatMap.insert_or_assign mode_cmp (m, d) n pre
                  = pre ++ [((m, d), n)]).
  { unfold FlatMap.insert_or_assign. now apply (FlatMap.upsert_last mode_cmp). }
  assert (Hinj := pass_inj a b pre m d n Ret Ha Hb HRs HRc).
  split; [|split].
  - unfold Ret', Key.apply_pass, FlatMap.insert_or_assign at 1.
    apply (fold_upsert_sorted key_cmp). apply FlatMap.sorted_nil.
  - pose (kf := fun r : Key * R =>
                  FlatMap.insert_or_assign mode_cmp (m, d) n (fst r)).
    change Ret' with
      (fold_left (fun M x =>
                    FlatMap.upsert key_cmp (fun _ new : R => new) (kf x) (snd x) M)
                 Ret []).
    rewrite (find_fold_upsert_distinct key_cmp).
    + apply (FlatMap.find_In key_cmp) in HRf.
      assert (F := find_map_key key_cmp kf snd Ret
                     (pre, (/ sqrt (fprod a b pre))%R) HRf
                     (fun y Hy E => Hinj y _ Hy HRf E)).
      unfold kf at 1 in F. cbn [fst snd] in F. rewrite Hlast in F.
      rewrite F. cbn [FlatMap.find]. rewrite fprod_app. cbn [fst snd].
      replace ((m =? a)%Z || (m =? b)%Z) with false; auto.
      symmetry. apply orb_false_iff. rewrite !Z.eqb_neq. auto.
    + apply NoDup_map_on.
      * apply NoDup_map_inv with (f := fst).
        exact (sorted_keys_NoDup key_cmp Ret HRs).
      * exact Hinj.
    + apply FlatMap.sorted_nil.
  - intros y Hy Hne. apply In_apply_pass in Hy. destruct Hy as [r [Hr ->]].
    cbn [fst snd] in *. apply HRz; auto. intros E. apply Hne.
    now rewrite E.
Qed.

Lemma identity_fold (a b : Z) (post : list (Mode * Z)) :
  a <> b ->
  forall (pre : Key) (Ret : SD),
  FlatMap.sorted mode_cmp (pre ++ post) ->
  in_table a b (pre ++ post) ->
  identity_inv a b pre Ret ->
  identity_inv a b (pre ++ post) (fold_left (Key.apply_step U_identity a b) post Ret).
Proof.
  intros Hab. induction post as [|e post IH]; intros pre Ret Hs Ht Hinv.
  - simpl. now rewrite app_nil_r.
  - simpl.
    replace (pre ++ e :: post) with ((pre ++ [e]) ++ post) in *
      by (rewrite <- app_assoc; reflexivity).
    apply IH; auto.
    assert (Hs' : FlatMap.sorted mode_cmp (pre ++ [e]))
      by exact (FlatMap.sorted_app_l mode_cmp Hs).
    assert (Hc : forall y, In y (Key.apply_step U_identity a b Ret e) ->
                           carried a b (pre ++ [e]) (fst y)).
    { apply carried_step; auto. now destruct Hinv as [_ [_ [_ Hc]]]. }
    assert (Hpos : (0 < fprod a b pre)%R).
    { apply fprod_pos. apply (in_table_app_l a b pre [e]).
      now apply (in_table_app_l a b (pre ++ [e]) post). }
    destruct e as [[m d] n].
    unfold Key.apply_step in *. cbn [fst snd] in *.
    destruct (Z.eqb_spec m a) as [Ea|Na]; cbn [negb andb] in *.
    + destruct (identity_step_affected a b pre m d n Ret Hab (or_introl Ea))
        as [H1 [H2 H3]]; auto.
      * apply (Ht ((m, d), n)); auto.
        apply in_or_app. left. apply in_or_app. right. now left.
      * unfold side in *. rewrite Ea, Z.eqb_refl in *.
        repeat split; auto; now apply Hc.
    + destruct (Z.eqb_spec m b) as [Eb|Nb]; cbn [negb andb] in *.
      * destruct (identity_step_affected a b pre m d n Ret Hab (or_intror Eb))
          as [H1 [H2 H3]]; auto.
        -- apply (Ht ((m, d), n)); auto.
           apply in_or_app. left. apply in_or_app. right. now left.
        -- unfold side in *.
           replace (m =? a)%Z with false in * by (symmetry; now apply Z.eqb_neq).
           repeat split; auto; now apply Hc.
      * destruct (identity_step_pass a b pre m d n Ret Na Nb Hs' Hinv)
          as [H1 [H2 H3]].
        repeat split; auto; now apply Hc.
Qed.

Lemma filter_single {A} (f : A -> bool) (l1 l2 : list A) (x : A) :
  (forall y, In y (l1 ++ l2) -> f y = false) ->
  filter f (l1 ++ x :: l2) = if f x then [x] else [].
Proof.
  intros H. rewrite filter_app. simpl.
  rewrite (filter_none f l1) by (intros; apply H; apply in_or_app; now left).
  rewrite (filter_none f l2) by (intros; apply H; apply in_or_app; now right).
  now destruct (f x).
Qed.

(** [apply] with the identity on a key: the key comes back with amplitude
    1 when the amplitude before the normalisation, [1 / factor(a, b)], is
    above the tolerance, and nothing comes back otherwise. *)
Lemma Key_apply_identity (a b : Z) (tol : R) (k : Key) :
  a <> b -> FlatMap.sorted mode_cmp k -> in_table a b k -> (0 <= tol)%R ->
  Key.apply U_identity [a; b] tol k
  = if Rgtb (/ Key.factor2 a b k) tol then [(k, 1%R)] else [].
Proof.
  intros Hab Hs Ht Htol. unfold Key.apply. cbn [nth].
  assert (Hinv : identity_inv a b k
                   (fold_left (Key.apply_step U_identity a b) k [(Key.empty, 1%R)])).
  { apply (identity_fold a b k Hab [] [(Key.empty, 1%R)]); auto.
    split; [|split; [|split]].
    - unfold FlatMap.sorted. simpl. repeat constructor.
    - simpl. unfold fprod. simpl. rewrite sqrt_1. f_equal. lra.
    - intros y [<-|[]] Hy. now contradiction Hy.
    - intros r [<-|[]]. split; [apply FlatMap.sorted_nil | reflexivity]. }
  destruct Hinv as [HRs [HRf [HRz _]]].
  set (Ret := fold_left (Key.apply_step U_identity a b) k [(Key.empty, 1%R)]) in *.
  unfold Key.apply_finish, FlatMap.insert_or_assign.
  rewrite (FlatMap.rebuild_filter_map key_cmp
             (fun it => Rgtb (Rabs (snd it)) tol)
             (fun it => (snd it * Key.factor2 a b (fst it))%R) Ret [])
    by exact HRs.
  destruct (split_at_key Ret k _ HRs HRf) as [T1 [T2 [ET HT]]].
  rewrite ET, filter_single.
  - cbn [snd app]. rewrite factor2_fprod.
    assert (Hp : (0 < sqrt (fprod a b k))%R)
      by (apply sqrt_lt_R0; now apply fprod_pos).
    rewrite Rabs_pos_eq by (left; now apply Rinv_0_lt_compat).
    destruct (Rgtb (/ sqrt (fprod a b k)) tol); auto.
    simpl. rewrite factor2_fprod. do 2 f_equal. field. lra.
  - intros y Hy. destruct (HT y Hy) as [Hin Hk].
    rewrite (HRz y Hin Hk). apply Rgtb_false. rewrite Rabs_R0. exact Htol.
Qed.

(** Equality of two states up to a tolerance [t]: the same keys in the
    same order, amplitudes that differ by at most [t] key by key, and the
    same wave functions, basis, tolerance and loss mode. *)
Definition equal_up_to (t : R) (S1 S2 : State) : Prop :=
  FlatMap.keys (par S1) = FlatMap.keys (par S2) /\
  (forall k v1 v2,
     FlatMap.find key_cmp k (par S1) = Some v1 ->
     FlatMap.find key_cmp k (par S2) = Some v2 ->
     (Rabs (v1 - v2) <= t)%R) /\
  waves S1 = waves S2 /\ basis S1 = basis S2 /\
  tol S1 = tol S2 /\ lossMode S1 = lossMode S2.

Lemma equal_up_to_refl (t : R) (S : State) :
  (0 <= t)%R -> equal_up_to t S S.
Proof.
  intros Ht. unfold equal_up_to. repeat split; auto.
  intros k v1 v2 E1 E2. rewrite E1 in E2. injection E2 as <-.
  replace (v1 - v1)%R with 0%R by ring. now rewrite Rabs_R0.
Qed.

(** C1, as the code has it.  With two different modes, occupation numbers
    in the two modes between 1 and 12, a tolerance that is not negative
    and amplitudes above it, the identity returns a state equal to the
    state it is applied to up to the tolerance, the same keys with the
    same amplitudes, provided the tolerance is also below
    [1 / factor(a, b)] of every key: [Key::apply] compares the amplitude
    with the tolerance before it multiplies it with the factor.  The
    amplitudes are real numbers here, so the binomial coefficients and
    the factorial factors [1 / sqrt (n!)] and [sqrt (prod n!)] cancel
    exactly: every key comes back from [Key::apply] with amplitude 1 and
    the state is returned as it was.  The rounding of the two square
    roots in the float instance of the program is outside this model. *)
Theorem apply_identity (a b : Z) (S : State) :
  a <> b ->
  (0 <= tol S)%R ->
  FlatMap.sorted key_cmp (par S) ->
  (forall it, In it (par S) ->
     FlatMap.sorted mode_cmp (fst it) /\ in_table a b (fst it) /\
     (tol S < / Key.factor2 a b (fst it))%R /\
     (tol S < Rabs (snd it))%R) ->
  equal_up_to (tol S) (State.apply U_identity [a; b] S) S /\
  State.apply U_identity [a; b] S = S /\
  (forall it, In it (par S) ->
     Key.apply U_identity [a; b] (tol S) (fst it) = [(fst it, 1%R)]).
Proof.
  intros Hab Htol Hs Hit.
  assert (HK : forall it, In it (par S) ->
               Key.apply U_identity [a; b] (tol S) (fst it) = [(fst it, 1%R)]).
  { intros it Hin. destruct (Hit it Hin) as [H1 [H2 [H3 _]]].
    rewrite Key_apply_identity by assumption.
    now rewrite (proj2 (Rgtb_true _ _) H3). }
  assert (HE : State.apply U_identity [a; b] S = S).
  { unfold State.apply.
    rewrite (fold_left_ext_in _
               (fun this it =>
                  FlatMap.upsert key_cmp Rplus (fst it) (snd it * 1)%R this)).
    - rewrite (rebuild_map key_cmp) by exact Hs.
      rewrite map_pair_id by (intros; ring).
      unfold State.clean, State.set_par. simpl.
      rewrite clean_par_filter by exact Hs.
      rewrite filter_all.
      + now destruct S.
      + intros it Hin. apply Rgtb_true. now apply Hit.
    - intros this it Hin. now rewrite (HK it Hin). }
  split; [|split; [exact HE | exact HK]].
  rewrite HE. now apply equal_up_to_refl.
Qed.

Lemma apply_identity_witness :
  (0 : Z) <> 1%Z /\
  (0 <= tol one_photon)%R /\
  FlatMap.sorted key_cmp (par one_photon) /\
  (forall it, In it (par one_photon) ->
     FlatMap.sorted mode_cmp (fst it) /\ in_table 0 1 (fst it) /\
     (tol one_photon < / Key.factor2 0 1 (fst it))%R /\
     (tol one_photon < Rabs (snd it))%R) /\
  equal_up_to (tol one_photon)
              (State.apply U_identity [0; 1]%Z one_photon) one_photon.
Proof.
  assert (H1 : (0 : Z) <> 1%Z) by discriminate.
  assert (H2 : (0 <= tol one_photon)%R) by (simpl; lra).
  assert (H4 : forall it, In it (par one_photon) ->
     FlatMap.sorted mode_cmp (fst it) /\ in_table 0 1 (fst it) /\
     (tol one_photon < / Key.factor2 0 1 (fst it))%R /\
     (tol one_photon < Rabs (snd it))%R).
  { intros it [<-|[]]. split; [|split; [|split]].
    - apply one_photon_keys_sorted. now left.
    - intros e [<-|[]] _. simpl. lia.
    - rewrite factor2_fprod. cbn [fst].
      replace (fprod 0 1 [((0, 0), 1)]%Z) with 1%R.
      + rewrite sqrt_1, Rinv_1. simpl. lra.
      + unfold fprod. cbn -[IZR Rmult]. rewrite Rmult_1_l. reflexivity.
    - simpl. rewrite Rabs_R1. lra. }
  split; [exact H1|]. split; [exact H2|].
  split; [exact one_photon_sorted|]. split; [exact H4|].
  exact (proj1 (apply_identity 0 1 one_photon H1 H2 one_photon_sorted H4)).
Defined.

(** Three photons of one kind in mode 0, amplitude 1, with a tolerance of
    one half; and twelve of them with a tolerance of [10^-4]. *)
Definition three_photons : State :=
  mkState [([((0, 0), 3)]%Z, 1%R)] [[0%R; 0%R]] [[1%R]] (/ 2)%R 1%Z.

Definition twelve_photons : State :=
  mkState [([((0, 0), 12)]%Z, 1%R)] [[0%R; 0%R]] [[1%R]] (/ 10 ^ 4)%R 1%Z.

Lemma apply_identity_drops (a b : Z) (k : Key) (t : R) (ws : list WF)
    (bs : list OWF) (lm : Z) :
  a <> b -> FlatMap.sorted mode_cmp k -> in_table a b k ->
  (0 < t)%R -> (/ t <= Key.factor2 a b k)%R ->
  par (State.apply U_identity [a; b] (mkState [(k, 1%R)] ws bs t lm)) = [].
Proof.
  intros Hab Hs Ht H0 Hle. unfold State.apply. cbn [par tol fold_left fst snd].
  rewrite Key_apply_identity by (auto; lra).
  replace (Rgtb (/ Key.factor2 a b k) t) with false; [reflexivity|].
  symmetry. apply Rgtb_false.
  assert (Hf : (0 < Key.factor2 a b k)%R).
  { rewrite factor2_fprod. apply sqrt_lt_R0. now apply fprod_pos. }
  rewrite <- (Rinv_inv t). apply Rinv_le_contravar; auto.
  now apply Rinv_0_lt_compat.
Qed.

(** C1 as stated fails.  In both states the amplitude, 1, is above the
    tolerance, and the identity on the modes 0 and 1 returns the empty
    state: [1 / sqrt(3!)] is below one half, [1 / sqrt(12!)] is below
    [10^-4], and [Key::apply] drops the term.  The result is not the
    input, and not equal to it up to the tolerance either: the key of the
    input is gone. *)
Lemma apply_identity_counterexample :
  (forall it, In it (par three_photons) ->
              (tol three_photons < Rabs (snd it))%R) /\
  par (State.apply U_identity [0; 1]%Z three_photons) = [] /\
  State.apply U_identity [0; 1]%Z three_photons <> three_photons /\
  (forall it, In it (par twelve_photons) ->
              (tol twelve_photons < Rabs (snd it))%R) /\
  par (State.apply U_identity [0; 1]%Z twelve_photons) = [] /\
  State.apply U_identity [0; 1]%Z twelve_photons <> twelve_photons /\
  ~ equal_up_to (tol three_photons)
      (State.apply U_identity [0; 1]%Z three_photons) three_photons /\
  ~ equal_up_to (tol twelve_photons)
      (State.apply U_identity [0; 1]%Z twelve_photons) twelve_photons.
Proof.
  assert (E3 : par (State.apply U_identity [0; 1]%Z three_photons) = []).
  { apply apply_identity_drops.
    - discriminate.
    - unfold FlatMap.sorted. simpl. repeat constructor.
    - intros e [<-|[]] _. simpl. lia.
    - lra.
    - rewrite Rinv_inv, factor2_fprod. unfold fprod. cbn -[IZR Rmult].
      rewrite <- (sqrt_pow2 2) by lra. apply sqrt_le_1_alt. simpl. lra. }
  assert (E12 : par (State.apply U_identity [0; 1]%Z twelve_photons) = []).
  { apply apply_identity_drops.
    - discriminate.
    - unfold FlatMap.sorted. simpl. repeat constructor.
    - intros e [<-|[]] _. simpl. lia.
    - simpl. lra.
    - rewrite Rinv_inv, factor2_fprod. unfold fprod. cbn -[IZR Rmult pow].
      rewrite <- (sqrt_pow2 (10 ^ 4)) by (simpl; lra).
      apply sqrt_le_1_alt. simpl. lra. }
  split; [|split; [|split; [|split; [|split; [|split; [|split]]]]]].
  - intros it [<-|[]]. simpl. rewrite Rabs_R1. lra.
  - exact E3.
  - intros F. rewrite F in E3. discriminate.
  - intros it [<-|[]]. simpl. rewrite Rabs_R1. lra.
  - exact E12.
  - intros F. rewrite F in E12. discriminate.
  - intros [F _]. rewrite E3 in F. discriminate.
  - intros [F _]. rewrite E12 in F. discriminate.
Qed.

(** ** The substitution of the two-mode [apply] *)

(** The coefficient of the branch with [j] photons in [a] and [n - j] in
    [b] as the claim words the substitution: an entry in [a] (side 0) is
    sent to [U00 a' + U01 b'], an entry in [b] (side 1) to
    [U10 a' + U11 b'], with [U = \[U00, U01, U10, U11\]]. *)
Definition claimed_branch_amp (U : list R) (i : nat) (n j : Z) : R :=
  (nth (2 * i) U 0 ^ Z.to_nat j * binomialCoeff n j
     * nth (2 * i + 1) U 0 ^ Z.to_nat (n - j) / sqrt (IZR (facut n)))%R.

Lemma branch_amp_formula (U : list R) (i : nat) (n j : Z) :
  Key.branch_amp U i n j
  = (nth i U 0 ^ Z.to_nat j * binomialCoeff n j
       * nth (i + 2) U 0 ^ Z.to_nat (n - j) / sqrt (IZR (facut n)))%R.
Proof. unfold Key.branch_amp, Rdiv. ring. Qed.

Lemma branch_key_occupation (a b d n j : Z) :
  a <> b -> (0 <= j <= n)%Z ->
  occupation (a, d) (Key.branch_key a b d n j) = j /\
  occupation (b, d) (Key.branch_key a b d n j) = (n - j)%Z /\
  (forall x, x <> (a, d) -> x <> (b, d) ->
     FlatMap.find mode_cmp x (Key.branch_key a b d n j) = None).
Proof.
  intros Hab Hj. unfold occupation. split; [|split].
  - rewrite branch_key_find by exact Hab. rewrite cmp_refl.
    destruct (Z.gtb_spec j 0); lia.
  - rewrite branch_key_find by exact Hab. rewrite cmp_refl.
    rewrite (mode_cmp_pair b d a d).
    destruct (Z.compare_spec b a) as [E|L|G]; [congruence| |];
      destruct (Z.gtb_spec (n - j) 0); lia.
  - intros x Ha Hb. rewrite branch_key_find by exact Hab.
    destruct (mode_cmp x (a, d)) eqn:E1.
    + apply cmp_eq in E1. contradiction.
    + destruct (mode_cmp x (b, d)) eqn:E2; auto.
      apply cmp_eq in E2. contradiction.
    + destruct (mode_cmp x (b, d)) eqn:E2; auto.
      apply cmp_eq in E2. contradiction.
Qed.

Lemma Key_apply_sorted (U : list R) (modes : list Z) (t : R) (k : Key) :
  FlatMap.sorted key_cmp (Key.apply U modes t k).
Proof.
  unfold Key.apply, Key.apply_finish, FlatMap.insert_or_assign.
  apply (fold_left_inv (fun out => FlatMap.sorted key_cmp out)).
  - apply FlatMap.sorted_nil.
  - intros out it _ Hout. destruct (Rgtb (Rabs (snd it)) t); auto.
    now apply (FlatMap.upsert_sorted key_cmp).
Qed.

(** ** The substitution as a sum of terms *)

(** The terms an entry of the key is sent to.  An entry with [n] photons
    in spatial mode [a] or [b] is sent to the [n + 1] terms of
    [(U\[i\] a' + U\[i+2\] b')^n / sqrt(n!)], [i] the side of the mode; an
    entry in another spatial mode is sent to itself. *)
Definition entry_terms (U : list R) (a b : Z) (e : Mode * Z)
    : list (Key * R) :=
  let m := fst (fst e) in
  let d := snd (fst e) in
  let n := snd e in
  if ((m =? a) || (m =? b))%Z
  then map (fun j =>
              (Key.branch_key a b d n j,
               (nth (side a m) U 0 ^ Z.to_nat j * binomialCoeff n j
                  * nth (side a m + 2) U 0 ^ Z.to_nat (n - j)
                  / sqrt (IZR (facut n)))%R))
           (Key.upto n)
  else [([e], 1%R)].

(** The product of the terms of all the entries, multiplied out: one term
    for every choice of a term per entry, with the sum of the keys and the
    product of the coefficients.  Terms with the same key are not
    collected. *)
Definition substitution (U : list R) (a b : Z) (k : Key) : list (Key * R) :=
  fold_left (fun E e => products (entry_terms U a b e) E) k
            [(Key.empty, 1%R)].

(** A key occurs in a list of terms. *)
Definition holds (K : Key) (l : list (Key * R)) : bool :=
  existsb (fun x => key_eqb (fst x) K) l.

(** The sum of the coefficients of a list of terms, weighted by a function
    of the key. *)
Definition wsum (g : Key -> R) (l : list (Key * R)) : R :=
  fold_right (fun x s => (g (fst x) * snd x + s)%R) 0%R l.

(** A container holds a list of terms with the terms of equal keys
    collected: it is sorted, holds the keys of the list, and gives the
    same weighted sums. *)
Definition collects (m : SD) (l : list (Key * R)) : Prop :=
  FlatMap.sorted key_cmp m /\
  (forall K, In K (FlatMap.keys m) <-> In K (map fst l)) /\
  (forall g, wsum g m = wsum g l).

Lemma wsum_app (g : Key -> R) (l1 l2 : list (Key * R)) :
  wsum g (l1 ++ l2) = (wsum g l1 + wsum g l2)%R.
Proof. induction l1 as [|x l1 IH]; simpl; [ring|]. rewrite IH. ring. Qed.

Lemma wsum_ext_in (g g' : Key -> R) (l : list (Key * R)) :
  (forall K, In K (map fst l) -> g K = g' K) -> wsum g l = wsum g' l.
Proof.
  induction l as [|x l IH]; simpl; intros H; auto.
  rewrite IH by (intros; apply H; auto). rewrite (H (fst x)); auto.
Qed.

Lemma wsum_upsert_plus (g : Key -> R) (k : Key) (v : R) (m : SD) :
  wsum g (FlatMap.upsert key_cmp Rplus k v m) = (wsum g m + g k * v)%R.
Proof.
  induction m as [|[k1 v1] m IH]; simpl; [ring|].
  destruct (key_cmp k k1) eqn:E; simpl.
  - apply cmp_eq in E. subst k1. ring.
  - ring.
  - rewrite IH. ring.
Qed.

Lemma wsum_upsert_fresh (f : R -> R -> R) (g : Key -> R) (k : Key) (v : R)
    (m : SD) :
  ~ In k (FlatMap.keys m) ->
  wsum g (FlatMap.upsert key_cmp f k v m) = (wsum g m + g k * v)%R.
Proof.
  induction m as [|[k1 v1] m IH]; simpl; intros Hn; [ring|].
  destruct (key_cmp k k1) eqn:E; simpl.
  - apply cmp_eq in E. subst k1. exfalso. apply Hn. now left.
  - ring.
  - rewrite IH by (intros H; apply Hn; now right). ring.
Qed.

Lemma keys_upsert (f : R -> R -> R) (k : Key) (v : R) (m : SD) (K : Key) :
  In K (FlatMap.keys (FlatMap.upsert key_cmp f k v m))
  <-> K = k \/ In K (FlatMap.keys m).
Proof.
  induction m as [|[k1 v1] m IH]; simpl.
  - split; intros [H|H]; auto.
  - destruct (key_cmp k k1) eqn:E; simpl.
    + apply cmp_eq in E. subst k1.
      split; intros H; repeat destruct H as [H|H]; subst; auto.
    + split; intros H; repeat destruct H as [H|H]; subst; auto.
    + rewrite IH.
      split; intros H; repeat destruct H as [H|H]; subst; auto.
Qed.

(** A loop of stores that add up. *)
Lemma fold_accumulate_collects (l : list (Key * R)) (acc : SD) :
  FlatMap.sorted key_cmp acc ->
  let m := fold_left (fun m x =>
                        FlatMap.accumulate key_cmp Rplus (fst x) (snd x) m)
                     l acc in
  FlatMap.sorted key_cmp m /\
  (forall K, In K (FlatMap.keys m)
             <-> In K (FlatMap.keys acc) \/ In K (map fst l)) /\
  (forall g, wsum g m = (wsum g acc + wsum g l)%R).
Proof.
  revert acc. induction l as [|x l IH]; simpl; intros acc Hs.
  - split; [exact Hs|]. split; [tauto|]. intros g. ring.
  - destruct (IH (FlatMap.accumulate key_cmp Rplus (fst x) (snd x) acc))
      as [H1 [H2 H3]].
    { now apply (FlatMap.upsert_sorted key_cmp). }
    split; [exact H1|]. split.
    + intros K. rewrite H2. unfold FlatMap.accumulate. rewrite keys_upsert.
      split; intros H; repeat destruct H as [H|H]; auto.
    + intros g. rewrite H3. unfold FlatMap.accumulate.
      rewrite wsum_upsert_plus. ring.
Qed.

(** A loop of stores under keys that are all different and new. *)
Lemma fold_distinct_collects {A} (f : R -> R -> R) (kf : A -> Key)
    (vf : A -> R) (l : list A) (acc : SD) :
  NoDup (map kf l) ->
  (forall x, In x l -> ~ In (kf x) (FlatMap.keys acc)) ->
  FlatMap.sorted key_cmp acc ->
  let m := fold_left (fun m x => FlatMap.upsert key_cmp f (kf x) (vf x) m)
                     l acc in
  FlatMap.sorted key_cmp m /\
  (forall K, In K (FlatMap.keys m)
             <-> In K (FlatMap.keys acc) \/ In K (map kf l)) /\
  (forall g, wsum g m
             = (wsum g acc + wsum g (map (fun x => (kf x, vf x)) l))%R).
Proof.
  revert acc. induction l as [|x l IH]; simpl; intros acc Hn Hf Hs.
  - split; [exact Hs|]. split; [tauto|]. intros g. ring.
  - inversion Hn as [|? ? Hx Hn']; subst.
    destruct (IH (FlatMap.upsert key_cmp f (kf x) (vf x) acc)) as [H1 [H2 H3]].
    + exact Hn'.
    + intros y Hy. rewrite keys_upsert. intros [E|H].
      * apply Hx. rewrite <- E. now apply in_map.
      * exact (Hf y (or_intror Hy) H).
    + now apply (FlatMap.upsert_sorted key_cmp).
    + split; [exact H1|]. split.
      * intros K. rewrite H2, keys_upsert.
        split; intros H; repeat destruct H as [H|H]; auto.
      * intros g. rewrite H3.
        rewrite wsum_upsert_fresh by (apply Hf; now left). ring.
Qed.

Lemma wsum_products (g : Key -> R) (X Y : list (Key * R)) :
  wsum g (products X Y)
  = wsum (fun kx => wsum (fun ky => g (Key.add ky kx)) Y) X.
Proof.
  unfold products. induction X as [|x X IH]; simpl; auto.
  rewrite wsum_app, IH.
  assert (G : wsum g (map (fun rit : Key * R =>
                             (Key.add (fst rit) (fst x), (snd x * snd rit)%R)) Y)
              = (wsum (fun ky => g (Key.add ky (fst x))) Y * snd x)%R).
  { clear IH. induction Y as [|y Y IHY]; simpl; [ring|]. rewrite IHY. ring. }
  rewrite G. reflexivity.
Qed.

Lemma keys_products (X Y : list (Key * R)) (K : Key) :
  In K (map fst (products X Y))
  <-> exists kx ky, In kx (map fst X) /\ In ky (map fst Y) /\
                    K = Key.add ky kx.
Proof.
  unfold products. rewrite in_map_iff. split.
  - intros [z [<- Hz]]. apply in_flat_map in Hz. destruct Hz as [x [Hx Hz]].
    apply in_map_iff in Hz. destruct Hz as [y [<- Hy]].
    exists (fst x), (fst y). repeat split; now apply in_map.
  - intros [kx [ky [Hx [Hy ->]]]].
    apply in_map_iff in Hx, Hy.
    destruct Hx as [x [<- Hx]]. destruct Hy as [y [<- Hy]].
    exists (Key.add (fst y) (fst x), (snd x * snd y)%R). split; auto.
    apply in_flat_map. exists x. split; auto.
    apply in_map_iff. exists y. auto.
Qed.

(** The terms multiplied out depend on the keys and the weighted sums of
    the two factors only. *)
Lemma products_collects (X X' Y Y' : list (Key * R)) :
  (forall K, In K (map fst X) <-> In K (map fst X')) ->
  (forall g, wsum g X = wsum g X') ->
  (forall K, In K (map fst Y) <-> In K (map fst Y')) ->
  (forall g, wsum g Y = wsum g Y') ->
  (forall K, In K (map fst (products X Y))
             <-> In K (map fst (products X' Y'))) /\
  (forall g, wsum g (products X Y) = wsum g (products X' Y')).
Proof.
  intros KX WX KY WY. split.
  - intros K. rewrite !keys_products.
    split; intros [kx [ky [Hx [Hy E]]]]; exists kx, ky;
      (split; [now apply KX|split; [now apply KY|exact E]]).
  - intros g. rewrite !wsum_products. rewrite WX.
    apply wsum_ext_in. intros kx _. apply WY.
Qed.

Lemma sum_at_wsum (K : Key) (l : list (Key * R)) :
  sum_at K l = wsum (fun k => if key_eqb k K then 1%R else 0%R) l.
Proof.
  induction l as [|x l IH]; simpl; auto. rewrite IH.
  destruct (key_eqb (fst x) K); ring.
Qed.

Lemma holds_In (K : Key) (l : list (Key * R)) :
  holds K l = true <-> In K (map fst l).
Proof.
  unfold holds. rewrite existsb_exists, in_map_iff.
  split; intros [x [H1 H2]]; exists x.
  - apply key_eqb_true in H2. auto.
  - split; auto. now apply key_eqb_true.
Qed.

Lemma amp_at_sorted_sum (K : Key) (m : SD) :
  FlatMap.sorted key_cmp m -> amp_at K m = sum_at K m.
Proof.
  unfold amp_at. induction m as [|[k1 v1] m IH]; simpl; intros Hs; auto.
  specialize (IH (FlatMap.sorted_tail key_cmp Hs)).
  destruct (key_eqb k1 K) eqn:E.
  - apply key_eqb_true in E. subst k1. rewrite cmp_refl.
    rewrite <- IH.
    pose proof (FlatMap.find_tail_None key_cmp Hs) as F. cbn [fst] in F.
    rewrite F. ring.
  - apply key_eqb_false in E.
    destruct (key_cmp K k1) eqn:C.
    + apply cmp_eq in C. congruence.
    + rewrite IH. ring.
    + rewrite IH. ring.
Qed.

(** What a container that collects a list of terms holds for a key. *)
Lemma collects_find (m : SD) (l : list (Key * R)) (K : Key) :
  collects m l ->
  FlatMap.find key_cmp K m
  = if holds K l then Some (sum_at K l) else None.
Proof.
  intros [Hs [Hk Hw]].
  destruct (FlatMap.find key_cmp K m) as [v|] eqn:F.
  - assert (Hin : In K (FlatMap.keys m)).
    { apply (FlatMap.find_In key_cmp) in F.
      change K with (fst (K, v)). now apply in_map. }
    rewrite (proj2 (holds_In K l)) by now apply Hk.
    f_equal. rewrite sum_at_wsum, <- Hw, <- sum_at_wsum.
    rewrite <- amp_at_sorted_sum by exact Hs. unfold amp_at. now rewrite F.
  - apply (FlatMap.find_None_notin key_cmp) in F.
    destruct (holds K l) eqn:H; auto.
    apply holds_In in H. apply Hk in H. contradiction.
Qed.

Lemma collects_unique (m m' : SD) (l : list (Key * R)) :
  collects m l -> collects m' l -> m = m'.
Proof.
  intros H H'. apply (FlatMap.sorted_ext key_cmp).
  - exact (proj1 H).
  - exact (proj1 H').
  - intros K. now rewrite (collects_find m l K H), (collects_find m' l K H').
Qed.

(** The terms of an entry in one of the two modes, and what the loop over
    the branches stores. *)
Lemma entry_terms_branches (U : list R) (a b m d n : Z) :
  a <> b -> m = a \/ m = b ->
  entry_terms U a b ((m, d), n)
  = map (fun j => (Key.branch_key a b d n j, Key.branch_amp U (side a m) n j))
        (Key.upto n) /\
  collects (Key.apply_branches U a b (side a m) d n)
           (entry_terms U a b ((m, d), n)).
Proof.
  intros Hab Hm.
  assert (E : entry_terms U a b ((m, d), n)
              = map (fun j => (Key.branch_key a b d n j,
                               Key.branch_amp U (side a m) n j))
                    (Key.upto n)).
  { unfold entry_terms. cbn [fst snd].
    replace ((m =? a)%Z || (m =? b)%Z) with true.
    - apply map_ext. intros j. now rewrite branch_amp_formula.
    - symmetry. apply orb_true_iff.
      destruct Hm as [->| ->]; [left|right]; apply Z.eqb_refl. }
  split; [exact E|]. rewrite E.
  destruct (fold_distinct_collects (fun _ new : R => new)
              (Key.branch_key a b d n) (Key.branch_amp U (side a m) n)
              (Key.upto n) []) as [H1 [H2 H3]].
  - apply NoDup_map_on; [apply upto_NoDup|].
    intros x y Hx Hy. apply upto_spec in Hx. apply upto_spec in Hy.
    apply branch_key_inj; auto; lia.
  - intros x _ [].
  - apply FlatMap.sorted_nil.
  - unfold collects, Key.apply_branches, FlatMap.insert_or_assign.
    split; [exact H1|]. split.
    + intros K. rewrite H2, map_map. cbn [fst]. simpl. tauto.
    + intros g. rewrite H3. simpl. ring.
Qed.

(** One round of the loop of [apply] on a container that collects a list
    of terms collects the terms multiplied with the terms of the entry. *)
Lemma apply_step_collects (U : list R) (a b : Z) (pre : Key) (e : Mode * Z)
    (Ret : SD) (E : list (Key * R)) :
  a <> b ->
  FlatMap.sorted mode_cmp (pre ++ [e]) ->
  (forall r, In r Ret -> carried a b pre (fst r)) ->
  collects Ret E ->
  collects (Key.apply_step U a b Ret e) (products (entry_terms U a b e) E).
Proof.
  intros Hab Hs Hc [HRs [HRk HRw]].
  destruct e as [[m d] n]. unfold Key.apply_step. cbn [fst snd].
  destruct (negb (m =? a)%Z && negb (m =? b)%Z) eqn:Hm.
  - (* an entry outside the two modes *)
    apply andb_true_iff in Hm. destruct Hm as [Ha Hb].
    apply negb_true_iff in Ha, Hb.
    apply Z.eqb_neq in Ha, Hb.
    assert (Hadd : forall r, In r Ret ->
                   Key.add (fst r) [((m, d), n)]
                   = FlatMap.insert_or_assign mode_cmp (m, d) n (fst r)).
    { intros r Hr. destruct (Hc r Hr) as [Hrs Hrf].
      assert (Hnew : FlatMap.find mode_cmp (m, d) (fst r) = None).
      { rewrite Hrf by (cbn [fst]; assumption).
        exact (find_prefix_last pre ((m, d), n) Hs). }
      apply (FlatMap.sorted_ext mode_cmp).
      - apply Key_add_sorted. unfold FlatMap.sorted. simpl. repeat constructor.
      - now apply (FlatMap.upsert_sorted mode_cmp).
      - intros x. rewrite Key_add_find;
          [|exact Hrs|unfold FlatMap.sorted; simpl; repeat constructor].
        unfold FlatMap.insert_or_assign.
        rewrite (FlatMap.find_upsert mode_cmp) by exact Hrs.
        rewrite find_single. cbn [fst snd].
        destruct (mode_cmp x (m, d)) eqn:C.
        + apply cmp_eq in C. subst x. now rewrite Hnew.
        + now destruct (FlatMap.find mode_cmp x (fst r)).
        + now destruct (FlatMap.find mode_cmp x (fst r)). }
    destruct (fold_distinct_collects (fun _ new : R => new)
                (fun it : Key * R =>
                   FlatMap.insert_or_assign mode_cmp (m, d) n (fst it))
                snd Ret []) as [H1 [H2 H3]].
    + apply NoDup_map_on.
      * apply (NoDup_map_inv fst). exact (sorted_keys_NoDup key_cmp Ret HRs).
      * intros x y Hx Hy. now apply (pass_inj a b pre m d n Ret).
    + intros x _ [].
    + apply FlatMap.sorted_nil.
    + unfold Key.apply_pass, FlatMap.insert_or_assign at 1.
      assert (Et : entry_terms U a b ((m, d), n) = [([((m, d), n)], 1%R)]).
      { unfold entry_terms. cbn [fst snd].
        now rewrite (proj2 (Z.eqb_neq m a) Ha), (proj2 (Z.eqb_neq m b) Hb). }
      rewrite Et. split; [exact H1|]. split.
      * intros K. rewrite H2, keys_products. simpl. split.
        -- intros [[]|H]. apply in_map_iff in H. destruct H as [r [<- Hr]].
           exists [((m, d), n)], (fst r). split; [now left|]. split.
           ++ apply HRk. now apply in_map.
           ++ symmetry. now apply Hadd.
        -- intros [kx [ky [[<-|[]] [Hy ->]]]]. right.
           apply HRk in Hy. apply in_map_iff in Hy.
           destruct Hy as [r [<- Hr]]. apply in_map_iff. exists r.
           split; auto. symmetry. now apply Hadd.
      * intros g.
        assert (G : wsum g (map (fun x : Key * R =>
                     (FlatMap.insert_or_assign mode_cmp (m, d) n (fst x), snd x))
                     Ret)
                    = wsum (fun ky => g (Key.add ky [((m, d), n)])) Ret).
        { clear H1 H2 H3 HRs HRk HRw Hc.
          induction Ret as [|r Ret IH]; simpl; auto.
          rewrite IH by (intros; apply Hadd; now right).
          rewrite (Hadd r) by now left. reflexivity. }
        rewrite H3.
        transitivity (wsum g []
                      + wsum (fun ky => g (Key.add ky [((m, d), n)])) Ret)%R;
          [f_equal; exact G|].
        rewrite wsum_products, HRw. simpl. ring.
  - (* an entry in one of the two modes *)
    assert (Hab' : m = a \/ m = b).
    { destruct (Z.eqb_spec m a); auto. destruct (Z.eqb_spec m b); auto.
      discriminate. }
    destruct (entry_terms_branches U a b m d n Hab Hab') as [_ [HBs [HBk HBw]]].
    fold (side a m).
    rewrite convolve_products.
    destruct (fold_accumulate_collects
                (products (Key.apply_branches U a b (side a m) d n) Ret) []
                (FlatMap.sorted_nil key_cmp)) as [H1 [H2 H3]].
    destruct (products_collects
                (Key.apply_branches U a b (side a m) d n)
                (entry_terms U a b ((m, d), n)) Ret E HBk HBw HRk HRw)
      as [P1 P2].
    split; [exact H1|]. split.
    + intros K. rewrite H2. simpl. rewrite <- P1. tauto.
    + intros g. rewrite H3. simpl. rewrite <- P2. ring.
Qed.

Lemma apply_fold_collects (U : list R) (a b : Z) (post : list (Mode * Z)) :
  a <> b ->
  forall (pre : Key) (Ret : SD) (E : list (Key * R)),
  FlatMap.sorted mode_cmp (pre ++ post) ->
  (forall r, In r Ret -> carried a b pre (fst r)) ->
  collects Ret E ->
  collects (fold_left (Key.apply_step U a b) post Ret)
           (fold_left (fun E e => products (entry_terms U a b e) E) post E).
Proof.
  intros Hab. induction post as [|e post IH]; intros pre Ret E Hs Hc HR.
  - exact HR.
  - simpl.
    replace (pre ++ e :: post) with ((pre ++ [e]) ++ post) in Hs
      by (rewrite <- app_assoc; reflexivity).
    assert (Hs1 : FlatMap.sorted mode_cmp (pre ++ [e]))
      by exact (FlatMap.sorted_app_l mode_cmp Hs).
    apply (IH (pre ++ [e])); auto.
    + now apply (carried_step U a b pre e Ret Hab).
    + now apply (apply_step_collects U a b pre e Ret E).
Qed.

(** The container at the end of the loop over the entries collects the
    terms of the substitution. *)
Lemma apply_loop_collects (U : list R) (a b : Z) (k : Key) :
  a <> b -> FlatMap.sorted mode_cmp k ->
  collects (fold_left (Key.apply_step U a b) k [(Key.empty, 1%R)])
           (substitution U a b k).
Proof.
  intros Hab Hs. unfold substitution.
  apply (apply_fold_collects U a b k Hab []); auto.
  - intros r [<-|[]]. split; [apply FlatMap.sorted_nil | reflexivity].
  - split; [|split].
    + unfold FlatMap.sorted. simpl. repeat constructor.
    + intros K. simpl. tauto.
    + intros g. reflexivity.
Qed.

Lemma find_map_filter (keep : Key * R -> bool) (g : Key * R -> R) (m : SD)
    (K : Key) :
  FlatMap.sorted key_cmp m ->
  FlatMap.find key_cmp K (map (fun x => (fst x, g x)) (filter keep m))
  = match FlatMap.find key_cmp K m with
    | Some v => if keep (K, v) then Some (g (K, v)) else None
    | None => None
    end.
Proof.
  induction m as [|[k1 v1] m IH]; simpl; intros Hs; auto.
  specialize (IH (FlatMap.sorted_tail key_cmp Hs)).
  destruct (key_cmp K k1) eqn:C.
  - apply cmp_eq in C. subst k1.
    destruct (keep (K, v1)); simpl.
    + now rewrite cmp_refl.
    + rewrite IH.
      pose proof (FlatMap.find_tail_None key_cmp Hs) as F. cbn [fst] in F.
      now rewrite F.
  - destruct (keep (k1, v1)); simpl; [rewrite C|]; exact IH.
  - destruct (keep (k1, v1)); simpl; [rewrite C|]; exact IH.
Qed.

(** The result of [apply] on two different modes, key by key. *)
Lemma Key_apply_find (U : list R) (a b : Z) (tol : R) (k K : Key) :
  a <> b -> FlatMap.sorted mode_cmp k ->
  FlatMap.find key_cmp K (Key.apply U [a; b] tol k)
  = if holds K (substitution U a b k)
       && Rgtb (Rabs (sum_at K (substitution U a b k))) tol
    then Some (sum_at K (substitution U a b k) * Key.factor2 a b K)%R
    else None.
Proof.
  intros Hab Hs. unfold Key.apply. cbn [nth].
  pose proof (apply_loop_collects U a b k Hab Hs) as HC.
  set (Ret := fold_left (Key.apply_step U a b) k [(Key.empty, 1%R)]) in *.
  unfold Key.apply_finish, FlatMap.insert_or_assign.
  rewrite (FlatMap.rebuild_filter_map key_cmp
             (fun it => Rgtb (Rabs (snd it)) tol)
             (fun it => (snd it * Key.factor2 a b (fst it))%R) Ret [])
    by exact (proj1 HC).
  cbn [app]. rewrite find_map_filter by exact (proj1 HC).
  rewrite (collects_find Ret _ K HC).
  destruct (holds K (substitution U a b k)); reflexivity.
Qed.

(** C2, as the code has it.  For two different modes [a] and [b] and a
    key [k]:

    - an entry with [n] photons in spatial mode [a] (side 0) or [b]
      (side 1) is expanded into the branches [j = 0..n]; the branch [j]
      has [j] photons in [(a, d)], [n - j] in [(b, d)] and nothing else,
      and is stored with the coefficient
      [U\[i\]^j C(n,j) U\[i+2\]^(n-j) / sqrt(n!)], [i] the side: an entry
      in [a] is sent to [U\[0\] a' + U\[2\] b'] and an entry in [b] to
      [U\[1\] a' + U\[3\] b'];
    - the result of [apply] is the substitution multiplied out, with the
      terms of equal keys collected: it is sorted, and it holds a key [K]
      exactly when [K] occurs in [substitution U a b k] and the sum [A] of
      the coefficients of [K] there has an absolute value above the
      tolerance; the amplitude stored for [K] is then [A] times
      [factor(a, b)] of [K];
    - every key of the result holds, in the other spatial modes, exactly
      what [k] holds;
    - a round of the loop over the entries is the double loop over the
      branches for an entry in [a] or [b], and the copy with the entry
      added for any other entry. *)
Theorem apply_substitution (U : list R) (a b : Z) (tol : R) (k : Key) :
  a <> b ->
  FlatMap.sorted mode_cmp k ->
  (forall m d n j, m = a \/ m = b -> (0 <= j <= n)%Z ->
     let i := side a m in
     let K := Key.branch_key a b d n j in
     FlatMap.find key_cmp K (Key.apply_branches U a b i d n)
     = Some (nth i U 0 ^ Z.to_nat j * binomialCoeff n j
               * nth (i + 2) U 0 ^ Z.to_nat (n - j) / sqrt (IZR (facut n)))%R
     /\ occupation (a, d) K = j
     /\ occupation (b, d) K = (n - j)%Z
     /\ (forall x, x <> (a, d) -> x <> (b, d) ->
           FlatMap.find mode_cmp x K = None)) /\
  FlatMap.sorted key_cmp (Key.apply U [a; b] tol k) /\
  (forall K,
     let A := sum_at K (substitution U a b k) in
     FlatMap.find key_cmp K (Key.apply U [a; b] tol k)
     = if holds K (substitution U a b k) && Rgtb (Rabs A) tol
       then Some (A * Key.factor2 a b K)%R
       else None) /\
  (forall y, In y (Key.apply U [a; b] tol k) ->
     forall x : Mode, fst x <> a -> fst x <> b ->
       FlatMap.find mode_cmp x (fst y) = FlatMap.find mode_cmp x k) /\
  (forall m d n Ret, m = a \/ m = b ->
     Key.apply_step U a b Ret ((m, d), n)
     = Key.apply_convolve (Key.apply_branches U a b (side a m) d n) Ret) /\
  (forall m d n Ret, m <> a -> m <> b ->
     Key.apply_step U a b Ret ((m, d), n) = Key.apply_pass m d n Ret).
Proof.
  intros Hab Hs. split; [|split; [|split; [|split; [|split]]]].
  - intros m d n j Hm Hj i K.
    destruct (branch_key_occupation a b d n j Hab Hj) as [H1 [H2 H3]].
    split; [|auto].
    unfold K. rewrite branches_find by assumption.
    now rewrite branch_amp_formula.
  - apply Key_apply_sorted.
  - intros K A. unfold A. now apply Key_apply_find.
  - intros y Hy x Ha Hb.
    destruct (apply_carried U a b tol k y Hab Hs Hy) as [_ Hc]. now apply Hc.
  - intros m d n Ret Hm. unfold Key.apply_step, side. cbn [fst snd].
    destruct Hm as [->| ->].
    + now rewrite Z.eqb_refl.
    + rewrite Z.eqb_refl. cbn [negb andb].
      now rewrite andb_false_r.
  - intros m d n Ret Ha Hb. unfold Key.apply_step. cbn [fst snd].
    now rewrite (proj2 (Z.eqb_neq m a) Ha), (proj2 (Z.eqb_neq m b) Hb).
Qed.

Lemma apply_substitution_witness :
  let k := [((0, 0), 1); ((2, 0), 1)]%Z in
  (0 : Z) <> 1%Z /\
  FlatMap.sorted mode_cmp k /\
  (forall K,
     FlatMap.find key_cmp K (Key.apply U_identity [0; 1]%Z 0 k)
     = if holds K (substitution U_identity 0 1 k)
          && Rgtb (Rabs (sum_at K (substitution U_identity 0 1 k))) 0
       then Some (sum_at K (substitution U_identity 0 1 k)
                  * Key.factor2 0 1 K)%R
       else None) /\
  (forall y, In y (Key.apply U_identity [0; 1]%Z 0 k) ->
     forall x : Mode, fst x <> 0%Z -> fst x <> 1%Z ->
       FlatMap.find mode_cmp x (fst y) = FlatMap.find mode_cmp x k).
Proof.
  intros k.
  assert (H1 : (0 : Z) <> 1%Z) by discriminate.
  assert (H2 : FlatMap.sorted mode_cmp k).
  { unfold FlatMap.sorted. simpl. repeat constructor. }
  split; [exact H1|]. split; [exact H2|].
  destruct (apply_substitution U_identity 0 1 0 k H1 H2)
    as [_ [_ [H3 [H4 _]]]].
  split; [exact H3 | exact H4].
Defined.

(** The quarter turn [\[0, 1, -1, 0\]], a unitary that is not symmetric. *)
Definition U_turn : list R := [0%R; 1%R; (-1)%R; 0%R].

(** What [apply] returns for [U_turn] on the modes 0 and 1 and one photon
    in mode 0: the photon in mode 1, with amplitude -1. *)
Lemma apply_turn_result :
  Key.apply U_turn [0; 1]%Z 0 [((0, 0), 1)]%Z = [([((1, 0), 1)]%Z, (-1)%R)].
Proof.
  assert (E0 : Key.branch_amp U_turn 0 1 0 = (-1)%R).
  { unfold Key.branch_amp, U_turn. cbn [nth Nat.add].
    rewrite binomial_none by lia.
    change (facut 1) with 1%Z. rewrite sqrt_1.
    change (Z.to_nat 0) with 0%nat. change (Z.to_nat (1 - 0)) with 1%nat.
    simpl. field. }
  assert (E1 : Key.branch_amp U_turn 0 1 1 = 0%R).
  { unfold Key.branch_amp, U_turn. cbn [nth Nat.add].
    rewrite binomial_full by lia.
    change (facut 1) with 1%Z. rewrite sqrt_1.
    change (Z.to_nat 1) with 1%nat. change (Z.to_nat (1 - 1)) with 0%nat.
    simpl. field. }
  unfold Key.apply. cbn [nth fold_left].
  replace (Key.apply_step U_turn 0 1 [(Key.empty, 1%R)] ((0, 0), 1)%Z)
    with [([((0, 0), 1)]%Z, (Key.branch_amp U_turn 0 1 1 * 1)%R);
          ([((1, 0), 1)]%Z, (Key.branch_amp U_turn 0 1 0 * 1)%R)]
    by reflexivity.
  rewrite E0, E1. unfold Key.apply_finish. cbn [fold_left fst snd].
  replace (Rgtb (Rabs (0 * 1)) 0) with false
    by (symmetry; apply Rgtb_false; rewrite Rmult_0_l, Rabs_R0; lra).
  replace (Rgtb (Rabs (-1 * 1)) 0) with true
    by (symmetry; apply Rgtb_true; unfold Rabs;
        destruct (Rcase_abs (-1 * 1)); lra).
  unfold FlatMap.insert_or_assign. cbn [FlatMap.upsert].
  do 2 f_equal. rewrite factor2_fprod.
  replace (fprod 0 1 [((1, 0), 1)]%Z) with 1%R.
  - rewrite sqrt_1. ring.
  - unfold fprod. cbn -[IZR Rmult]. rewrite Rmult_1_l. reflexivity.
Qed.

(** C2 as stated fails on [U_turn] and one photon in [a]: the branch that
    moves the photon to [b] is stored with coefficient [U\[2\] = U10 = -1],
    where the substitution worded in the claim has [U01 = 1]; and [apply]
    returns the photon in [b] with amplitude -1. *)
Lemma apply_substitution_counterexample :
  FlatMap.find key_cmp (Key.branch_key 0 1 0 1 0)
               (Key.apply_branches U_turn 0 1 0 0 1) = Some (-1)%R /\
  Key.branch_key 0 1 0 1 0 = [((1, 0), 1)]%Z /\
  claimed_branch_amp U_turn 0 1 0 = 1%R /\
  Key.branch_amp U_turn 0 1 0 <> claimed_branch_amp U_turn 0 1 0 /\
  Key.apply U_turn [0; 1]%Z 0 [((0, 0), 1)]%Z = [([((1, 0), 1)]%Z, (-1)%R)].
Proof.
  assert (E1 : Key.branch_amp U_turn 0 1 0 = (-1)%R).
  { unfold Key.branch_amp, U_turn. cbn [nth Nat.add].
    rewrite binomial_none by lia.
    change (facut 1) with 1%Z. rewrite sqrt_1.
    change (Z.to_nat 0) with 0%nat. change (Z.to_nat (1 - 0)) with 1%nat.
    simpl. field. }
  assert (E2 : claimed_branch_amp U_turn 0 1 0 = 1%R).
  { unfold claimed_branch_amp, U_turn. cbn [nth Nat.add Nat.mul].
    rewrite binomial_none by lia.
    change (facut 1) with 1%Z. rewrite sqrt_1.
    change (Z.to_nat 0) with 0%nat. change (Z.to_nat (1 - 0)) with 1%nat.
    simpl. field. }
  split; [|split; [reflexivity|split; [exact E2|split]]].
  - rewrite branches_find by (try discriminate; lia). now rewrite E1.
  - rewrite E1, E2. lra.
  - exact apply_turn_result.
Qed.

(** ** Occupation numbers stay positive *)

Definition key_positive (k : Key) : Prop := forall e, In e k -> (0 < snd e)%Z.

Definition key_nonneg (k : Key) : Prop := forall e, In e k -> (0 <= snd e)%Z.

Definition keys_positive (p : FlatMap.t Key R) : Prop :=
  forall it, In it p -> key_positive (fst it).

Definition keys_nonneg (p : FlatMap.t Key R) : Prop :=
  forall it, In it p -> key_nonneg (fst it).

Lemma upsert_keys {K V} (cmp : K -> K -> comparison) `{!CmpOrder cmp}
    (P : K -> Prop) (f : V -> V -> V) (k : K) (v : V) (m : FlatMap.t K V) :
  (forall y, In y m -> P (fst y)) -> P k ->
  forall y, In y (FlatMap.upsert cmp f k v m) -> P (fst y).
Proof.
  intros Hm Hk y Hy. apply (FlatMap.In_upsert cmp) in Hy.
  destruct Hy as [->|Hy]; auto.
Qed.

Lemma key_upsert_positive (f : Z -> Z -> Z) (p : Mode) (c : Z) (k : Key) :
  key_positive k -> (0 < c)%Z ->
  (forall old, (0 < old)%Z -> (0 < f old c)%Z) ->
  key_positive (FlatMap.upsert mode_cmp f p c k).
Proof.
  intros Hk Hc Hf e He. apply (In_upsert_cases mode_cmp) in He.
  destruct He as [->|[He|[old [Ho ->]]]]; cbn [snd]; auto.
  apply Hf. exact (Hk _ Ho).
Qed.

Lemma key_upsert_nonneg (f : Z -> Z -> Z) (p : Mode) (c : Z) (k : Key) :
  key_nonneg k -> (0 <= c)%Z ->
  (forall old, (0 <= old)%Z -> (0 <= f old c)%Z) ->
  key_nonneg (FlatMap.upsert mode_cmp f p c k).
Proof.
  intros Hk Hc Hf e He. apply (In_upsert_cases mode_cmp) in He.
  destruct He as [->|[He|[old [Ho ->]]]]; cbn [snd]; auto.
  apply Hf. exact (Hk _ Ho).
Qed.

Lemma key_positive_nil : key_positive [].
Proof. intros e []. Qed.

Lemma make_positive (a b c : Z) : (0 < c)%Z -> key_positive (Key.make a b c).
Proof. intros Hc e [<-|[]]. exact Hc. Qed.

Lemma incr_positive (a b c : Z) (k : Key) :
  (0 < c)%Z -> key_positive k -> key_positive (Key.incr a b c k).
Proof.
  intros Hc Hk. unfold Key.incr, FlatMap.accumulate.
  apply key_upsert_positive; auto. intros; lia.
Qed.

Lemma addEnd_positive (a b c : Z) (k : Key) :
  (0 < c)%Z -> key_positive k -> key_positive (Key.addEnd a b c k).
Proof.
  intros Hc Hk. unfold Key.addEnd, FlatMap.insert_or_assign.
  apply key_upsert_positive; auto.
Qed.

Lemma insert_or_assign_positive (p : Mode) (c : Z) (k : Key) :
  (0 < c)%Z -> key_positive k ->
  key_positive (FlatMap.insert_or_assign mode_cmp p c k).
Proof.
  intros Hc Hk. unfold FlatMap.insert_or_assign.
  apply key_upsert_positive; auto.
Qed.

Lemma swap_positive (a b : Z) (k : Key) :
  key_positive k -> key_positive (Key.swap a b k).
Proof.
  intros Hk. unfold Key.swap, FlatMap.insert.
  apply (fold_left_inv key_positive); [apply key_positive_nil|].
  intros acc e He Hacc.
  apply key_upsert_positive; auto.
  unfold Key.swap_entry.
  destruct (fst (fst e) =? a)%Z; [|destruct (fst (fst e) =? b)%Z];
    cbn [snd]; now apply Hk.
Qed.

Lemma clean_positive (k : Key) : key_positive (Key.clean k).
Proof.
  unfold Key.clean, FlatMap.insert_or_assign.
  apply (fold_left_inv key_positive); [apply key_positive_nil|].
  intros acc e He Hacc. destruct (Z.gtb_spec (snd e) 0); auto.
  apply key_upsert_positive; auto.
Qed.

Lemma add_positive (p k : Key) :
  key_positive p -> key_positive k -> key_positive (Key.add p k).
Proof.
  intros Hp Hk. unfold Key.add, FlatMap.accumulate.
  apply (fold_left_inv key_positive); [exact Hk|].
  intros acc e He Hacc.
  apply key_upsert_positive;
    [exact Hacc | now apply Hp | intros old Ho; specialize (Hp e He); lia].
Qed.

Lemma apply_step_positive (U : list R) (a b : Z) (Ret : SD) (e : Mode * Z) :
  (0 < snd e)%Z -> keys_positive Ret ->
  keys_positive (Key.apply_step U a b Ret e).
Proof.
  intros He HR y Hy. unfold Key.apply_step in Hy.
  destruct (negb (fst (fst e) =? a)%Z && negb (fst (fst e) =? b)%Z).
  - apply In_apply_pass in Hy. destruct Hy as [r [Hr ->]]. cbn [fst].
    apply insert_or_assign_positive; [exact He | now apply HR].
  - apply In_convolve in Hy. destruct Hy as [ri [r [Hri [Hr ->]]]].
    apply branches_In in Hri. destruct Hri as [j [_ ->]]. cbn [fst].
    apply add_positive; [now apply HR | apply clean_positive].
Qed.

Lemma Key_apply_positive (U : list R) (modes : list Z) (tol : R) (k : Key) :
  key_positive k -> keys_positive (Key.apply U modes tol k).
Proof.
  intros Hk y Hy. unfold Key.apply in Hy.
  apply In_apply_finish in Hy. destruct Hy as [r [Hr [_ ->]]]. cbn [fst].
  revert r Hr. apply (fold_left_inv keys_positive).
  - intros r [<-|[]]. apply key_positive_nil.
  - intros Ret e He HR. apply apply_step_positive; auto.
Qed.

Lemma collapse_positive (f : FlatMap.t Z Z) (amp : R) (k K2 : Key) (v : R) :
  key_positive k -> Key.collapse f amp k = Some (K2, v) -> key_positive K2.
Proof.
  intros Hk. unfold Key.collapse.
  assert (G : forall p, fold_left (Key.collapse_step f) k (Some []) = Some p ->
                        key_positive p).
  { apply (fold_left_inv (fun acc => forall p, acc = Some p -> key_positive p)).
    - intros p [= <-]. apply key_positive_nil.
    - intros acc e He Hacc p. unfold Key.collapse_step.
      destruct acc as [q|]; [|discriminate].
      destruct (FlatMap.find Z.compare (snd (fst e)) f); [|discriminate].
      intros [= <-]. unfold FlatMap.accumulate.
      apply key_upsert_positive;
        [exact (Hacc q eq_refl) | now apply Hk
        | intros old Ho; specialize (Hk e He); lia]. }
  destruct (fold_left (Key.collapse_step f) k (Some [])) as [p|]; [|discriminate].
  intros [= <- _]. now apply G.
Qed.

Lemma scan_subset (m : list Z) (es : list (Mode * Z)) :
  forall (p : Key) (dmode founds : Z) (p' : Key) (founds' : Z),
  Key.sameDModeDel_scan m es p dmode founds = Some (p', founds') ->
  forall e, In e p' -> In e p \/ In e es.
Proof.
  induction es as [|x es IH]; intros p dmode founds p' founds' H e He.
  - simpl in H. injection H as <- _. now left.
  - cbn [Key.sameDModeDel_scan] in H.
    destruct (existsb (Z.eqb (fst (fst x))) m && negb (snd x =? 0)%Z).
    + destruct (dmode =? -1)%Z.
      * destruct (IH _ _ _ _ _ H e He); simpl; auto.
      * destruct (negb (snd (fst x) =? dmode)%Z); [discriminate|].
        destruct (IH _ _ _ _ _ H e He); simpl; auto.
    + destruct (negb (snd x =? 0)%Z).
      * destruct (IH _ _ _ _ _ H e He) as [Hin|Hin]; simpl; auto.
        apply (In_insert mode_cmp) in Hin. destruct Hin as [->|Hin]; auto.
        right. left. now destruct x.
      * destruct (IH _ _ _ _ _ H e He); simpl; auto.
Qed.

Lemma sameDModeDel_positive (m : list Z) (k : Key) :
  key_positive k -> key_positive (snd (Key.sameDModeDel m k)).
Proof.
  intros Hk. unfold Key.sameDModeDel.
  destruct (Key.sameDModeDel_scan m k [] (-1) 0) as [[p founds]|] eqn:E; auto.
  cbn [snd]. intros e He.
  destruct (scan_subset m k _ _ _ _ _ E e He) as [[]|Hin]. now apply Hk.
Qed.

Lemma Key_loss_nonneg (modes : list Z) (lm maxLM : Z) (k : Key) :
  key_positive k -> keys_nonneg (fst (Key.loss modes lm maxLM k)).
Proof.
  intros Hk. unfold Key.loss.
  assert (Hn : key_nonneg k) by (intros e He; specialize (Hk e He); lia).
  assert (G : keys_nonneg
                (fst (fst (fold_left (Key.loss_step modes lm k) k
                                     ([], 0%Z, maxLM))))).
  { apply (fold_left_inv (fun st => keys_nonneg (fst (fst st)))).
    - intros it [].
    - intros [[R0 total] mx] e He HR. unfold Key.loss_step.
      destruct (negb (Key.position (fst (fst e)) modes
                      =? Z.of_nat (length modes))%Z) eqn:E1; cbn [andb]; auto.
      destruct (Z.gtb_spec (snd e) 0); auto. cbn [fst].
      unfold FlatMap.insert_or_assign at 1. unfold keys_nonneg.
      apply (upsert_keys key_cmp key_nonneg); [exact HR|].
      unfold FlatMap.insert_or_assign.
      apply key_upsert_nonneg;
        [apply key_upsert_nonneg; [exact Hn | lia | intros; lia]
        | lia | intros; lia]. }
  destruct (fold_left (Key.loss_step modes lm k) k ([], 0%Z, maxLM))
    as [[R0 total] mx]. cbn [fst] in G.
  destruct (total =? 0)%Z; cbn [fst].
  - unfold FlatMap.insert_or_assign, keys_nonneg.
    now apply (upsert_keys key_cmp key_nonneg).
  - intros it Hit. apply in_map_iff in Hit. destruct Hit as [y [<- Hy]].
    cbn [fst]. now apply G.
Qed.

Lemma copy_keys {A} (P : Key -> Prop) (f : R -> R -> R) (keep : A -> bool)
    (kf : A -> Key) (vf : A -> R) (l : list A) (acc : FlatMap.t Key R) :
  (forall y, In y acc -> P (fst y)) ->
  (forall x, In x l -> P (kf x)) ->
  forall y,
    In y (fold_left (fun out x =>
                       if keep x then FlatMap.upsert key_cmp f (kf x) (vf x) out
                       else out) l acc) ->
    P (fst y).
Proof.
  intros Ha Hl.
  apply (fold_left_inv (fun m : FlatMap.t Key R => forall y, In y m -> P (fst y)));
    [exact Ha|].
  intros m x Hx Hm. destruct (keep x); auto.
  apply (upsert_keys key_cmp P); auto.
Qed.

Lemma store_keys {A} (P : Key -> Prop) (f : R -> R -> R)
    (kf : A -> Key) (vf : A -> R) (l : list A) (acc : FlatMap.t Key R) :
  (forall y, In y acc -> P (fst y)) ->
  (forall x, In x l -> P (kf x)) ->
  forall y,
    In y (fold_left (fun out x => FlatMap.upsert key_cmp f (kf x) (vf x) out)
                    l acc) ->
    P (fst y).
Proof.
  intros Ha Hl.
  apply (fold_left_inv (fun m : FlatMap.t Key R => forall y, In y m -> P (fst y)));
    [exact Ha|].
  intros m x Hx Hm. apply (upsert_keys key_cmp P); auto.
Qed.

Lemma no_keys (P : Key -> Prop) : forall y : Key * R, In y [] -> P (fst y).
Proof. intros y []. Qed.

Lemma keys_positive_nil : keys_positive [].
Proof. intros y []. Qed.

Section PositiveCounts.
Variable S : State.
Hypothesis positive : keys_positive (par S).

Lemma clean_positive_keys : keys_positive (par (State.clean S)).
Proof.
  unfold State.clean, State.clean_par, FlatMap.insert. simpl.
  unfold keys_positive; apply (copy_keys key_positive); [apply no_keys | exact positive].
Qed.

Lemma normalise_positive_keys : keys_positive (par (State.normalise S)).
Proof.
  unfold State.normalise, FlatMap.insert. simpl.
  unfold keys_positive; apply (copy_keys key_positive); [apply no_keys | exact positive].
Qed.

Lemma mul_positive_keys (n : R) : keys_positive (par (State.mul n S)).
Proof.
  unfold State.mul, FlatMap.insert. simpl.
  unfold keys_positive; apply (copy_keys key_positive); [apply no_keys | exact positive].
Qed.

Lemma swap_positive_keys (a b : Z) : keys_positive (par (State.swap a b S)).
Proof.
  unfold State.swap, FlatMap.insert. simpl.
  unfold keys_positive; apply (store_keys key_positive (fun old _ => old)
           (fun it => Key.swap a b (fst it)) snd); [apply no_keys|].
  intros it Hit. apply swap_positive. now apply positive.
Qed.

Lemma apply1_positive_keys (U : R) (mode : Z) :
  keys_positive (par (State.apply1 U mode S)).
Proof.
  unfold State.apply1. simpl. intros it Hit.
  apply in_map_iff in Hit. destruct Hit as [y [<- Hy]]. simpl.
  now apply positive.
Qed.

Lemma apply_positive_keys (U : list R) (modes : list Z) :
  keys_positive (par (State.apply U modes S)).
Proof.
  unfold State.apply, State.clean, State.clean_par, FlatMap.insert. simpl.
  unfold keys_positive; apply (copy_keys key_positive); [apply no_keys|].
  apply (fold_left_inv (fun m : FlatMap.t Key R => keys_positive m));
    [exact keys_positive_nil|].
  intros m it Hit Hm. unfold State.add_scaled, FlatMap.accumulate.
  unfold keys_positive; apply (store_keys key_positive Rplus fst (fun x => (snd it * snd x)%R));
    [exact Hm|].
  apply Key_apply_positive. now apply positive.
Qed.

Lemma overlapWithFilter_positive_keys (ref : FlatMap.t Z Z)
    (allModes : list (list Z)) (fref : list (FlatMap.t Z Z)) :
  keys_positive (par (fst (State.overlapWithFilter ref allModes fref S))) /\
  keys_positive (par (snd (State.overlapWithFilter ref allModes fref S))).
Proof.
  unfold State.overlapWithFilter. rewrite owf_fold. simpl.
  unfold FlatMap.insert, keys_positive. split;
    (apply (copy_keys key_positive); [apply no_keys | exact positive]).
Qed.

Lemma overlapCompl_positive_keys (MVec : list (FlatMap.t Z Z))
    (allModes : list (list Z)) :
  keys_positive (par (State.overlapCompl MVec allModes S)).
Proof.
  unfold State.overlapCompl, FlatMap.insert. simpl.
  unfold keys_positive; apply (copy_keys key_positive (fun old _ => old)
           (fun it : Key * R =>
              negb (fold_left (fun hit ref =>
                                 if Key.overlapping ref (fst it) then true else hit)
                              MVec false)
              || negb (Key.notEmpty allModes (fst it)))
           fst snd); [apply no_keys | exact positive].
Qed.

Lemma sameDModeDel_try_positive (modes : list (list Z)) (facs : list R)
    (i : nat) (it : Key * R) (K : Key) (v : R) :
  key_positive (fst it) ->
  State.sameDModeDel_try modes facs i it = Some (K, v) -> key_positive K.
Proof.
  intros Hit. revert i. induction modes as [|m modes IH]; intros i; simpl.
  - discriminate.
  - pose proof (sameDModeDel_positive m (fst it) Hit) as Hp.
    destruct (Key.sameDModeDel m (fst it)) as [ok K']. cbn [snd] in Hp.
    destruct ok; [|apply IH]. intros [= <- _]. exact Hp.
Qed.

Lemma sameDModeDel_positive_keys (modes : list (list Z)) (facs : list R) :
  keys_positive (par (State.sameDModeDel modes facs S)).
Proof.
  unfold State.sameDModeDel. simpl.
  apply (fold_left_inv (fun m : FlatMap.t Key R => keys_positive m));
    [exact keys_positive_nil|].
  intros m it Hit Hm.
  destruct (State.sameDModeDel_try modes facs 0 it) as [[K v]|] eqn:E; auto.
  unfold FlatMap.accumulate, keys_positive.
  apply (upsert_keys key_cmp key_positive); auto.
  apply (sameDModeDel_try_positive modes facs 0 it K v); auto.
Qed.

Lemma collapse_positive_keys (K : Key) (S' : State) :
  State.collapse K S = Some S' -> keys_positive (par S').
Proof.
  unfold State.collapse.
  set (step := fun (acc : option (FlatMap.t Key R)) (it : Key * R) =>
                 match acc with
                 | Some p =>
                     match Key.collapse (State.collapse_map K) (snd it) (fst it) with
                     | Some (K2, v) =>
                         Some (FlatMap.accumulate key_cmp Rplus K2 v p)
                     | None => None
                     end
                 | None => None
                 end).
  assert (G : forall p, fold_left step (par S) (Some []) = Some p ->
                        keys_positive p).
  { apply (fold_left_inv (fun acc => forall p, acc = Some p -> keys_positive p)).
    - intros p [= <-]. exact keys_positive_nil.
    - intros acc it Hit Hacc p. unfold step.
      destruct acc as [q|]; [|discriminate].
      destruct (Key.collapse (State.collapse_map K) (snd it) (fst it))
        as [[K2 v]|] eqn:E; [|discriminate].
      intros [= <-]. unfold FlatMap.accumulate, keys_positive.
      apply (upsert_keys key_cmp key_positive); [exact (Hacc q eq_refl)|].
      apply (collapse_positive _ _ _ _ _ (positive it Hit) E). }
  destruct (fold_left step (par S) (Some [])) as [p|]; [|discriminate].
  intros [= <-]. simpl. now apply G.
Qed.

Lemma addPhoton_positive_keys (get_ovlp : WF -> WF -> R) (wf : WF)
    (mode num : Z) :
  (0 < num)%Z ->
  keys_positive (par (State.addPhoton get_ovlp wf mode num S)).
Proof.
  intros Hn. pose proof positive as Hpos. unfold State.addPhoton.
  destruct (par S) as [|t p] eqn:Ep.
  - simpl. intros it [<-|[]]. now apply make_positive.
  - rewrite <- Ep. rewrite <- Ep in Hpos.
    destruct (State.find_wave get_ovlp wf (waves S) 0) as [index|].
    + simpl. unfold FlatMap.insert.
      unfold keys_positive; apply (store_keys key_positive (fun old _ => old)
               (fun it => Key.incr mode index num (fst it)) snd);
        [apply no_keys|].
      intros it Hit. apply incr_positive; auto.
    + destruct (State.addBasisElem get_ovlp wf S) as [S1 decomp]. simpl.
      apply (fold_left_inv (fun m : FlatMap.t Key R => keys_positive m));
        [exact keys_positive_nil|].
      intros m it Hit Hm. unfold FlatMap.insert.
      unfold keys_positive; apply (store_keys key_positive (fun old _ => old)
               (fun i => Key.addEnd mode (Z.of_nat i) num (fst it))
               (fun i => (snd it * nth i decomp 0)%R)); [exact Hm|].
      intros i _. apply addEnd_positive; auto.
Qed.

Lemma notEmpty_positive_keys (allModes : list (list Z)) :
  keys_positive (par (State.notEmpty allModes S)).
Proof.
  unfold State.notEmpty, State.normalise, FlatMap.insert. simpl.
  unfold keys_positive; apply (copy_keys key_positive); [apply no_keys|].
  unfold keys_positive; apply (copy_keys key_positive (fun old _ => old)
           (fun it : Key * R => Key.notEmpty allModes (fst it)) fst snd);
    [apply no_keys | exact positive].
Qed.

Lemma loss_nonneg_keys (modes : list Z) :
  keys_nonneg (par (State.loss modes S)).
Proof.
  unfold State.loss.
  assert (G : keys_nonneg
                (fst (fold_left (State.loss_step modes (lossMode S)) (par S)
                                ([], 0%Z)))).
  { apply (fold_left_inv (fun st : FlatMap.t Key R * Z => keys_nonneg (fst st))).
    - intros it [].
    - intros [this mx] it Hit Hm. unfold State.loss_step. cbn [fst snd].
      pose proof (Key_loss_nonneg modes (lossMode S) mx (fst it)
                    (positive it Hit)) as HK.
      destruct (Key.loss modes (lossMode S) mx (fst it)) as [sd mx'].
      cbn [fst] in *. unfold State.add_scaled, FlatMap.accumulate.
      unfold keys_nonneg; apply (store_keys key_nonneg Rplus fst (fun x => (snd it * snd x)%R));
        auto. }
  destruct (fold_left (State.loss_step modes (lossMode S)) (par S) ([], 0%Z))
    as [this mx]. cbn [fst] in G.
  unfold State.clean, State.clean_par, FlatMap.insert. simpl.
  unfold keys_nonneg; apply (copy_keys key_nonneg); [apply no_keys | exact G].
Qed.

End PositiveCounts.

(** C5, as the code has it.  The empty state holds no key, and on a state
    whose keys have positive occupation numbers only, [addPhoton] (of a
    positive number of photons), the two [apply], [swap], [collapse], the
    filters [overlapWithFilter], [overlapCompl], [notEmpty] and
    [sameDModeDel], [normalise], [mul] and [clean] leave keys with
    positive occupation numbers only.  [loss] does not: it leaves the
    entry it takes the photon from in the key, with one photon less, so
    its occupation numbers are not negative, and 0 where one photon was. *)
Theorem positive_counts_kept (S : State) :
  keys_positive (par S) ->
  keys_positive (par State.empty) /\
  (forall get_ovlp wf mode num, (0 < num)%Z ->
     keys_positive (par (State.addPhoton get_ovlp wf mode num S))) /\
  (forall U modes, keys_positive (par (State.apply U modes S))) /\
  (forall U mode, keys_positive (par (State.apply1 U mode S))) /\
  (forall a b, keys_positive (par (State.swap a b S))) /\
  (forall K S', State.collapse K S = Some S' -> keys_positive (par S')) /\
  (forall ref allModes fref,
     keys_positive (par (fst (State.overlapWithFilter ref allModes fref S))) /\
     keys_positive (par (snd (State.overlapWithFilter ref allModes fref S)))) /\
  (forall MVec allModes,
     keys_positive (par (State.overlapCompl MVec allModes S))) /\
  (forall allModes, keys_positive (par (State.notEmpty allModes S))) /\
  (forall modes facs, keys_positive (par (State.sameDModeDel modes facs S))) /\
  keys_positive (par (State.normalise S)) /\
  (forall n, keys_positive (par (State.mul n S))) /\
  keys_positive (par (State.clean S)) /\
  (forall modes, keys_nonneg (par (State.loss modes S))).
Proof.
  intros H.
  split; [exact keys_positive_nil|].
  split; [intros; now apply addPhoton_positive_keys|].
  split; [intros; now apply apply_positive_keys|].
  split; [intros; now apply apply1_positive_keys|].
  split; [intros; now apply swap_positive_keys|].
  split; [intros K S'; now apply collapse_positive_keys|].
  split; [intros; now apply overlapWithFilter_positive_keys|].
  split; [intros; now apply overlapCompl_positive_keys|].
  split; [intros; now apply notEmpty_positive_keys|].
  split; [intros; now apply sameDModeDel_positive_keys|].
  split; [now apply normalise_positive_keys|].
  split; [intros; now apply mul_positive_keys|].
  split; [now apply clean_positive_keys|].
  intros; now apply loss_nonneg_keys.
Qed.

Lemma one_photon_positive : keys_positive (par one_photon).
Proof. intros it [<-|[]] e [<-|[]]. simpl. lia. Qed.

Lemma positive_counts_kept_witness :
  keys_positive (par one_photon) /\
  keys_positive (par (State.swap 0 1 one_photon)) /\
  keys_nonneg (par (State.loss [0%Z] one_photon)).
Proof.
  split; [exact one_photon_positive|].
  pose proof (positive_counts_kept one_photon one_photon_positive) as H.
  split.
  - exact (proj1 (proj2 (proj2 (proj2 (proj2 H)))) 0%Z 1%Z).
  - exact (proj2 (proj2 (proj2 (proj2 (proj2 (proj2 (proj2 (proj2 (proj2
             (proj2 (proj2 (proj2 (proj2 H)))))))))))) [0%Z]).
Defined.

(** The result of [Key::loss] on the key of [one_photon]. *)
Lemma one_photon_Key_loss :
  Key.loss [0%Z] 1 0 [((0, 0), 1)]%Z
  = ([([((0, 0), 0); ((1, 0), 1)]%Z, (sqrt (IZR 1) / sqrt (IZR 1))%R)], 2%Z).
Proof. reflexivity. Qed.

(** C5 as stated fails on [loss]: the state with one photon in mode 0,
    which [addPhoton] builds from the empty state, comes out of [loss] on
    mode 0 with the key that still holds the pair (0, 0), with 0 photons,
    next to the photon in the loss mode 1. *)
Lemma positive_counts_counterexample :
  State.addPhoton trivOvlF [0%R; 0%R] 0 1 State.empty = one_photon /\
  par (State.loss [0%Z] one_photon)
  = [([((0, 0), 0); ((1, 0), 1)]%Z, (1 * (sqrt (IZR 1) / sqrt (IZR 1)))%R)] /\
  ~ keys_positive (par (State.loss [0%Z] one_photon)).
Proof.
  assert (E : par (State.loss [0%Z] one_photon)
              = [([((0, 0), 0); ((1, 0), 1)]%Z,
                  (1 * (sqrt (IZR 1) / sqrt (IZR 1)))%R)]).
  { unfold State.loss.
    replace (fold_left (State.loss_step [0%Z] (lossMode one_photon))
                       (par one_photon) ([], 0%Z))
      with ([([((0, 0), 0); ((1, 0), 1)]%Z,
              (1 * (sqrt (IZR 1) / sqrt (IZR 1)))%R)], 2%Z)
      by reflexivity.
    unfold State.clean, State.clean_par. cbn [par tol fold_left fst snd].
    change (tol one_photon) with (/ 10 ^ 9)%R.
    replace (Rgtb (Rabs (1 * (sqrt 1 / sqrt 1))) (/ 10 ^ 9)) with true;
      [reflexivity|].
    symmetry. apply Rgtb_true. rewrite sqrt_1.
    replace (1 * (1 / 1))%R with 1%R by field. rewrite Rabs_R1. simpl. lra. }
  split; [reflexivity|]. split; [exact E|].
  intros H. rewrite E in H.
  specialize (H _ (or_introl eq_refl) ((0, 0), 0)%Z (or_introl eq_refl)).
  simpl in H. lia.
Qed.

(** ** Amplitudes through the state-level [apply] *)

Lemma sum_at_sorted (K : Key) (l : SD) :
  FlatMap.sorted key_cmp l -> sum_at K l = amp_at K l.
Proof.
  induction l as [|[k v] l IH]; intros Hs; [reflexivity|].
  cbn [sum_at fold_right fst snd]. fold (sum_at K l).
  rewrite IH by exact (FlatMap.sorted_tail key_cmp Hs).
  unfold amp_at. cbn [FlatMap.find].
  destruct (key_eqb k K) eqn:E.
  - apply key_eqb_true in E. subst K. rewrite cmp_refl.
    pose proof (FlatMap.find_tail_None key_cmp Hs) as T. cbn [fst] in T.
    rewrite T. ring.
  - apply key_eqb_false in E. destruct (key_cmp K k) eqn:C.
    + apply cmp_eq in C. congruence.
    + ring.
    + ring.
Qed.

Lemma sum_at_scale (K : Key) (v : R) (l : list (Key * R)) :
  sum_at K (map (fun x => (fst x, (v * snd x)%R)) l) = (v * sum_at K l)%R.
Proof.
  induction l as [|x l IH]; simpl; [ring|].
  fold (sum_at K l).
  fold (sum_at K (map (fun x => (fst x, (v * snd x)%R)) l)).
  rewrite IH. destruct (key_eqb (fst x) K); ring.
Qed.

Lemma amp_at_scale (K : Key) (v : R) (l : SD) :
  amp_at K (map (fun x => (fst x, (v * snd x)%R)) l) = (v * amp_at K l)%R.
Proof.
  unfold amp_at. induction l as [|[k w] l IH]; simpl; [ring|].
  destruct (key_cmp K k); auto.
Qed.

Lemma amp_at_add_scaled (K : Key) (sd : SD) (v : R) (this : FlatMap.t Key R) :
  FlatMap.sorted key_cmp sd -> FlatMap.sorted key_cmp this ->
  amp_at K (State.add_scaled sd v this)
  = (amp_at K this + v * amp_at K sd)%R.
Proof.
  intros Hsd Hthis.
  assert (E : State.add_scaled sd v this
              = fold_left
                  (fun m x => FlatMap.accumulate key_cmp Rplus (fst x) (snd x) m)
                  (map (fun x : Key * R => (fst x, (v * snd x)%R)) sd) this).
  { rewrite fold_left_map. reflexivity. }
  rewrite E, amp_at_fold_accumulate by exact Hthis.
  rewrite sum_at_scale, sum_at_sorted by exact Hsd. reflexivity.
Qed.

Lemma add_scaled_sorted (sd : SD) (v : R) (this : FlatMap.t Key R) :
  FlatMap.sorted key_cmp this ->
  FlatMap.sorted key_cmp (State.add_scaled sd v this).
Proof.
  intros Hs. unfold State.add_scaled, FlatMap.accumulate.
  now apply (fold_upsert_sorted key_cmp).
Qed.

Lemma find_filter_sorted (f : Key * R -> bool) (m : SD) (K : Key) :
  FlatMap.sorted key_cmp m ->
  FlatMap.find key_cmp K (filter f m)
  = match FlatMap.find key_cmp K m with
    | Some v => if f (K, v) then Some v else None
    | None => None
    end.
Proof.
  induction m as [|[k v] m IH]; intros Hs; [reflexivity|].
  pose proof (FlatMap.find_tail_None key_cmp Hs) as T. cbn [fst] in T.
  specialize (IH (FlatMap.sorted_tail key_cmp Hs)).
  cbn [filter FlatMap.find].
  destruct (key_cmp K k) eqn:C.
  - apply cmp_eq in C. subst K.
    destruct (f (k, v)).
    + cbn [FlatMap.find]. now rewrite cmp_refl.
    + rewrite IH, T. reflexivity.
  - destruct (f (k, v)); [cbn [FlatMap.find]; rewrite C|]; exact IH.
  - destruct (f (k, v)); [cbn [FlatMap.find]; rewrite C|]; exact IH.
Qed.

(** What [clean] leaves under a key, for a tolerance that is not negative. *)
Lemma find_clean_par (K : Key) (t : R) (m : SD) :
  FlatMap.sorted key_cmp m -> (0 <= t)%R ->
  FlatMap.find key_cmp K (State.clean_par t m)
  = if Rgtb (Rabs (amp_at K m)) t then Some (amp_at K m) else None.
Proof.
  intros Hs Ht. rewrite clean_par_filter by exact Hs.
  rewrite find_filter_sorted by exact Hs. unfold amp_at, above_tol.
  destruct (FlatMap.find key_cmp K m) as [v|]; cbn [snd]; auto.
  replace (Rgtb (Rabs 0) t) with false; auto.
  symmetry. apply Rgtb_false. now rewrite Rabs_R0.
Qed.

Lemma clean_par_sorted (t : R) (m : SD) :
  FlatMap.sorted key_cmp (State.clean_par t m).
Proof.
  unfold State.clean_par, FlatMap.insert.
  apply (fold_left_inv (fun out => FlatMap.sorted key_cmp out)).
  - apply FlatMap.sorted_nil.
  - intros out it _ Hout. destruct (Rgtb (Rabs (snd it)) t); auto.
    now apply (FlatMap.upsert_sorted key_cmp).
Qed.

Lemma map_scale_sorted (v : R) (l : SD) :
  FlatMap.sorted key_cmp l ->
  FlatMap.sorted key_cmp (map (fun x => (fst x, (v * snd x)%R)) l).
Proof.
  apply FlatMap.sorted_same_keys. unfold FlatMap.keys.
  rewrite map_map. reflexivity.
Qed.

(** A state of two terms, the first with amplitude 0: the first term
    leaves no trace in the result of [apply]. *)
Lemma apply_second_term (U : list R) (modes : list Z) (S : State)
    (k0 k1 : Key) (v0 v1 : R) :
  par S = [(k0, v0); (k1, v1)] -> v0 = 0%R -> (0 <= tol S)%R ->
  par (State.apply U modes S)
  = State.clean_par (tol S)
      (map (fun x => (fst x, (v1 * snd x)%R)) (Key.apply U modes (tol S) k1)).
Proof.
  intros Hp Hv Ht. unfold State.apply, State.clean, State.set_par.
  cbn [par tol]. rewrite Hp. cbn [fold_left fst snd].
  set (sd0 := Key.apply U modes (tol S) k0).
  set (sd1 := Key.apply U modes (tol S) k1).
  assert (H0 : FlatMap.sorted key_cmp sd0) by apply Key_apply_sorted.
  assert (H1 : FlatMap.sorted key_cmp sd1) by apply Key_apply_sorted.
  assert (Hthis : FlatMap.sorted key_cmp
                    (State.add_scaled sd1 v1 (State.add_scaled sd0 v0 []))).
  { apply add_scaled_sorted, add_scaled_sorted, FlatMap.sorted_nil. }
  apply (FlatMap.sorted_ext key_cmp); try apply clean_par_sorted.
  intros K. rewrite !find_clean_par; auto.
  - rewrite amp_at_scale.
    rewrite !amp_at_add_scaled;
      auto using FlatMap.sorted_nil, add_scaled_sorted.
    replace (amp_at K [] + v0 * amp_at K sd0 + v1 * amp_at K sd1)%R
      with (v1 * amp_at K sd1)%R; [reflexivity|].
    subst v0. unfold amp_at at 2. simpl. ring.
  - now apply map_scale_sorted.
Qed.

(** ** Two photons at a balanced beam splitter *)

Local Open Scope R_scope.

(** The beam splitter of [simAux.hpp], [{1/sqrt 2, 1/sqrt 2, 1/sqrt 2,
    -1/sqrt 2}]. *)
Definition BS : list R := [1 / sqrt 2; 1 / sqrt 2; 1 / sqrt 2; - (1 / sqrt 2)].

Lemma mode_order_cases (a b : Z) :
  a <> b ->
  ((a ?= b) = Lt /\ (b ?= a) = Gt /\ (a <? b) = true
   \/ (a ?= b) = Gt /\ (b ?= a) = Lt /\ (a <? b) = false)%Z.
Proof.
  intros Hne. destruct (Z.compare_spec a b) as [E|L|L]; [contradiction| |].
  - left. repeat split; [now apply Z.compare_gt_iff | now apply Z.ltb_lt].
  - right. repeat split; [now apply Z.compare_lt_iff | apply Z.ltb_ge; lia].
Qed.

Lemma upto_1 : Key.upto 1 = [0; 1]%Z.
Proof. reflexivity. Qed.

(** One photon of label [d]: it is found in [b] or in [a]. *)
Lemma branch_key_one_b a b d : a <> b -> Key.branch_key a b d 1 0 = [((b, d), 1%Z)].
Proof.
  intros H. assert (C : (a < b)%Z \/ (b < a)%Z) by lia.
  destruct C as [C|C]; [rewrite (branch_key_lt _ _ _ _ _ C)|rewrite (branch_key_gt _ _ _ _ _ C)]; reflexivity.
Qed.
Lemma branch_key_one_a a b d : a <> b -> Key.branch_key a b d 1 1 = [((a, d), 1%Z)].
Proof.
  intros H. assert (C : (a < b)%Z \/ (b < a)%Z) by lia.
  destruct C as [C|C]; [rewrite (branch_key_lt _ _ _ _ _ C)|rewrite (branch_key_gt _ _ _ _ _ C)]; reflexivity.
Qed.

Lemma sqrt2_pos : 0 < sqrt 2.
Proof. apply sqrt_lt_R0. lra. Qed.

Lemma sqrt2_sq : sqrt 2 * sqrt 2 = 2.
Proof. apply sqrt_sqrt. lra. Qed.

Lemma half_sqrt2 : / sqrt 2 * / sqrt 2 = / 2.
Proof. rewrite <- Rinv_mult, sqrt2_sq. reflexivity. Qed.

(** The four amplitudes of the loop over [j] for one photon. *)
Lemma BS_branch_amp (i : nat) (j : Z) :
  Key.branch_amp BS i 1 j
  = (nth i BS 0 ^ Z.to_nat j * binomialCoeff 1 j
     * nth (i + 2) BS 0 ^ Z.to_nat (1 - j)).
Proof.
  unfold Key.branch_amp. change (facut 1) with 1%Z. rewrite sqrt_1. field.
Qed.

Lemma BS_stay_a : Key.branch_amp BS 0 1 1 = / sqrt 2.
Proof.
  rewrite BS_branch_amp, binomial_full by lia. simpl.
  pose proof sqrt2_pos. field. lra.
Qed.
Lemma BS_a_to_b : Key.branch_amp BS 0 1 0 = / sqrt 2.
Proof.
  rewrite BS_branch_amp, binomial_none by lia. simpl.
  pose proof sqrt2_pos. field. lra.
Qed.
Lemma BS_b_to_a : Key.branch_amp BS 1 1 1 = / sqrt 2.
Proof.
  rewrite BS_branch_amp, binomial_full by lia. simpl.
  pose proof sqrt2_pos. field. lra.
Qed.
Lemma BS_stay_b : Key.branch_amp BS 1 1 0 = - / sqrt 2.
Proof.
  rewrite BS_branch_amp, binomial_none by lia. simpl.
  pose proof sqrt2_pos. field. lra.
Qed.

Lemma factor2_single (a b : Z) (p q : Mode) :
  Key.factor2 a b [(p, 1%Z); (q, 1%Z)] = 1.
Proof.
  unfold Key.factor2. cbn [fold_left fst snd]. change (facut 1) with 1%Z.
  destruct ((fst p =? a)%Z || (fst p =? b)%Z), ((fst q =? a)%Z || (fst q =? b)%Z);
    rewrite ?Rmult_1_l; apply sqrt_1.
Qed.

Lemma tol_small : / 10 ^ 9 < / 2.
Proof. apply Rinv_lt_contravar; lra. Qed.

Lemma keep_half (x : R) : Rabs x = / 2 -> Rgtb (Rabs x) (/ 10 ^ 9) = true.
Proof. intros ->. apply Rgtb_true, tol_small. Qed.


(** Comparisons of modes with the order of [a] and [b] known. *)
Ltac order_cases a b :=
  repeat (progress (cbn -[Rmult Rplus Rinv Rdiv Ropp sqrt IZR Rabs Rgtb pow
                          Key.factor2 Key.apply_finish];
                    unfold pair_cmp, mode_cmp; cbn [fst snd];
                    rewrite ?Z.compare_refl;
                    repeat match goal with
                           | H : (a ?= b)%Z = _ |- _ => rewrite !H
                           | H : (b ?= a)%Z = _ |- _ => rewrite !H
                           end)).

(** The four terms the beam splitter makes of one photon of label 0 in
    [a] and one of label 1 in [b], in the order of the container. *)
Definition two_photon_output (a b : Z) : FlatMap.t Key R :=
  if (a <? b)%Z
  then [([((a, 0), 1); ((a, 1), 1)]%Z, / 2);
        ([((a, 0), 1); ((b, 1), 1)]%Z, - / 2);
        ([((a, 1), 1); ((b, 0), 1)]%Z, / 2);
        ([((b, 0), 1); ((b, 1), 1)]%Z, - / 2)]
  else [([((b, 0), 1); ((b, 1), 1)]%Z, - / 2);
        ([((b, 0), 1); ((a, 1), 1)]%Z, / 2);
        ([((b, 1), 1); ((a, 0), 1)]%Z, - / 2);
        ([((a, 0), 1); ((a, 1), 1)]%Z, / 2)].

Lemma Key_apply_BS (a b : Z) :
  a <> b ->
  Key.apply BS [a; b] (/ 10 ^ 9) (Key.addEnd b 1 1 (Key.make a 0 1))
  = two_photon_output a b.
Proof.
  intros Hne.
  assert (E1 : (a =? b)%Z = false) by now apply Z.eqb_neq.
  assert (E2 : (b =? a)%Z = false) by (apply Z.eqb_neq; lia).
  assert (H2 : / sqrt 2 * (/ sqrt 2 * 1) = / 2)
    by (rewrite <- half_sqrt2; ring).
  assert (H3 : - / sqrt 2 * (/ sqrt 2 * 1) = - / 2)
    by (rewrite <- half_sqrt2; ring).
  assert (H4 : / sqrt 2 * (- / sqrt 2 * 1) = - / 2)
    by (rewrite <- half_sqrt2; ring).
  pose proof (mode_order_cases a b Hne) as C.
  unfold two_photon_output, Key.addEnd, Key.make, FlatMap.insert_or_assign.
  destruct C as [(C1 & C2 & C3)|(C1 & C2 & C3)]; rewrite C3;
    order_cases a b;
    unfold Key.apply, Key.apply_step; cbn [nth fold_left fst snd];
    rewrite !Z.eqb_refl, ?E1, ?E2; cbn [negb andb];
    unfold Key.apply_branches; rewrite upto_1; cbn [fold_left];
    rewrite !branch_key_one_a, !branch_key_one_b by exact Hne;
    rewrite BS_stay_a, BS_a_to_b, BS_b_to_a, BS_stay_b;
    unfold Key.apply_convolve, FlatMap.insert_or_assign, FlatMap.accumulate,
      Key.add, Key.empty;
    order_cases a b;
    unfold Key.apply_finish; cbn [fold_left fst snd];
    rewrite !factor2_single, ?H2, ?H3, ?H4;
    rewrite !keep_half by (rewrite ?Rabs_Ropp; apply Rabs_pos_eq; lra);
    unfold FlatMap.insert_or_assign;
    order_cases a b;
    rewrite !Rmult_1_r; reflexivity.
Qed.

(** [addPhoton(f, a, 1)], then [addPhoton(g, b, 1)] with [g] orthogonal
    to [f], on the empty state. *)
Section TwoPhotons.
Variable get_ovlp : WF -> WF -> R.
Variables (f g : WF) (a b : Z).

Hypothesis distinct_modes : a <> b.
Hypothesis orthogonal_gf : get_ovlp g f = 0.
Hypothesis orthogonal_fg : get_ovlp f g = 0.
Hypothesis self_overlap : 0 < get_ovlp g g.

Definition two_photons : State :=
  State.addPhoton get_ovlp g b 1 (State.addPhoton get_ovlp f a 1 State.empty).

Lemma two_photons_par :
  par two_photons
  = [(Key.addEnd b 0 1 (Key.make a 0 1), 1 * 0);
     (Key.addEnd b 1 1 (Key.make a 0 1), 1 * 1)]
  /\ tol two_photons = / 10 ^ 9.
Proof.
  unfold two_photons.
  set (S1 := State.addPhoton get_ovlp f a 1 State.empty).
  assert (P1 : par S1 = [(Key.make a 0 1, 1)]) by reflexivity.
  assert (W1 : waves S1 = [f]) by reflexivity.
  assert (B1 : basis S1 = [[1]]) by reflexivity.
  assert (T1 : tol S1 = / 10 ^ 9) by reflexivity.
  unfold State.addPhoton. rewrite P1, W1.
  rewrite find_wave_none
    by (intros w [<-|[]]; exact orthogonal_gf).
  rewrite (addBasisElem_orthogonal get_ovlp g S1).
  - rewrite W1. cbn [length repeat app seq fold_left fst snd nth tol].
    split; [|exact T1].
    pose proof (mode_order_cases a b distinct_modes) as C.
    unfold Key.addEnd, Key.make, FlatMap.insert_or_assign, FlatMap.insert.
    destruct C as [(C1 & C2 & _)|(C1 & C2 & _)]; order_cases a b; reflexivity.
  - rewrite B1, W1. reflexivity.
  - rewrite B1, W1. intros x [<-|[]]. simpl. lia.
  - rewrite W1. intros w [<-|[]]. split; assumption.
  - exact self_overlap.
Qed.

Lemma two_photons_apply :
  par (State.apply BS [a; b] two_photons) = two_photon_output a b.
Proof.
  destruct two_photons_par as [Hp Ht].
  rewrite (apply_second_term BS [a; b] two_photons _ _ _ _ Hp).
  - rewrite Ht, Key_apply_BS by exact distinct_modes.
    unfold two_photon_output.
    assert (H2 : Rgtb (Rabs (1 * 1 * / 2)) (/ 10 ^ 9) = true).
    { apply keep_half. rewrite Rabs_pos_eq; lra. }
    assert (H3 : Rgtb (Rabs (1 * 1 * - / 2)) (/ 10 ^ 9) = true).
    { apply keep_half. replace (1 * 1 * - / 2) with (- / 2) by ring.
      rewrite Rabs_Ropp, Rabs_pos_eq; lra. }
    pose proof (mode_order_cases a b distinct_modes) as C.
    destruct C as [(C1 & C2 & C3)|(C1 & C2 & C3)]; rewrite C3;
      unfold State.clean_par; cbn [map fold_left fst snd];
      rewrite ?H2, ?H3; unfold FlatMap.insert;
      order_cases a b;
      repeat (f_equal; try ring).
  - ring.
  - rewrite Ht. left. apply Rinv_0_lt_compat. lra.
Qed.
End TwoPhotons.

(** The number of photons of a key in one spatial mode, whatever the
    label: the count [Key::apply(U, mode)] takes. *)
Definition spatial_occupation (m : Z) (k : Key) : Z :=
  fold_left (fun s e => if (fst (fst e) =? m)%Z then (s + snd e)%Z else s)
            k 0%Z.

(** The amplitudes of the terms with [na] photons in [a] and [nb] in [b],
    added up. *)
Definition total_amplitude (a b na nb : Z) (p : FlatMap.t Key R) : R :=
  fold_right (fun it s =>
                if (spatial_occupation a (fst it) =? na)%Z
                   && (spatial_occupation b (fst it) =? nb)%Z
                then snd it + s else s)
             0 p.

(** The pattern as the specification words it: nothing on (1,1), equal
    nonzero amplitudes on (2,0) and (0,2). *)
Definition bunching_pattern (a b : Z) (p : FlatMap.t Key R) : Prop :=
  total_amplitude a b 1 1 p = 0 /\
  total_amplitude a b 2 0 p = total_amplitude a b 0 2 p /\
  total_amplitude a b 2 0 p <> 0.

Lemma two_photon_output_totals (a b : Z) :
  a <> b ->
  total_amplitude a b 2 0 (two_photon_output a b) = / 2 /\
  total_amplitude a b 0 2 (two_photon_output a b) = - / 2 /\
  total_amplitude a b 1 1 (two_photon_output a b) = 0.
Proof.
  intros Hne.
  assert (E1 : (a =? b)%Z = false) by now apply Z.eqb_neq.
  assert (E2 : (b =? a)%Z = false) by (apply Z.eqb_neq; lia).
  unfold two_photon_output, total_amplitude, spatial_occupation.
  destruct (a <? b)%Z; cbn [fold_right fold_left fst snd];
    rewrite !Z.eqb_refl, ?E1, ?E2; cbn [Z.add Z.eqb Pos.add Pos.eqb andb Pos.succ];
    repeat split; ring.
Qed.

Lemma two_photon_output_split (a b : Z) :
  a <> b ->
  In ([((a, 0), 1); ((a, 1), 1)]%Z, / 2) (two_photon_output a b) /\
  In ([((b, 0), 1); ((b, 1), 1)]%Z, - / 2) (two_photon_output a b) /\
  In (Key.addEnd b 1 1 (Key.make a 0 1), - / 2) (two_photon_output a b) /\
  In (Key.addEnd b 0 1 (Key.make a 1 1), / 2) (two_photon_output a b).
Proof.
  intros Hne.
  pose proof (mode_order_cases a b Hne) as C.
  unfold two_photon_output, Key.addEnd, Key.make, FlatMap.insert_or_assign.
  destruct C as [(C1 & C2 & C3)|(C1 & C2 & C3)]; rewrite C3;
    order_cases a b; simpl; tauto.
Qed.

(** C7, as the code has it.  One photon with wave function [f] in mode
    [a] and one with an orthogonal wave function [g] in mode [b <> a],
    added to the empty state, get the labels 0 and 1; the balanced beam
    splitter on [a, b] makes four terms of them: both photons in [a] with
    amplitude 1/2, both in [b] with amplitude -1/2, and two terms with one
    photon in each mode, with amplitudes -1/2 (labels kept) and 1/2
    (labels exchanged), which only add up to 0.  The amplitudes for (2,0)
    and (0,2) have opposite signs. *)
Theorem beam_splitter_orthogonal_photons
    (get_ovlp : WF -> WF -> R) (f g : WF) (a b : Z) :
  a <> b -> get_ovlp g f = 0 -> get_ovlp f g = 0 -> 0 < get_ovlp g g ->
  let out := par (State.apply BS [a; b] (two_photons get_ovlp f g a b)) in
  out = two_photon_output a b /\
  total_amplitude a b 2 0 out = / 2 /\
  total_amplitude a b 0 2 out = - / 2 /\
  total_amplitude a b 1 1 out = 0 /\
  In (Key.addEnd b 1 1 (Key.make a 0 1), - / 2) out /\
  In (Key.addEnd b 0 1 (Key.make a 1 1), / 2) out.
Proof.
  intros Hne Hgf Hfg Hgg out.
  assert (E : out = two_photon_output a b)
    by exact (two_photons_apply get_ovlp f g a b Hne Hgf Hfg Hgg).
  rewrite E.
  destruct (two_photon_output_totals a b Hne) as (T1 & T2 & T3).
  destruct (two_photon_output_split a b Hne) as (_ & _ & I1 & I2).
  tauto.
Qed.

Lemma beam_splitter_orthogonal_photons_witness :
  let f := [0; 0] in
  let g := [1; 0] in
  0%Z <> 1%Z /\ trivOvlF g f = 0 /\ trivOvlF f g = 0 /\ 0 < trivOvlF g g /\
  par (State.apply BS [0; 1]%Z (two_photons trivOvlF f g 0 1))
  = two_photon_output 0 1.
Proof.
  intros f g.
  assert (H1 : 0%Z <> 1%Z) by lia.
  assert (H2 : trivOvlF g f = 0)
    by (rewrite trivOvlF_other; simpl; auto; lra).
  assert (H3 : trivOvlF f g = 0)
    by (rewrite trivOvlF_other; simpl; auto; lra).
  assert (H4 : 0 < trivOvlF g g) by (rewrite trivOvlF_same; lra).
  split; [exact H1|]. split; [exact H2|]. split; [exact H3|].
  split; [exact H4|].
  exact (proj1 (beam_splitter_orthogonal_photons trivOvlF f g 0 1 H1 H2 H3 H4)).
Defined.

(** With modes 0 and 1 and the wave functions [(0, 0)] and [(1, 0)] of
    [trivOvlF] the output does not show the pattern: the amplitudes on
    (2,0) and (0,2) differ, and a term with one photon in each mode has an
    amplitude that is not 0. *)
Lemma beam_splitter_counterexample :
  let out := par (State.apply BS [0; 1]%Z
                    (two_photons trivOvlF [0; 0] [1; 0] 0 1)) in
  ~ bunching_pattern 0 1 out /\
  (exists it, In it out /\
              spatial_occupation 0 (fst it) = 1%Z /\
              spatial_occupation 1 (fst it) = 1%Z /\
              snd it <> 0).
Proof.
  intros out.
  assert (H1 : 0%Z <> 1%Z) by lia.
  assert (E : out = two_photon_output 0 1).
  { apply two_photons_apply.
    - exact H1.
    - rewrite trivOvlF_other; simpl; auto; lra.
    - rewrite trivOvlF_other; simpl; auto; lra.
    - rewrite trivOvlF_same; lra. }
  rewrite E.
  destruct (two_photon_output_totals 0 1 H1) as (T1 & T2 & T3).
  split.
  - intros (_ & P & _). rewrite T1, T2 in P. lra.
  - exists ([((0, 0), 1); ((1, 1), 1)]%Z, - / 2). simpl.
    repeat split; auto. lra.
Qed.

(** * Further properties of the engine *)

Local Close Scope R_scope.

(** ** Photon numbers *)

Definition here (m : Z) (e : Mode * Z) : Z :=
  if (fst (fst e) =? m)%Z then snd e else 0%Z.

Lemma spatial_from (m : Z) (k : Key) (s : Z) :
  fold_left (fun s e => if (fst (fst e) =? m)%Z then (s + snd e)%Z else s) k s
  = (s + spatial_occupation m k)%Z.
Proof.
  unfold spatial_occupation. revert s.
  induction k as [|e k IH]; intros s; simpl; [lia|].
  rewrite IH. rewrite (IH (if (fst (fst e) =? m)%Z then snd e else 0%Z)).
  destruct (fst (fst e) =? m)%Z; lia.
Qed.

Lemma spatial_cons (m : Z) (e : Mode * Z) (k : Key) :
  spatial_occupation m (e :: k) = (here m e + spatial_occupation m k)%Z.
Proof.
  unfold spatial_occupation at 1. simpl. rewrite spatial_from.
  unfold here. destruct (fst (fst e) =? m)%Z; lia.
Qed.

Lemma spatial_nil (m : Z) : spatial_occupation m [] = 0%Z.
Proof. reflexivity. Qed.

Lemma spatial_app (m : Z) (k1 k2 : Key) :
  spatial_occupation m (k1 ++ k2)
  = (spatial_occupation m k1 + spatial_occupation m k2)%Z.
Proof.
  induction k1 as [|e k1 IH]; cbn [app]; [rewrite spatial_nil; lia|].
  rewrite !spatial_cons, IH. lia.
Qed.

(** Storing under a pair of another spatial mode leaves the count. *)
Lemma spatial_upsert_other (m : Z) (f : Z -> Z -> Z) (p : Mode) (v : Z)
    (k : Key) :
  fst p <> m ->
  spatial_occupation m (FlatMap.upsert mode_cmp f p v k)
  = spatial_occupation m k.
Proof.
  intros Hp. induction k as [|[q w] k IH]; simpl.
  - rewrite spatial_cons, spatial_nil. unfold here. simpl.
    destruct (Z.eqb_spec (fst p) m); [contradiction|lia].
  - destruct (mode_cmp p q) eqn:C.
    + apply cmp_eq in C. subst q. rewrite !spatial_cons. unfold here. simpl.
      destruct (Z.eqb_spec (fst p) m); [contradiction|lia].
    + rewrite (spatial_cons m (p, v)). unfold here at 1. simpl.
      destruct (Z.eqb_spec (fst p) m); [contradiction|lia].
    + rewrite !spatial_cons, IH. reflexivity.
Qed.

(** Adding [v] photons under a pair adds them to the count of its mode. *)
Lemma spatial_accumulate (m : Z) (p : Mode) (v : Z) (k : Key) :
  spatial_occupation m (FlatMap.accumulate mode_cmp Z.add p v k)
  = (spatial_occupation m k + here m (p, v))%Z.
Proof.
  unfold FlatMap.accumulate. induction k as [|[q w] k IH]; simpl.
  - rewrite spatial_cons, spatial_nil. lia.
  - destruct (mode_cmp p q) eqn:C.
    + apply cmp_eq in C. subst q. rewrite !spatial_cons. unfold here. simpl.
      destruct (fst p =? m)%Z; lia.
    + rewrite (spatial_cons m (p, v)). lia.
    + rewrite !spatial_cons, IH. lia.
Qed.

Lemma spatial_add (m : Z) (p k : Key) :
  spatial_occupation m (Key.add p k)
  = (spatial_occupation m k + spatial_occupation m p)%Z.
Proof.
  unfold Key.add. revert k.
  induction p as [|e p IH]; intros k; simpl; [rewrite spatial_nil; lia|].
  rewrite IH, spatial_accumulate, spatial_cons.
  destruct e as [q w]. simpl. lia.
Qed.

Lemma spatial_photons (m : Z) (p : Mode) (n : Z) :
  (0 <= n)%Z ->
  spatial_occupation m (photons p n) = here m (p, n).
Proof.
  intros Hn. unfold photons. destruct (n >? 0)%Z eqn:E.
  - rewrite spatial_cons, spatial_nil. lia.
  - rewrite spatial_nil. unfold here. simpl.
    assert (n = 0%Z) by lia. subst n. destruct (fst p =? m)%Z; reflexivity.
Qed.

Lemma spatial_branch_key (a b d n j m : Z) :
  a <> b -> (0 <= j <= n)%Z ->
  spatial_occupation m (Key.branch_key a b d n j)
  = (here m ((a, d), j) + here m ((b, d), (n - j)%Z))%Z.
Proof.
  intros Hne Hj.
  assert (C : (a < b)%Z \/ (b < a)%Z) by lia.
  destruct C as [C|C];
    [rewrite (branch_key_lt _ _ _ _ _ C)|rewrite (branch_key_gt _ _ _ _ _ C)];
    rewrite spatial_app, !spatial_photons by lia; lia.
Qed.

(** The invariant of the loop of [Key::apply]: the keys of [Ret] hold in
    every spatial mode other than [a] and [b] what the entries seen so far
    hold, and in [a] and [b] together as many photons as they do. *)
Definition conserved (a b : Z) (pre K : Key) : Prop :=
  (spatial_occupation a K + spatial_occupation b K
   = spatial_occupation a pre + spatial_occupation b pre)%Z.

Lemma conserved_step (U : list R) (a b : Z) (pre : Key) (e : Mode * Z)
    (Ret : SD) :
  a <> b ->
  (forall y, In y Ret -> conserved a b pre (fst y)) ->
  forall y, In y (Key.apply_step U a b Ret e) ->
            conserved a b (pre ++ [e]) (fst y).
Proof.
  intros Hne Hinv y Hy. unfold Key.apply_step in Hy.
  unfold conserved. rewrite !spatial_app, !spatial_cons, !spatial_nil.
  destruct e as [[m d] n]. unfold here. cbn [fst snd] in *.
  destruct (Z.eqb_spec m a) as [Ea|Ea]; cbn [negb andb] in Hy.
  - subst m. apply In_convolve in Hy. destruct Hy as (ri & r & Hri & Hr & E).
    apply branches_In in Hri. destruct Hri as (j & Hj & Eri).
    rewrite E, Eri. cbn [fst]. rewrite !spatial_add.
    rewrite !spatial_branch_key by assumption. unfold here. cbn [fst snd].
    rewrite !Z.eqb_refl.
    destruct (Z.eqb_spec b a); [congruence|].
    destruct (Z.eqb_spec a b); [congruence|].
    specialize (Hinv r Hr). unfold conserved in Hinv. lia.
  - destruct (Z.eqb_spec m b) as [Eb|Eb]; cbn [negb andb] in Hy.
    + subst m. apply In_convolve in Hy. destruct Hy as (ri & r & Hri & Hr & E).
      apply branches_In in Hri. destruct Hri as (j & Hj & Eri).
      rewrite E, Eri. cbn [fst]. rewrite !spatial_add.
      rewrite !spatial_branch_key by assumption. unfold here. cbn [fst snd].
      rewrite !Z.eqb_refl.
      destruct (Z.eqb_spec b a); [congruence|].
      destruct (Z.eqb_spec a b); [congruence|].
      specialize (Hinv r Hr). unfold conserved in Hinv. lia.
    + apply In_apply_pass in Hy. destruct Hy as (r & Hr & E).
      rewrite E. cbn [fst]. unfold FlatMap.insert_or_assign.
      rewrite !spatial_upsert_other by (cbn [fst]; congruence).
      specialize (Hinv r Hr). unfold conserved in Hinv. lia.
Qed.

Lemma conserved_fold (U : list R) (a b : Z) (es pre : Key) (Ret : SD) :
  a <> b ->
  (forall y, In y Ret -> conserved a b pre (fst y)) ->
  forall y, In y (fold_left (Key.apply_step U a b) es Ret) ->
            conserved a b (pre ++ es) (fst y).
Proof.
  intros Hne. revert pre Ret.
  induction es as [|e es IH]; intros pre Ret Hinv y Hy; simpl in Hy.
  - rewrite app_nil_r. auto.
  - replace (pre ++ e :: es) with ((pre ++ [e]) ++ es)
      by (rewrite <- app_assoc; reflexivity).
    apply (IH (pre ++ [e]) (Key.apply_step U a b Ret e)); auto.
    now apply conserved_step.
Qed.

Lemma Key_apply_conserved (U : list R) (a b : Z) (t : R) (k : Key)
    (y : Key * R) :
  a <> b -> In y (Key.apply U [a; b] t k) -> conserved a b k (fst y).
Proof.
  intros Hne Hy. unfold Key.apply in Hy. cbn [nth] in Hy.
  apply In_apply_finish in Hy. destruct Hy as (r & Hr & _ & E).
  rewrite E. cbn [fst].
  apply (conserved_fold U a b k [] [(Key.empty, 1%R)] Hne); auto.
  intros z [<-|[]]. reflexivity.
Qed.

(** X1.  [Key::apply] on two modes conserves photons: every key of the
    result is sorted, holds in [a] and [b] together as many photons as the key
    it comes from, and holds under every pair of another spatial mode what
    that key holds. *)
Theorem Key_apply_conserves_photons (U : list R) (a b : Z) (t : R)
    (k : Key) (y : Key * R) :
  a <> b -> FlatMap.sorted mode_cmp k ->
  In y (Key.apply U [a; b] t k) ->
  (spatial_occupation a (fst y) + spatial_occupation b (fst y)
   = spatial_occupation a k + spatial_occupation b k)%Z /\
  FlatMap.sorted mode_cmp (fst y) /\
  (forall x : Mode, fst x <> a -> fst x <> b ->
     FlatMap.find mode_cmp x (fst y) = FlatMap.find mode_cmp x k).
Proof.
  intros Hne Hs Hy. split.
  - exact (Key_apply_conserved U a b t k y Hne Hy).
  - exact (apply_carried U a b t k y Hne Hs Hy).
Qed.

Lemma two_photon_key_sorted :
  FlatMap.sorted mode_cmp (Key.addEnd 1 1 1 (Key.make 0 0 1)).
Proof.
  unfold FlatMap.sorted. cbn.
  repeat constructor.
Qed.

Lemma Key_apply_conserves_photons_witness :
  let k := Key.addEnd 1 1 1 (Key.make 0 0 1) in
  let y := ([((0, 0), 1); ((0, 1), 1)]%Z, (/ 2)%R) in
  0%Z <> 1%Z /\ FlatMap.sorted mode_cmp k /\
  In y (Key.apply BS [0; 1]%Z (/ 10 ^ 9)%R k) /\
  (spatial_occupation 0 (fst y) + spatial_occupation 1 (fst y)
   = spatial_occupation 0 k + spatial_occupation 1 k)%Z.
Proof.
  intros k y.
  assert (H1 : 0%Z <> 1%Z) by lia.
  assert (H2 : FlatMap.sorted mode_cmp k) by exact two_photon_key_sorted.
  assert (H3 : In y (Key.apply BS [0; 1]%Z (/ 10 ^ 9)%R k)).
  { unfold k. rewrite (Key_apply_BS 0 1 H1). left. reflexivity. }
  split; [exact H1|]. split; [exact H2|]. split; [exact H3|].
  exact (proj1 (Key_apply_conserves_photons BS 0 1 (/ 10 ^ 9)%R k y H1 H2 H3)).
Defined.

(** A key that descends from a term of [p]: as many photons in [a] and
    [b] together, and the same entries in every other spatial mode. *)
Definition descends (a b : Z) (p : FlatMap.t Key R) (K : Key) : Prop :=
  exists it0, In it0 p /\
    (spatial_occupation a K + spatial_occupation b K
     = spatial_occupation a (fst it0) + spatial_occupation b (fst it0))%Z /\
    forall x : Mode, fst x <> a -> fst x <> b ->
      FlatMap.find mode_cmp x K = FlatMap.find mode_cmp x (fst it0).

Lemma two_photons_sorted_keys :
  forall it0, In it0 (par (two_photons trivOvlF [0; 0]%R [1; 0]%R 0 1)) ->
              FlatMap.sorted mode_cmp (fst it0).
Proof.
  assert (H1 : 0%Z <> 1%Z) by lia.
  destruct (two_photons_par trivOvlF [0; 0]%R [1; 0]%R 0 1 H1) as [Hp _].
  - rewrite trivOvlF_other; simpl; auto; lra.
  - rewrite trivOvlF_other; simpl; auto; lra.
  - rewrite trivOvlF_same; lra.
  - rewrite Hp. intros it0 [<-|[<-|[]]]; unfold FlatMap.sorted; cbn;
      repeat constructor.
Qed.

Lemma two_photons_output :
  par (State.apply BS [0; 1]%Z (two_photons trivOvlF [0; 0]%R [1; 0]%R 0 1))
  = two_photon_output 0 1.
Proof.
  apply two_photons_apply.
  - lia.
  - rewrite trivOvlF_other; simpl; auto; lra.
  - rewrite trivOvlF_other; simpl; auto; lra.
  - rewrite trivOvlF_same; lra.
Qed.

(** X2.  [State::apply] on two modes conserves photons: every term of the
    state after the call descends from a term of the state before it,
    with as many photons in [a] and [b] together and the same entries in
    every other spatial mode. *)
Theorem State_apply_conserves_photons (U : list R) (a b : Z) (S : State)
    (it : Key * R) :
  a <> b ->
  (forall it0, In it0 (par S) -> FlatMap.sorted mode_cmp (fst it0)) ->
  In it (par (State.apply U [a; b] S)) ->
  descends a b (par S) (fst it).
Proof.
  intros Hne Hs. unfold State.apply, State.clean, State.set_par. cbn [par tol].
  unfold State.clean_par, FlatMap.insert.
  revert it.
  apply (copy_keys (descends a b (par S)) (fun old _ : R => old)
           (fun it => Rgtb (Rabs (snd it)) (tol S)) fst snd).
  - intros y [].
  - apply (fold_left_inv
             (fun this => forall x, In x this -> descends a b (par S) (fst x))).
    + intros x [].
    + intros this it0 Hit0 Hthis. unfold State.add_scaled, FlatMap.accumulate.
      apply (store_keys (descends a b (par S)) Rplus fst
               (fun x => (snd it0 * snd x)%R)).
      * exact Hthis.
      * intros x Hx. exists it0. split; [exact Hit0|].
        split; [exact (Key_apply_conserved U a b (tol S) (fst it0) x Hne Hx)|].
        exact (proj2 (apply_carried U a b (tol S) (fst it0) x Hne
                        (Hs it0 Hit0) Hx)).
Qed.

Lemma State_apply_conserves_photons_witness :
  let S := two_photons trivOvlF [0; 0]%R [1; 0]%R 0 1 in
  let it := ([((0, 0), 1); ((0, 1), 1)]%Z, (/ 2)%R) in
  0%Z <> 1%Z /\
  (forall it0, In it0 (par S) -> FlatMap.sorted mode_cmp (fst it0)) /\
  In it (par (State.apply BS [0; 1]%Z S)) /\
  descends 0 1 (par S) (fst it).
Proof.
  intros S it.
  assert (H1 : 0%Z <> 1%Z) by lia.
  assert (H2 : forall it0, In it0 (par S) -> FlatMap.sorted mode_cmp (fst it0))
    by exact two_photons_sorted_keys.
  assert (H3 : In it (par (State.apply BS [0; 1]%Z S))).
  { unfold S. rewrite two_photons_output. left. reflexivity. }
  split; [exact H1|]. split; [exact H2|]. split; [exact H3|].
  exact (State_apply_conserves_photons BS 0 1 S it H1 H2 H3).
Defined.

(** ** [overlapping] *)

Definition count_at (m : Z) (col : FlatMap.t Z Z) : Z :=
  match FlatMap.find Z.compare m col with
  | Some c => c
  | None => 0%Z
  end.

Lemma count_at_accumulate (m x v : Z) (col : FlatMap.t Z Z) :
  FlatMap.sorted Z.compare col ->
  count_at m (FlatMap.accumulate Z.compare Z.add x v col)
  = (count_at m col + (if (x =? m)%Z then v else 0))%Z.
Proof.
  intros Hs. unfold count_at, FlatMap.accumulate.
  rewrite (FlatMap.find_upsert Z.compare) by exact Hs.
  destruct (Z.compare_spec m x) as [E|L|L].
  - subst x. rewrite Z.eqb_refl.
    destruct (FlatMap.find Z.compare m col); lia.
  - destruct (Z.eqb_spec x m); [lia|].
    destruct (FlatMap.find Z.compare m col); lia.
  - destruct (Z.eqb_spec x m); [lia|].
    destruct (FlatMap.find Z.compare m col); lia.
Qed.

Lemma collect_count (ref : FlatMap.t Z Z) (m : Z) (k : Key)
    (col : FlatMap.t Z Z) :
  FlatMap.find Z.compare m ref <> None ->
  FlatMap.sorted Z.compare col ->
  let col' :=
    fold_left (fun col e =>
                 match FlatMap.find Z.compare (fst (fst e)) ref with
                 | Some _ =>
                     FlatMap.accumulate Z.compare Z.add (fst (fst e)) (snd e) col
                 | None => col
                 end) k col in
  FlatMap.sorted Z.compare col' /\
  count_at m col' = (count_at m col + spatial_occupation m k)%Z /\
  (FlatMap.find Z.compare m col' = None ->
   FlatMap.find Z.compare m col = None /\
   forall e, In e k -> fst (fst e) <> m).
Proof.
  intros Hm. revert col.
  induction k as [|e k IH]; intros col Hs; cbn [fold_left].
  - rewrite spatial_nil. split; [exact Hs|]. split; [lia|].
    intros H. split; [exact H|]. intros e [].
  - rewrite spatial_cons. unfold here.
    destruct (FlatMap.find Z.compare (fst (fst e)) ref) eqn:F.
    + assert (Hs' : FlatMap.sorted Z.compare
                      (FlatMap.accumulate Z.compare Z.add (fst (fst e)) (snd e) col))
        by now apply (FlatMap.upsert_sorted Z.compare).
      destruct (IH _ Hs') as (I1 & I2 & I3).
      split; [exact I1|]. split.
      * rewrite I2, count_at_accumulate by exact Hs. lia.
      * intros H. destruct (I3 H) as [N1 N2].
        unfold FlatMap.accumulate in N1.
        rewrite (FlatMap.find_upsert Z.compare) in N1 by exact Hs.
        destruct (Z.compare_spec m (fst (fst e))) as [E|L|L];
          [discriminate| |];
          (split; [exact N1|]; intros e' [<-|He']; [lia|now apply N2]).
    + destruct (IH _ Hs) as (I1 & I2 & I3).
      assert (Hne : fst (fst e) <> m) by (intros E; rewrite E in F; contradiction).
      split; [exact I1|]. split.
      * rewrite I2. destruct (Z.eqb_spec (fst (fst e)) m); [contradiction|lia].
      * intros H. destruct (I3 H) as [N1 N2]. split; [exact N1|].
        intros e' [<-|He']; [exact Hne|now apply N2].
Qed.

Lemma In_find_some (ref : FlatMap.t Z Z) (it : Z * Z) :
  In it ref -> FlatMap.find Z.compare (fst it) ref <> None.
Proof.
  induction ref as [|[m n] ref IH]; [intros []|].
  intros [<-|H]; cbn [FlatMap.find fst].
  - rewrite Z.compare_refl. discriminate.
  - destruct (fst it ?= m)%Z; [discriminate| |]; now apply IH.
Qed.

(** X3.  [overlapping(ref)] holds exactly when, for every entry of [ref], the
    key holds in that spatial mode, all distinguishability modes
    together, the number of photons the entry gives. *)
Theorem overlapping_spec (ref : FlatMap.t Z Z) (k : Key) :
  Key.overlapping ref k = true <->
  forall it, In it ref -> spatial_occupation (fst it) k = snd it.
Proof.
  unfold Key.overlapping. rewrite forallb_forall.
  split; intros H it Hit; specialize (H it Hit);
    pose proof (In_find_some ref it Hit) as Hm;
    destruct (collect_count ref (fst it) k [] Hm (FlatMap.sorted_nil Z.compare))
      as (_ & C & _);
    fold (Key.collect ref k) in C; unfold count_at in C; cbn in C.
  - destruct (FlatMap.find Z.compare (fst it) (Key.collect ref k)); lia.
  - destruct (FlatMap.find Z.compare (fst it) (Key.collect ref k)); lia.
Qed.

(** ** [notEmpty] *)

(** Some entry of the key has photons in the spatial mode [m]. *)
Definition occupied (m : Z) (k : Key) : Prop :=
  exists e, In e k /\ fst (fst e) = m /\ (0 < snd e)%Z.

Lemma existsb_eqb_In (x : Z) (l : list Z) :
  existsb (Z.eqb x) l = true <-> In x l.
Proof.
  rewrite existsb_exists. split.
  - intros (y & Hy & E). apply Z.eqb_eq in E. now subst y.
  - intros H. exists x. split; [exact H|apply Z.eqb_refl].
Qed.

Lemma erase_first_In (x m : Z) (l : list Z) :
  NoDup l -> (In m (Key.erase_first x l) <-> In m l /\ m <> x).
Proof.
  induction l as [|y l IH]; intros Hnd; cbn [Key.erase_first].
  - simpl. tauto.
  - inversion Hnd as [|? ? Hy Hl]; subst.
    destruct (Z.eqb_spec y x) as [E|E].
    + subst y. simpl. split.
      * intros H. split; [now right|]. intros ->. contradiction.
      * intros [[H|H] N]; [congruence|exact H].
    + simpl. rewrite (IH Hl). split.
      * intros [H|[H N]]; [subst m; split; [now left|exact E]|].
        split; [now right|exact N].
      * intros [[H|H] N]; [now left|right; split; assumption].
Qed.

Lemma erase_first_NoDup (x : Z) (l : list Z) :
  NoDup l -> NoDup (Key.erase_first x l).
Proof.
  induction l as [|y l IH]; intros Hnd; cbn [Key.erase_first]; [exact Hnd|].
  inversion Hnd as [|? ? Hy Hl]; subst.
  destruct (Z.eqb_spec y x); [exact Hl|].
  constructor; [|now apply IH].
  intros H. apply erase_first_In in H; [|exact Hl]. tauto.
Qed.

Lemma notEmpty_scan_spec (es : Key) (Msub : list Z) :
  NoDup Msub -> Msub <> [] ->
  (Key.notEmpty_scan es Msub = true <->
   forall m, In m Msub -> occupied m es).
Proof.
  revert Msub. induction es as [|e es IH]; intros Msub Hnd Hne.
  - cbn [Key.notEmpty_scan]. split; [discriminate|].
    intros H. destruct Msub as [|m Msub]; [contradiction|].
    destruct (H m (or_introl eq_refl)) as (e & [] & _).
  - cbn [Key.notEmpty_scan].
    destruct (existsb (Z.eqb (fst (fst e))) Msub && (snd e >? 0)%Z) eqn:T.
    + apply andb_true_iff in T. destruct T as [T1 T2].
      apply existsb_eqb_In in T1.
      assert (Hocc : occupied (fst (fst e)) (e :: es)).
      { exists e. split; [now left|]. split; [reflexivity|lia]. }
      assert (Hrest : forall m, In m Msub -> m <> fst (fst e) ->
                (occupied m (e :: es) <-> occupied m es)).
      { intros m _ Hm. split.
        - intros (e' & [<-|He'] & E1 & E2); [congruence|].
          exists e'. auto.
        - intros (e' & He' & E). exists e'. split; [now right|exact E]. }
      destruct (Key.erase_first (fst (fst e)) Msub) as [|m0 M0] eqn:EM.
      * cbn [length Nat.eqb]. split; [|reflexivity]. intros _ m Hm.
        destruct (Z.eq_dec m (fst (fst e))) as [->|N]; [exact Hocc|].
        assert (In m (Key.erase_first (fst (fst e)) Msub))
          by (apply erase_first_In; auto).
        rewrite EM in H. destruct H.
      * cbn [length Nat.eqb]. rewrite <- EM.
        rewrite IH;
          [|now apply erase_first_NoDup|rewrite EM; discriminate].
        split.
        -- intros H m Hm.
           destruct (Z.eq_dec m (fst (fst e))) as [->|N]; [exact Hocc|].
           apply Hrest; auto. apply H. apply erase_first_In; auto.
        -- intros H m Hm. apply erase_first_In in Hm; [|exact Hnd].
           destruct Hm as [Hm N]. apply Hrest; auto.
    + destruct Msub as [|m0 M0]; [contradiction|].
      cbn [length Nat.eqb]. rewrite IH by assumption.
      assert (Hrest : forall m, In m (m0 :: M0) ->
                (occupied m (e :: es) <-> occupied m es)).
      { intros m Hm. split.
        - intros (e' & [<-|He'] & E1 & E2).
          + subst m. apply existsb_eqb_In in Hm.
            rewrite Hm in T. cbn [andb] in T. lia.
          + exists e'. auto.
        - intros (e' & He' & E). exists e'. split; [now right|exact E]. }
      split; intros H m Hm; apply Hrest; auto.
Qed.

(** X4.  [notEmpty(allModes)], for collections of modes that are not empty
    and name no mode twice: it holds exactly when there is no collection
    at all, or when for one of the collections every mode of it holds a
    photon. *)
Theorem notEmpty_spec (allModes : list (list Z)) (k : Key) :
  (forall M, In M allModes -> NoDup M /\ M <> []) ->
  (Key.notEmpty allModes k = true <->
   allModes = [] \/
   exists M, In M allModes /\ forall m, In m M -> occupied m k).
Proof.
  intros Hall. unfold Key.notEmpty. rewrite orb_true_iff, existsb_exists.
  split.
  - intros [(M & HM & H)|H].
    + right. exists M. split; [exact HM|].
      destruct (Hall M HM) as [Hnd Hne].
      now apply (notEmpty_scan_spec k M Hnd Hne).
    + left. destruct allModes; [reflexivity|discriminate].
  - intros [->|(M & HM & H)]; [now right|].
    left. exists M. split; [exact HM|].
    destruct (Hall M HM) as [Hnd Hne].
    now apply (notEmpty_scan_spec k M Hnd Hne).
Qed.

Lemma notEmpty_spec_witness :
  let allModes := [[0; 6; 10]; [1; 7; 11]]%Z in
  let k := [((0, 0), 1); ((6, 0), 1); ((10, 1), 1)]%Z in
  (forall M, In M allModes -> NoDup M /\ M <> []) /\
  (Key.notEmpty allModes k = true <->
   allModes = [] \/
   exists M, In M allModes /\ forall m, In m M -> occupied m k).
Proof.
  intros allModes k.
  assert (H : forall M, In M allModes -> NoDup M /\ M <> []).
  { intros M [<-|[<-|[]]]; (split; [|discriminate]);
      repeat constructor; simpl; lia. }
  split; [exact H|].
  exact (notEmpty_spec allModes k H).
Defined.

(** ** [swap] *)

(** The spatial mode after [swap(a, b)]. *)
Definition swapped (a b m : Z) : Z :=
  if (m =? a)%Z then b else if (m =? b)%Z then a else m.

Definition swapped_pair (a b : Z) (x : Mode) : Mode :=
  (swapped a b (fst x), snd x).

Lemma swap_entry_pair (a b : Z) (e : Mode * Z) :
  Key.swap_entry a b e = (swapped_pair a b (fst e), snd e).
Proof.
  unfold Key.swap_entry, swapped_pair, swapped.
  destruct e as [[m d] n]. cbn [fst snd].
  destruct (m =? a)%Z; [reflexivity|]. destruct (m =? b)%Z; reflexivity.
Qed.

Lemma swapped_involutive (a b m : Z) : swapped a b (swapped a b m) = m.
Proof.
  unfold swapped.
  destruct (Z.eqb_spec m a) as [E1|E1].
  - destruct (Z.eqb_spec b a) as [E2|E2]; [congruence|].
    rewrite Z.eqb_refl. congruence.
  - destruct (Z.eqb_spec m b) as [E2|E2].
    + rewrite Z.eqb_refl. congruence.
    + destruct (Z.eqb_spec m a); [contradiction|].
      destruct (Z.eqb_spec m b); [contradiction|reflexivity].
Qed.

Lemma swapped_pair_involutive (a b : Z) (x : Mode) :
  swapped_pair a b (swapped_pair a b x) = x.
Proof.
  unfold swapped_pair. cbn [fst snd]. rewrite swapped_involutive.
  destruct x; reflexivity.
Qed.

Lemma Key_swap_map (a b : Z) (k : Key) (x : Mode) :
  FlatMap.find mode_cmp x (Key.swap a b k)
  = FlatMap.find mode_cmp x
      (map (fun e => (swapped_pair a b (fst e), snd e)) k).
Proof.
  unfold Key.swap.
  rewrite (fold_left_ext_in _
             (fun par p => FlatMap.insert mode_cmp (swapped_pair a b (fst p))
                             (snd p) par))
    by (intros par p _; rewrite swap_entry_pair; reflexivity).
  rewrite (find_fold_insert mode_cmp) by apply FlatMap.sorted_nil.
  reflexivity.
Qed.

Lemma Key_swap_sorted (a b : Z) (k : Key) :
  FlatMap.sorted mode_cmp (Key.swap a b k).
Proof.
  unfold Key.swap, FlatMap.insert.
  apply (fold_upsert_sorted mode_cmp). apply FlatMap.sorted_nil.
Qed.

Lemma Key_swap_find (a b : Z) (k : Key) (x : Mode) :
  FlatMap.sorted mode_cmp k ->
  FlatMap.find mode_cmp x (Key.swap a b k)
  = FlatMap.find mode_cmp (swapped_pair a b x) k.
Proof.
  intros Hs. rewrite Key_swap_map.
  destruct (FlatMap.find mode_cmp (swapped_pair a b x) k) as [v|] eqn:F.
  - apply (FlatMap.find_In mode_cmp) in F.
    rewrite <- (swapped_pair_involutive a b x) at 1.
    apply (find_map_inj mode_cmp (swapped_pair a b) k _ v Hs); [|exact F].
    intros k1 k2 _ _ E.
    rewrite <- (swapped_pair_involutive a b k1),
            <- (swapped_pair_involutive a b k2).
    now rewrite E.
  - destruct (FlatMap.find mode_cmp x _) as [v|] eqn:G; [|reflexivity].
    apply (FlatMap.find_In mode_cmp) in G. apply in_map_iff in G.
    destruct G as (e & E & He). inversion E as [[E1 E2]].
    assert (Hk : In (swapped_pair a b x, snd e) k).
    { rewrite <- E1, swapped_pair_involutive. now destruct e. }
    apply (FlatMap.In_find mode_cmp) in Hk; [|exact Hs]. congruence.
Qed.

(** X5.  After [swap(a, b)] a key holds under a pair the photons it held
    under the pair with the spatial modes [a] and [b] exchanged; the
    operation undoes itself. *)
Theorem Key_swap_involutive (a b : Z) (k : Key) :
  FlatMap.sorted mode_cmp k ->
  (forall x : Mode,
     FlatMap.find mode_cmp x (Key.swap a b k)
     = FlatMap.find mode_cmp (swapped a b (fst x), snd x) k) /\
  Key.swap a b (Key.swap a b k) = k.
Proof.
  intros Hs. split.
  - intros x. exact (Key_swap_find a b k x Hs).
  - apply (FlatMap.sorted_ext mode_cmp);
      [apply Key_swap_sorted|exact Hs|].
    intros x. rewrite !Key_swap_find by (try apply Key_swap_sorted; exact Hs).
    now rewrite swapped_pair_involutive.
Qed.

Lemma Key_swap_involutive_witness :
  let k := Key.addEnd 1 1 1 (Key.make 0 0 1) in
  FlatMap.sorted mode_cmp k /\ Key.swap 0 1 (Key.swap 0 1 k) = k.
Proof.
  intros k.
  assert (H : FlatMap.sorted mode_cmp k) by exact two_photon_key_sorted.
  split; [exact H|].
  exact (proj2 (Key_swap_involutive 0 1 k H)).
Defined.

Lemma Key_swap_twice (a b : Z) (k : Key) :
  FlatMap.sorted mode_cmp k -> Key.swap a b (Key.swap a b k) = k.
Proof.
  intros Hs.
  apply (FlatMap.sorted_ext mode_cmp); [apply Key_swap_sorted|exact Hs|].
  intros x. rewrite !Key_swap_find by (try apply Key_swap_sorted; exact Hs).
  now rewrite swapped_pair_involutive.
Qed.

Lemma sorted_In_ext {K V} (cmp : K -> K -> comparison) `{!CmpOrder cmp}
    (m1 m2 : FlatMap.t K V) :
  FlatMap.sorted cmp m1 -> FlatMap.sorted cmp m2 ->
  (forall y, In y m1 <-> In y m2) -> m1 = m2.
Proof.
  intros H1 H2 H. apply (FlatMap.sorted_ext cmp); auto.
  intros k. destruct (FlatMap.find cmp k m1) as [v|] eqn:F1.
  - apply (FlatMap.find_In cmp) in F1. apply H in F1.
    symmetry. now apply (FlatMap.In_find cmp).
  - destruct (FlatMap.find cmp k m2) as [v|] eqn:F2; [|reflexivity].
    apply (FlatMap.find_In cmp) in F2. apply H in F2.
    apply (FlatMap.In_find cmp) in F2; [congruence|exact H1].
Qed.

(** Terms stored under the images of their keys, the images distinct:
    all of them are in the container. *)
Lemma In_fold_insert_inj (h : Key -> Key) (p : FlatMap.t Key R)
    (y : Key * R) :
  FlatMap.sorted key_cmp p ->
  (forall k1 k2, In k1 (FlatMap.keys p) -> In k2 (FlatMap.keys p) ->
                 h k1 = h k2 -> k1 = k2) ->
  (In y (fold_left (fun out it => FlatMap.insert key_cmp (h (fst it)) (snd it) out)
                   p [])
   <-> exists x, In x p /\ y = (h (fst x), snd x)).
Proof.
  intros Hs Hinj. split.
  - intros H. apply (In_fold_insert key_cmp) in H. destruct H as [[]|H]. exact H.
  - intros (x & Hx & ->). apply (FlatMap.find_In key_cmp).
    rewrite (find_fold_insert key_cmp) by apply FlatMap.sorted_nil.
    cbn [FlatMap.find].
    apply (find_map_inj key_cmp h p (fst x) (snd x) Hs Hinj).
    now destruct x.
Qed.

Lemma State_swap_In (a b : Z) (S : State) (y : Key * R) :
  FlatMap.sorted key_cmp (par S) ->
  (forall it, In it (par S) -> FlatMap.sorted mode_cmp (fst it)) ->
  (In y (par (State.swap a b S))
   <-> exists x, In x (par S) /\ y = (Key.swap a b (fst x), snd x)).
Proof.
  intros Hs Hk. unfold State.swap, State.set_par. cbn [par].
  apply (In_fold_insert_inj (Key.swap a b) (par S) y Hs).
  intros k1 k2 H1 H2 E. unfold FlatMap.keys in H1, H2.
  apply in_map_iff in H1, H2.
  destruct H1 as (x1 & <- & H1). destruct H2 as (x2 & <- & H2).
  rewrite <- (Key_swap_twice a b (fst x1)) by auto.
  rewrite <- (Key_swap_twice a b (fst x2)) by auto.
  now rewrite E.
Qed.

Lemma State_swap_sorted (a b : Z) (S : State) :
  FlatMap.sorted key_cmp (par (State.swap a b S)).
Proof.
  unfold State.swap, State.set_par, FlatMap.insert. cbn [par].
  apply (fold_upsert_sorted key_cmp). apply FlatMap.sorted_nil.
Qed.

(** X6.  [swap(a, b)] on a state undoes itself. *)
Theorem State_swap_involutive (a b : Z) (S : State) :
  FlatMap.sorted key_cmp (par S) ->
  (forall it, In it (par S) -> FlatMap.sorted mode_cmp (fst it)) ->
  State.swap a b (State.swap a b S) = S.
Proof.
  intros Hs Hk.
  assert (Hk' : forall it, In it (par (State.swap a b S)) ->
                           FlatMap.sorted mode_cmp (fst it)).
  { intros it Hit. apply State_swap_In in Hit; auto.
    destruct Hit as (x & _ & ->). apply Key_swap_sorted. }
  assert (E : par (State.swap a b (State.swap a b S)) = par S).
  { apply (sorted_In_ext key_cmp); [apply State_swap_sorted|exact Hs|].
    intros y. rewrite State_swap_In by (auto using State_swap_sorted).
    split.
    - intros (x & Hx & ->). apply State_swap_In in Hx; auto.
      destruct Hx as (x0 & Hx0 & ->). cbn [fst snd].
      rewrite Key_swap_twice by auto. now destruct x0.
    - intros Hy. exists (Key.swap a b (fst y), snd y). split.
      + apply State_swap_In; auto. exists y. auto.
      + cbn [fst snd]. rewrite Key_swap_twice by auto. now destruct y. }
  destruct S as [p w bs t l]. unfold State.swap, State.set_par in *.
  cbn [par waves basis tol lossMode] in *. now rewrite E.
Qed.

Lemma State_swap_involutive_witness :
  FlatMap.sorted key_cmp (par one_photon) /\
  (forall it, In it (par one_photon) -> FlatMap.sorted mode_cmp (fst it)) /\
  State.swap 0 1 (State.swap 0 1 one_photon) = one_photon.
Proof.
  split; [exact one_photon_sorted|]. split; [exact one_photon_keys_sorted|].
  exact (State_swap_involutive 0 1 one_photon one_photon_sorted
           one_photon_keys_sorted).
Defined.

Local Open Scope R_scope.

(** ** Norms *)

(** The sum under the root of [norm]. *)
Definition sum_squares (p : FlatMap.t Key R) : R :=
  fold_left (fun r it => r + Rabs (snd it) ^ 2) p 0.

Lemma sum_squares_from (p : FlatMap.t Key R) (r : R) :
  fold_left (fun r it => r + Rabs (snd it) ^ 2) p r = r + sum_squares p.
Proof.
  unfold sum_squares. revert r.
  induction p as [|x p IH]; intros r; simpl; [ring|].
  rewrite IH, (IH (0 + _)). ring.
Qed.

Lemma sum_squares_cons (x : Key * R) (p : FlatMap.t Key R) :
  sum_squares (x :: p) = Rabs (snd x) ^ 2 + sum_squares p.
Proof.
  unfold sum_squares at 1. simpl. rewrite sum_squares_from. ring.
Qed.

Lemma sum_squares_nonneg (p : FlatMap.t Key R) : 0 <= sum_squares p.
Proof.
  induction p as [|x p IH]; [unfold sum_squares; simpl; lra|].
  rewrite sum_squares_cons.
  pose proof (pow2_ge_0 (Rabs (snd x))). lra.
Qed.

Lemma sum_squares_scale (c : R) (p : FlatMap.t Key R) :
  sum_squares (map (fun x => (fst x, snd x * c)) p) = c ^ 2 * sum_squares p.
Proof.
  induction p as [|x p IH]; [unfold sum_squares; simpl; ring|].
  cbn [map]. rewrite !sum_squares_cons, IH. cbn [snd].
  rewrite Rabs_mult, <- !Rsqr_pow2, Rsqr_mult, <- !Rsqr_abs. unfold Rsqr. ring.
Qed.

Lemma sum_squares_filter (keep : Key * R -> bool) (p : FlatMap.t Key R) :
  sum_squares (filter keep p) <= sum_squares p.
Proof.
  induction p as [|x p IH]; [simpl; lra|].
  cbn [filter]. destruct (keep x); rewrite !sum_squares_cons; [lra|].
  pose proof (pow2_ge_0 (Rabs (snd x))). lra.
Qed.

Lemma norm_par_scale (c : R) (p : FlatMap.t Key R) :
  State.norm_par (map (fun x => (fst x, snd x * c)) p)
  = Rabs c * State.norm_par p.
Proof.
  unfold State.norm_par. fold (sum_squares p).
  fold (sum_squares (map (fun x => (fst x, snd x * c)) p)).
  rewrite sum_squares_scale, sqrt_mult.
  - f_equal. rewrite <- Rsqr_pow2. apply sqrt_Rsqr_abs.
  - apply pow2_ge_0.
  - apply sum_squares_nonneg.
Qed.

Lemma norm_par_filter (keep : Key * R -> bool) (p : FlatMap.t Key R) :
  State.norm_par (filter keep p) <= State.norm_par p.
Proof.
  unfold State.norm_par. fold (sum_squares p).
  fold (sum_squares (filter keep p)).
  apply sqrt_le_1_alt, sum_squares_filter.
Qed.

Lemma norm_par_nonneg (p : FlatMap.t Key R) : 0 <= State.norm_par p.
Proof. apply sqrt_pos. Qed.

Lemma par_mul (n : R) (S : State) :
  FlatMap.sorted key_cmp (par S) ->
  par (State.mul n S)
  = map (fun x => (fst x, snd x * n))
        (filter (fun it => Rgtb (Rabs (snd it * n)) (tol S)) (par S)).
Proof.
  intros Hs. unfold State.mul, State.set_par, FlatMap.insert. cbn [par].
  exact (FlatMap.rebuild_filter_map key_cmp
           (fun it => Rgtb (Rabs (snd it * n)) (tol S))
           (fun it => snd it * n) (par S) [] Hs).
Qed.

(** X7.  [mul(n)] multiplies the norm by [|n|], as far as no term falls under
    the tolerance; the terms that do only make the norm smaller. *)
Theorem mul_norm (n : R) (S : State) :
  FlatMap.sorted key_cmp (par S) ->
  State.norm (State.mul n S) <= Rabs n * State.norm S /\
  ((forall it, In it (par S) -> tol S < Rabs (snd it * n)) ->
   State.norm (State.mul n S) = Rabs n * State.norm S).
Proof.
  intros Hs. unfold State.norm. rewrite par_mul by exact Hs.
  rewrite norm_par_scale. split.
  - apply Rmult_le_compat_l; [apply Rabs_pos|apply norm_par_filter].
  - intros Hall. rewrite filter_all; [reflexivity|].
    intros x Hx. apply Rgtb_true. now apply Hall.
Qed.

Lemma mul_norm_witness :
  FlatMap.sorted key_cmp (par one_photon) /\
  State.norm (State.mul 2 one_photon) <= Rabs 2 * State.norm one_photon.
Proof.
  split; [exact one_photon_sorted|].
  exact (proj1 (mul_norm 2 one_photon one_photon_sorted)).
Defined.

Lemma par_normalise (S : State) :
  FlatMap.sorted key_cmp (par S) ->
  par (State.normalise S)
  = map (fun x => (fst x, snd x * / State.normalise_divisor S))
        (filter (fun it => Rgtb (Rabs (snd it / State.normalise_divisor S))
                             (tol S)) (par S)).
Proof.
  intros Hs. unfold State.normalise, State.set_par, FlatMap.insert. cbn [par].
  exact (FlatMap.rebuild_filter_map key_cmp
           (fun it => Rgtb (Rabs (snd it / State.normalise_divisor S)) (tol S))
           (fun it => snd it / State.normalise_divisor S) (par S) [] Hs).
Qed.

Lemma normalise_norm_cases (S : State) :
  FlatMap.sorted key_cmp (par S) ->
  State.norm (State.normalise S) <= 1 /\
  (State.norm S <> 0 ->
   (forall it, In it (par S) -> tol S < Rabs (snd it / State.norm S)) ->
   State.norm (State.normalise S) = 1).
Proof.
  intros Hs.
  assert (E : State.norm (State.normalise S)
              = Rabs (/ State.normalise_divisor S)
                * State.norm_par
                    (filter (fun it =>
                               Rgtb (Rabs (snd it / State.normalise_divisor S))
                                    (tol S)) (par S))).
  { unfold State.norm. rewrite par_normalise by exact Hs.
    apply norm_par_scale. }
  rewrite E. clear E.
  pose proof (norm_par_nonneg (par S)) as Hn. fold (State.norm S) in Hn.
  assert (D : State.normalise_divisor S = 1 /\ State.norm S = 0
              \/ State.normalise_divisor S = State.norm S /\ 0 < State.norm S).
  { unfold State.normalise_divisor. destruct (Reqb (State.norm S) 0) eqn:E.
    - apply Reqb_true in E. now left.
    - apply Reqb_false in E. right. split; [reflexivity|lra]. }
  split.
  - destruct D as [[D Z]|[D P]]; rewrite D.
    + rewrite Rinv_1, Rabs_R1, Rmult_1_l.
      apply Rle_trans with (State.norm_par (par S));
        [apply norm_par_filter|]. fold (State.norm S). lra.
    + rewrite Rabs_inv, (Rabs_pos_eq (State.norm S)) by lra.
      apply Rle_trans with (/ State.norm S * State.norm S).
      * apply Rmult_le_compat_l;
          [left; now apply Rinv_0_lt_compat|apply norm_par_filter].
      * right. field. lra.
  - intros Hnz Hall. destruct D as [[D Z]|[D P]]; [contradiction|].
    rewrite D. rewrite filter_all.
    + rewrite Rabs_inv, (Rabs_pos_eq (State.norm S)) by lra.
      fold (State.norm S). field. lra.
    + intros x Hx. apply Rgtb_true. now apply Hall.
Qed.

(** X8.  After [normalise] the norm is at most 1; it is 1 when the norm was not
    0 and no term fell under the tolerance. *)
Theorem normalise_norm (S : State) :
  FlatMap.sorted key_cmp (par S) ->
  State.norm (State.normalise S) <= 1 /\
  (State.norm S <> 0 ->
   (forall it, In it (par S) -> tol S < Rabs (snd it / State.norm S)) ->
   State.norm (State.normalise S) = 1).
Proof.
  intros Hs. destruct (normalise_norm_cases S Hs) as [Hle Heq]. split.
  - exact Hle.
  - intros Hnz Hall. now apply Heq.
Qed.

Lemma normalise_norm_witness :
  FlatMap.sorted key_cmp (par one_photon) /\
  State.norm (State.normalise one_photon) <= 1.
Proof.
  split; [exact one_photon_sorted|].
  exact (proj1 (normalise_norm one_photon one_photon_sorted)).
Defined.

Local Close Scope R_scope.

(** ** [clean] *)

(** What a loop that stores the entries it keeps leaves in the container. *)
Lemma In_fold_keep {K V} (cmp : K -> K -> comparison)
    (f : V -> V -> V) (keep : K * V -> bool) (l acc : FlatMap.t K V)
    (y : K * V) :
  (forall k v m z, In z (FlatMap.upsert cmp f k v m) -> z = (k, v) \/ In z m) ->
  In y (fold_left (fun out x =>
                     if keep x then FlatMap.upsert cmp f (fst x) (snd x) out
                     else out) l acc) ->
  In y acc \/ (In y l /\ keep y = true).
Proof.
  intros Hf. revert acc.
  induction l as [|x l IH]; intros acc H; cbn [fold_left] in H; [now left|].
  apply IH in H. destruct H as [H|[H1 H2]].
  - destruct (keep x) eqn:Kx; [|now left].
    apply Hf in H. destruct H as [->|H]; [|now left].
    right. rewrite <- surjective_pairing. split; [now left|exact Kx].
  - right. split; [now right|exact H2].
Qed.

Lemma fold_keep_sorted {K V} (cmp : K -> K -> comparison) `{!CmpOrder cmp}
    (f : V -> V -> V) (keep : K * V -> bool) (l acc : FlatMap.t K V) :
  FlatMap.sorted cmp acc ->
  FlatMap.sorted cmp
    (fold_left (fun out x =>
                  if keep x then FlatMap.upsert cmp f (fst x) (snd x) out
                  else out) l acc).
Proof.
  intros Hs. apply (fold_left_inv (fun out => FlatMap.sorted cmp out)); auto.
  intros out x _ Hout. destruct (keep x); auto.
  now apply (FlatMap.upsert_sorted cmp).
Qed.

(** X9.  [State::clean] leaves only terms of the state with an amplitude above
    the tolerance, and a second call changes nothing. *)
Theorem State_clean_idempotent (S : State) :
  (forall it, In it (par (State.clean S)) ->
              In it (par S) /\ (tol S < Rabs (snd it))%R) /\
  State.clean (State.clean S) = State.clean S.
Proof.
  assert (H : forall it, In it (par (State.clean S)) ->
                         In it (par S) /\ (tol S < Rabs (snd it))%R).
  { intros it Hit. unfold State.clean, State.set_par, State.clean_par in Hit.
    cbn [par] in Hit. unfold FlatMap.insert in Hit.
    apply (In_fold_keep key_cmp (fun old _ : R => old)
             (fun it => Rgtb (Rabs (snd it)) (tol S))) in Hit;
      [|exact (In_insert key_cmp)].
    destruct Hit as [[]|[H1 H2]]. split; [exact H1|now apply Rgtb_true]. }
  split; [exact H|].
  unfold State.clean at 1. unfold State.set_par.
  assert (E : State.clean_par (tol (State.clean S)) (par (State.clean S))
              = par (State.clean S)).
  { rewrite clean_par_filter by apply clean_par_sorted.
    apply filter_all. intros x Hx. unfold above_tol.
    apply Rgtb_true. exact (proj2 (H x Hx)). }
  rewrite E. reflexivity.
Qed.

(** X10.  [Key::clean] leaves only entries of the key that hold photons,
    and a second call changes nothing. *)
Theorem Key_clean_idempotent (k : Key) :
  (forall e, In e (Key.clean k) -> In e k /\ (0 < snd e)%Z) /\
  Key.clean (Key.clean k) = Key.clean k.
Proof.
  assert (H : forall e, In e (Key.clean k) -> In e k /\ (0 < snd e)%Z).
  { intros e He. unfold Key.clean, FlatMap.insert_or_assign in He.
    apply (In_fold_keep mode_cmp (fun _ new : Z => new)
             (fun e => (snd e >? 0)%Z)) in He;
      [|exact (In_insert_or_assign mode_cmp)].
    destruct He as [[]|[H1 H2]]. split; [exact H1|lia]. }
  split; [exact H|].
  assert (Hs : FlatMap.sorted mode_cmp (Key.clean k)).
  { unfold Key.clean, FlatMap.insert_or_assign.
    apply (fold_keep_sorted mode_cmp). apply FlatMap.sorted_nil. }
  rewrite (Key_clean_filter (Key.clean k) Hs).
  apply filter_all. intros e He. destruct (H e He). lia.
Qed.

(** ** [collapse] *)

Lemma collapse_fold_none (f : FlatMap.t Z Z) (k : Key) :
  fold_left (Key.collapse_step f) k None = None.
Proof. induction k as [|e k IH]; simpl; auto. Qed.

Lemma collapse_fold_spec (f : FlatMap.t Z Z) (k : Key) (p : Key) :
  FlatMap.sorted mode_cmp p ->
  match fold_left (Key.collapse_step f) k (Some p) with
  | None => exists e, In e k /\ FlatMap.find Z.compare (snd (fst e)) f = None
  | Some q =>
      (forall e, In e k -> FlatMap.find Z.compare (snd (fst e)) f <> None) /\
      FlatMap.sorted mode_cmp q /\
      forall m, spatial_occupation m q
                = (spatial_occupation m p + spatial_occupation m k)%Z
  end.
Proof.
  revert p. induction k as [|e k IH]; intros p Hp; cbn [fold_left].
  - split; [intros e []|]. split; [exact Hp|].
    intros m. rewrite spatial_nil. lia.
  - cbn [Key.collapse_step].
    destruct (FlatMap.find Z.compare (snd (fst e)) f) as [b|] eqn:F.
    + assert (Hp' : FlatMap.sorted mode_cmp
                      (FlatMap.accumulate mode_cmp Z.add (fst (fst e), b) (snd e) p))
        by now apply (FlatMap.upsert_sorted mode_cmp).
      specialize (IH _ Hp').
      destruct (fold_left (Key.collapse_step f) k _) as [q|].
      * destruct IH as (I1 & I2 & I3). split; [|split; [exact I2|]].
        -- intros e' [<-|He']; [congruence|now apply I1].
        -- intros m. rewrite I3, spatial_accumulate, spatial_cons.
           unfold here. cbn [fst snd]. lia.
      * destruct IH as (e' & He' & Fe'). exists e'. split; [now right|exact Fe'].
    + rewrite collapse_fold_none. exists e. split; [now left|exact F].
Qed.

Lemma Key_collapse_cases (f : FlatMap.t Z Z) (amp : R) (k : Key) :
  (Key.collapse f amp k = None <->
   exists e, In e k /\ FlatMap.find Z.compare (snd (fst e)) f = None) /\
  (forall p v, Key.collapse f amp k = Some (p, v) ->
     FlatMap.sorted mode_cmp p /\
     v = (amp * (Key.factor p / Key.factor k))%R /\
     forall m, spatial_occupation m p = spatial_occupation m k).
Proof.
  unfold Key.collapse.
  change (@Some (list (Mode * Z)) []) with (@Some Key []).
  pose proof (collapse_fold_spec f k [] (FlatMap.sorted_nil mode_cmp)) as H.
  revert H.
  destruct (fold_left (Key.collapse_step f) k (@Some Key [])) as [q|];
    intros H.
  - destruct H as (H1 & H2 & H3). split.
    + split; [discriminate|]. intros (e & He & Fe). exfalso.
      exact (H1 e He Fe).
    + intros p v E. inversion E. subst p v. split; [exact H2|].
      split; [reflexivity|]. intros m. rewrite H3, spatial_nil. lia.
  - split; [tauto|]. intros p v E. discriminate.
Qed.

(** X11.  [Key::collapse] throws exactly when the mapping lacks the
    distinguishability mode of an entry; when it returns, the new key is
    sorted, holds in every spatial mode as many photons as the key
    before, and the amplitude is multiplied by the quotient of the two
    normalisation factors. *)
Theorem Key_collapse_spec (f : FlatMap.t Z Z) (amp : R) (k : Key) :
  (Key.collapse f amp k = None <->
   exists e, In e k /\ FlatMap.find Z.compare (snd (fst e)) f = None) /\
  (forall p v, Key.collapse f amp k = Some (p, v) ->
     FlatMap.sorted mode_cmp p /\
     v = (amp * (Key.factor p / Key.factor k))%R /\
     forall m, spatial_occupation m p = spatial_occupation m k).
Proof.
  destruct (Key_collapse_cases f amp k) as [Hnone Hsome]. split.
  - exact Hnone.
  - intros p v E. destruct (Hsome p v E) as (H1 & H2 & H3).
    split; [exact H1|]. split; [exact H2|exact H3].
Qed.

(** The product under the root of [factor()] is positive for occupation
    numbers within the table. *)
Lemma factor_pos (k : Key) :
  (forall e, In e k -> (0 <= snd e <= 12)%Z) -> (0 < Key.factor k)%R.
Proof.
  intros H. unfold Key.factor. apply sqrt_lt_R0.
  assert (G : forall r, (0 < r)%R ->
            (0 < fold_left (fun r e => (r * IZR (facut (snd e)))%R) k r)%R).
  { induction k as [|e k IH]; intros r Hr; simpl; [exact Hr|].
    apply IH.
    - intros e' He'. apply H. now right.
    - apply Rmult_lt_0_compat; [exact Hr|].
      apply IZR_lt, facut_pos, H. now left. }
  apply G. lra.
Qed.

(** X12.  With a mapping that sends every distinguishability mode of the key
    to itself, [Key::collapse] leaves the key and the amplitude. *)
Theorem Key_collapse_identity (f : FlatMap.t Z Z) (amp : R) (k : Key) :
  FlatMap.sorted mode_cmp k ->
  (forall e, In e k -> (0 <= snd e <= 12)%Z) ->
  (forall e, In e k ->
     FlatMap.find Z.compare (snd (fst e)) f = Some (snd (fst e))) ->
  Key.collapse f amp k = Some (k, amp).
Proof.
  intros Hs Ht Hf. unfold Key.collapse.
  change (@Some (list (Mode * Z)) []) with (@Some Key []).
  assert (E : fold_left (Key.collapse_step f) k (@Some Key [])
              = Some (fold_left (fun p e =>
                                   FlatMap.upsert mode_cmp Z.add (fst e) (snd e) p)
                                k [])).
  { generalize (@nil (Mode * Z)). revert Hf. clear.
    induction k as [|e k IH]; intros Hf p; cbn [fold_left]; [reflexivity|].
    cbn [Key.collapse_step]. rewrite (Hf e (or_introl eq_refl)).
    unfold FlatMap.accumulate. rewrite <- surjective_pairing.
    apply IH. intros e' He'. apply Hf. now right. }
  rewrite E, (rebuild_map mode_cmp Z.add snd k Hs).
  rewrite (map_ext _ (fun x => x)), map_id
    by (intros [? ?]; reflexivity).
  pose proof (factor_pos k Ht). do 2 f_equal. field. lra.
Qed.

Lemma Key_collapse_identity_witness :
  let k := Key.addEnd 1 1 1 (Key.make 0 0 1) in
  let f := [(0, 0); (1, 1)]%Z in
  FlatMap.sorted mode_cmp k /\
  (forall e, In e k -> (0 <= snd e <= 12)%Z) /\
  (forall e, In e k ->
     FlatMap.find Z.compare (snd (fst e)) f = Some (snd (fst e))) /\
  Key.collapse f 1%R k = Some (k, 1%R).
Proof.
  intros k f.
  assert (H1 : FlatMap.sorted mode_cmp k) by exact two_photon_key_sorted.
  assert (H2 : forall e, In e k -> (0 <= snd e <= 12)%Z).
  { intros e [<-|[<-|[]]]; simpl; lia. }
  assert (H3 : forall e, In e k ->
             FlatMap.find Z.compare (snd (fst e)) f = Some (snd (fst e))).
  { intros e [<-|[<-|[]]]; reflexivity. }
  split; [exact H1|]. split; [exact H2|]. split; [exact H3|].
  exact (Key_collapse_identity f 1%R k H1 H2 H3).
Defined.

Ltac range_bool :=
  repeat match goal with
         | |- context [(?x <=? ?y)%Z] => destruct (Z.leb_spec x y)
         | |- context [(?x <? ?y)%Z] => destruct (Z.ltb_spec x y)
         end;
  cbn [andb]; try reflexivity; try discriminate; try lia.

(** The loop of [State::collapse] that numbers the distinguishability
    modes of [K]. *)
Lemma collapse_map_from (K : Key) (acc : FlatMap.t Z Z) (i j : Z) :
  FlatMap.sorted Z.compare acc ->
  let r := fold_left (fun st e =>
                        (FlatMap.insert_or_assign Z.compare (snd st)
                           (snd (fst e)) (fst st),
                         (snd st + 1)%Z))
                     K (acc, i) in
  FlatMap.find Z.compare j (fst r)
  = if ((i <=? j) && (j <? i + Z.of_nat (length K)))%Z
    then Some (snd (fst (nth (Z.to_nat (j - i)) K ((0, 0), 0)%Z)))
    else FlatMap.find Z.compare j acc.
Proof.
  revert acc i. induction K as [|e K IH]; intros acc i Hs; cbn [fold_left].
  - cbn [fst length]. replace ((i <=? j) && (j <? i + Z.of_nat 0))%Z with false;
      [reflexivity|].
    range_bool.
  - cbn [fst snd]. cbv zeta in IH. rewrite IH
      by now apply (FlatMap.upsert_sorted Z.compare).
    unfold FlatMap.insert_or_assign.
    rewrite (FlatMap.find_upsert Z.compare) by exact Hs.
    cbn [length]. rewrite Nat2Z.inj_succ.
    destruct (Z.compare_spec j i) as [E|L|L].
    + subst j. replace ((i + 1 <=? i) && (i <? i + 1 + Z.of_nat (length K)))%Z
        with false by range_bool.
      replace ((i <=? i) && (i <? i + Z.succ (Z.of_nat (length K))))%Z
        with true by range_bool.
      rewrite Z.sub_diag. cbn [Z.to_nat nth].
      destruct (FlatMap.find Z.compare i acc); reflexivity.
    + replace ((i + 1 <=? j) && (j <? i + 1 + Z.of_nat (length K)))%Z
        with false by range_bool.
      replace ((i <=? j) && (j <? i + Z.succ (Z.of_nat (length K))))%Z
        with false by range_bool.
      reflexivity.
    + replace ((i <=? j) && (j <? i + Z.succ (Z.of_nat (length K))))%Z
        with ((i + 1 <=? j) && (j <? i + 1 + Z.of_nat (length K)))%Z.
      * destruct ((i + 1 <=? j) && (j <? i + 1 + Z.of_nat (length K)))%Z;
          [|reflexivity].
        replace (Z.to_nat (j - i)) with (S (Z.to_nat (j - (i + 1)))) by lia.
        reflexivity.
      * range_bool.
Qed.

Lemma collapse_map_find (K : Key) (j : Z) :
  FlatMap.find Z.compare j (State.collapse_map K)
  = if ((0 <=? j) && (j <? Z.of_nat (length K)))%Z
    then Some (snd (fst (nth (Z.to_nat j) K ((0, 0), 0)%Z)))
    else None.
Proof.
  unfold State.collapse_map.
  pose proof (collapse_map_from K [] 0 j (FlatMap.sorted_nil Z.compare)) as H.
  cbv zeta in H. rewrite Z.add_0_l, Z.sub_0_r in H. exact H.
Qed.

Lemma collapse_terms_none (f : FlatMap.t Z Z) (l : FlatMap.t Key R)
    (p : FlatMap.t Key R) :
  fold_left (fun acc it =>
               match acc with
               | None => None
               | Some p =>
                   match Key.collapse f (snd it) (fst it) with
                   | None => None
                   | Some (K2, v) =>
                       Some (FlatMap.accumulate key_cmp Rplus K2 v p)
                   end
               end) l (Some p) = None
  <-> exists it, In it l /\ Key.collapse f (snd it) (fst it) = None.
Proof.
  revert p. induction l as [|it l IH]; intros p; cbn [fold_left].
  - split; [discriminate|]. intros (it & [] & _).
  - destruct (Key.collapse f (snd it) (fst it)) as [[K2 v]|] eqn:C.
    + rewrite IH. split.
      * intros (it' & H1 & H2). exists it'. split; [now right|exact H2].
      * intros (it' & [<-|H1] & H2); [congruence|]. exists it'. auto.
    + split.
      * intros _. exists it. split; [now left|exact C].
      * intros _. clear. induction l as [|x l IH]; simpl; auto.
Qed.

(** X13.  [State::collapse(K)] numbers the entries of [K] from 0 and maps the
    number to the distinguishability mode of the entry; it throws exactly
    when a term of the state holds a distinguishability mode that is not
    one of these numbers. *)
Theorem State_collapse_defined (K : Key) (S : State) :
  (forall j, FlatMap.find Z.compare j (State.collapse_map K)
             = if ((0 <=? j) && (j <? Z.of_nat (length K)))%Z
               then Some (snd (fst (nth (Z.to_nat j) K ((0, 0), 0)%Z)))
               else None) /\
  (State.collapse K S = None <->
   exists it e, In it (par S) /\ In e (fst it) /\
                ~ (0 <= snd (fst e) < Z.of_nat (length K))%Z).
Proof.
  split; [exact (collapse_map_find K)|].
  unfold State.collapse.
  pose proof (collapse_terms_none (State.collapse_map K) (par S) []) as H.
  match goal with
  | |- match ?t with _ => _ end = None <-> _ =>
      change t with
        (fold_left
           (fun acc it =>
              match acc with
              | None => None
              | Some p =>
                  match Key.collapse (State.collapse_map K) (snd it) (fst it) with
                  | None => None
                  | Some (K2, v) =>
                      Some (FlatMap.accumulate key_cmp Rplus K2 v p)
                  end
              end) (par S) (@Some (FlatMap.t Key R) []));
      destruct (fold_left
           (fun acc it =>
              match acc with
              | None => None
              | Some p =>
                  match Key.collapse (State.collapse_map K) (snd it) (fst it) with
                  | None => None
                  | Some (K2, v) =>
                      Some (FlatMap.accumulate key_cmp Rplus K2 v p)
                  end
              end) (par S) (@Some (FlatMap.t Key R) [])) as [p|] eqn:E
  end.
  - split; [discriminate|]. intros (it & e & Hit & He & Hn). exfalso.
    assert (G : exists it, In it (par S) /\
                  Key.collapse (State.collapse_map K) (snd it) (fst it) = None).
    { exists it. split; [exact Hit|].
      apply (proj1 (Key_collapse_cases _ _ _)).
      exists e. split; [exact He|]. rewrite collapse_map_find.
      range_bool. }
    discriminate (proj2 H G).
  - split; [|reflexivity]. intros _.
    destruct (proj1 H eq_refl) as (it & Hit & C).
    apply (proj1 (Key_collapse_cases _ _ _)) in C.
    destruct C as (e & He & F). exists it, e. split; [exact Hit|].
    split; [exact He|]. rewrite collapse_map_find in F.
    revert F. range_bool.
Qed.

(** ** The loss mode stays above the modes in use *)

Definition key_below (B : Z) (K : Key) : Prop :=
  forall e, In e K -> (fst (fst e) < B)%Z.

Definition modes_below (S : State) : Prop :=
  forall it, In it (par S) -> key_below (lossMode S) (fst it).

Lemma key_below_le (B B' : Z) (K : Key) :
  (B <= B')%Z -> key_below B K -> key_below B' K.
Proof. intros H HK e He. specialize (HK e He). lia. Qed.

Lemma key_below_upsert (B : Z) (f : Z -> Z -> Z) (p : Mode) (v : Z) (K : Key) :
  key_below B K -> (fst p < B)%Z ->
  key_below B (FlatMap.upsert mode_cmp f p v K).
Proof.
  intros HK Hp e He. apply (FlatMap.In_upsert mode_cmp) in He.
  destruct He as [E|He]; [rewrite E; exact Hp|now apply HK].
Qed.

Lemma addPhoton_lossMode_raised (get_ovlp : WF -> WF -> R) (wf : WF)
    (mode num : Z) (S : State) :
  lossMode (State.addPhoton get_ovlp wf mode num S)
  = if (mode >=? lossMode S)%Z then (mode + 1)%Z else lossMode S.
Proof.
  unfold State.addPhoton. destruct (par S); [reflexivity|].
  destruct (State.find_wave get_ovlp wf (waves S) 0); [reflexivity|].
  destruct (State.addBasisElem get_ovlp wf S). reflexivity.
Qed.

(** X14.  [addPhoton] keeps the loss mode above every spatial mode that a key
    of the state holds: it is never lowered, is above the mode the photon
    is added to, and stays above the modes of the keys. *)
Theorem addPhoton_lossMode (get_ovlp : WF -> WF -> R) (wf : WF)
    (mode num : Z) (S : State) :
  let S' := State.addPhoton get_ovlp wf mode num S in
  (lossMode S <= lossMode S')%Z /\
  (mode < lossMode S')%Z /\
  (modes_below S -> modes_below S').
Proof.
  intros S'.
  pose proof (addPhoton_lossMode_raised get_ovlp wf mode num S) as L.
  fold S' in L.
  assert (L1 : (lossMode S <= lossMode S')%Z)
    by (rewrite L; destruct (Z.geb_spec mode (lossMode S)); lia).
  assert (L2 : (mode < lossMode S')%Z)
    by (rewrite L; destruct (Z.geb_spec mode (lossMode S)); lia).
  split; [exact L1|]. split; [exact L2|].
  intros Hb. unfold modes_below.
  set (B := lossMode S') in *. clearbody B.
  assert (Hold : forall it, In it (par S) -> key_below B (fst it)).
  { intros it Hit. apply (key_below_le (lossMode S)); auto. }
  unfold S', State.addPhoton. destruct (par S) as [|t p] eqn:Ep.
  - cbn [par]. intros it [<-|[]]. cbn [fst]. unfold Key.make.
    apply key_below_upsert; [intros e []|exact L2].
  - rewrite <- Ep. rewrite <- Ep in Hold.
    destruct (State.find_wave get_ovlp wf (waves S) 0) as [index|].
    + cbn [par]. unfold FlatMap.insert.
      apply (store_keys (key_below B) (fun old _ => old)
               (fun it => Key.incr mode index num (fst it)) snd);
        [apply no_keys|].
      intros it Hit. unfold Key.incr, FlatMap.accumulate.
      apply key_below_upsert; [now apply Hold|exact L2].
    + destruct (State.addBasisElem get_ovlp wf S) as [S1 decomp]. cbn [par].
      apply (fold_left_inv
               (fun m : FlatMap.t Key R => forall y, In y m -> key_below B (fst y)));
        [apply no_keys|].
      intros m it Hit Hm. unfold FlatMap.insert.
      apply (store_keys (key_below B) (fun old _ => old)
               (fun i => Key.addEnd mode (Z.of_nat i) num (fst it))
               (fun i => (snd it * nth i decomp 0)%R)); [exact Hm|].
      intros i _. unfold Key.addEnd, FlatMap.insert_or_assign.
      apply key_below_upsert; [now apply Hold|exact L2].
Qed.

(** [Key::loss]: [maxLM] only grows, and the keys returned hold no
    spatial mode at or above the larger of [lossMode] and [maxLM]. *)
Lemma Key_loss_below (modes : list Z) (lm mx : Z) (k : Key) :
  key_below lm k ->
  (mx <= snd (Key.loss modes lm mx k))%Z /\
  forall y, In y (fst (Key.loss modes lm mx k)) ->
            key_below (Z.max lm (snd (Key.loss modes lm mx k))) (fst y).
Proof.
  intros Hk. unfold Key.loss.
  assert (G : let st := fold_left (Key.loss_step modes lm k) k ([], 0%Z, mx) in
              (mx <= snd st)%Z /\
              forall y, In y (fst (fst st)) ->
                        key_below (Z.max lm (snd st)) (fst y)).
  { apply (fold_left_inv
             (fun st : SD * Z * Z =>
                (mx <= snd st)%Z /\
                forall y, In y (fst (fst st)) ->
                          key_below (Z.max lm (snd st)) (fst y))).
    - cbn [fst snd]. split; [lia|intros y []].
    - intros [[R0 total] mx0] e He [I1 I2]. cbn [fst snd] in I1, I2.
      unfold Key.loss_step.
      destruct (negb (Key.position (fst (fst e)) modes
                      =? Z.of_nat (length modes))%Z && (snd e >? 0)%Z);
        [|cbn [fst snd]; auto].
      cbn [fst snd].
      set (j := Key.position (fst (fst e)) modes).
      set (mx1 := if (lm + j >=? mx0)%Z then (lm + j + 1)%Z else mx0).
      assert (M1 : (mx0 <= mx1)%Z)
        by (unfold mx1; destruct (Z.geb_spec (lm + j) mx0); lia).
      assert (M2 : (lm + j < mx1)%Z)
        by (unfold mx1; destruct (Z.geb_spec (lm + j) mx0); lia).
      split; [lia|].
      intros y Hy. apply (In_insert_or_assign key_cmp) in Hy.
      destruct Hy as [->|Hy].
      + cbn [fst]. unfold FlatMap.insert_or_assign.
        apply key_below_upsert; [apply key_below_upsert|cbn [fst]; lia].
        * apply (key_below_le lm); [lia|exact Hk].
        * specialize (Hk e He). lia.
      + apply (key_below_le (Z.max lm mx0)); [lia|now apply I2]. }
  cbv zeta in G.
  destruct (fold_left (Key.loss_step modes lm k) k ([], 0%Z, mx))
    as [[R0 total] mx1]. cbn [fst snd] in G. destruct G as [G1 G2].
  destruct (total =? 0)%Z; cbn [fst snd]; (split; [exact G1|]).
  - intros y Hy. apply (In_insert_or_assign key_cmp) in Hy.
    destruct Hy as [->|Hy]; [|now apply G2].
    cbn [fst]. apply (key_below_le lm); [lia|exact Hk].
  - intros y Hy. apply in_map_iff in Hy. destruct Hy as (x & <- & Hx).
    cbn [fst]. now apply G2.
Qed.

(** X15.  [State::loss] never lowers the loss mode, whatever the state; and
    on a state whose loss mode lies above every spatial mode that a key
    holds, the loss mode of the result lies above every spatial mode of
    its keys, the modes the lost photons went to included. *)
Theorem loss_lossMode (modes : list Z) (S : State) :
  (lossMode S <= lossMode (State.loss modes S))%Z /\
  (modes_below S -> modes_below (State.loss modes S)).
Proof.
  unfold State.loss.
  assert (G : modes_below S ->
              let st := fold_left (State.loss_step modes (lossMode S)) (par S)
                                  ([], 0%Z) in
              forall y, In y (fst st) ->
                        key_below (Z.max (lossMode S) (snd st)) (fst y)).
  { intros Hb.
    apply (fold_left_inv
             (fun st : FlatMap.t Key R * Z =>
                forall y, In y (fst st) ->
                          key_below (Z.max (lossMode S) (snd st)) (fst y))).
    - intros y [].
    - intros [this mx] it Hit I. cbn [fst snd] in I.
      unfold State.loss_step. cbn [fst snd].
      destruct (Key_loss_below modes (lossMode S) mx (fst it) (Hb it Hit))
        as [K1 K2].
      destruct (Key.loss modes (lossMode S) mx (fst it)) as [sd mx1].
      cbn [fst snd] in *. unfold State.add_scaled, FlatMap.accumulate.
      apply (store_keys (key_below (Z.max (lossMode S) mx1)) Rplus fst
               (fun x => (snd it * snd x)%R)); [|exact K2].
      intros y Hy. apply (key_below_le (Z.max (lossMode S) mx)); [lia|].
      now apply I. }
  cbv zeta in G.
  destruct (fold_left (State.loss_step modes (lossMode S)) (par S) ([], 0%Z))
    as [this mx]. cbn [fst snd] in G.
  unfold State.clean, State.set_par. cbn [par waves basis tol lossMode].
  split; [destruct (Z.gtb_spec mx (lossMode S)); lia|].
  intros Hb. specialize (G Hb).
  unfold modes_below. cbn [par lossMode].
  unfold State.clean_par, FlatMap.insert.
  apply (copy_keys
           (key_below (if (mx >? lossMode S)%Z then mx else lossMode S))
           (fun old _ : R => old)
           (fun it => Rgtb (Rabs (snd it))
                           (tol (mkState this (waves S) (basis S) (tol S)
                                   (if (mx >? lossMode S)%Z then mx
                                    else lossMode S))))
           fst snd); [apply no_keys|].
  intros x Hx. replace (if (mx >? lossMode S)%Z then mx else lossMode S)
    with (Z.max (lossMode S) mx)
    by (destruct (Z.gtb_spec mx (lossMode S)); lia).
  now apply G.
Qed.

Lemma one_photon_modes_below : modes_below one_photon.
Proof. intros it [<-|[]] e [<-|[]]. simpl. lia. Qed.

Lemma loss_lossMode_witness :
  modes_below one_photon /\
  (lossMode one_photon <= lossMode (State.loss [0]%Z one_photon))%Z /\
  modes_below (State.loss [0]%Z one_photon).
Proof.
  split; [exact one_photon_modes_below|].
  destruct (loss_lossMode [0]%Z one_photon) as [H1 H2].
  split; [exact H1 | exact (H2 one_photon_modes_below)].
Defined.

(** ** [Key::loss]: photon number and norm *)

(** All the photons of a key. *)
Definition photon_number (k : Key) : Z :=
  fold_left (fun s e => (s + snd e)%Z) k 0%Z.

Lemma photon_number_from (k : Key) (s : Z) :
  fold_left (fun s e => (s + snd e)%Z) k s = (s + photon_number k)%Z.
Proof.
  unfold photon_number. revert s.
  induction k as [|e k IH]; intros s; simpl; [lia|].
  rewrite IH, (IH (snd e)). lia.
Qed.

Lemma photon_number_cons (e : Mode * Z) (k : Key) :
  photon_number (e :: k) = (snd e + photon_number k)%Z.
Proof. unfold photon_number at 1. simpl. now rewrite photon_number_from. Qed.

Lemma photon_number_upsert (f : Z -> Z -> Z) (p : Mode) (v : Z) (k : Key) :
  FlatMap.sorted mode_cmp k ->
  photon_number (FlatMap.upsert mode_cmp f p v k)
  = (photon_number k
     + match FlatMap.find mode_cmp p k with
       | Some old => f old v - old
       | None => v
       end)%Z.
Proof.
  induction k as [|[q w] k IH]; intros Hs; cbn [FlatMap.upsert FlatMap.find].
  - rewrite photon_number_cons. cbn [snd]. unfold photon_number. simpl. lia.
  - destruct (mode_cmp p q) eqn:C.
    + rewrite !photon_number_cons. cbn [snd]. lia.
    + rewrite (photon_number_cons (p, v)). cbn [snd].
      pose proof (@FlatMap.find_below _ _ mode_cmp _ p (q, w) k Hs C) as F.
      cbn [FlatMap.find] in F. rewrite C in F. rewrite F. lia.
    + rewrite !photon_number_cons, IH by exact (FlatMap.sorted_tail mode_cmp Hs).
      cbn [snd]. lia.
Qed.

Lemma position_nonneg (x : Z) (modes : list Z) :
  (0 <= Key.position x modes)%Z.
Proof.
  induction modes as [|y modes IH]; cbn [Key.position]; [lia|].
  destruct (y =? x)%Z; lia.
Qed.

(** The key [Key::loss] stores for the entry [e]. *)
Definition lost (modes : list Z) (lm : Z) (k : Key) (e : Mode * Z) : Key :=
  FlatMap.insert_or_assign mode_cmp
    ((lm + Key.position (fst (fst e)) modes)%Z, snd (fst e)) 1%Z
    (FlatMap.insert_or_assign mode_cmp (fst e) (snd e - 1)%Z k).

Lemma below_find_None (lm : Z) (k : Key) (p : Mode) :
  key_below lm k -> (lm <= fst p)%Z -> FlatMap.find mode_cmp p k = None.
Proof.
  intros Hk Hp. apply (FlatMap.notin_find_None mode_cmp).
  intros Hin. unfold FlatMap.keys in Hin. apply in_map_iff in Hin.
  destruct Hin as (e & <- & He). specialize (Hk e He). lia.
Qed.

Lemma mode_cmp_neq (p q : Mode) : p <> q -> mode_cmp p q <> Eq.
Proof. intros H C. apply cmp_eq in C. contradiction. Qed.

Lemma lost_find (modes : list Z) (lm : Z) (k : Key) (e : Mode * Z) (x : Mode) :
  FlatMap.sorted mode_cmp k -> key_below lm k -> (fst x < lm)%Z ->
  FlatMap.find mode_cmp x (lost modes lm k e)
  = if match mode_cmp x (fst e) with Eq => true | _ => false end
    then Some (snd e - 1)%Z
    else FlatMap.find mode_cmp x k.
Proof.
  intros Hs Hk Hx. unfold lost, FlatMap.insert_or_assign.
  rewrite (FlatMap.find_upsert mode_cmp)
    by now apply (FlatMap.upsert_sorted mode_cmp).
  pose proof (position_nonneg (fst (fst e)) modes) as Hp.
  destruct (mode_cmp x ((lm + Key.position (fst (fst e)) modes)%Z, snd (fst e)))
    eqn:C.
  - apply cmp_eq in C. subst x. cbn [fst] in Hx. lia.
  - rewrite (FlatMap.find_upsert mode_cmp) by exact Hs.
    destruct (mode_cmp x (fst e)); try reflexivity.
    destruct (FlatMap.find mode_cmp (fst e) k); reflexivity.
  - rewrite (FlatMap.find_upsert mode_cmp) by exact Hs.
    destruct (mode_cmp x (fst e)); try reflexivity.
    destruct (FlatMap.find mode_cmp (fst e) k); reflexivity.
Qed.

Lemma lost_photon_number (modes : list Z) (lm : Z) (k : Key) (e : Mode * Z) :
  FlatMap.sorted mode_cmp k -> key_below lm k -> In e k ->
  photon_number (lost modes lm k e) = photon_number k.
Proof.
  intros Hs Hk He. unfold lost, FlatMap.insert_or_assign.
  pose proof (position_nonneg (fst (fst e)) modes) as Hp.
  rewrite photon_number_upsert by now apply (FlatMap.upsert_sorted mode_cmp).
  rewrite (FlatMap.find_upsert mode_cmp) by exact Hs.
  destruct (mode_cmp ((lm + Key.position (fst (fst e)) modes)%Z, snd (fst e))
                     (fst e)) eqn:C.
  - apply cmp_eq in C. specialize (Hk e He). rewrite <- C in Hk.
    cbn [fst] in Hk. lia.
  - rewrite (below_find_None lm) by (auto; cbn [fst]; lia).
    rewrite photon_number_upsert by exact Hs.
    assert (F : FlatMap.find mode_cmp (fst e) k = Some (snd e)).
    { apply (FlatMap.In_find mode_cmp); [exact Hs|now destruct e]. }
    rewrite F. lia.
  - rewrite (below_find_None lm) by (auto; cbn [fst]; lia).
    rewrite photon_number_upsert by exact Hs.
    assert (F : FlatMap.find mode_cmp (fst e) k = Some (snd e)).
    { apply (FlatMap.In_find mode_cmp); [exact Hs|now destruct e]. }
    rewrite F. lia.
Qed.

(** Entries at different places of the key give different keys. *)
Lemma lost_inj (modes : list Z) (lm : Z) (k : Key) (e1 e2 : Mode * Z) :
  FlatMap.sorted mode_cmp k -> key_below lm k ->
  In e1 k -> In e2 k -> fst e1 <> fst e2 ->
  lost modes lm k e1 <> lost modes lm k e2.
Proof.
  intros Hs Hk H1 H2 Hne E.
  assert (F : FlatMap.find mode_cmp (fst e1) (lost modes lm k e1)
              = FlatMap.find mode_cmp (fst e1) (lost modes lm k e2))
    by now rewrite E.
  rewrite !lost_find in F by (auto; apply (Hk e1 H1)).
  rewrite cmp_refl in F.
  destruct (mode_cmp (fst e1) (fst e2)) eqn:C;
    [apply cmp_eq in C; contradiction| |];
    (assert (G : FlatMap.find mode_cmp (fst e1) k = Some (snd e1))
       by (apply (FlatMap.In_find mode_cmp); [exact Hs|now destruct e1]);
     rewrite G in F; inversion F; lia).
Qed.

Lemma sum_squares_upsert_fresh (f : R -> R -> R) (K : Key) (v : R)
    (m : FlatMap.t Key R) :
  FlatMap.find key_cmp K m = None ->
  sum_squares (FlatMap.upsert key_cmp f K v m)
  = (sum_squares m + Rabs v ^ 2)%R.
Proof.
  induction m as [|[K' v'] m IH]; cbn [FlatMap.upsert FlatMap.find]; intros F.
  - rewrite sum_squares_cons. cbn [snd]. unfold sum_squares. simpl. ring.
  - destruct (key_cmp K K') eqn:C; [discriminate| |].
    + rewrite (sum_squares_cons (K, v)). cbn [snd]. ring.
    + rewrite !sum_squares_cons, IH by exact F. ring.
Qed.

Definition affected (modes : list Z) (e : Mode * Z) : bool :=
  negb (Key.position (fst (fst e)) modes =? Z.of_nat (length modes))%Z
  && (snd e >? 0)%Z.

(** The loop of [Key::loss] after the entries [pre]. *)
Definition loss_inv (modes : list Z) (lm : Z) (k pre : Key)
    (st : SD * Z * Z) : Prop :=
  (0 <= snd (fst st))%Z /\
  (snd (fst st) = 0%Z -> fst (fst st) = []) /\
  sum_squares (fst (fst st)) = IZR (snd (fst st)) /\
  FlatMap.sorted key_cmp (fst (fst st)) /\
  forall y, In y (fst (fst st)) ->
    exists e, In e pre /\ affected modes e = true /\
              fst y = lost modes lm k e.

Lemma loss_inv_fold (modes : list Z) (lm : Z) (k : Key) :
  FlatMap.sorted mode_cmp k -> key_below lm k ->
  forall es pre st,
    k = pre ++ es -> loss_inv modes lm k pre st ->
    loss_inv modes lm k k (fold_left (Key.loss_step modes lm k) es st).
Proof.
  intros Hs Hk. induction es as [|e es IH]; intros pre st Ek Hinv.
  - rewrite app_nil_r in Ek. subst pre. exact Hinv.
  - cbn [fold_left].
    apply (IH (pre ++ [e]));
      [rewrite <- app_assoc; exact Ek|].
    destruct st as [[R0 total] mx]. destruct Hinv as (I1 & I2 & I3 & I5 & I4).
    cbn [fst snd] in *. unfold Key.loss_step.
    fold (affected modes e). destruct (affected modes e) eqn:A0.
    + pose proof A0 as A.
      unfold affected in A. apply andb_true_iff in A. destruct A as [_ A].
      assert (Hn : (0 < snd e)%Z) by lia.
      fold (lost modes lm k e).
      assert (He : In e k) by (rewrite Ek; apply in_or_app; right; now left).
      assert (Fresh : FlatMap.find key_cmp (lost modes lm k e) R0 = None).
      { apply (FlatMap.notin_find_None key_cmp). intros Hin.
        unfold FlatMap.keys in Hin. apply in_map_iff in Hin.
        destruct Hin as (y & Ey & Hy).
        destruct (I4 y Hy) as (e' & He' & _ & Ee').
        rewrite Ee' in Ey.
        assert (He'k : In e' k) by (rewrite Ek; apply in_or_app; now left).
        revert Ey. apply lost_inj; auto.
        rewrite Ek in Hs.
        apply (sorted_split_keys mode_cmp pre es e e' Hs).
        apply in_or_app. now left. }
      repeat split; cbn [fst snd].
      * lia.
      * intros Z0. lia.
      * unfold FlatMap.insert_or_assign.
        rewrite sum_squares_upsert_fresh by exact Fresh.
        replace (snd e - 1 + 1)%Z with (snd e) by lia.
        rewrite I3, plus_IZR.
        rewrite Rabs_pos_eq by apply sqrt_pos.
        simpl. rewrite Rmult_1_r, sqrt_sqrt; [reflexivity|].
        apply IZR_le. lia.
      * now apply (FlatMap.upsert_sorted key_cmp).
      * intros y Hy. apply (In_insert_or_assign key_cmp) in Hy.
        destruct Hy as [->|Hy].
        -- exists e. split; [apply in_or_app; right; now left|].
           split; [exact A0|reflexivity].
        -- destruct (I4 y Hy) as (e' & He' & Ee').
           exists e'. split; [apply in_or_app; now left|exact Ee'].
    + repeat split; cbn [fst snd]; auto.
      intros y Hy. destruct (I4 y Hy) as (e' & He' & Ee').
      exists e'. split; [apply in_or_app; now left|exact Ee'].
Qed.

(** What [Key::loss] returns. *)
Lemma Key_loss_facts (modes : list Z) (lm mx : Z) (k : Key) :
  FlatMap.sorted mode_cmp k -> key_below lm k ->
  sum_squares (fst (Key.loss modes lm mx k)) = 1%R /\
  FlatMap.sorted key_cmp (fst (Key.loss modes lm mx k)) /\
  forall y, In y (fst (Key.loss modes lm mx k)) ->
    fst y = k \/
    exists e, In e k /\ affected modes e = true /\ fst y = lost modes lm k e.
Proof.
  intros Hs Hk. unfold Key.loss.
  pose proof (loss_inv_fold modes lm k Hs Hk k [] ([], 0%Z, mx) eq_refl) as G.
  assert (G0 : loss_inv modes lm k [] ([], 0%Z, mx)).
  { repeat split; cbn [fst snd]; try lia; auto.
    - apply FlatMap.sorted_nil.
    - intros y []. }
  specialize (G G0). clear G0.
  destruct (fold_left (Key.loss_step modes lm k) k ([], 0%Z, mx))
    as [[R0 total] mx1].
  destruct G as (I1 & I2 & I3 & I5 & I4). cbn [fst snd] in *.
  destruct (Z.eqb_spec total 0) as [Z0|NZ]; cbn [fst].
  - rewrite (I2 Z0). cbn. split; [|split].
    + unfold sum_squares. simpl. rewrite Rabs_R1. ring.
    + unfold FlatMap.sorted. cbn. repeat constructor.
    + intros y [<-|[]]. now left.
  - split; [|split].
    + assert (T : (0 < IZR total)%R) by (apply IZR_lt; lia).
      unfold Rdiv. rewrite sum_squares_scale, I3.
      assert (Q : (sqrt (IZR total) * sqrt (IZR total))%R = IZR total)
        by (apply sqrt_sqrt; lra).
      assert (P : (0 < sqrt (IZR total))%R) by now apply sqrt_lt_R0.
      rewrite <- Q at 2. field. lra.
    + revert I5. apply FlatMap.sorted_same_keys. unfold FlatMap.keys.
      rewrite map_map. reflexivity.
    + intros y Hy. apply in_map_iff in Hy. destruct Hy as (x & <- & Hx).
      cbn [fst]. right. exact (I4 x Hx).
Qed.

(** X16.  [Key::loss] on a sorted key whose spatial modes are all below
    [lossMode]: the terms returned have norm 1, and each of their keys
    holds as many photons as the key. *)
Theorem Key_loss_unit_norm (modes : list Z) (lm mx : Z) (k : Key) :
  FlatMap.sorted mode_cmp k -> key_below lm k ->
  State.norm_par (fst (Key.loss modes lm mx k)) = 1%R /\
  forall y, In y (fst (Key.loss modes lm mx k)) ->
            photon_number (fst y) = photon_number k.
Proof.
  intros Hs Hk.
  destruct (Key_loss_facts modes lm mx k Hs Hk) as (F1 & _ & F3). split.
  - unfold State.norm_par.
    fold (sum_squares (fst (Key.loss modes lm mx k))).
    rewrite F1. apply sqrt_1.
  - intros y Hy. destruct (F3 y Hy) as [->|(e & He & _ & ->)];
      [reflexivity|now apply lost_photon_number].
Qed.

Lemma two_photon_key_below : key_below 2 (Key.addEnd 1 1 1 (Key.make 0 0 1)).
Proof. intros e [<-|[<-|[]]]; simpl; lia. Qed.

Lemma Key_loss_unit_norm_witness :
  let k := Key.addEnd 1 1 1 (Key.make 0 0 1) in
  FlatMap.sorted mode_cmp k /\ key_below 2 k /\
  State.norm_par (fst (Key.loss [0; 1]%Z 2 0 k)) = 1%R.
Proof.
  intros k.
  split; [exact two_photon_key_sorted|]. split; [exact two_photon_key_below|].
  exact (proj1 (Key_loss_unit_norm [0; 1]%Z 2 0 k two_photon_key_sorted
                  two_photon_key_below)).
Defined.

Lemma sum_squares_app (p q : FlatMap.t Key R) :
  sum_squares (p ++ q) = (sum_squares p + sum_squares q)%R.
Proof.
  induction p as [|x p IH]; cbn [app].
  - unfold sum_squares at 2. simpl. ring.
  - rewrite !sum_squares_cons, IH. ring.
Qed.

(** Terms stored under the images of their keys, the images distinct:
    the sum of the squares is the one of the terms. *)
Lemma sum_squares_fold_insert (h : Key -> Key) (p : FlatMap.t Key R) :
  FlatMap.sorted key_cmp p ->
  (forall k1 k2, In k1 (FlatMap.keys p) -> In k2 (FlatMap.keys p) ->
                 h k1 = h k2 -> k1 = k2) ->
  sum_squares
    (fold_left (fun out it => FlatMap.insert key_cmp (h (fst it)) (snd it) out)
               p [])
  = sum_squares p.
Proof.
  intros Hs Hinj.
  assert (G : forall es pre acc,
            p = pre ++ es ->
            sum_squares acc = sum_squares pre ->
            (forall y, In y acc -> exists x, In x pre /\ fst y = h (fst x)) ->
            sum_squares
              (fold_left (fun out it =>
                            FlatMap.insert key_cmp (h (fst it)) (snd it) out)
                         es acc)
            = sum_squares p).
  { induction es as [|x es IH]; intros pre acc Ep Hsum Hacc; cbn [fold_left].
    - rewrite app_nil_r in Ep. now subst pre.
    - apply (IH (pre ++ [x])).
      + now rewrite <- app_assoc.
      + unfold FlatMap.insert. rewrite sum_squares_upsert_fresh.
        * rewrite sum_squares_app, Hsum, sum_squares_cons.
          unfold sum_squares at 3. simpl. ring.
        * apply (FlatMap.notin_find_None key_cmp). intros Hin.
          unfold FlatMap.keys in Hin. apply in_map_iff in Hin.
          destruct Hin as (y & Ey & Hy).
          destruct (Hacc y Hy) as (x' & Hx' & Ex'). rewrite Ex' in Ey.
          assert (E : fst x' = fst x).
          { apply Hinj; [| |exact Ey]; unfold FlatMap.keys; apply in_map;
              rewrite Ep; apply in_or_app; [now left|right; now left]. }
          rewrite Ep in Hs.
          refine (sorted_split_keys key_cmp pre es x x' Hs _ E).
          apply in_or_app. now left.
      + intros y Hy. apply (In_insert key_cmp) in Hy.
        destruct Hy as [->|Hy].
        * exists x. split; [apply in_or_app; right; now left|reflexivity].
        * destruct (Hacc y Hy) as (x' & Hx' & Ex').
          exists x'. split; [apply in_or_app; now left|exact Ex']. }
  apply (G p [] []); auto. intros y [].
Qed.

(** X17.  [swap(a, b)] leaves the norm of the state. *)
Theorem State_swap_norm (a b : Z) (S : State) :
  FlatMap.sorted key_cmp (par S) ->
  (forall it, In it (par S) -> FlatMap.sorted mode_cmp (fst it)) ->
  State.norm (State.swap a b S) = State.norm S.
Proof.
  intros Hs Hk. unfold State.norm, State.norm_par, State.swap, State.set_par.
  cbn [par]. fold (sum_squares (par S)).
  fold (sum_squares
          (fold_left (fun out it =>
                        FlatMap.insert key_cmp (Key.swap a b (fst it)) (snd it) out)
                     (par S) [])).
  rewrite (sum_squares_fold_insert (Key.swap a b)); auto.
  intros k1 k2 H1 H2 E. unfold FlatMap.keys in H1, H2.
  apply in_map_iff in H1, H2.
  destruct H1 as (x1 & <- & H1). destruct H2 as (x2 & <- & H2).
  rewrite <- (Key_swap_twice a b (fst x1)) by auto.
  rewrite <- (Key_swap_twice a b (fst x2)) by auto.
  now rewrite E.
Qed.

Lemma State_swap_norm_witness :
  FlatMap.sorted key_cmp (par one_photon) /\
  (forall it, In it (par one_photon) -> FlatMap.sorted mode_cmp (fst it)) /\
  State.norm (State.swap 0 1 one_photon) = State.norm one_photon.
Proof.
  split; [exact one_photon_sorted|]. split; [exact one_photon_keys_sorted|].
  exact (State_swap_norm 0 1 one_photon one_photon_sorted
           one_photon_keys_sorted).
Defined.

(** ** [Key::add] *)

(** X18.  [add] adds the photons of the two keys pair by pair, a pair that is
    not stored counting as 0, so the order of the two keys does not
    matter. *)
Theorem Key_add_commutes (p k : Key) :
  FlatMap.sorted mode_cmp p -> FlatMap.sorted mode_cmp k ->
  (forall x, occupation x (Key.add p k)
             = (occupation x k + occupation x p)%Z) /\
  (forall m, spatial_occupation m (Key.add p k)
             = (spatial_occupation m k + spatial_occupation m p)%Z) /\
  Key.add p k = Key.add k p.
Proof.
  intros Hp Hk. split; [|split].
  - intros x. unfold occupation. rewrite Key_add_find by assumption.
    destruct (FlatMap.find mode_cmp x p), (FlatMap.find mode_cmp x k); lia.
  - intros m. apply spatial_add.
  - apply (FlatMap.sorted_ext mode_cmp); try now apply Key_add_sorted.
    intros x. rewrite !Key_add_find by assumption.
    destruct (FlatMap.find mode_cmp x p), (FlatMap.find mode_cmp x k);
      try reflexivity. f_equal. lia.
Qed.

Lemma Key_add_commutes_witness :
  let p := Key.make 0 0 1 in
  let k := Key.addEnd 1 1 1 (Key.make 0 0 1) in
  FlatMap.sorted mode_cmp p /\ FlatMap.sorted mode_cmp k /\
  Key.add p k = Key.add k p.
Proof.
  intros p k.
  assert (H1 : FlatMap.sorted mode_cmp p)
    by (unfold FlatMap.sorted; cbn; repeat constructor).
  assert (H2 : FlatMap.sorted mode_cmp k) by exact two_photon_key_sorted.
  split; [exact H1|]. split; [exact H2|].
  exact (proj2 (proj2 (Key_add_commutes p k H1 H2))).
Defined.

(** ** [State::loss] and the norm *)

Lemma position_inj (x x' : Z) (modes : list Z) :
  Key.position x modes = Key.position x' modes ->
  Key.position x modes <> Z.of_nat (length modes) ->
  x = x'.
Proof.
  induction modes as [|y modes IH]; cbn [Key.position length].
  - intros _ H. contradiction.
  - pose proof (position_nonneg x modes). pose proof (position_nonneg x' modes).
    destruct (Z.eqb_spec y x), (Z.eqb_spec y x'); intros E N;
      try congruence; try lia; try (apply IH; lia).
Qed.

Lemma lost_find_loss (modes : list Z) (lm : Z) (k : Key) (e : Mode * Z) :
  FlatMap.sorted mode_cmp k ->
  FlatMap.find mode_cmp
    ((lm + Key.position (fst (fst e)) modes)%Z, snd (fst e))
    (lost modes lm k e) = Some 1%Z.
Proof.
  intros Hs. unfold lost, FlatMap.insert_or_assign.
  rewrite (FlatMap.find_upsert mode_cmp)
    by now apply (FlatMap.upsert_sorted mode_cmp).
  rewrite cmp_refl.
  destruct (FlatMap.find mode_cmp _ _); reflexivity.
Qed.

Lemma lost_find_above (modes : list Z) (lm : Z) (k : Key) (e : Mode * Z)
    (x : Mode) :
  FlatMap.sorted mode_cmp k -> key_below lm k -> In e k ->
  (lm <= fst x)%Z ->
  x <> ((lm + Key.position (fst (fst e)) modes)%Z, snd (fst e)) ->
  FlatMap.find mode_cmp x (lost modes lm k e) = None.
Proof.
  intros Hs Hk He Hx Hne. unfold lost, FlatMap.insert_or_assign.
  rewrite (FlatMap.find_upsert mode_cmp)
    by now apply (FlatMap.upsert_sorted mode_cmp).
  destruct (mode_cmp x _) eqn:C; [apply cmp_eq in C; contradiction| |];
    rewrite (FlatMap.find_upsert mode_cmp) by exact Hs;
    (destruct (mode_cmp x (fst e)) eqn:C2;
     [apply cmp_eq in C2; specialize (Hk e He); rewrite <- C2 in Hk; lia| |]);
    now apply (below_find_None lm).
Qed.

Lemma lost_ne_key (modes : list Z) (lm : Z) (k k' : Key) (e : Mode * Z) :
  FlatMap.sorted mode_cmp k -> key_below lm k' ->
  lost modes lm k e <> k'.
Proof.
  intros Hs Hk' E.
  pose proof (lost_find_loss modes lm k e Hs) as F. rewrite E in F.
  pose proof (position_nonneg (fst (fst e)) modes).
  rewrite (below_find_None lm) in F by (auto; cbn [fst]; lia).
  discriminate.
Qed.

Lemma affected_position (modes : list Z) (e : Mode * Z) :
  affected modes e = true ->
  Key.position (fst (fst e)) modes <> Z.of_nat (length modes).
Proof.
  unfold affected. intros A. apply andb_true_iff in A. destruct A as [A _].
  apply negb_true_iff in A. now apply Z.eqb_neq.
Qed.

(** Keys that [Key::loss] makes of different keys are different. *)
Lemma lost_key_inj (modes : list Z) (lm : Z) (k k' : Key) (e e' : Mode * Z) :
  FlatMap.sorted mode_cmp k -> FlatMap.sorted mode_cmp k' ->
  key_below lm k -> key_below lm k' ->
  In e k -> In e' k' -> affected modes e = true ->
  lost modes lm k e = lost modes lm k' e' -> k = k'.
Proof.
  intros Hs Hs' Hk Hk' He He' A E.
  pose proof (position_nonneg (fst (fst e)) modes) as P.
  pose proof (position_nonneg (fst (fst e')) modes) as P'.
  assert (Epair : ((lm + Key.position (fst (fst e)) modes)%Z, snd (fst e))
                  = ((lm + Key.position (fst (fst e')) modes)%Z, snd (fst e'))).
  { pose proof (lost_find_loss modes lm k e Hs) as F. rewrite E in F.
    match goal with
    | |- ?x = ?y => destruct (mode_cmp x y) eqn:C;
                    [now apply cmp_eq in C| |]
    end;
      rewrite lost_find_above in F; auto; try discriminate;
        try (cbn [fst]; lia);
        intros N; rewrite N, cmp_refl in C; discriminate. }
  inversion Epair as [[E1 E2]].
  assert (Em : fst (fst e) = fst (fst e')).
  { apply (position_inj _ _ modes); [lia|now apply affected_position]. }
  assert (Ef : fst e = fst e').
  { destruct e as [[m d] n], e' as [[m' d'] n']. cbn [fst snd] in *.
    congruence. }
  assert (Fe : FlatMap.find mode_cmp (fst e) k = Some (snd e))
    by (apply (FlatMap.In_find mode_cmp); [exact Hs|now destruct e]).
  assert (Fe' : FlatMap.find mode_cmp (fst e') k' = Some (snd e'))
    by (apply (FlatMap.In_find mode_cmp); [exact Hs'|now destruct e']).
  apply (FlatMap.sorted_ext mode_cmp); auto.
  intros x. destruct (Z.lt_ge_cases (fst x) lm) as [L|G].
  - assert (F : FlatMap.find mode_cmp x (lost modes lm k e)
                = FlatMap.find mode_cmp x (lost modes lm k' e'))
      by now rewrite E.
    rewrite !lost_find in F by assumption. rewrite <- Ef in F.
    destruct (mode_cmp x (fst e)) eqn:C; try exact F.
    apply cmp_eq in C. subst x. rewrite Fe. rewrite Ef, Fe'.
    inversion F. f_equal. lia.
  - rewrite !(below_find_None lm) by assumption. reflexivity.
Qed.

Lemma sum_squares_add_scaled_fresh (sd : SD) (v : R) (this : FlatMap.t Key R) :
  FlatMap.sorted key_cmp sd -> FlatMap.sorted key_cmp this ->
  (forall y, In y sd -> FlatMap.find key_cmp (fst y) this = None) ->
  sum_squares (State.add_scaled sd v this)
  = (sum_squares this + v ^ 2 * sum_squares sd)%R.
Proof.
  unfold State.add_scaled. revert this.
  induction sd as [|y sd IH]; intros this Hsd Hthis Hf; cbn [fold_left].
  - unfold sum_squares at 3. simpl. ring.
  - rewrite IH.
    + unfold FlatMap.accumulate.
      rewrite sum_squares_upsert_fresh by (apply Hf; now left).
      rewrite sum_squares_cons, Rabs_mult.
      rewrite <- !Rsqr_pow2, Rsqr_mult, <- !Rsqr_abs. unfold Rsqr. ring.
    + exact (FlatMap.sorted_tail key_cmp Hsd).
    + now apply (FlatMap.upsert_sorted key_cmp).
    + intros y' Hy'. unfold FlatMap.accumulate.
      rewrite (FlatMap.find_upsert key_cmp) by exact Hthis.
      pose proof (FlatMap.sorted_head_lt key_cmp Hsd Hy') as L.
      unfold FlatMap.key_lt in L.
      rewrite (cmp_lt_gt key_cmp _ _ L). apply Hf. now right.
Qed.

(** The container of [State::loss] before the final [clean]. *)
Definition loss_terms (modes : list Z) (S : State) : FlatMap.t Key R :=
  fst (fold_left (State.loss_step modes (lossMode S)) (par S) ([], 0%Z)).

Definition from_term (modes : list Z) (lm : Z) (x : Key * R) (K : Key)
    : Prop :=
  K = fst x \/
  exists e, In e (fst x) /\ affected modes e = true /\
            K = lost modes lm (fst x) e.

Lemma loss_terms_squares (modes : list Z) (S : State) :
  FlatMap.sorted key_cmp (par S) ->
  (forall it, In it (par S) -> FlatMap.sorted mode_cmp (fst it)) ->
  modes_below S ->
  FlatMap.sorted key_cmp (loss_terms modes S) /\
  sum_squares (loss_terms modes S) = sum_squares (par S).
Proof.
  intros Hs Hk Hb. unfold loss_terms.
  assert (G : forall es pre st,
            par S = pre ++ es ->
            FlatMap.sorted key_cmp (fst st) ->
            sum_squares (fst st) = sum_squares pre ->
            (forall y, In y (fst st) ->
               exists x, In x pre /\ from_term modes (lossMode S) x (fst y)) ->
            let r := fold_left (State.loss_step modes (lossMode S)) es st in
            FlatMap.sorted key_cmp (fst r) /\
            sum_squares (fst r) = sum_squares (par S)).
  { induction es as [|x es IH]; intros pre st Ep H1 H2 H3; cbn [fold_left].
    - rewrite app_nil_r in Ep. subst pre. cbv zeta. auto.
    - assert (Hx : In x (par S))
        by (rewrite Ep; apply in_or_app; right; now left).
      destruct (Key_loss_facts modes (lossMode S) (snd st) (fst x)
                  (Hk x Hx) (Hb x Hx)) as (F1 & F2 & F3).
      assert (Fresh : forall y,
                In y (fst (Key.loss modes (lossMode S) (snd st) (fst x))) ->
                FlatMap.find key_cmp (fst y) (fst st) = None).
      { intros y Hy. apply (FlatMap.notin_find_None key_cmp). intros Hin.
        unfold FlatMap.keys in Hin. apply in_map_iff in Hin.
        destruct Hin as (z & Ez & Hz).
        destruct (H3 z Hz) as (x' & Hx' & Fz).
        assert (Hx'p : In x' (par S))
          by (rewrite Ep; apply in_or_app; now left).
        assert (Nk : fst x' <> fst x).
        { rewrite Ep in Hs.
          apply (sorted_split_keys key_cmp pre es x x' Hs).
          apply in_or_app. now left. }
        rewrite Ez in Fz.
        destruct (F3 y Hy) as [Ey|(e & He & Ae & Ey)];
          destruct Fz as [Ez'|(e' & He' & Ae' & Ez')].
        - congruence.
        - rewrite Ey in Ez'. symmetry in Ez'. revert Ez'.
          apply lost_ne_key; auto.
        - rewrite Ey in Ez'. revert Ez'. apply lost_ne_key; auto.
        - rewrite Ey in Ez'. apply Nk. symmetry.
          apply (lost_key_inj modes (lossMode S) (fst x) (fst x') e e');
            auto. }
      apply (IH (pre ++ [x])).
      + now rewrite <- app_assoc.
      + unfold State.loss_step.
        destruct (Key.loss modes (lossMode S) (snd st) (fst x)) as [sd mx1].
        cbn [fst]. now apply add_scaled_sorted.
      + unfold State.loss_step.
        destruct (Key.loss modes (lossMode S) (snd st) (fst x)) as [sd mx1].
        cbn [fst] in *.
        rewrite sum_squares_add_scaled_fresh by auto.
        rewrite F1, H2, sum_squares_app, sum_squares_cons.
        unfold sum_squares at 3. cbn [fold_left].
        rewrite <- !Rsqr_pow2, <- Rsqr_abs. unfold Rsqr. ring.
      + unfold State.loss_step.
        destruct (Key.loss modes (lossMode S) (snd st) (fst x)) as [sd mx1].
        cbn [fst] in *. intros y Hy.
        unfold State.add_scaled, FlatMap.accumulate in Hy.
        assert (Hy' : In y (fst st) \/ exists z, In z sd /\ fst y = fst z).
        { revert Hy. generalize (fst st).
          clear. induction sd as [|z sd IHs]; intros acc Hy; cbn [fold_left] in Hy.
          - now left.
          - apply IHs in Hy. destruct Hy as [Hy|(z' & Hz' & E)].
            + apply (FlatMap.In_upsert key_cmp) in Hy.
              destruct Hy as [E|Hy]; [|now left].
              right. exists z. split; [now left|exact E].
            + right. exists z'. split; [now right|exact E]. }
        destruct Hy' as [Hy'|(z & Hz & E)].
        * destruct (H3 y Hy') as (x' & Hx' & Fx').
          exists x'. split; [apply in_or_app; now left|exact Fx'].
        * exists x. split; [apply in_or_app; right; now left|].
          rewrite E. exact (F3 z Hz). }
  apply (G (par S) [] ([], 0%Z)); auto.
  - apply FlatMap.sorted_nil.
  - intros y [].
Qed.

(** X19.  [State::loss] does not change the norm, but for the terms that the
    final [clean] drops: before it the norm is the one of the state, after
    it at most that, and the same when no amplitude is under the
    tolerance. *)
Theorem State_loss_norm (modes : list Z) (S : State) :
  FlatMap.sorted key_cmp (par S) ->
  (forall it, In it (par S) -> FlatMap.sorted mode_cmp (fst it)) ->
  modes_below S ->
  State.norm_par (loss_terms modes S) = State.norm S /\
  (State.norm (State.loss modes S) <= State.norm S)%R /\
  ((forall y, In y (loss_terms modes S) -> (tol S < Rabs (snd y))%R) ->
   State.norm (State.loss modes S) = State.norm S).
Proof.
  intros Hs Hk Hb.
  destruct (loss_terms_squares modes S Hs Hk Hb) as [L1 L2].
  assert (N : State.norm_par (loss_terms modes S) = State.norm S).
  { unfold State.norm, State.norm_par. fold (sum_squares (par S)).
    fold (sum_squares (loss_terms modes S)). now rewrite L2. }
  assert (P : par (State.loss modes S)
              = filter (above_tol (tol S)) (loss_terms modes S)).
  { unfold State.loss, loss_terms.
    destruct (fold_left (State.loss_step modes (lossMode S)) (par S) ([], 0%Z))
      as [this mx] eqn:E.
    unfold State.clean, State.set_par. cbn [par tol fst].
    apply clean_par_filter.
    unfold loss_terms in L1. rewrite E in L1. exact L1. }
  split; [exact N|]. split.
  - unfold State.norm at 1. rewrite P, <- N. apply norm_par_filter.
  - intros Hall. unfold State.norm at 1. rewrite P, <- N.
    rewrite filter_all; [reflexivity|].
    intros y Hy. unfold above_tol. apply Rgtb_true. now apply Hall.
Qed.

Lemma State_loss_norm_witness :
  FlatMap.sorted key_cmp (par one_photon) /\
  (forall it, In it (par one_photon) -> FlatMap.sorted mode_cmp (fst it)) /\
  modes_below one_photon /\
  State.norm_par (loss_terms [0]%Z one_photon) = State.norm one_photon.
Proof.
  split; [exact one_photon_sorted|]. split; [exact one_photon_keys_sorted|].
  split; [exact one_photon_modes_below|].
  exact (proj1 (State_loss_norm [0]%Z one_photon one_photon_sorted
                  one_photon_keys_sorted one_photon_modes_below)).
Defined.

(** ** The table of factorials *)

(** The product [1 * 2 * ... * n]. *)
Definition factorial (n : Z) : Z :=
  fold_left Z.mul (map Z.of_nat (seq 1 (Z.to_nat n))) 1%Z.

(** X20.  Up to 12 [facut] is the factorial, and the table obeys
    [n! = n * (n - 1)!]. *)
Theorem facut_factorial (n : Z) :
  (0 <= n <= 12)%Z ->
  facut n = factorial n /\
  (1 <= n -> facut n = n * facut (n - 1))%Z.
Proof.
  intros H.
  assert (T : (facut n =? factorial n)%Z
              && ((n <? 1)%Z || (facut n =? n * facut (n - 1))%Z) = true).
  { now apply (table_all
                 (fun n => (facut n =? factorial n)%Z
                           && ((n <? 1)%Z
                               || (facut n =? n * facut (n - 1))%Z))). }
  apply andb_true_iff in T. destruct T as [T1 T2].
  split; [now apply Z.eqb_eq|].
  intros H1. apply orb_true_iff in T2. destruct T2 as [T2|T2];
    [apply Z.ltb_lt in T2; lia|now apply Z.eqb_eq].
Qed.

Lemma facut_factorial_witness :
  (0 <= 5 <= 12)%Z /\ facut 5 = factorial 5.
Proof.
  assert (H : (0 <= 5 <= 12)%Z) by lia.
  split; [exact H|]. exact (proj1 (facut_factorial 5 H)).
Defined.

(** The quotient of [binomialCoeff], as an integer. *)
Definition binomial_quot (n k : Z) : Z :=
  Z.quot (facut n) (wrap32 (facut k * facut (n - k))).

Lemma binomial_table :
  forallb (fun n =>
             forallb (fun k =>
                        negb (k <=? n)%Z
                        || ((binomial_quot n k * facut k * facut (n - k)
                             =? facut n)%Z
                            && (binomial_quot n k =? binomial_quot n (n - k))%Z
                            && (0 <? binomial_quot n k)%Z))
                     (Key.upto 12))
          (Key.upto 12) = true.
Proof. vm_compute. reflexivity. Qed.

(** X21.  For [0 <= k <= n <= 12] the division in [binomialCoeff] is exact and
    no product leaves the range of [int]: the result is the binomial
    coefficient, [n! / (k! (n - k)!)]; it is the same for [k] and
    [n - k]. *)
Theorem binomialCoeff_exact (n k : Z) :
  (0 <= k <= n)%Z -> (n <= 12)%Z ->
  (binomialCoeff n k * IZR (facut k) * IZR (facut (n - k)) = IZR (facut n))%R /\
  binomialCoeff n k = binomialCoeff n (n - k) /\
  (0 < binomialCoeff n k)%R.
Proof.
  intros Hk Hn.
  pose proof (table_all _ binomial_table n ltac:(lia)) as T.
  cbv beta in T.
  pose proof (table_all _ T k ltac:(lia)) as T2. cbv beta in T2.
  replace (k <=? n)%Z with true in T2 by (symmetry; apply Z.leb_le; lia).
  cbn [negb orb] in T2.
  apply andb_true_iff in T2. destruct T2 as [T2 T3].
  apply andb_true_iff in T2. destruct T2 as [T1 T2].
  apply Z.eqb_eq in T1, T2. apply Z.ltb_lt in T3.
  change (binomialCoeff n k) with (IZR (binomial_quot n k)).
  change (binomialCoeff n (n - k)) with (IZR (binomial_quot n (n - k))).
  split; [|split].
  - rewrite <- !mult_IZR. now rewrite T1.
  - now rewrite T2.
  - now apply IZR_lt.
Qed.

Lemma binomialCoeff_exact_witness :
  (0 <= 2 <= 4)%Z /\ (4 <= 12)%Z /\
  (binomialCoeff 4 2 * IZR (facut 2) * IZR (facut (4 - 2)) = IZR (facut 4))%R.
Proof.
  assert (H1 : (0 <= 2 <= 4)%Z) by lia.
  assert (H2 : (4 <= 12)%Z) by lia.
  split; [exact H1|]. split; [exact H2|].
  exact (proj1 (binomialCoeff_exact 4 2 H1 H2)).
Defined.

(** ** The wave plates and the circuit *)

(** X22.  Every matrix of [genRotationsBasic] is a reflection
    [{c, s, s, -c}] with [c^2 + s^2 = 1], whatever the errors, and there
    are fifteen of them. *)
Theorem genRotationsBasic_reflections (angleErrs : list R) :
  length (genRotationsBasic angleErrs) = 15%nat /\
  forall U, In U (genRotationsBasic angleErrs) ->
    exists c s : R, U = [c; s; s; (- c)%R] /\ (c * c + s * s = 1)%R.
Proof.
  unfold genRotationsBasic. split.
  - rewrite length_map, length_seq. reflexivity.
  - intros U HU. apply in_map_iff in HU. destruct HU as (i & <- & _).
    eexists. eexists. split; [reflexivity|].
    rewrite Rplus_comm. apply sin2_cos2.
Qed.

(** The positions at which [circuitFid] asks for loss. *)
Definition used_position (p : Z) : bool :=
  ((0 <=? p) && (p <=? 30) || (p =? 32) || (p =? 33) || (p =? 35))%Z.

Lemma existsb_filter_used (pos : Z) (lossPos : list Z) :
  used_position pos = true ->
  existsb (Z.eqb pos) (filter used_position lossPos)
  = existsb (Z.eqb pos) lossPos.
Proof.
  intros Hu. induction lossPos as [|p l IH]; [reflexivity|].
  cbn [filter existsb]. destruct (used_position p) eqn:E.
  - cbn [existsb]. now rewrite IH.
  - rewrite IH. destruct (Z.eqb_spec pos p); [congruence|reflexivity].
Qed.

Lemma detloss_filter_used (S : State) (pos : Z) (modes lossPos : list Z) :
  used_position pos = true ->
  detloss S pos modes (filter used_position lossPos)
  = detloss S pos modes lossPos.
Proof.
  intros Hu. unfold detloss. now rewrite existsb_filter_used.
Qed.

Lemma below_In (n : nat) (i : Z) :
  In i (below n) -> (0 <= i < Z.of_nat n)%Z.
Proof.
  unfold below. intros H. apply in_map_iff in H.
  destruct H as (j & <- & Hj). apply in_seq in Hj. lia.
Qed.

Lemma used_position_range (p : Z) :
  (0 <= p <= 30)%Z -> used_position p = true.
Proof.
  intros H. unfold used_position.
  replace (0 <=? p)%Z with true by (symmetry; apply Z.leb_le; lia).
  replace (p <=? 30)%Z with true by (symmetry; apply Z.leb_le; lia).
  reflexivity.
Qed.

(** X23.  [circuitFid] asks for loss at the positions 0 to 30, 32, 33 and 35
    only: every other entry of [lossPos], 31, 34 and 36 among them, has
    no effect. *)
Theorem circuitFid_positions (S : State) (lossPos : list Z)
    (apl : list (list R)) :
  circuitFid S lossPos apl
  = circuitFid S (filter used_position lossPos) apl /\
  ((forall p, In p lossPos -> used_position p = false) ->
   circuitFid S lossPos apl = circuitFid S [] apl).
Proof.
  assert (E : circuitFid S lossPos apl
              = circuitFid S (filter used_position lossPos) apl).
  { unfold circuitFid. cbv zeta.
    rewrite !detloss_filter_used by reflexivity.
    repeat match goal with
    | |- context [fold_left (fun S i => detloss S (@?p i) (@?m i)
                                          (filter used_position lossPos))
                            (below 6) ?s] =>
        rewrite (fold_left_ext_in
                   (fun S i => detloss S (p i) (m i)
                                 (filter used_position lossPos))
                   (fun S i => detloss S (p i) (m i) lossPos)
                   (below 6) s)
          by (intros x y Hy; apply below_In in Hy;
              apply detloss_filter_used, used_position_range; cbv beta; lia)
    end.
    reflexivity. }
  split; [exact E|].
  intros Hn. rewrite E.
  replace (filter used_position lossPos) with (@nil Z); [reflexivity|].
  symmetry. apply filter_none. exact Hn.
Qed.

(** ** [add] *)

Lemma State_add_scaled_one (p : SD) (this : FlatMap.t Key R) :
  State.add p this = State.add_scaled p 1 this.
Proof.
  unfold State.add, State.add_scaled. apply fold_left_ext_in.
  intros acc it _. now rewrite Rmult_1_l.
Qed.

(** X24.  [add(p, v)] adds, key by key, [v] times the amplitudes of [p] to the
    amplitudes of the state, an amplitude that is not stored counting as
    0; [add(p)] is [add(p, 1)]; the container stays sorted. *)
Theorem State_add_amplitudes (p : SD) (v : R) (this : FlatMap.t Key R) :
  FlatMap.sorted key_cmp p -> FlatMap.sorted key_cmp this ->
  (forall K, amp_at K (State.add_scaled p v this)
             = (amp_at K this + v * amp_at K p)%R) /\
  (forall K, amp_at K (State.add p this) = (amp_at K this + amp_at K p)%R) /\
  FlatMap.sorted key_cmp (State.add_scaled p v this) /\
  FlatMap.sorted key_cmp (State.add p this).
Proof.
  intros Hp Ht. split; [|split; [|split]].
  - intros K. now apply amp_at_add_scaled.
  - intros K. rewrite State_add_scaled_one, amp_at_add_scaled by assumption.
    ring.
  - now apply add_scaled_sorted.
  - rewrite State_add_scaled_one. now apply add_scaled_sorted.
Qed.

Lemma State_add_amplitudes_witness :
  FlatMap.sorted key_cmp (par one_photon) /\
  FlatMap.sorted key_cmp (@nil (Key * R)) /\
  FlatMap.sorted key_cmp (State.add (par one_photon) []).
Proof.
  assert (H : FlatMap.sorted key_cmp (@nil (Key * R)))
    by apply FlatMap.sorted_nil.
  split; [exact one_photon_sorted|]. split; [exact H|].
  exact (proj2 (proj2 (proj2 (State_add_amplitudes (par one_photon) 1%R []
                                one_photon_sorted H)))).
Defined.

(** ** [apply] on one mode *)

Lemma Rabs_powerRZ (x : R) (n : Z) : Rabs (powerRZ x n) = powerRZ (Rabs x) n.
Proof.
  destruct n as [|p|p]; cbn [powerRZ].
  - apply Rabs_R1.
  - symmetry. apply RPow_abs.
  - rewrite Rabs_inv. f_equal. symmetry. apply RPow_abs.
Qed.

Lemma sum_squares_phase (g : Key -> R) (p : FlatMap.t Key R) :
  (forall K, Rabs (g K) = 1%R) ->
  sum_squares (map (fun it => (fst it, (snd it * g (fst it))%R)) p)
  = sum_squares p.
Proof.
  intros Hg. induction p as [|x p IH]; [reflexivity|].
  cbn [map]. rewrite !sum_squares_cons, IH. cbn [fst snd].
  rewrite Rabs_mult, Hg, Rmult_1_r. reflexivity.
Qed.

(** X25.  [apply(U, mode)]: two calls on the same mode are one call with the
    product, the factor 1 changes nothing, and a factor of modulus 1
    leaves the norm. *)
Theorem apply1_phases (U V : R) (mode : Z) (S : State) :
  State.apply1 V mode (State.apply1 U mode S) = State.apply1 (U * V) mode S /\
  State.apply1 1 mode S = S /\
  (Rabs U = 1%R -> State.norm (State.apply1 U mode S) = State.norm S).
Proof.
  split; [|split].
  - unfold State.apply1, State.set_par, Key.apply1. cbn [par waves basis tol lossMode].
    f_equal. rewrite map_map. apply map_ext. intros [K v]. cbn [fst snd].
    rewrite powerRZ_mult. f_equal. ring.
  - unfold State.apply1, State.set_par, Key.apply1. destruct S as [p w b t l].
    cbn [par waves basis tol lossMode]. f_equal.
    rewrite <- (map_id p) at 2. apply map_ext. intros [K v]. cbn [fst snd].
    rewrite powerRZ_R1. f_equal. ring.
  - intros HU. unfold State.norm, State.norm_par, State.apply1, State.set_par.
    cbn [par]. fold (sum_squares (par S)).
    fold (sum_squares
            (map (fun it => (fst it, (snd it * Key.apply1 U mode (fst it))%R))
                 (par S))).
    rewrite (sum_squares_phase (Key.apply1 U mode)); [reflexivity|].
    intros K. unfold Key.apply1. rewrite Rabs_powerRZ, HU. apply powerRZ_R1.
Qed.

(** ** [overlapCompl] *)

Lemma hit_existsb (MVec : list (FlatMap.t Z Z)) (k : Key) (h : bool) :
  fold_left (fun hit ref => if Key.overlapping ref k then true else hit)
            MVec h
  = h || existsb (fun ref => Key.overlapping ref k) MVec.
Proof.
  revert h. induction MVec as [|ref MVec IH]; intros h; cbn [fold_left existsb].
  - now rewrite orb_false_r.
  - rewrite IH. destruct (Key.overlapping ref k), h; reflexivity.
Qed.

(** A term matches none of the patterns, or fails the post-selection. *)
Definition left_over (MVec : list (FlatMap.t Z Z)) (allModes : list (list Z))
    (it : Key * R) : bool :=
  negb (existsb (fun ref => Key.overlapping ref (fst it)) MVec)
  || negb (Key.notEmpty allModes (fst it)).

Lemma par_overlapCompl (MVec : list (FlatMap.t Z Z))
    (allModes : list (list Z)) (S : State) :
  FlatMap.sorted key_cmp (par S) ->
  par (State.overlapCompl MVec allModes S)
  = filter (left_over MVec allModes) (par S).
Proof.
  intros Hs. unfold State.overlapCompl, State.set_par. cbn [par].
  rewrite (fold_left_ext_in _
             (fun p it => if left_over MVec allModes it
                          then FlatMap.upsert key_cmp (fun old _ => old)
                                 (fst it) (snd it) p
                          else p)).
  - now apply (copy_filter key_cmp).
  - intros p it _. unfold left_over. cbv zeta.
    rewrite hit_existsb. reflexivity.
Qed.

(** X26.  [overlapCompl] keeps, unchanged and in order, the terms that match
    none of the patterns or fail the post-selection: a term that
    [overlapWithFilter] selects for one of the patterns, for the receiver
    or for the state it returns, is not among them, and with a single
    pattern every term is in exactly one of the three. *)
Theorem overlapCompl_complement (MVec : list (FlatMap.t Z Z))
    (allModes : list (list Z)) (S : State) :
  FlatMap.sorted key_cmp (par S) ->
  par (State.overlapCompl MVec allModes S)
  = filter (left_over MVec allModes) (par S) /\
  (forall ref fref it,
     In ref MVec ->
     In it (par (fst (State.overlapWithFilter ref allModes fref S)))
     \/ In it (par (snd (State.overlapWithFilter ref allModes fref S))) ->
     ~ In it (par (State.overlapCompl MVec allModes S))) /\
  (forall ref fref it,
     In it (par S) ->
     In it (par (fst (State.overlapWithFilter ref allModes fref S)))
     \/ In it (par (snd (State.overlapWithFilter ref allModes fref S)))
     \/ In it (par (State.overlapCompl [ref] allModes S))).
Proof.
  intros Hs.
  assert (O : forall ref fref,
            par (fst (State.overlapWithFilter ref allModes fref S))
            = filter (stays ref allModes fref) (par S) /\
            par (snd (State.overlapWithFilter ref allModes fref S))
            = filter (moves ref allModes fref) (par S)).
  { intros ref fref. unfold State.overlapWithFilter. rewrite owf_fold.
    unfold FlatMap.insert. rewrite !(copy_filter key_cmp) by exact Hs.
    cbn [fst snd State.set_par par]. split; reflexivity. }
  split; [now apply par_overlapCompl|]. split.
  - intros ref fref it Href H. rewrite par_overlapCompl by exact Hs.
    destruct (O ref fref) as [O1 O2]. rewrite O1, O2 in H.
    rewrite !filter_In in *. intros [_ L].
    unfold left_over in L. unfold stays, moves, matches_pattern, post_selected in H.
    assert (M : existsb (fun ref => Key.overlapping ref (fst it)) MVec = true).
    { apply existsb_exists. exists ref. split; [exact Href|].
      destruct H as [[_ H]|[_ H]];
        destruct (Key.overlapping ref (fst it)); auto; discriminate. }
    rewrite M in L. cbn [negb orb] in L.
    destruct H as [[_ H]|[_ H]];
      destruct (Key.notEmpty allModes (fst it));
      try discriminate; rewrite andb_false_r in H; discriminate.
  - intros ref fref it Hit. rewrite par_overlapCompl by exact Hs.
    destruct (O ref fref) as [O1 O2]. rewrite O1, O2.
    rewrite !filter_In. unfold left_over, stays, moves, matches_pattern,
      post_selected, overlaps_reference. cbn [existsb].
    destruct (Key.overlapping ref (fst it)),
      (Key.notEmpty allModes (fst it)),
      (existsb (fun m => Key.overlapping m (fst it)) fref);
      cbn; tauto.
Qed.

Lemma overlapCompl_complement_witness :
  FlatMap.sorted key_cmp (par one_photon) /\
  par (State.overlapCompl [] [] one_photon)
  = filter (left_over [] []) (par one_photon).
Proof.
  split; [exact one_photon_sorted|].
  exact (proj1 (overlapCompl_complement [] [] one_photon one_photon_sorted)).
Defined.

(** ** The Gram-Schmidt step of [addBasisElem] *)

(** Sums over [0 .. n-1], as the loops of [ovlpH] and [ovlp] form them. *)
Definition rsum (g : nat -> R) (n : nat) : R :=
  fold_left (fun res i => (res + g i)%R) (seq 0 n) 0%R.

Lemma rsum_S (g : nat -> R) (n : nat) : rsum g (S n) = (rsum g n + g n)%R.
Proof. unfold rsum. rewrite seq_S, fold_left_app. reflexivity. Qed.

Lemma rsum_ext (g h : nat -> R) (n : nat) :
  (forall i, (i < n)%nat -> g i = h i) -> rsum g n = rsum h n.
Proof.
  induction n as [|n IH]; intros H; [reflexivity|].
  rewrite !rsum_S, IH, H by (intros; try apply H; lia). reflexivity.
Qed.

Lemma rsum_zero (g : nat -> R) (n : nat) :
  (forall i, (i < n)%nat -> g i = 0%R) -> rsum g n = 0%R.
Proof.
  induction n as [|n IH]; intros H; [reflexivity|].
  rewrite rsum_S, IH, H by (intros; try apply H; lia). ring.
Qed.

Lemma rsum_scal (a : R) (g : nat -> R) (n : nat) :
  rsum (fun i => (a * g i)%R) n = (a * rsum g n)%R.
Proof.
  induction n as [|n IH]; [unfold rsum; simpl; ring|].
  rewrite !rsum_S, IH. ring.
Qed.

Lemma rsum_plus (g h : nat -> R) (n : nat) :
  rsum (fun i => (g i + h i)%R) n = (rsum g n + rsum h n)%R.
Proof.
  induction n as [|n IH]; [unfold rsum; simpl; ring|].
  rewrite !rsum_S, IH. ring.
Qed.

Lemma rsum_extend (g : nat -> R) (n m : nat) :
  (n <= m)%nat -> (forall i, (n <= i < m)%nat -> g i = 0%R) ->
  rsum g m = rsum g n.
Proof.
  intros Hnm. induction m as [|m IH]; intros H.
  - replace n with 0%nat by lia. reflexivity.
  - destruct (Nat.eq_dec n (S m)) as [->|N]; [reflexivity|].
    rewrite rsum_S, IH, H by (intros; try apply H; lia). ring.
Qed.

Lemma rsum_swap (f : nat -> nat -> R) (n m : nat) :
  rsum (fun i => rsum (fun j => f i j) m) n
  = rsum (fun j => rsum (fun i => f i j) n) m.
Proof.
  induction n as [|n IH].
  - symmetry. apply rsum_zero. intros j _. reflexivity.
  - rewrite rsum_S, IH, <- rsum_plus. apply rsum_ext.
    intros j _. now rewrite rsum_S.
Qed.

(** The sum picks the term of [k]. *)
Lemma rsum_delta (g : nat -> R) (k n : nat) :
  (k < n)%nat ->
  rsum (fun i => (g i * (if (i =? k)%nat then 1 else 0))%R) n = g k.
Proof.
  intros Hk. induction n as [|n IH]; [lia|].
  rewrite rsum_S. destruct (Nat.eq_dec k n) as [->|N].
  - rewrite Nat.eqb_refl, rsum_zero; [ring|].
    intros i Hi. destruct (Nat.eqb_spec i n); [lia|ring].
  - rewrite IH by lia. destruct (Nat.eqb_spec n k); [lia|ring].
Qed.

Section Overlaps.
Variable get_ovlp : WF -> WF -> R.

Lemma ovlpH_rsum (b : OWF) (w : WF) (ws : list WF) (n : nat) :
  (length b <= n)%nat ->
  State.ovlpH get_ovlp b w ws
  = rsum (fun i => (nth i b 0 * get_ovlp (nth i ws []) w)%R) n.
Proof.
  intros H. symmetry. unfold State.ovlpH.
  apply (rsum_extend _ (length b) n H).
  intros i Hi. rewrite nth_overflow by lia. ring.
Qed.

Lemma ovlp_rsum (b c : OWF) (ws : list WF) (n : nat) :
  (length c <= n)%nat ->
  State.ovlp get_ovlp b c ws
  = rsum (fun i => (nth i c 0 * State.ovlpH get_ovlp b (nth i ws []) ws)%R) n.
Proof.
  intros H. symmetry. unfold State.ovlp.
  apply (rsum_extend _ (length c) n H).
  intros i Hi. rewrite nth_overflow by lia. ring.
Qed.

(** A vector over the first wave functions does not see the ones added
    behind them. *)
Lemma ovlpH_prefix (b : OWF) (w : WF) (ws ws' : list WF) :
  (length b <= length ws)%nat ->
  State.ovlpH get_ovlp b w (ws ++ ws') = State.ovlpH get_ovlp b w ws.
Proof.
  intros H. unfold State.ovlpH. apply (rsum_ext _ _ (length b)).
  intros i Hi. rewrite app_nth1 by lia. reflexivity.
Qed.

Lemma nth_map_div (s : R) (v : list R) (i : nat) :
  nth i (map (fun x => (x / s)%R) v) 0%R = (nth i v 0 / s)%R.
Proof.
  rewrite <- (map_nth (fun x => (x / s)%R)). f_equal. unfold Rdiv. ring.
Qed.

Lemma ovlpH_scale (s : R) (b : OWF) (w : WF) (ws : list WF) :
  State.ovlpH get_ovlp (map (fun x => (x / s)%R) b) w ws
  = (State.ovlpH get_ovlp b w ws / s)%R.
Proof.
  unfold State.ovlpH. rewrite length_map. fold (rsum
    (fun i => (nth i (map (fun x => (x / s)%R) b) 0
               * get_ovlp (nth i ws []) w)%R) (length b)).
  fold (rsum (fun i => (nth i b 0 * get_ovlp (nth i ws []) w)%R) (length b)).
  rewrite (rsum_ext _ (fun i => (/ s * (nth i b 0 * get_ovlp (nth i ws []) w))%R))
    by (intros i _; rewrite nth_map_div; unfold Rdiv; ring).
  rewrite rsum_scal. unfold Rdiv. ring.
Qed.

Lemma ovlp_scale_l (s : R) (b c : OWF) (ws : list WF) :
  State.ovlp get_ovlp (map (fun x => (x / s)%R) b) c ws
  = (State.ovlp get_ovlp b c ws / s)%R.
Proof.
  unfold State.ovlp.
  fold (rsum (fun i => (nth i c 0
                        * State.ovlpH get_ovlp (map (fun x => (x / s)%R) b)
                            (nth i ws []) ws)%R) (length c)).
  fold (rsum (fun i => (nth i c 0 * State.ovlpH get_ovlp b (nth i ws []) ws)%R)
             (length c)).
  rewrite (rsum_ext _ (fun i => (/ s * (nth i c 0
                                 * State.ovlpH get_ovlp b (nth i ws []) ws))%R))
    by (intros i _; rewrite ovlpH_scale; unfold Rdiv; ring).
  rewrite rsum_scal. unfold Rdiv. ring.
Qed.

Lemma ovlp_scale_r (s : R) (b c : OWF) (ws : list WF) :
  State.ovlp get_ovlp b (map (fun x => (x / s)%R) c) ws
  = (State.ovlp get_ovlp b c ws / s)%R.
Proof.
  unfold State.ovlp. rewrite length_map.
  fold (rsum (fun i => (nth i (map (fun x => (x / s)%R) c) 0
                        * State.ovlpH get_ovlp b (nth i ws []) ws)%R)
             (length c)).
  fold (rsum (fun i => (nth i c 0 * State.ovlpH get_ovlp b (nth i ws []) ws)%R)
             (length c)).
  rewrite (rsum_ext _ (fun i => (/ s * (nth i c 0
                                 * State.ovlpH get_ovlp b (nth i ws []) ws))%R))
    by (intros i _; rewrite nth_map_div; unfold Rdiv; ring).
  rewrite rsum_scal. unfold Rdiv. ring.
Qed.

(** With a symmetric overlap function the inner product is symmetric. *)
Lemma ovlp_sym (b c : OWF) (ws : list WF) :
  (forall u w, get_ovlp u w = get_ovlp w u) ->
  State.ovlp get_ovlp b c ws = State.ovlp get_ovlp c b ws.
Proof.
  intros Hsym. unfold State.ovlp, State.ovlpH.
  change (rsum (fun i => (nth i c 0
                          * rsum (fun j => (nth j b 0
                                            * get_ovlp (nth j ws []) (nth i ws []))%R)
                                 (length b))%R) (length c)
          = rsum (fun j => (nth j b 0
                            * rsum (fun i => (nth i c 0
                                              * get_ovlp (nth i ws []) (nth j ws []))%R)
                                   (length c))%R) (length b)).
  rewrite (rsum_ext _ (fun i => rsum (fun j => (nth i c 0 * nth j b 0
                                   * get_ovlp (nth j ws []) (nth i ws []))%R)
                                     (length b)))
    by (intros i _; rewrite <- rsum_scal; apply rsum_ext; intros; ring).
  rewrite rsum_swap. apply rsum_ext. intros j _.
  rewrite <- rsum_scal. apply rsum_ext. intros i _.
  rewrite (Hsym (nth j ws []) (nth i ws [])). ring.
Qed.

End Overlaps.

Lemma add_at_length (j : nat) (x : R) (v : list R) :
  length (State.add_at j x v) = length v.
Proof.
  revert j. induction v as [|y v IH]; intros [|j]; simpl; auto.
Qed.

Lemma add_at_nth (i j : nat) (x : R) (v : list R) :
  (j < length v)%nat ->
  nth i (State.add_at j x v) 0%R
  = (nth i v 0 + (if (i =? j)%nat then x else 0))%R.
Proof.
  revert i j. induction v as [|y v IH]; intros i j Hj; simpl in Hj; [lia|].
  destruct j as [|j], i as [|i]; simpl; try ring.
  rewrite IH by lia. reflexivity.
Qed.

(** The inner loop of [addBasisElem]: [bNew[j] += g j] for [j < m]. *)
Lemma fold_add_at (g : nat -> R) (m : nat) (v : list R) :
  (m <= length v)%nat ->
  let r := fold_left (fun bNew j => State.add_at j (g j) bNew) (seq 0 m) v in
  length r = length v /\
  forall i, nth i r 0%R = (nth i v 0 + (if (i <? m)%nat then g i else 0))%R.
Proof.
  induction m as [|m IH]; intros Hm; cbv zeta.
  - simpl. split; [reflexivity|]. intros i. ring.
  - rewrite seq_S, fold_left_app. cbn [fold_left Nat.add].
    destruct (IH ltac:(lia)) as [L N]. cbv zeta in L, N.
    split; [now rewrite add_at_length|].
    intros i. rewrite add_at_nth by lia. rewrite N.
    destruct (Nat.eqb_spec i m) as [->|Ne].
    + replace (m <? m)%nat with false by (symmetry; apply Nat.ltb_ge; lia).
      replace (m <? S m)%nat with true by (symmetry; apply Nat.ltb_lt; lia).
      ring.
    + destruct (Nat.ltb_spec i m), (Nat.ltb_spec i (S m)); try lia; ring.
Qed.

Section GramSchmidtStep.
Variable get_ovlp : WF -> WF -> R.
Variables (wf : WF) (ws : list WF).

(** The overlap of the [t]-th vector of [bs] with the new wave function. *)
Definition component (bs : list OWF) (t : nat) : R :=
  State.ovlpH get_ovlp (nth t bs []) wf ws.

Lemma gram_step_nth (st : list R * list R) (bi : OWF) :
  (length bi <= length (fst st))%nat ->
  length (fst (State.gram_step get_ovlp wf ws st bi)) = length (fst st) /\
  forall i, nth i (fst (State.gram_step get_ovlp wf ws st bi)) 0%R
            = (nth i (fst st) 0
               - State.ovlpH get_ovlp bi wf ws * nth i bi 0)%R.
Proof.
  intros H. unfold State.gram_step. cbn [fst].
  destruct (fold_add_at
              (fun j => (nth j bi 0 * - State.ovlpH get_ovlp bi wf ws)%R)
              (length bi) (fst st) H) as [L N].
  cbv zeta in L, N. split; [exact L|].
  intros i. rewrite N. destruct (Nat.ltb_spec i (length bi)); [ring|].
  rewrite (nth_overflow bi) by lia. ring.
Qed.

(** The first loop of [addBasisElem]: what is taken off the new wave
    function. *)
Lemma gram_fold_nth (n : nat) (bs : list OWF) :
  (forall b, In b bs -> (length b <= n)%nat) ->
  let r := fold_left (State.gram_step get_ovlp wf ws) bs (repeat 0%R n, []) in
  length (fst r) = n /\
  forall i, nth i (fst r) 0%R
            = rsum (fun t => (- component bs t * nth i (nth t bs []) 0)%R)
                   (length bs).
Proof.
  induction bs as [|b bs IH] using rev_ind; intros H; cbv zeta.
  - cbn [fold_left fst length]. split; [apply repeat_length|].
    intros i. rewrite nth_repeat. reflexivity.
  - rewrite fold_left_app. cbn [fold_left].
    destruct (IH ltac:(intros b' Hb'; apply H; apply in_or_app; now left))
      as [L N]. cbv zeta in L, N.
    assert (Hb : (length b <= n)%nat)
      by (apply H; apply in_or_app; right; now left).
    destruct (gram_step_nth
                (fold_left (State.gram_step get_ovlp wf ws) bs (repeat 0%R n, []))
                b ltac:(rewrite L; exact Hb)) as [L' N'].
    split; [now rewrite L'|].
    intros i. rewrite N', N, length_app. cbn [length].
    rewrite Nat.add_1_r, rsum_S.
    unfold component. rewrite app_nth2 by lia. rewrite Nat.sub_diag.
    cbn [nth].
    rewrite (rsum_ext
               (fun t => (- State.ovlpH get_ovlp (nth t (bs ++ [b]) []) wf ws
                          * nth i (nth t (bs ++ [b]) []) 0)%R)
               (fun t => (- State.ovlpH get_ovlp (nth t bs []) wf ws
                          * nth i (nth t bs []) 0)%R))
      by (intros t Ht; rewrite app_nth1 by lia; reflexivity).
    ring.
Qed.

Variable bs : list OWF.
Hypothesis basis_size : length bs = length ws.
Hypothesis basis_elem_size : forall b, In b bs -> (length b <= length ws)%nat.
Hypothesis orthonormal :
  forall k t, (k < length bs)%nat -> (t < length bs)%nat ->
    State.ovlp get_ovlp (nth k bs []) (nth t bs []) ws
    = if (t =? k)%nat then 1%R else 0%R.

(** [bNew] before it is divided by its norm. *)
Definition residual : OWF :=
  fst (fold_left (State.gram_step get_ovlp wf ws) bs
                 (repeat 0%R (length bs), [])) ++ [1%R].

Lemma residual_length : length residual = S (length ws).
Proof.
  unfold residual. rewrite length_app. cbn [length].
  destruct (gram_fold_nth (length bs) bs) as [L _].
  - intros b Hb. rewrite basis_size. now apply basis_elem_size.
  - cbv zeta in L. rewrite L, basis_size. lia.
Qed.

Lemma nth_bs_length (k : nat) :
  (k < length bs)%nat -> (length (nth k bs []) <= length ws)%nat.
Proof. intros Hk. apply basis_elem_size. now apply nth_In. Qed.

(** The residual is orthogonal to every vector of the basis. *)
Lemma residual_orthogonal (k : nat) :
  (k < length bs)%nat ->
  State.ovlp get_ovlp (nth k bs []) residual (ws ++ [wf]) = 0%R.
Proof.
  intros Hk. pose proof (nth_bs_length k Hk) as Lk.
  destruct (gram_fold_nth (length bs) bs) as [L N].
  { intros b Hb. rewrite basis_size. now apply basis_elem_size. }
  cbv zeta in L, N.
  unfold State.ovlp. rewrite residual_length.
  change (rsum (fun i => (nth i residual 0
                          * State.ovlpH get_ovlp (nth k bs [])
                              (nth i (ws ++ [wf]) []) (ws ++ [wf]))%R)
               (S (length ws)) = 0%R).
  rewrite rsum_S.
  assert (E2 : (nth (length ws) residual 0
                * State.ovlpH get_ovlp (nth k bs [])
                    (nth (length ws) (ws ++ [wf]) []) (ws ++ [wf]))%R
               = component bs k).
  { unfold residual. rewrite app_nth2 by (rewrite L; lia).
    rewrite L, basis_size, Nat.sub_diag. cbn [nth].
    rewrite (app_nth2 ws) by lia. rewrite Nat.sub_diag. cbn [nth].
    rewrite ovlpH_prefix by exact Lk. unfold component. ring. }
  rewrite E2.
  assert (E1 : rsum (fun i => (nth i residual 0
                               * State.ovlpH get_ovlp (nth k bs [])
                                   (nth i (ws ++ [wf]) []) (ws ++ [wf]))%R)
                    (length ws)
               = (- component bs k)%R).
  { rewrite (rsum_ext _
               (fun i => rsum (fun t =>
                                 (- component bs t
                                  * (nth i (nth t bs []) 0
                                     * State.ovlpH get_ovlp (nth k bs [])
                                         (nth i ws []) ws))%R)
                              (length bs))).
    - rewrite rsum_swap.
      rewrite (rsum_ext _
                 (fun t => (- component bs t
                            * (if (t =? k)%nat then 1 else 0))%R)).
      + now apply rsum_delta.
      + intros t Ht. rewrite rsum_scal. f_equal.
        rewrite <- (orthonormal k t Hk Ht).
        symmetry. apply ovlp_rsum. apply nth_bs_length. exact Ht.
    - intros i Hi. unfold residual.
      rewrite app_nth1 by (rewrite L; lia).
      rewrite (app_nth1 ws) by lia.
      rewrite ovlpH_prefix by exact Lk. rewrite N.
      rewrite Rmult_comm, <- rsum_scal. apply rsum_ext.
      intros t _. ring. }
  rewrite E1. ring.
Qed.

End GramSchmidtStep.

(** X27.  [addBasisElem] is a Gram-Schmidt step.  On a state whose basis
    vectors are orthonormal for the inner product of [ovlp], it appends the
    wave function to [waves] and one vector to [basis], the residual
    divided by the root of its norm square; the vector has inner product 0
    with every vector that was in the basis (in the other order too when
    the overlap function is symmetric), and inner product 1 with itself
    when the norm square of the residual is positive. *)
Theorem addBasisElem_gram_schmidt (get_ovlp : WF -> WF -> R) (wf : WF)
    (S : State) :
  length (basis S) = length (waves S) ->
  (forall b, In b (basis S) -> (length b <= length (waves S))%nat) ->
  (forall k t, (k < length (basis S))%nat -> (t < length (basis S))%nat ->
     State.ovlp get_ovlp (nth k (basis S) []) (nth t (basis S) []) (waves S)
     = if (t =? k)%nat then 1%R else 0%R) ->
  let S1 := fst (State.addBasisElem get_ovlp wf S) in
  let u := residual get_ovlp wf (waves S) (basis S) in
  let bnew :=
    map (fun x => (x / sqrt (Rabs (State.ovlp get_ovlp u u (waves S ++ [wf]))))%R)
        u in
  basis S1 = basis S ++ [bnew] /\
  waves S1 = waves S ++ [wf] /\
  (forall k, (k < length (basis S))%nat ->
     State.ovlp get_ovlp (nth k (basis S) []) bnew (waves S1) = 0%R) /\
  ((0 < State.ovlp get_ovlp u u (waves S1))%R ->
   State.ovlp get_ovlp bnew bnew (waves S1) = 1%R) /\
  ((forall v w, get_ovlp v w = get_ovlp w v) ->
   forall k, (k < length (basis S))%nat ->
     State.ovlp get_ovlp bnew (nth k (basis S) []) (waves S1) = 0%R).
Proof.
  intros Hsize Helem Hon S1 u bnew.
  assert (E : basis S1 = basis S ++ [bnew] /\ waves S1 = waves S ++ [wf]).
  { unfold S1, bnew, u, residual, State.addBasisElem.
    destruct (fold_left (State.gram_step get_ovlp wf (waves S)) (basis S)
                        (repeat 0%R (length (basis S)), [])) as [bNew decomp].
    cbn [fst basis waves]. split; reflexivity. }
  destruct E as [Eb Ew]. rewrite Ew.
  assert (O : forall k, (k < length (basis S))%nat ->
            State.ovlp get_ovlp (nth k (basis S) []) bnew (waves S ++ [wf])
            = 0%R).
  { intros k Hk. unfold bnew. rewrite ovlp_scale_r.
    unfold u. rewrite (residual_orthogonal get_ovlp wf (waves S) (basis S))
      by assumption.
    unfold Rdiv. ring. }
  split; [exact Eb|]. split; [reflexivity|]. split; [exact O|]. split.
  - intros Hpos. unfold bnew. rewrite ovlp_scale_l, ovlp_scale_r.
    set (c := State.ovlp get_ovlp u u (waves S ++ [wf])) in *.
    rewrite (Rabs_pos_eq c) by lra.
    assert (Hs : (0 < sqrt c)%R) by now apply sqrt_lt_R0.
    assert (Hss : (sqrt c * sqrt c)%R = c) by (apply sqrt_sqrt; lra).
    rewrite <- Hss at 1. field. lra.
  - intros Hsym k Hk. rewrite ovlp_sym by exact Hsym. now apply O.
Qed.

Lemma addBasisElem_gram_schmidt_witness :
  let wf := [1%R; (/ 2)%R] in
  length (basis one_photon) = length (waves one_photon) /\
  (forall b, In b (basis one_photon) ->
             (length b <= length (waves one_photon))%nat) /\
  (forall k t, (k < length (basis one_photon))%nat ->
               (t < length (basis one_photon))%nat ->
     State.ovlp trivOvlF (nth k (basis one_photon) [])
                (nth t (basis one_photon) []) (waves one_photon)
     = if (t =? k)%nat then 1%R else 0%R) /\
  waves (fst (State.addBasisElem trivOvlF wf one_photon))
  = waves one_photon ++ [wf].
Proof.
  intros wf.
  assert (H1 : length (basis one_photon) = length (waves one_photon))
    by reflexivity.
  assert (H2 : forall b, In b (basis one_photon) ->
                         (length b <= length (waves one_photon))%nat).
  { intros b [<-|[]]. simpl. lia. }
  assert (H3 : forall k t, (k < length (basis one_photon))%nat ->
                           (t < length (basis one_photon))%nat ->
             State.ovlp trivOvlF (nth k (basis one_photon) [])
                        (nth t (basis one_photon) []) (waves one_photon)
             = if (t =? k)%nat then 1%R else 0%R).
  { intros k t Hk Ht. cbn [basis one_photon length] in Hk, Ht.
    assert (k = 0%nat) by lia. assert (t = 0%nat) by lia. subst k t.
    unfold State.ovlp, State.ovlpH. cbn [basis waves one_photon nth length seq
                                          fold_left Nat.eqb].
    rewrite trivOvlF_same. ring. }
  split; [exact H1|]. split; [exact H2|]. split; [exact H3|].
  exact (proj1 (proj2 (addBasisElem_gram_schmidt trivOvlF wf one_photon
                         H1 H2 H3))).
Defined.

(** ** [addPhoton] and the norm *)

(** The sum of the squares of a vector, as [addBasisElem] forms it. *)
Definition sq_sum (l : list R) : R :=
  fold_left (fun r a => (r + Rabs a ^ 2)%R) l 0%R.

Lemma sq_sum_from (l : list R) (r : R) :
  fold_left (fun r a => (r + Rabs a ^ 2)%R) l r = (r + sq_sum l)%R.
Proof.
  unfold sq_sum. revert r.
  induction l as [|a l IH]; intros r; simpl; [ring|].
  rewrite IH, (IH (0 + _)%R). ring.
Qed.

Lemma sq_sum_cons (a : R) (l : list R) :
  sq_sum (a :: l) = (Rabs a ^ 2 + sq_sum l)%R.
Proof. unfold sq_sum at 1. simpl. rewrite sq_sum_from. ring. Qed.

Lemma sq_sum_nonneg (l : list R) : (0 <= sq_sum l)%R.
Proof.
  induction l as [|a l IH]; [unfold sq_sum; simpl; lra|].
  rewrite sq_sum_cons. pose proof (pow2_ge_0 (Rabs a)). lra.
Qed.

Lemma sq_sum_zero (l : list R) :
  sq_sum l = 0%R -> forall i, nth i l 0%R = 0%R.
Proof.
  induction l as [|a l IH]; intros H i; [destruct i; reflexivity|].
  rewrite sq_sum_cons in H.
  pose proof (pow2_ge_0 (Rabs a)). pose proof (sq_sum_nonneg l).
  assert (Ha : (Rabs a ^ 2 = 0)%R) by lra.
  assert (Hl : sq_sum l = 0%R) by lra.
  destruct i as [|i]; cbn [nth]; [|now apply IH].
  assert (Rabs a = 0%R).
  { destruct (Req_dec (Rabs a) 0) as [E|E]; [exact E|].
    exfalso. apply (pow_nonzero _ 2) in E. contradiction. }
  destruct (Req_dec a 0) as [E|E]; [exact E|].
  apply Rabs_no_R0 in E. contradiction.
Qed.

Lemma sq_sum_div (s : R) (l : list R) :
  sq_sum (map (fun x => (x / s)%R) l) = ((/ s) ^ 2 * sq_sum l)%R.
Proof.
  induction l as [|a l IH]; [unfold sq_sum; simpl; ring|].
  cbn [map]. rewrite !sq_sum_cons, IH. unfold Rdiv.
  rewrite Rabs_mult, <- !Rsqr_pow2, Rsqr_mult, <- !Rsqr_abs. unfold Rsqr. ring.
Qed.

Lemma sq_sum_rsum (l : list R) :
  sq_sum l = fold_left (fun r i => (r + Rabs (nth i l 0) ^ 2)%R)
                       (seq 0 (length l)) 0%R.
Proof.
  induction l as [|a l IH] using rev_ind; [reflexivity|].
  rewrite length_app. cbn [length]. rewrite Nat.add_1_r, seq_S, fold_left_app.
  cbn [fold_left Nat.add]. rewrite app_nth2 by lia. rewrite Nat.sub_diag.
  cbn [nth]. unfold sq_sum. rewrite fold_left_app. cbn [fold_left].
  fold (sq_sum l). rewrite IH. f_equal.
  apply fold_left_ext_in. intros r i Hi. apply in_seq in Hi.
  rewrite app_nth1 by lia. reflexivity.
Qed.

(** The vector [addBasisElem] returns has norm 1, unless it is zero. *)
Lemma decomp_normalised (get_ovlp : WF -> WF -> R) (wf : WF) (S : State) :
  (exists i, nth i (snd (State.addBasisElem get_ovlp wf S)) 0%R <> 0%R) ->
  sq_sum (snd (State.addBasisElem get_ovlp wf S)) = 1%R.
Proof.
  unfold State.addBasisElem.
  destruct (fold_left (State.gram_step get_ovlp wf (waves S)) (basis S)
                      (repeat 0%R (length (basis S)), [])) as [bNew decomp].
  cbn [snd].
  match goal with
  | |- context [Reqb (fold_left _ ?d 0%R) 0] => set (d0 := d)
  end.
  fold (sq_sum d0). intros (i & Hi).
  destruct (Reqb (sq_sum d0) 0) eqn:E; cbn [negb] in *.
  - apply Reqb_true in E. exfalso. apply Hi. now apply sq_sum_zero.
  - apply Reqb_false in E. rewrite sq_sum_div.
    pose proof (sq_sum_nonneg d0) as P.
    assert (Q : (sqrt (sq_sum d0) * sqrt (sq_sum d0))%R = sq_sum d0)
      by (apply sqrt_sqrt; exact P).
    assert (Z : (0 < sqrt (sq_sum d0))%R) by (apply sqrt_lt_R0; lra).
    rewrite <- Q at 2. field. lra.
Qed.

(** Terms stored under distinct keys that the container does not hold:
    their squares add up. *)
Lemma sum_squares_fold_fresh (L : list (Key * R)) (acc : FlatMap.t Key R) :
  FlatMap.sorted key_cmp acc ->
  NoDup (map fst L) ->
  (forall x, In x L -> FlatMap.find key_cmp (fst x) acc = None) ->
  sum_squares (fold_left (fun out x => FlatMap.insert key_cmp (fst x) (snd x) out)
                         L acc)
  = (sum_squares acc + sum_squares L)%R.
Proof.
  revert acc. induction L as [|x L IH]; intros acc Hs Hnd Hf; cbn [fold_left].
  - unfold sum_squares at 3. simpl. ring.
  - cbn [map] in Hnd. inversion Hnd as [|? ? Hx HL]; subst.
    rewrite IH.
    + unfold FlatMap.insert.
      rewrite sum_squares_upsert_fresh by (apply Hf; now left).
      rewrite (sum_squares_cons x). ring.
    + now apply (FlatMap.upsert_sorted key_cmp).
    + exact HL.
    + intros y Hy. unfold FlatMap.insert.
      rewrite (FlatMap.find_upsert key_cmp) by exact Hs.
      destruct (key_cmp (fst y) (fst x)) eqn:C;
        try (apply Hf; now right).
      apply cmp_eq in C. exfalso. apply Hx. rewrite <- C. now apply in_map.
Qed.

Lemma fold_left_flat_map {A B C} (f : A -> C -> A) (h : B -> list C)
    (l : list B) (a : A) :
  fold_left f (flat_map h l) a
  = fold_left (fun a x => fold_left f (h x) a) l a.
Proof.
  revert a. induction l as [|x l IH]; intros a; cbn [flat_map fold_left];
    [reflexivity|].
  now rewrite fold_left_app, IH.
Qed.

(** The terms [addPhoton] stores for a new wave function. *)
Definition spread (mode num : Z) (d : list R) (p : FlatMap.t Key R)
    : list (Key * R) :=
  flat_map (fun it =>
              map (fun i => (Key.addEnd mode (Z.of_nat i) num (fst it),
                             (snd it * nth i d 0)%R))
                  (seq 0 (length d)))
           p.

Lemma sum_squares_spread_one (mode num : Z) (d : list R) (it : Key * R)
    (m : nat) :
  sum_squares (map (fun i => (Key.addEnd mode (Z.of_nat i) num (fst it),
                              (snd it * nth i d 0)%R)) (seq 0 m))
  = (Rabs (snd it) ^ 2
     * fold_left (fun r i => (r + Rabs (nth i d 0) ^ 2)%R) (seq 0 m) 0)%R.
Proof.
  induction m as [|m IH]; [unfold sum_squares; simpl; ring|].
  rewrite seq_S, map_app, sum_squares_app, IH, fold_left_app.
  cbn [map fold_left Nat.add]. rewrite sum_squares_cons. cbn [snd].
  unfold sum_squares at 1. cbn [fold_left].
  rewrite Rabs_mult, <- !Rsqr_pow2, Rsqr_mult. unfold Rsqr. ring.
Qed.

Lemma sum_squares_spread (mode num : Z) (d : list R) (p : FlatMap.t Key R) :
  sum_squares (spread mode num d p) = (sum_squares p * sq_sum d)%R.
Proof.
  unfold spread. induction p as [|it p IH]; cbn [flat_map].
  - unfold sum_squares. simpl. ring.
  - rewrite sum_squares_app, IH, sum_squares_spread_one, sum_squares_cons.
    rewrite <- sq_sum_rsum. ring.
Qed.

(** A key without the spatial mode [mode], with a photon added at the
    end: the key and the distinguishability mode can be read off. *)
Lemma addEnd_inj (mode num : Z) (i1 i2 : Z) (k1 k2 : Key) :
  FlatMap.sorted mode_cmp k1 -> FlatMap.sorted mode_cmp k2 ->
  (forall e, In e k1 -> fst (fst e) <> mode) ->
  (forall e, In e k2 -> fst (fst e) <> mode) ->
  Key.addEnd mode i1 num k1 = Key.addEnd mode i2 num k2 ->
  i1 = i2 /\ k1 = k2.
Proof.
  intros S1 S2 F1 F2 E.
  assert (N : forall k : Key, (forall e, In e k -> fst (fst e) <> mode) ->
                        forall i, FlatMap.find mode_cmp (mode, i) k = None).
  { intros k Fk i. apply (FlatMap.notin_find_None mode_cmp). intros Hin.
    unfold FlatMap.keys in Hin. apply in_map_iff in Hin.
    destruct Hin as (e & Ee & He). apply (Fk e He). now rewrite Ee. }
  assert (F : forall x, FlatMap.find mode_cmp x (Key.addEnd mode i1 num k1)
                        = FlatMap.find mode_cmp x (Key.addEnd mode i2 num k2))
    by (intros x; now rewrite E).
  unfold Key.addEnd, FlatMap.insert_or_assign in F.
  assert (Ei : i1 = i2).
  { specialize (F (mode, i1)).
    rewrite !(FlatMap.find_upsert mode_cmp) in F by assumption.
    rewrite cmp_refl, (N k1 F1) in F.
    destruct (mode_cmp (mode, i1) (mode, i2)) eqn:C.
    - apply cmp_eq in C. congruence.
    - rewrite (N k2 F2) in F. discriminate.
    - rewrite (N k2 F2) in F. discriminate. }
  split; [exact Ei|]. subst i2.
  apply (FlatMap.sorted_ext mode_cmp); auto.
  intros x. specialize (F x).
  rewrite !(FlatMap.find_upsert mode_cmp) in F by assumption.
  destruct (mode_cmp x (mode, i1)) eqn:C; try exact F.
  apply cmp_eq in C. subst x. now rewrite (N k1 F1), (N k2 F2).
Qed.

Lemma spread_keys_NoDup (mode num : Z) (d : list R) (p : FlatMap.t Key R) :
  FlatMap.sorted key_cmp p ->
  (forall it, In it p -> FlatMap.sorted mode_cmp (fst it)) ->
  (forall it, In it p -> forall e, In e (fst it) -> fst (fst e) <> mode) ->
  NoDup (map fst (spread mode num d p)).
Proof.
  intros Hs Hk Hf. unfold spread.
  induction p as [|it p IH]; cbn [flat_map map]; [constructor|].
  rewrite map_app. apply NoDup_app.
  - rewrite map_map. cbn [fst].
    apply (NoDup_map_on (fun i => Key.addEnd mode (Z.of_nat i) num (fst it))).
    + apply seq_NoDup.
    + intros i1 i2 _ _ E.
      apply addEnd_inj in E;
        try (apply Hk; now left); try (apply Hf; now left).
      destruct E as [E _]. lia.
  - apply IH.
    + exact (FlatMap.sorted_tail key_cmp Hs).
    + intros x Hx. apply Hk. now right.
    + intros x Hx. apply Hf. now right.
  - intros K H1 H2. rewrite map_map in H1. cbn [fst] in H1.
    apply in_map_iff in H1. destruct H1 as (i1 & <- & _).
    apply in_map_iff in H2. destruct H2 as (y & Ey & Hy).
    apply in_flat_map in Hy. destruct Hy as (it' & Hit' & Hy).
    apply in_map_iff in Hy. destruct Hy as (i2 & <- & _). cbn [fst] in Ey.
    apply addEnd_inj in Ey;
      try (apply Hk; auto; now left); try (apply Hf; auto; now left);
      try (apply Hk; now right); try (apply Hf; now right).
    destruct Ey as [_ Ey].
    pose proof (FlatMap.sorted_head_lt key_cmp Hs Hit') as L.
    unfold FlatMap.key_lt in L. rewrite Ey in L.
    now apply (cmp_lt_irrefl key_cmp) in L.
Qed.

(** X28.  [addPhoton] leaves the norm of a state that holds terms.  Only
    when the wave function is stored already must the keys hold no entry
    without photons; only when it is new must no key hold the spatial mode
    the photon goes to, and the decomposition of the wave function not be
    zero.  So a new wave function keeps the norm also on a state whose
    keys hold entries without photons, as [State::loss] leaves them. *)
Theorem addPhoton_norm (get_ovlp : WF -> WF -> R) (wf : WF) (mode num : Z)
    (S : State) :
  par S <> [] ->
  FlatMap.sorted key_cmp (par S) ->
  (forall it, In it (par S) -> FlatMap.sorted mode_cmp (fst it)) ->
  (forall index, State.find_wave get_ovlp wf (waves S) 0 = Some index ->
   forall it, In it (par S) -> forall e, In e (fst it) -> snd e <> 0%Z) ->
  (State.find_wave get_ovlp wf (waves S) 0 = None ->
   (forall it, In it (par S) -> forall e, In e (fst it) -> fst (fst e) <> mode)
   /\ exists i, nth i (snd (State.addBasisElem get_ovlp wf S)) 0%R <> 0%R) ->
  State.norm (State.addPhoton get_ovlp wf mode num S) = State.norm S.
Proof.
  intros Hne Hs Hk Hold Hnew.
  assert (G : sum_squares (par (State.addPhoton get_ovlp wf mode num S))
              = sum_squares (par S)).
  { unfold State.addPhoton. destruct (par S) as [|t p] eqn:Ep; [contradiction|].
    rewrite <- Ep. rewrite <- Ep in Hs, Hk, Hold, Hnew. clear Hne.
    destruct (State.find_wave get_ovlp wf (waves S) 0) as [index|].
    - pose proof (Hold index eq_refl) as Hp. cbn [par].
      apply (sum_squares_fold_insert (Key.incr mode index num) (par S) Hs).
      intros k1 k2 H1 H2 E. unfold FlatMap.keys in H1, H2.
      apply in_map_iff in H1, H2.
      destruct H1 as (x1 & <- & H1). destruct H2 as (x2 & <- & H2).
      apply (incr_inj mode index num); auto.
      + intros F. apply (FlatMap.find_In mode_cmp) in F.
        exact (Hp x1 H1 _ F eq_refl).
      + intros F. apply (FlatMap.find_In mode_cmp) in F.
        exact (Hp x2 H2 _ F eq_refl).
    - destruct (Hnew eq_refl) as [Hf Hd].
      pose proof (decomp_normalised get_ovlp wf S Hd) as N.
      destruct (State.addBasisElem get_ovlp wf S) as [S1 decomp].
      cbn [snd] in N. cbn [par].
      assert (E : fold_left
                    (fun SNew it =>
                       fold_left
                         (fun SNew i =>
                            FlatMap.insert key_cmp
                              (Key.addEnd mode (Z.of_nat i) num (fst it))
                              (snd it * nth i decomp 0)%R SNew)
                         (seq 0 (length decomp)) SNew)
                    (par S) []
                  = fold_left (fun out x => FlatMap.insert key_cmp (fst x) (snd x) out)
                              (spread mode num decomp (par S)) []).
      { unfold spread. rewrite fold_left_flat_map.
        apply fold_left_ext_in. intros acc it _.
        now rewrite fold_left_map. }
      rewrite E, sum_squares_fold_fresh.
      + rewrite sum_squares_spread, N. unfold sum_squares at 1. simpl. ring.
      + apply FlatMap.sorted_nil.
      + now apply spread_keys_NoDup.
      + intros x _. reflexivity. }
  unfold State.norm, State.norm_par.
  fold (sum_squares (par (State.addPhoton get_ovlp wf mode num S))).
  fold (sum_squares (par S)). now rewrite G.
Qed.

(** The state that [State::loss] on mode 0 leaves of one photon: the pair
    (0, 0) is still held, without photons. *)
Definition lost_photon : State :=
  mkState [([((0, 0), 0); ((1, 0), 1)]%Z, 1%R)] [[0%R; 0%R]] [[1%R]]
          (/ 10 ^ 9)%R 2%Z.

Lemma addPhoton_norm_witness :
  let wf := [1%R; 0%R] in
  par lost_photon <> [] /\
  FlatMap.sorted key_cmp (par lost_photon) /\
  (forall it, In it (par lost_photon) -> FlatMap.sorted mode_cmp (fst it)) /\
  (forall index,
     State.find_wave trivOvlF wf (waves lost_photon) 0 = Some index ->
     forall it, In it (par lost_photon) ->
                forall e, In e (fst it) -> snd e <> 0%Z) /\
  (State.find_wave trivOvlF wf (waves lost_photon) 0 = None ->
   (forall it, In it (par lost_photon) ->
      forall e, In e (fst it) -> fst (fst e) <> 2%Z)
   /\ exists i, nth i (snd (State.addBasisElem trivOvlF wf lost_photon)) 0%R
                <> 0%R) /\
  ~ keys_positive (par lost_photon) /\
  State.norm (State.addPhoton trivOvlF wf 2 1 lost_photon)
  = State.norm lost_photon.
Proof.
  intros wf.
  assert (H1 : par lost_photon <> []) by discriminate.
  assert (H2 : FlatMap.sorted key_cmp (par lost_photon)).
  { unfold FlatMap.sorted. simpl. repeat constructor. }
  assert (H3 : forall it, In it (par lost_photon) ->
                          FlatMap.sorted mode_cmp (fst it)).
  { intros it [<-|[]]. unfold FlatMap.sorted. simpl. repeat constructor. }
  assert (N : State.find_wave trivOvlF wf (waves lost_photon) 0 = None).
  { cbn [State.find_wave waves lost_photon].
    replace (Reqb (Rabs (trivOvlF wf [0%R; 0%R])) 1) with false; [reflexivity|].
    symmetry. apply Reqb_false. rewrite trivOvlF_other by (simpl; lra).
    change (nth 1 wf 0%R) with 0%R. rewrite Rabs_R0. lra. }
  assert (H4 : forall index,
             State.find_wave trivOvlF wf (waves lost_photon) 0 = Some index ->
             forall it, In it (par lost_photon) ->
                        forall e, In e (fst it) -> snd e <> 0%Z).
  { intros index E. rewrite N in E. discriminate. }
  assert (H5 : State.find_wave trivOvlF wf (waves lost_photon) 0 = None ->
               (forall it, In it (par lost_photon) ->
                  forall e, In e (fst it) -> fst (fst e) <> 2%Z)
               /\ exists i,
                    nth i (snd (State.addBasisElem trivOvlF wf lost_photon)) 0%R
                    <> 0%R).
  { intros _. split.
    - intros it [<-|[]] e [<-|[<-|[]]]; simpl; lia.
    - exists 1%nat.
      rewrite (addBasisElem_orthogonal trivOvlF wf lost_photon).
      + simpl. lra.
      + reflexivity.
      + intros b [<-|[]]. simpl. lia.
      + intros w [<-|[]]. split; rewrite trivOvlF_other; simpl; auto; lra.
      + rewrite trivOvlF_same. lra. }
  split; [exact H1|]. split; [exact H2|]. split; [exact H3|].
  split; [exact H4|]. split; [exact H5|]. split.
  - intros P.
    specialize (P _ (or_introl eq_refl) ((0, 0), 0)%Z (or_introl eq_refl)).
    simpl in P. lia.
  - exact (addPhoton_norm trivOvlF wf 2 1 lost_photon H1 H2 H3 H4 H5).
Defined.

(** ** [State::collapse] and [State::notEmpty] *)

(** A key with the photons of a term of [p], spatial mode by spatial
    mode. *)
Definition same_photons (p : FlatMap.t Key R) (K : Key) : Prop :=
  exists it, In it p /\
    forall m, spatial_occupation m K = spatial_occupation m (fst it).

Lemma collapse_terms_photons (f : FlatMap.t Z Z) (p0 : FlatMap.t Key R)
    (l : FlatMap.t Key R) (acc q : FlatMap.t Key R) :
  (forall it, In it l -> In it p0) ->
  (forall y, In y acc -> same_photons p0 (fst y)) ->
  fold_left (fun acc it =>
               match acc with
               | None => None
               | Some p =>
                   match Key.collapse f (snd it) (fst it) with
                   | None => None
                   | Some (K2, v) =>
                       Some (FlatMap.accumulate key_cmp Rplus K2 v p)
                   end
               end) l (Some acc) = Some q ->
  forall y, In y q -> same_photons p0 (fst y).
Proof.
  revert acc. induction l as [|it l IH]; intros acc Hl Hacc E; cbn [fold_left] in E.
  - inversion E. now subst q.
  - destruct (Key.collapse f (snd it) (fst it)) as [[K2 v]|] eqn:C.
    + refine (IH _ (fun x Hx => Hl x (or_intror Hx)) _ E).
      unfold FlatMap.accumulate.
      apply (upsert_keys key_cmp (same_photons p0)); [exact Hacc|].
      exists it. split; [apply Hl; now left|].
      exact (proj2 (proj2 (proj2 (Key_collapse_cases f (snd it) (fst it))
                             K2 v C))).
    + exfalso. clear -E. induction l as [|x l IHl]; cbn [fold_left] in E;
        [discriminate|auto].
Qed.

(** X29.  When [State::collapse] returns, every term of the state holds,
    spatial mode by spatial mode, the photons of a term of the state
    before: the distinguishability modes are mapped, no photon is moved,
    lost or made. *)
Theorem State_collapse_photons (K : Key) (S S' : State) :
  State.collapse K S = Some S' ->
  forall y, In y (par S') -> same_photons (par S) (fst y).
Proof.
  unfold State.collapse. intros E.
  match type of E with
  | match ?t with _ => _ end = _ => destruct t as [q|] eqn:F; [|discriminate]
  end.
  inversion E. subst S'. cbn [par State.set_par].
  apply (collapse_terms_photons (State.collapse_map K) (par S) (par S) [] q);
    auto.
  intros y [].
Qed.

Lemma State_collapse_photons_witness :
  let K := Key.make 0 0 1 in
  let S' :=
    State.set_par
      [([((0, 0), 1)]%Z,
        (1 * (Key.factor [((0, 0), 1)]%Z / Key.factor [((0, 0), 1)]%Z))%R)]
      one_photon in
  State.collapse K one_photon = Some S' /\
  forall y, In y (par S') -> same_photons (par one_photon) (fst y).
Proof.
  intros K S'.
  assert (H : State.collapse K one_photon = Some S') by reflexivity.
  split; [exact H|].
  exact (State_collapse_photons K one_photon S' H).
Defined.

(** X30.  [State::notEmpty] keeps the terms whose key passes
    [Key::notEmpty], unchanged and in order, and normalises what is left:
    the result has norm at most 1. *)
Theorem State_notEmpty_spec (allModes : list (list Z)) (S : State) :
  FlatMap.sorted key_cmp (par S) ->
  State.notEmpty allModes S
  = State.normalise
      (State.set_par
         (filter (fun it => Key.notEmpty allModes (fst it)) (par S)) S) /\
  (State.norm (State.notEmpty allModes S) <= 1)%R.
Proof.
  intros Hs.
  assert (E : State.notEmpty allModes S
              = State.normalise
                  (State.set_par
                     (filter (fun it => Key.notEmpty allModes (fst it)) (par S))
                     S)).
  { unfold State.notEmpty, FlatMap.insert.
    now rewrite (copy_filter key_cmp) by exact Hs. }
  split; [exact E|]. rewrite E.
  apply normalise_norm_cases. cbn [par State.set_par].
  now apply (FlatMap.filter_sorted key_cmp).
Qed.

Lemma State_notEmpty_spec_witness :
  FlatMap.sorted key_cmp (par one_photon) /\
  (State.norm (State.notEmpty [] one_photon) <= 1)%R.
Proof.
  split; [exact one_photon_sorted|].
  exact (proj2 (State_notEmpty_spec [] one_photon one_photon_sorted)).
Defined.
